(** * Geodesic shortest paths on a triangulated surface

    A shallow embedding of [CGAL::Polyhedron_shortest_path]
    (Polyhedron_shortest_path/Polyhedron_shortest_path.h): the cone tree,
    the event queue with lazy cancellation, the per-halfedge occupier
    arbitration, the Xin-Wang distance filter and the queries.

    The class is a template over a traits class (number type and geometric
    kernel) and over a halfedge mesh.  Both are kept abstract here: the
    kernel is the type class [Traits], the mesh is the record [Polyhedron].
    Raw pointers into the C++ heap are addresses into two arenas (cone tree
    nodes, expansion events); every vector access, pointer dereference,
    assertion and [delete] is explicit and can fault. *)

From Stdlib Require Import ZArith Lia Bool.
From stdpp Require Import base tactics option list sorting.

Open Scope nat_scope.

(** ** Outcomes of running a member function *)

Inductive Fault : Type :=
  | OutOfBounds        (* std::vector::operator[] past size() *)
  | NullDereference    (* -> through a NULL pointer *)
  | NullQueryNode      (* -> through the NULL node a query looked up *)
  | WildPointer        (* -> through an address that was never allocated *)
  | UseAfterFree       (* -> through a deleted event *)
  | DoubleFree         (* delete of a deleted event *)
  | EmptyContainer     (* top()/back() of an empty container *)
  | AssertionFailed.   (* assert(...) *)

Inductive Result (A : Type) : Type :=
  | Ok (a : A)
  | Failed (f : Fault)
  | OutOfFuel.

Arguments Ok {A} a.
Arguments Failed {A} f.
Arguments OutOfFuel {A}.

(** ** The halfedge mesh (Mesh Interface) *)

Abbreviation vertex_descriptor := nat (only parsing).
Abbreviation halfedge_descriptor := nat (only parsing).
Abbreviation face_descriptor := nat (only parsing).

(** [face h = None] is [GraphTraits::null_face()]. *)
Record Polyhedron : Type := {
  vertices : list vertex_descriptor;
  halfedges : list halfedge_descriptor;
  faces : list face_descriptor;
  next : halfedge_descriptor -> halfedge_descriptor;
  prev : halfedge_descriptor -> halfedge_descriptor;
  opposite : halfedge_descriptor -> halfedge_descriptor;
  source : halfedge_descriptor -> vertex_descriptor;
  target : halfedge_descriptor -> vertex_descriptor;
  face : halfedge_descriptor -> option face_descriptor;
  halfedge_of_vertex : vertex_descriptor -> halfedge_descriptor;
  halfedge_of_face : face_descriptor -> halfedge_descriptor;
  (** The default-constructed halfedge descriptor. *)
  null_halfedge : halfedge_descriptor;
}.

Definition num_vertices (g : Polyhedron) : nat := length (vertices g).
Definition num_halfedges (g : Polyhedron) : nat := length (halfedges g).
Definition num_faces (g : Polyhedron) : nat := length (faces g).

(** ** The number type [Traits::FT] *)

Class Field_type : Type := {
  FT : Type;
  (** [FT(0.0)] *)
  FT_zero : FT;
  (** The value of a default-initialised [FT] ([FT closestDistance;]):
      zero for CGAL's number classes, indeterminate for built-in floating
      types. *)
  FT_default : FT;
  FT_plus : FT -> FT -> FT;
  FT_mult : FT -> FT -> FT;
  (** [operator<] *)
  FT_less : FT -> FT -> bool;
  (** [CGAL::sqrt] *)
  FT_sqrt : FT -> FT;
}.

Section Number_type.
Context {NT : Field_type}.

(** [a > b] and [a >= b], read through [operator<] as for an ordered
    field. *)
Definition FT_greater (a b : FT) : bool := FT_less b a.
Definition FT_greater_equal (a b : FT) : bool := negb (FT_less a b).

(** [std::min(a, b)]: [(b < a) ? b : a]. *)
Definition FT_min (a b : FT) : FT := if FT_less b a then b else a.

(** *** Kernel objects *)

Definition Point_2 : Type := FT * FT.
Definition Segment_2 : Type := Point_2 * Point_2.
Definition Triangle_2 : Type := Point_2 * Point_2 * Point_2.
(** A ray is its source and a second point on it; its supporting line is
    kept as the same pair of points. *)
Definition Ray_2 : Type := Point_2 * Point_2.
Definition Line_2 : Type := Point_2 * Point_2.
Definition Barycentric_coordinate : Type := FT * FT * FT.

Definition ORIGIN : Point_2 := (FT_zero, FT_zero).

(** [p[i]], [s[i]], [t[i]], [b[i]]: CGAL reduces the index modulo the
    number of components. *)
Definition point_coord (p : Point_2) (i : nat) : FT :=
  match i mod 2 with 0 => fst p | _ => snd p end.
Definition segment_vertex (s : Segment_2) (i : nat) : Point_2 :=
  match i mod 2 with 0 => fst s | _ => snd s end.
Definition triangle_vertex (t : Triangle_2) (i : nat) : Point_2 :=
  match i mod 3 with
  | 0 => fst (fst t)
  | 1 => snd (fst t)
  | _ => snd t
  end.
Definition barycentric_weight (b : Barycentric_coordinate) (i : nat) : FT :=
  match i mod 3 with
  | 0 => fst (fst b)
  | 1 => snd (fst b)
  | _ => snd b
  end.

Definition supporting_line (r : Ray_2) : Line_2 := r.

(** The result of [Intersect_2]: a [boost::variant] of a point and a
    segment inside an optional. *)
Inductive Intersection_2 : Type :=
  | Intersection_point (p : Point_2)
  | Intersection_segment (s : Segment_2).
End Number_type.

(** [CGAL::Comparison_result] *)
Inductive Comparison_result : Type :=
  | SMALLER
  | EQUAL
  | LARGER.

Global Instance Comparison_result_eq_dec : EqDecision Comparison_result.
Proof. solve_decision. Defined.

(** [CGAL::internal::Barycentric_coordinate_type] *)
Inductive Barycentric_coordinate_type : Type :=
  | BARYCENTRIC_COORDINATE_INTERNAL
  | BARYCENTRIC_COORDINATE_EDGE
  | BARYCENTRIC_COORDINATE_VERTEX
  | BARYCENTRIC_COORDINATE_EXTERNAL
  | BARYCENTRIC_COORDINATE_INVALID.

(** ** The geometric traits (Geometry Kernel Interface) *)

Class Traits {NT : Field_type} : Type := {
  Point_3 : Type;
  compute_squared_distance_2 : Point_2 -> Point_2 -> FT;
  project_triangle_3_to_triangle_2 :
    Point_3 * Point_3 * Point_3 -> Triangle_2;
  flatten_triangle_3_along_segment_2 :
    Point_3 * Point_3 * Point_3 -> nat -> Segment_2 -> Triangle_2;
  construct_triangle_location_2 :
    Triangle_2 -> Barycentric_coordinate -> Point_2;
  intersect_2 : Segment_2 -> Ray_2 -> option Intersection_2;
  intersect_2_line : Segment_2 -> Line_2 -> option Intersection_2;
  parameteric_distance_along_segment_2 : Point_2 -> Point_2 -> Point_2 -> FT;
  compare_relative_intersection_along_segment_2 :
    Segment_2 -> Line_2 -> Segment_2 -> Line_2 -> Comparison_result;
  (** [is_saddle_vertex_object()(v, polyhedron, vertexPointMap)] *)
  is_saddle_vertex_object :
    vertex_descriptor -> Polyhedron -> (vertex_descriptor -> Point_3) -> bool;
  (** [CGAL::internal::classify_barycentric_coordinate(location,
      associatedEdge)] (Barycentric.h is not part of the sources): the kind
      of the location and the index written to [associatedEdge]. *)
  classify_barycentric_coordinate :
    Barycentric_coordinate -> Barycentric_coordinate_type * nat;
  (** [CGAL::internal::interpolate_points] on 2D points
      (misc_functions.h is not part of the sources). *)
  interpolate_points : Point_2 -> Point_2 -> FT -> Point_2;
}.

(** Cone_tree.h is not part of the sources.  What [Cone_tree_node] reads
    from its layout triangle and its window is kept abstract: which corners
    of the layout the entry segment, the image of the target vertex and the
    two child base segments are, and the orientation tests behind
    [has_left_side], [has_right_side] and [inside_window] (each reads the
    source image, the image of the target vertex where it has one, and the
    window). *)
Class Cone_tree_geometry {NT : Field_type} : Type := {
  layout_entry_segment : Triangle_2 -> Segment_2;
  layout_target_vertex_location : Triangle_2 -> Point_2;
  layout_left_child_base_segment : Triangle_2 -> Segment_2;
  layout_right_child_base_segment : Triangle_2 -> Segment_2;
  cone_has_left_side : Point_2 -> Point_2 -> Point_2 -> Point_2 -> bool;
  cone_has_right_side : Point_2 -> Point_2 -> Point_2 -> Point_2 -> bool;
  cone_inside_window : Point_2 -> Point_2 -> Point_2 -> Point_2 -> bool;
}.

(** ** Cone tree nodes and expansion events *)

(** Addresses into the two arenas; [None] is the NULL pointer. *)
Abbreviation node_ptr := nat (only parsing).
Abbreviation event_ptr := nat (only parsing).

Inductive Node_type : Type :=
  | ROOT
  | FACE_SOURCE
  | EDGE_SOURCE
  | VERTEX_SOURCE
  | INTERVAL.

Inductive Expansion_type : Type :=
  | LEFT_CHILD
  | RIGHT_CHILD
  | PSEUDO_SOURCE.

Global Instance Node_type_eq_dec : EqDecision Node_type.
Proof. solve_decision. Defined.

Global Instance Expansion_type_eq_dec : EqDecision Expansion_type.
Proof. solve_decision. Defined.

(** [std::pair<Cone_tree_node*, FT>] and
    [std::pair<face_descriptor, Barycentric_coordinate>] *)
Abbreviation Node_distance_pair := (option node_ptr * FT)%type.
Abbreviation Face_location_pair := (face_descriptor * Barycentric_coordinate)%type.

Section Shortest_path.
Context {NT : Field_type} {K : Traits}.

(** Modelled from the spec: [internal::Cone_tree_node] (Cone_tree.h is not
    part of the sources); the fields are the constructor's arguments, the
    links, and the three pending back-pointers of section 3. *)
Record Cone_tree_node : Type := {
  m_entryEdge : halfedge_descriptor;
  m_layoutFace : Triangle_2;
  m_sourceImage : Point_2;
  m_pseudoSourceDistance : FT;
  m_windowLeft : Point_2;
  m_windowRight : Point_2;
  m_nodeType : Node_type;
  m_level : nat;
  m_treeId : nat;
  m_parent : option node_ptr;
  m_leftChild : option node_ptr;
  m_rightChild : option node_ptr;
  m_middleChildren : list node_ptr;
  m_pendingLeftSubtree : option event_ptr;
  m_pendingRightSubtree : option event_ptr;
  m_pendingMiddleSubtree : option event_ptr;
}.

(** Modelled from the spec: [internal::Cone_expansion_event] (Cone_tree.h
    is not part of the sources), section 3 "Event". *)
Record Cone_expansion_event : Type := {
  m_parentNode : node_ptr;
  m_distanceEstimate : FT;
  m_type : Expansion_type;
  m_windowSegment : Segment_2;
  m_cancelled : bool;
}.


(** The data members of [Polyhedron_shortest_path] that change, and the
    heap: [node_arena] holds every node ever allocated with [new] (the
    class never deletes a node), [event_arena] every event, [None] once it
    was deleted. *)
Record Engine : Type := {
  m_vertexIsPseudoSource : list bool;
  m_vertexOccupiers : list Node_distance_pair;
  m_closestToVertices : list Node_distance_pair;
  m_rootNodes : list node_ptr;
  m_faceLocations : list Face_location_pair;
  m_faceOccupiers : list (list node_ptr);
  m_expansionPriqueue : list event_ptr;
  node_arena : list Cone_tree_node;
  event_arena : list (option Cone_expansion_event);
}.

(** *** Field updates *)

Definition with_vertexIsPseudoSource (x : list bool) (s : Engine) : Engine :=
  {| m_vertexIsPseudoSource := x;
     m_vertexOccupiers := m_vertexOccupiers s;
     m_closestToVertices := m_closestToVertices s;
     m_rootNodes := m_rootNodes s;
     m_faceLocations := m_faceLocations s;
     m_faceOccupiers := m_faceOccupiers s;
     m_expansionPriqueue := m_expansionPriqueue s;
     node_arena := node_arena s;
     event_arena := event_arena s |}.

Definition with_vertexOccupiers (x : list Node_distance_pair) (s : Engine) : Engine :=
  {| m_vertexIsPseudoSource := m_vertexIsPseudoSource s;
     m_vertexOccupiers := x;
     m_closestToVertices := m_closestToVertices s;
     m_rootNodes := m_rootNodes s;
     m_faceLocations := m_faceLocations s;
     m_faceOccupiers := m_faceOccupiers s;
     m_expansionPriqueue := m_expansionPriqueue s;
     node_arena := node_arena s;
     event_arena := event_arena s |}.

Definition with_closestToVertices (x : list Node_distance_pair) (s : Engine) : Engine :=
  {| m_vertexIsPseudoSource := m_vertexIsPseudoSource s;
     m_vertexOccupiers := m_vertexOccupiers s;
     m_closestToVertices := x;
     m_rootNodes := m_rootNodes s;
     m_faceLocations := m_faceLocations s;
     m_faceOccupiers := m_faceOccupiers s;
     m_expansionPriqueue := m_expansionPriqueue s;
     node_arena := node_arena s;
     event_arena := event_arena s |}.

Definition with_rootNodes (x : list node_ptr) (s : Engine) : Engine :=
  {| m_vertexIsPseudoSource := m_vertexIsPseudoSource s;
     m_vertexOccupiers := m_vertexOccupiers s;
     m_closestToVertices := m_closestToVertices s;
     m_rootNodes := x;
     m_faceLocations := m_faceLocations s;
     m_faceOccupiers := m_faceOccupiers s;
     m_expansionPriqueue := m_expansionPriqueue s;
     node_arena := node_arena s;
     event_arena := event_arena s |}.

Definition with_faceLocations (x : list Face_location_pair) (s : Engine) : Engine :=
  {| m_vertexIsPseudoSource := m_vertexIsPseudoSource s;
     m_vertexOccupiers := m_vertexOccupiers s;
     m_closestToVertices := m_closestToVertices s;
     m_rootNodes := m_rootNodes s;
     m_faceLocations := x;
     m_faceOccupiers := m_faceOccupiers s;
     m_expansionPriqueue := m_expansionPriqueue s;
     node_arena := node_arena s;
     event_arena := event_arena s |}.

Definition with_faceOccupiers (x : list (list node_ptr)) (s : Engine) : Engine :=
  {| m_vertexIsPseudoSource := m_vertexIsPseudoSource s;
     m_vertexOccupiers := m_vertexOccupiers s;
     m_closestToVertices := m_closestToVertices s;
     m_rootNodes := m_rootNodes s;
     m_faceLocations := m_faceLocations s;
     m_faceOccupiers := x;
     m_expansionPriqueue := m_expansionPriqueue s;
     node_arena := node_arena s;
     event_arena := event_arena s |}.

Definition with_expansionPriqueue (x : list event_ptr) (s : Engine) : Engine :=
  {| m_vertexIsPseudoSource := m_vertexIsPseudoSource s;
     m_vertexOccupiers := m_vertexOccupiers s;
     m_closestToVertices := m_closestToVertices s;
     m_rootNodes := m_rootNodes s;
     m_faceLocations := m_faceLocations s;
     m_faceOccupiers := m_faceOccupiers s;
     m_expansionPriqueue := x;
     node_arena := node_arena s;
     event_arena := event_arena s |}.

Definition with_node_arena (x : list Cone_tree_node) (s : Engine) : Engine :=
  {| m_vertexIsPseudoSource := m_vertexIsPseudoSource s;
     m_vertexOccupiers := m_vertexOccupiers s;
     m_closestToVertices := m_closestToVertices s;
     m_rootNodes := m_rootNodes s;
     m_faceLocations := m_faceLocations s;
     m_faceOccupiers := m_faceOccupiers s;
     m_expansionPriqueue := m_expansionPriqueue s;
     node_arena := x;
     event_arena := event_arena s |}.

Definition with_event_arena (x : list (option Cone_expansion_event)) (s : Engine) : Engine :=
  {| m_vertexIsPseudoSource := m_vertexIsPseudoSource s;
     m_vertexOccupiers := m_vertexOccupiers s;
     m_closestToVertices := m_closestToVertices s;
     m_rootNodes := m_rootNodes s;
     m_faceLocations := m_faceLocations s;
     m_faceOccupiers := m_faceOccupiers s;
     m_expansionPriqueue := m_expansionPriqueue s;
     node_arena := node_arena s;
     event_arena := x |}.

End Shortest_path.

(** ** The state-and-fault monad of the member functions *)

Section Monad.
Context {NT : Field_type} {K : Traits}.

Definition M (A : Type) : Type := Engine -> Result (A * Engine).

Definition ret {A : Type} (a : A) : M A := fun s => Ok (a, s).

Definition bind {A B : Type} (m : M A) (k : A -> M B) : M B :=
  fun s =>
    match m s with
    | Ok (a, s') => k a s'
    | Failed f => Failed f
    | OutOfFuel => OutOfFuel
    end.

Definition fault {A : Type} (f : Fault) : M A := fun _ => Failed f.
Definition out_of_fuel {A : Type} : M A := fun _ => OutOfFuel.
Definition gets {A : Type} (f : Engine -> A) : M A := fun s => Ok (f s, s).
Definition modify (f : Engine -> Engine) : M unit := fun s => Ok (tt, f s).
End Monad.

Notation "x <- m ;; k" := (bind m (fun x => k))
  (at level 100, m at next level, right associativity).
Notation "m ;;; k" := (bind m (fun _ => k))
  (at level 100, right associativity).

Section Heap.
Context {NT : Field_type} {K : Traits}.

(** [for (...) body] over a fixed range. *)
Fixpoint for_each {A : Type} (l : list A) (body : A -> M unit) : M unit :=
  match l with
  | [] => ret tt
  | x :: l' => body x ;;; for_each l' body
  end.

(** [when c m]: [if (c) m;] *)
Definition when (c : bool) (m : M unit) : M unit := if c then m else ret tt.

(** *** std::vector *)

(** [v[i]] as an rvalue. *)
Definition vector_read {A : Type} (v : Engine -> list A) (i : nat) : M A :=
  fun s =>
    match v s !! i with
    | Some x => Ok (x, s)
    | None => Failed OutOfBounds
    end.

(** [v[i] = x]. *)
Definition vector_write {A : Type} (v : Engine -> list A)
    (set : list A -> Engine -> Engine) (i : nat) (x : A) : M unit :=
  fun s =>
    if decide (i < length (v s)) then Ok (tt, set (<[i := x]> (v s)) s)
    else Failed OutOfBounds.

(** [v.resize(n)]: truncates, or appends value-initialised elements. *)
Definition vector_resize {A : Type} (n : nat) (x : A) (v : list A) : list A :=
  take n v ++ replicate (n - length v) x.

(** *** Cone tree nodes on the heap *)

(** [*p] for an address. *)
Definition deref_node (p : node_ptr) : M Cone_tree_node :=
  fun s =>
    match node_arena s !! p with
    | Some n => Ok (n, s)
    | None => Failed WildPointer
    end.

(** [*p] for a pointer that may be NULL. *)
Definition deref (p : option node_ptr) : M Cone_tree_node :=
  match p with
  | Some a => deref_node a
  | None => fault NullDereference
  end.

Definition update_node (p : node_ptr)
    (f : Cone_tree_node -> Cone_tree_node) : M unit :=
  n <- deref_node p ;;
  modify (fun s => with_node_arena (<[p := f n]> (node_arena s)) s).

(** [new Cone_tree_node(...)] *)
Definition new_node (n : Cone_tree_node) : M node_ptr :=
  fun s => Ok (length (node_arena s), with_node_arena (node_arena s ++ [n]) s).

(** *** Expansion events on the heap *)

Definition deref_event (e : event_ptr) : M Cone_expansion_event :=
  fun s =>
    match event_arena s !! e with
    | Some (Some ev) => Ok (ev, s)
    | Some None => Failed UseAfterFree
    | None => Failed WildPointer
    end.

(** [new Cone_expansion_event(...)] *)
Definition new_event (ev : Cone_expansion_event) : M event_ptr :=
  fun s =>
    Ok (length (event_arena s), with_event_arena (event_arena s ++ [Some ev]) s).

(** [delete event] *)
Definition delete_event (e : event_ptr) : M unit :=
  fun s =>
    match event_arena s !! e with
    | Some (Some _) => Ok (tt, with_event_arena (<[e := None]> (event_arena s)) s)
    | Some None => Failed DoubleFree
    | None => Failed WildPointer
    end.

Definition cancel (ev : Cone_expansion_event) : Cone_expansion_event :=
  {| m_parentNode := m_parentNode ev;
     m_distanceEstimate := m_distanceEstimate ev;
     m_type := m_type ev;
     m_windowSegment := m_windowSegment ev;
     m_cancelled := true |}.

(** [e->m_cancelled = true] *)
Definition set_cancelled (e : event_ptr) : M unit :=
  ev <- deref_event e ;;
  modify (fun s => with_event_arena (<[e := Some (cancel ev)]> (event_arena s)) s).

(** *** The mutable part of a node *)

Definition relink (n : Cone_tree_node) (level treeId : nat)
    (parent left right : option node_ptr) (middle : list node_ptr)
    (pl pr pm : option event_ptr) : Cone_tree_node :=
  {| m_entryEdge := m_entryEdge n;
     m_layoutFace := m_layoutFace n;
     m_sourceImage := m_sourceImage n;
     m_pseudoSourceDistance := m_pseudoSourceDistance n;
     m_windowLeft := m_windowLeft n;
     m_windowRight := m_windowRight n;
     m_nodeType := m_nodeType n;
     m_level := level;
     m_treeId := treeId;
     m_parent := parent;
     m_leftChild := left;
     m_rightChild := right;
     m_middleChildren := middle;
     m_pendingLeftSubtree := pl;
     m_pendingRightSubtree := pr;
     m_pendingMiddleSubtree := pm |}.

Definition with_leftChild (c : option node_ptr) (n : Cone_tree_node) :=
  relink n (m_level n) (m_treeId n) (m_parent n) c (m_rightChild n)
    (m_middleChildren n) (m_pendingLeftSubtree n) (m_pendingRightSubtree n)
    (m_pendingMiddleSubtree n).
Definition with_rightChild (c : option node_ptr) (n : Cone_tree_node) :=
  relink n (m_level n) (m_treeId n) (m_parent n) (m_leftChild n) c
    (m_middleChildren n) (m_pendingLeftSubtree n) (m_pendingRightSubtree n)
    (m_pendingMiddleSubtree n).
Definition with_middleChildren (l : list node_ptr) (n : Cone_tree_node) :=
  relink n (m_level n) (m_treeId n) (m_parent n) (m_leftChild n)
    (m_rightChild n) l (m_pendingLeftSubtree n) (m_pendingRightSubtree n)
    (m_pendingMiddleSubtree n).
Definition with_pendingLeftSubtree (e : option event_ptr) (n : Cone_tree_node) :=
  relink n (m_level n) (m_treeId n) (m_parent n) (m_leftChild n)
    (m_rightChild n) (m_middleChildren n) e (m_pendingRightSubtree n)
    (m_pendingMiddleSubtree n).
Definition with_pendingRightSubtree (e : option event_ptr) (n : Cone_tree_node) :=
  relink n (m_level n) (m_treeId n) (m_parent n) (m_leftChild n)
    (m_rightChild n) (m_middleChildren n) (m_pendingLeftSubtree n) e
    (m_pendingMiddleSubtree n).
Definition with_pendingMiddleSubtree (e : option event_ptr) (n : Cone_tree_node) :=
  relink n (m_level n) (m_treeId n) (m_parent n) (m_leftChild n)
    (m_rightChild n) (m_middleChildren n) (m_pendingLeftSubtree n)
    (m_pendingRightSubtree n) e.
(** Linking a child under [parent], itself the node [p]: the child takes
    its parent, its level (one hop further from the root) and its tree. *)
Definition on_child_link (parent : node_ptr) (p : Cone_tree_node)
    (n : Cone_tree_node) :=
  relink n (S (m_level p)) (m_treeId p) (Some parent) (m_leftChild n)
    (m_rightChild n) (m_middleChildren n) (m_pendingLeftSubtree n)
    (m_pendingRightSubtree n) (m_pendingMiddleSubtree n).
End Heap.

(** ** A kernel and two meshes to run the class on

    Integer coordinates, planar meshes: a triangle is projected by dropping
    its third coordinate, and unfolding a planar mesh moves nothing.
    Intersections are not computed, so windows are never clipped, and every
    orientation test answers yes. *)

Definition Z_field : Field_type :=
  {| FT := Z;
     FT_zero := 0%Z;
     FT_default := 0%Z;
     FT_plus := Z.add;
     FT_mult := Z.mul;
     FT_less := Z.ltb;
     FT_sqrt := Z.sqrt |}.

Definition planar_classify (b : Z * Z * Z) : Barycentric_coordinate_type * nat :=
  match b with
  | (b0, b1, b2) =>
      match Z.eqb b0 0, Z.eqb b1 0, Z.eqb b2 0 with
      | false, false, false => (BARYCENTRIC_COORDINATE_INTERNAL, 0)
      | true, false, false => (BARYCENTRIC_COORDINATE_EDGE, 1)
      | false, true, false => (BARYCENTRIC_COORDINATE_EDGE, 2)
      | false, false, true => (BARYCENTRIC_COORDINATE_EDGE, 0)
      | false, true, true => (BARYCENTRIC_COORDINATE_VERTEX, 0)
      | true, false, true => (BARYCENTRIC_COORDINATE_VERTEX, 1)
      | true, true, false => (BARYCENTRIC_COORDINATE_VERTEX, 2)
      | true, true, true => (BARYCENTRIC_COORDINATE_INVALID, 0)
      end
  end.

Definition planar_drop (p : Z * Z * Z) : Z * Z := (fst (fst p), snd (fst p)).

Definition planar_project (t : (Z * Z * Z) * (Z * Z * Z) * (Z * Z * Z))
    : (Z * Z) * (Z * Z) * (Z * Z) :=
  (planar_drop (fst (fst t)), planar_drop (snd (fst t)), planar_drop (snd t)).

Definition planar_squared_distance (p q : Z * Z) : Z :=
  ((fst p - fst q) * (fst p - fst q) + (snd p - snd q) * (snd p - snd q))%Z.

Definition planar_location (t : (Z * Z) * (Z * Z) * (Z * Z)) (b : Z * Z * Z)
    : Z * Z :=
  match t, b with
  | (p0, p1, p2), (b0, b1, b2) =>
      (b0 * fst p0 + b1 * fst p1 + b2 * fst p2,
       b0 * snd p0 + b1 * snd p1 + b2 * snd p2)%Z
  end.

Definition planar_compare (l1 l2 : (Z * Z) * (Z * Z)) : Comparison_result :=
  match Z.compare (fst (snd l1)) (fst (snd l2)) with
  | Lt => SMALLER
  | Eq => EQUAL
  | Gt => LARGER
  end.

Definition planar_interpolate (a b : Z * Z) (t : Z) : Z * Z :=
  (fst a + t * (fst b - fst a), snd a + t * (snd b - snd a))%Z.

Definition planar_traits : @Traits Z_field :=
  @Build_Traits Z_field
    (Z * Z * Z)%type
    planar_squared_distance
    planar_project
    (fun t _ _ => planar_project t)
    planar_location
    (fun _ _ => None)
    (fun _ _ => None)
    (fun _ _ _ => 0%Z)
    (fun _ l1 _ l2 => planar_compare l1 l2)
    (fun _ _ _ => false)
    planar_classify
    planar_interpolate.

(** The layout of a halfedge's triangle as [triangle_from_halfedge] lists
    it: source, target, third corner. *)
Definition planar_geometry : @Cone_tree_geometry Z_field :=
  @Build_Cone_tree_geometry Z_field
    (fun t : (Z * Z) * (Z * Z) * (Z * Z) => (fst (fst t), snd (fst t)))
    (fun t : (Z * Z) * (Z * Z) * (Z * Z) => snd t)
    (fun t : (Z * Z) * (Z * Z) * (Z * Z) => (snd (fst t), snd t))
    (fun t : (Z * Z) * (Z * Z) * (Z * Z) => (snd t, fst (fst t)))
    (fun _ _ _ _ => true)
    (fun _ _ _ _ => true)
    (fun _ _ _ _ => true).

(** One triangle with vertices 0, 1, 2: the halfedges 0, 1, 2 run around
    its face, the halfedges 3, 4, 5 are their opposites on the border. *)
Definition one_triangle : Polyhedron :=
  {| vertices := [0; 1; 2];
     halfedges := [0; 1; 2; 3; 4; 5];
     faces := [0];
     next := fun h =>
       match h with 0 => 1 | 1 => 2 | 2 => 0 | 3 => 5 | 4 => 3 | _ => 4 end;
     prev := fun h =>
       match h with 0 => 2 | 1 => 0 | 2 => 1 | 3 => 4 | 4 => 5 | _ => 3 end;
     opposite := fun h =>
       match h with 0 => 3 | 1 => 4 | 2 => 5 | 3 => 0 | 4 => 1 | _ => 2 end;
     source := fun h =>
       match h with 0 => 0 | 1 => 1 | 2 => 2 | 3 => 1 | 4 => 2 | _ => 0 end;
     target := fun h =>
       match h with 0 => 1 | 1 => 2 | 2 => 0 | 3 => 0 | 4 => 1 | _ => 2 end;
     face := fun h => match h with 0 | 1 | 2 => Some 0 | _ => None end;
     halfedge_of_vertex := fun v => match v with 0 => 2 | 1 => 0 | _ => 1 end;
     halfedge_of_face := fun _ => 0;
     null_halfedge := 6 |}.

Definition one_triangle_points (v : vertex_descriptor) : Z * Z * Z :=
  match v with
  | 0 => (0, 0, 0)%Z
  | 1 => (4, 0, 0)%Z
  | _ => (0, 3, 0)%Z
  end.

(** Two triangles that share nothing: vertices 0, 1, 2 with the halfedges
    0..5 as above, and vertices 3, 4, 5 with the halfedges 6..11. *)
Definition two_triangles : Polyhedron :=
  {| vertices := [0; 1; 2; 3; 4; 5];
     halfedges := [0; 1; 2; 3; 4; 5; 6; 7; 8; 9; 10; 11];
     faces := [0; 1];
     next := fun h =>
       if decide (h < 6) then next one_triangle h
       else 6 + next one_triangle (h - 6);
     prev := fun h =>
       if decide (h < 6) then prev one_triangle h
       else 6 + prev one_triangle (h - 6);
     opposite := fun h =>
       if decide (h < 6) then opposite one_triangle h
       else 6 + opposite one_triangle (h - 6);
     source := fun h =>
       if decide (h < 6) then source one_triangle h
       else 3 + source one_triangle (h - 6);
     target := fun h =>
       if decide (h < 6) then target one_triangle h
       else 3 + target one_triangle (h - 6);
     face := fun h =>
       if decide (h < 6) then face one_triangle h
       else match face one_triangle (h - 6) with
            | Some _ => Some 1
            | None => None
            end;
     halfedge_of_vertex := fun v =>
       if decide (v < 3) then halfedge_of_vertex one_triangle v
       else 6 + halfedge_of_vertex one_triangle (v - 3);
     halfedge_of_face := fun f => match f with 0 => 0 | _ => 6 end;
     null_halfedge := 12 |}.

Definition two_triangles_points (v : vertex_descriptor) : Z * Z * Z :=
  if decide (v < 3) then one_triangle_points v
  else match one_triangle_points (v - 3) with
       | (x, y, z) => (x + 10, y, z)%Z
       end.

(** ** The class [Polyhedron_shortest_path] *)

(** The rectangle 0 = (0,0), 1 = (4,0), 2 = (4,3), 3 = (0,3) cut along its
    diagonal 0-2: face 0 has the halfedges 0: 0->1, 1: 1->2, 2: 2->0, face 1
    the halfedges 3: 0->2, 4: 2->3, 5: 3->0; the halfedges 6..9 are the
    border. *)
Definition rectangle : Polyhedron :=
  {| vertices := [0; 1; 2; 3];
     halfedges := [0; 1; 2; 3; 4; 5; 6; 7; 8; 9];
     faces := [0; 1];
     next := fun h =>
       match h with
       | 0 => 1 | 1 => 2 | 2 => 0 | 3 => 4 | 4 => 5 | 5 => 3
       | 6 => 9 | 9 => 8 | 8 => 7 | _ => 6
       end;
     prev := fun h =>
       match h with
       | 0 => 2 | 1 => 0 | 2 => 1 | 3 => 5 | 4 => 3 | 5 => 4
       | 6 => 7 | 9 => 6 | 8 => 9 | _ => 8
       end;
     opposite := fun h =>
       match h with
       | 0 => 6 | 6 => 0 | 1 => 7 | 7 => 1 | 2 => 3 | 3 => 2
       | 4 => 8 | 8 => 4 | 5 => 9 | _ => 5
       end;
     source := fun h =>
       match h with
       | 0 => 0 | 1 => 1 | 2 => 2 | 3 => 0 | 4 => 2 | 5 => 3
       | 6 => 1 | 7 => 2 | 8 => 3 | _ => 0
       end;
     target := fun h =>
       match h with
       | 0 => 1 | 1 => 2 | 2 => 0 | 3 => 2 | 4 => 3 | 5 => 0
       | 6 => 0 | 7 => 1 | 8 => 2 | _ => 3
       end;
     face := fun h =>
       match h with
       | 0 | 1 | 2 => Some 0
       | 3 | 4 | 5 => Some 1
       | _ => None
       end;
     halfedge_of_vertex := fun v =>
       match v with 0 => 2 | 1 => 0 | 2 => 1 | _ => 4 end;
     halfedge_of_face := fun f => match f with 0 => 0 | _ => 3 end;
     null_halfedge := 10 |}.

Definition rectangle_points (v : vertex_descriptor) : Z * Z * Z :=
  match v with
  | 0 => (0, 0, 0)%Z
  | 1 => (4, 0, 0)%Z
  | 2 => (4, 3, 0)%Z
  | _ => (0, 3, 0)%Z
  end.

(** The members fixed by the constructor.  [m_debugOutput] is [false], as
    both constructors set it: the logging branches are left out. *)
Class Members {NT : Field_type} {K : Traits} : Type := {
  m_polyhedron : Polyhedron;
  m_vertexIndexMap : vertex_descriptor -> nat;
  m_halfedgeIndexMap : halfedge_descriptor -> nat;
  m_faceIndexMap : face_descriptor -> nat;
  m_vertexPointMap : vertex_descriptor -> Point_3;
}.

Section Polyhedron_shortest_path.
Context {NT : Field_type} {K : Traits} {CG : Cone_tree_geometry} {this : Members}.

(** *** Methods of [Cone_tree_node]

    Modelled from the spec: Cone_tree.h is not part of the sources; the
    accessors below follow section 3 ("Cone tree node", "Derived") and
    section 4.7. *)

Definition entry_edge (n : Cone_tree_node) : halfedge_descriptor := m_entryEdge n.
Definition layout_face (n : Cone_tree_node) : Triangle_2 := m_layoutFace n.
Definition source_image (n : Cone_tree_node) : Point_2 := m_sourceImage n.
Definition distance_from_source_to_root (n : Cone_tree_node) : FT :=
  m_pseudoSourceDistance n.
Definition window_left (n : Cone_tree_node) : Point_2 := m_windowLeft n.
Definition window_right (n : Cone_tree_node) : Point_2 := m_windowRight n.
Definition node_type (n : Cone_tree_node) : Node_type := m_nodeType n.
Definition level (n : Cone_tree_node) : nat := m_level n.
Definition tree_id (n : Cone_tree_node) : nat := m_treeId n.
Definition parent (n : Cone_tree_node) : option node_ptr := m_parent n.

Definition is_root_node (n : Cone_tree_node) : bool :=
  bool_decide (node_type n = ROOT).
Definition is_vertex_node (n : Cone_tree_node) : bool :=
  bool_decide (node_type n = VERTEX_SOURCE).
Definition is_source_node (n : Cone_tree_node) : bool :=
  bool_decide (node_type n = FACE_SOURCE)
  || bool_decide (node_type n = EDGE_SOURCE)
  || bool_decide (node_type n = VERTEX_SOURCE).

(** [current_face = face(entry_edge)] *)
Definition current_face (n : Cone_tree_node) : option face_descriptor :=
  face m_polyhedron (entry_edge n).
Definition is_null_face (n : Cone_tree_node) : bool :=
  bool_decide (current_face n = None).

(** [target_vertex = target(next(entry_edge))] *)
Definition target_vertex (n : Cone_tree_node) : vertex_descriptor :=
  target m_polyhedron (next m_polyhedron (entry_edge n)).
(** [left_child_edge = opposite(next(entry_edge))] *)
Definition left_child_edge (n : Cone_tree_node) : halfedge_descriptor :=
  opposite m_polyhedron (next m_polyhedron (entry_edge n)).
(** [right_child_edge = opposite(next(next(entry_edge)))] *)
Definition right_child_edge (n : Cone_tree_node) : halfedge_descriptor :=
  opposite m_polyhedron (next m_polyhedron (next m_polyhedron (entry_edge n))).

Definition entry_segment (n : Cone_tree_node) : Segment_2 :=
  layout_entry_segment (layout_face n).
Definition target_vertex_location (n : Cone_tree_node) : Point_2 :=
  layout_target_vertex_location (layout_face n).
Definition left_child_base_segment (n : Cone_tree_node) : Segment_2 :=
  layout_left_child_base_segment (layout_face n).
Definition right_child_base_segment (n : Cone_tree_node) : Segment_2 :=
  layout_right_child_base_segment (layout_face n).

(** [distance_to_root(p) = d + ||I - p||] *)
Definition distance_to_root (n : Cone_tree_node) (p : Point_2) : FT :=
  FT_plus (distance_from_source_to_root n)
    (FT_sqrt (compute_squared_distance_2 (source_image n) p)).
(** [distance_from_target_to_root =
     distance_from_source_to_root + ||source_image - image(target_vertex)||] *)
Definition distance_from_target_to_root (n : Cone_tree_node) : FT :=
  distance_to_root n (target_vertex_location n).

Definition ray_to_target_vertex (n : Cone_tree_node) : Ray_2 :=
  (source_image n, target_vertex_location n).
(** The cone boundaries: the rays from the source image through the two
    window endpoints. *)
Definition left_boundary (n : Cone_tree_node) : Ray_2 :=
  (source_image n, window_left n).
Definition right_boundary (n : Cone_tree_node) : Ray_2 :=
  (source_image n, window_right n).

Definition has_left_side (n : Cone_tree_node) : bool :=
  cone_has_left_side (source_image n) (target_vertex_location n)
    (window_left n) (window_right n).
Definition has_right_side (n : Cone_tree_node) : bool :=
  cone_has_right_side (source_image n) (target_vertex_location n)
    (window_left n) (window_right n).
Definition inside_window (n : Cone_tree_node) (p : Point_2) : bool :=
  cone_inside_window (source_image n) (window_left n) (window_right n) p.

(** The position of the entry edge in the halfedge cycle of its face,
    counted from the face's canonical halfedge. *)
Definition edge_face_index (n : Cone_tree_node) : nat :=
  match current_face n with
  | None => 0
  | Some f =>
      let h0 := halfedge_of_face m_polyhedron f in
      if decide (h0 = entry_edge n) then 0
      else if decide (next m_polyhedron h0 = entry_edge n) then 1
      else 2
  end.

(** [CGAL::internal::shift_vector_3_left(v, by)]: the triple rotated left
    by [by] places (misc_functions.h is not part of the sources). *)
Definition shift_vector_3_left (v : Barycentric_coordinate) (by_ : nat)
    : Barycentric_coordinate :=
  (barycentric_weight v by_, barycentric_weight v (by_ + 1),
   barycentric_weight v (by_ + 2)).

(** The two constructors: a root ([ROOT], level 0, no geometry, optionally
    a reference halfedge) and a node of a given kind. *)
Definition root_node (treeId : nat) (entryEdge : halfedge_descriptor)
    : Cone_tree_node :=
  {| m_entryEdge := entryEdge;
     m_layoutFace := (ORIGIN, ORIGIN, ORIGIN);
     m_sourceImage := ORIGIN;
     m_pseudoSourceDistance := FT_zero;
     m_windowLeft := ORIGIN;
     m_windowRight := ORIGIN;
     m_nodeType := ROOT;
     m_level := 0;
     m_treeId := treeId;
     m_parent := None;
     m_leftChild := None;
     m_rightChild := None;
     m_middleChildren := [];
     m_pendingLeftSubtree := None;
     m_pendingRightSubtree := None;
     m_pendingMiddleSubtree := None |}.

Definition cone_node (entryEdge : halfedge_descriptor)
    (layoutFace : Triangle_2) (sourceImage : Point_2)
    (pseudoSourceDistance : FT) (windowLeft windowRight : Point_2)
    (nodeType : Node_type) : Cone_tree_node :=
  {| m_entryEdge := entryEdge;
     m_layoutFace := layoutFace;
     m_sourceImage := sourceImage;
     m_pseudoSourceDistance := pseudoSourceDistance;
     m_windowLeft := windowLeft;
     m_windowRight := windowRight;
     m_nodeType := nodeType;
     m_level := 0;
     m_treeId := 0;
     m_parent := None;
     m_leftChild := None;
     m_rightChild := None;
     m_middleChildren := [];
     m_pendingLeftSubtree := None;
     m_pendingRightSubtree := None;
     m_pendingMiddleSubtree := None |}.

(** [parent->set_left_child(child)] and its siblings. *)
Definition set_left_child (p child : node_ptr) : M unit :=
  pn <- deref_node p ;;
  update_node child (on_child_link p pn) ;;;
  update_node p (with_leftChild (Some child)).

Definition set_right_child (p child : node_ptr) : M unit :=
  pn <- deref_node p ;;
  update_node child (on_child_link p pn) ;;;
  update_node p (with_rightChild (Some child)).

Definition push_middle_child_node (p child : node_ptr) : M unit :=
  pn <- deref_node p ;;
  update_node child (on_child_link p pn) ;;;
  update_node p (fun n => with_middleChildren (m_middleChildren n ++ [child]) n).

(** [p->remove_left_child()]: unlinks and returns the left child. *)
Definition remove_left_child (p : node_ptr) : M (option node_ptr) :=
  pn <- deref_node p ;;
  update_node p (with_leftChild None) ;;;
  ret (m_leftChild pn).

Definition remove_right_child (p : node_ptr) : M (option node_ptr) :=
  pn <- deref_node p ;;
  update_node p (with_rightChild None) ;;;
  ret (m_rightChild pn).

(** [p->pop_middle_child()]: unlinks and returns the last middle child. *)
Definition pop_middle_child (p : node_ptr) : M (option node_ptr) :=
  pn <- deref_node p ;;
  match last (m_middleChildren pn) with
  | None => fault EmptyContainer
  | Some c =>
      update_node p
        (with_middleChildren
           (take (length (m_middleChildren pn) - 1) (m_middleChildren pn))) ;;;
      ret (Some c)
  end.

Definition has_middle_children (n : Cone_tree_node) : bool :=
  negb (bool_decide (m_middleChildren n = [])).

(** *** Loops *)

(** [while (cond) body], giving up after [k] iterations. *)
Fixpoint while_loop (k : nat) (cond : M bool) (body : M unit) : M unit :=
  match k with
  | 0 => out_of_fuel
  | S k' =>
      c <- cond ;;
      if c then body ;;; while_loop k' cond body else ret tt
  end.

(** *** The expansion queue

    [std::priority_queue] over event pointers; the comparator
    ([Cone_expansion_event_min_priority_queue_comparator], Cone_tree.h)
    puts the smallest distance estimate on top.  Among equal estimates
    the earliest pushed event is taken. *)

Fixpoint queue_min (best : event_ptr) (bestEstimate : FT)
    (q : list event_ptr) : M event_ptr :=
  match q with
  | [] => ret best
  | e :: q' =>
      ev <- deref_event e ;;
      if FT_less (m_distanceEstimate ev) bestEstimate
      then queue_min e (m_distanceEstimate ev) q'
      else queue_min best bestEstimate q'
  end.

Definition priqueue_top : M event_ptr :=
  q <- gets m_expansionPriqueue ;;
  match q with
  | [] => fault EmptyContainer
  | e :: q' =>
      ev <- deref_event e ;;
      queue_min e (m_distanceEstimate ev) q'
  end.

Fixpoint remove_first (e : event_ptr) (q : list event_ptr) : list event_ptr :=
  match q with
  | [] => []
  | x :: q' => if decide (x = e) then q' else x :: remove_first e q'
  end.

Definition priqueue_pop : M unit :=
  e <- priqueue_top ;;
  modify (fun s => with_expansionPriqueue (remove_first e (m_expansionPriqueue s)) s).

Definition priqueue_push (e : event_ptr) : M unit :=
  modify (fun s => with_expansionPriqueue (m_expansionPriqueue s ++ [e]) s).

(** *** Private member functions, in the order of the header *)

Definition triangle_from_halfedge (edge : halfedge_descriptor)
    : Point_3 * Point_3 * Point_3 :=
  let e0 := edge in
  let e1 := next m_polyhedron edge in
  (m_vertexPointMap (source m_polyhedron e0),
   m_vertexPointMap (target m_polyhedron e0),
   m_vertexPointMap (target m_polyhedron e1)).

Definition window_distance_filter (cone : node_ptr)
    (windowSegment : Segment_2) (reversed : bool) : M bool :=
  c <- deref_node cone ;;
  let parentEntrySegment := entry_segment c in
  let v2 := target_vertex_location c in
  let I := source_image c in
  let d := distance_from_source_to_root c in
  let v1Index := m_vertexIndexMap (source m_polyhedron (entry_edge c)) in
  let v2Index := m_vertexIndexMap (target_vertex c) in
  let v3Index := m_vertexIndexMap (target m_polyhedron (entry_edge c)) in
  v1Distance0 <- vector_read m_closestToVertices v1Index ;;
  v2Distance <- vector_read m_closestToVertices v2Index ;;
  v3Distance0 <- vector_read m_closestToVertices v3Index ;;
  let v1Distance := if reversed then v3Distance0 else v1Distance0 in
  let v3Distance := if reversed then v1Distance0 else v3Distance0 in
  let A := if reversed then segment_vertex windowSegment 1
           else segment_vertex windowSegment 0 in
  let B := if reversed then segment_vertex windowSegment 0
           else segment_vertex windowSegment 1 in
  let v1 := if reversed then segment_vertex parentEntrySegment 1
            else segment_vertex parentEntrySegment 0 in
  let v3 := if reversed then segment_vertex parentEntrySegment 0
            else segment_vertex parentEntrySegment 1 in
  let d1 := snd v1Distance in
  let d2 := snd v2Distance in
  let d3 := snd v3Distance in
  let hasD1 := bool_decide (fst v1Distance <> None) in
  let hasD2 := bool_decide (fst v2Distance <> None) in
  let hasD3 := bool_decide (fst v3Distance <> None) in
  if hasD1 && FT_greater
                (FT_plus d (FT_sqrt (compute_squared_distance_2 I B)))
                (FT_plus d1 (FT_sqrt (compute_squared_distance_2 v1 B)))
  then ret false
  else if hasD2 && FT_greater
                (FT_plus d (FT_sqrt (compute_squared_distance_2 I A)))
                (FT_plus d2 (FT_sqrt (compute_squared_distance_2 v2 A)))
  then ret false
  else if hasD3 && FT_greater
                (FT_plus d (FT_sqrt (compute_squared_distance_2 I A)))
                (FT_plus d3 (FT_sqrt (compute_squared_distance_2 v3 A)))
  then ret false
  else ret true.

Definition clip_to_bounds (segment : Segment_2)
    (leftBoundary rightBoundary : Ray_2) : Segment_2 :=
  let leftPoint :=
    match intersect_2 segment leftBoundary with
    | Some (Intersection_point result) => result
    | _ => segment_vertex segment 0
    end in
  let rightPoint :=
    match intersect_2 segment rightBoundary with
    | Some (Intersection_point result) => result
    | _ => segment_vertex segment 1
    end in
  (leftPoint, rightPoint).

(** [if (p != NULL) { p->m_cancelled = true; p = NULL; }] for each of the
    three pending slots of [node]. *)
Definition cancel_pending_left (node : node_ptr) : M unit :=
  n <- deref_node node ;;
  match m_pendingLeftSubtree n with
  | Some e => set_cancelled e ;;; update_node node (with_pendingLeftSubtree None)
  | None => ret tt
  end.

Definition cancel_pending_right (node : node_ptr) : M unit :=
  n <- deref_node node ;;
  match m_pendingRightSubtree n with
  | Some e => set_cancelled e ;;; update_node node (with_pendingRightSubtree None)
  | None => ret tt
  end.

Definition cancel_pending_middle (node : node_ptr) : M unit :=
  n <- deref_node node ;;
  match m_pendingMiddleSubtree n with
  | Some e => set_cancelled e ;;; update_node node (with_pendingMiddleSubtree None)
  | None => ret tt
  end.

Definition node_has_middle_children (node : node_ptr) : M bool :=
  n <- deref_node node ;; ret (has_middle_children n).

(** The closing block of [delete_node]: the deleted node gives up its
    entry halfedge, and with it its target vertex. *)
Definition release_occupancy (node : node_ptr) : M unit :=
  n <- deref_node node ;;
  let entryEdgeIndex := m_halfedgeIndexMap (entry_edge n) in
  occupier <- vector_read m_vertexOccupiers entryEdgeIndex ;;
  if bool_decide (fst occupier = Some node) then
    vector_write m_vertexOccupiers with_vertexOccupiers entryEdgeIndex
      (None, snd occupier) ;;;
    let targetVertexIndex := m_vertexIndexMap (target_vertex n) in
    closest <- vector_read m_closestToVertices targetVertexIndex ;;
    if bool_decide (fst closest = Some node) then
      vector_write m_closestToVertices with_closestToVertices
        targetVertexIndex (None, snd closest)
    else ret tt
  else ret tt.

(** [delete_node]: the recursion is bounded by [fuel], and so is the loop
    over the middle children. *)
Fixpoint delete_node (fuel : nat) (node : option node_ptr) : M unit :=
  match node with
  | None => ret tt
  | Some p =>
      match fuel with
      | 0 => out_of_fuel
      | S fuel' =>
          cancel_pending_left p ;;;
          n1 <- deref_node p ;;
          (match m_leftChild n1 with
           | Some _ => c <- remove_left_child p ;; delete_node fuel' c
           | None => ret tt
           end) ;;;
          cancel_pending_right p ;;;
          n2 <- deref_node p ;;
          (match m_rightChild n2 with
           | Some _ => c <- remove_right_child p ;; delete_node fuel' c
           | None => ret tt
           end) ;;;
          cancel_pending_middle p ;;;
          while_loop fuel (node_has_middle_children p)
            (c <- pop_middle_child p ;; delete_node fuel' c) ;;;
          release_occupancy p
      end
  end.

Definition new_cone_expansion_event (parent : node_ptr) (distanceEstimate : FT)
    (type : Expansion_type) (windowSegment : Segment_2) : M event_ptr :=
  new_event {| m_parentNode := parent;
               m_distanceEstimate := distanceEstimate;
               m_type := type;
               m_windowSegment := windowSegment;
               m_cancelled := false |}.

Definition push_left_child (parent : node_ptr) : M unit :=
  p <- deref_node parent ;;
  if bool_decide (face m_polyhedron (left_child_edge p) <> None) then
    let leftWindow :=
      clip_to_bounds (left_child_base_segment p) (left_boundary p)
        (right_boundary p) in
    let distanceEstimate :=
      FT_min (distance_to_root p (segment_vertex leftWindow 0))
             (distance_to_root p (segment_vertex leftWindow 1)) in
    event <- new_cone_expansion_event parent distanceEstimate LEFT_CHILD leftWindow ;;
    update_node parent (with_pendingLeftSubtree (Some event)) ;;;
    priqueue_push event
  else ret tt.

Definition push_right_child (parent : node_ptr) : M unit :=
  p <- deref_node parent ;;
  if bool_decide (face m_polyhedron (right_child_edge p) <> None) then
    let rightWindow :=
      clip_to_bounds (right_child_base_segment p) (left_boundary p)
        (right_boundary p) in
    let distanceEstimate :=
      FT_min (distance_to_root p (segment_vertex rightWindow 0))
             (distance_to_root p (segment_vertex rightWindow 1)) in
    event <- new_cone_expansion_event parent distanceEstimate RIGHT_CHILD rightWindow ;;
    update_node parent (with_pendingRightSubtree (Some event)) ;;;
    priqueue_push event
  else ret tt.

Definition push_middle_child (parent : node_ptr) : M unit :=
  p <- deref_node parent ;;
  event <- new_cone_expansion_event parent (distance_from_target_to_root p)
             PSEUDO_SOURCE (ORIGIN, ORIGIN) ;;
  update_node parent (with_pendingMiddleSubtree (Some event)) ;;;
  priqueue_push event.

(** [process_node], lines 552-583: on which side of the current occupier
    the node lies.  [isLeftOfCurrent] stays [false] without an occupier. *)
Definition is_left_of_current (n : Cone_tree_node)
    (currentOccupier : Node_distance_pair) : M bool :=
  match fst currentOccupier with
  | Some occupier =>
      if is_vertex_node n then ret false
      else
        o <- deref_node occupier ;;
        if is_vertex_node o then ret true
        else
          let comparison :=
            compare_relative_intersection_along_segment_2
              (entry_segment n) (supporting_line (ray_to_target_vertex n))
              (entry_segment o) (supporting_line (ray_to_target_vertex o)) in
          ret (bool_decide (comparison = SMALLER))
  | None => ret false
  end.

(** [process_node], line 590: the node takes the halfedge. *)
Definition wins_arbitration (currentOccupier : Node_distance_pair)
    (currentNodeDistance : FT) : bool :=
  bool_decide (fst currentOccupier = None)
  || FT_greater (snd currentOccupier) currentNodeDistance.

(** [process_node], lines 617-643: the loser's subtree on the side of the
    winner is deleted, or its pending event cancelled. *)
Definition evict_loser (fuel : nat) (currentOccupier : Node_distance_pair)
    (isLeftOfCurrent : bool) : M unit :=
  match fst currentOccupier with
  | Some occupier =>
      o <- deref_node occupier ;;
      if isLeftOfCurrent then
        match m_leftChild o with
        | Some _ => c <- remove_left_child occupier ;; delete_node fuel c
        | None => cancel_pending_left occupier
        end
      else
        match m_rightChild o with
        | Some _ => c <- remove_right_child occupier ;; delete_node fuel c
        | None => cancel_pending_right occupier
        end
  | None => ret tt
  end.

(** [process_node], lines 645-693: the closest node of the target vertex;
    the result is [propagateMiddle]. *)
Definition update_closest (fuel : nat) (node : node_ptr) (n : Cone_tree_node)
    (currentNodeDistance : FT) : M bool :=
  let targetVertexIndex := m_vertexIndexMap (target_vertex n) in
  currentClosest <- vector_read m_closestToVertices targetVertexIndex ;;
  if bool_decide (fst currentClosest = None)
     || FT_greater (snd currentClosest) currentNodeDistance
  then
    isPseudoSource <- vector_read m_vertexIsPseudoSource targetVertexIndex ;;
    propagateMiddle <-
      (if isPseudoSource then
         match fst currentClosest with
         | Some closest =>
             cancel_pending_middle closest ;;;
             while_loop fuel (node_has_middle_children closest)
               (c <- pop_middle_child closest ;; delete_node fuel c)
         | None => ret tt
         end ;;;
         ret true
       else ret false) ;;
    vector_write m_closestToVertices with_closestToVertices targetVertexIndex
      (Some node, currentNodeDistance) ;;;
    ret propagateMiddle
  else ret false.

(** [process_node], lines 540-597: the arbitration for the entry halfedge.
    The result is the occupier found, [isLeftOfCurrent], and whether the
    node took the halfedge. *)
Definition arbitrate (node : node_ptr) (n : Cone_tree_node)
    : M (Node_distance_pair * bool * bool) :=
  let entryEdgeIndex := m_halfedgeIndexMap (entry_edge n) in
  currentOccupier <- vector_read m_vertexOccupiers entryEdgeIndex ;;
  let currentNodeDistance := distance_from_target_to_root n in
  isLeftOfCurrent <- is_left_of_current n currentOccupier ;;
  if wins_arbitration currentOccupier currentNodeDistance then
    vector_write m_vertexOccupiers with_vertexOccupiers entryEdgeIndex
      (Some node, currentNodeDistance) ;;;
    ret (currentOccupier, isLeftOfCurrent, true)
  else ret (currentOccupier, isLeftOfCurrent, false).

Definition process_node (fuel : nat) (node : node_ptr) : M unit :=
  n <- deref_node node ;;
  let leftSide := has_left_side n in
  let rightSide := has_right_side n in
  propagate <-
    (if is_source_node n || (leftSide && rightSide) then
       let currentNodeDistance := distance_from_target_to_root n in
       arbitration <- arbitrate node n ;;
       let currentOccupier := fst (fst arbitration) in
       let isLeftOfCurrent := snd (fst arbitration) in
       if snd arbitration then
         let propagateRight := bool_decide (node_type n = INTERVAL) in
         let propagateLeft :=
           bool_decide (node_type n = INTERVAL) || negb (is_null_face n) in
         evict_loser fuel currentOccupier isLeftOfCurrent ;;;
         propagateMiddle <- update_closest fuel node n currentNodeDistance ;;
         ret (propagateLeft, propagateRight, propagateMiddle)
       else
         if isLeftOfCurrent then ret (true, false, false)
         else if negb (is_source_node n) then ret (false, true, false)
         else ret (false, false, false)
     else ret (leftSide, rightSide, false)) ;;
  let propagateLeft := fst (fst propagate) in
  let propagateRight := snd (fst propagate) in
  let propagateMiddle := snd propagate in
  if bool_decide (level n < num_faces m_polyhedron) then
    when propagateLeft (push_left_child node) ;;;
    when (propagateRight && negb (is_source_node n)) (push_right_child node) ;;;
    when propagateMiddle (push_middle_child node)
  else ret tt.

Definition expand_left_child (fuel : nat) (cone : node_ptr)
    (windowSegment : Segment_2) : M unit :=
  c <- deref_node cone ;;
  if bool_decide (m_pendingLeftSubtree c <> None) then
    update_node cone (with_pendingLeftSubtree None) ;;;
    keep <- window_distance_filter cone windowSegment false ;;
    if keep then
      let adjacentFace := triangle_from_halfedge (left_child_edge c) in
      let layoutFace :=
        flatten_triangle_3_along_segment_2 adjacentFace 0
          (left_child_base_segment c) in
      child <- new_node
                 (cone_node (left_child_edge c) layoutFace (source_image c)
                    (distance_from_source_to_root c)
                    (segment_vertex windowSegment 0)
                    (segment_vertex windowSegment 1) INTERVAL) ;;
      set_left_child cone child ;;;
      process_node fuel child
    else ret tt
  else fault AssertionFailed.

Definition expand_right_child (fuel : nat) (cone : node_ptr)
    (windowSegment : Segment_2) : M unit :=
  c <- deref_node cone ;;
  if bool_decide (m_pendingRightSubtree c <> None) then
    update_node cone (with_pendingRightSubtree None) ;;;
    keep <- window_distance_filter cone windowSegment true ;;
    if keep then
      let adjacentFace := triangle_from_halfedge (right_child_edge c) in
      let layoutFace :=
        flatten_triangle_3_along_segment_2 adjacentFace 0
          (right_child_base_segment c) in
      child <- new_node
                 (cone_node (right_child_edge c) layoutFace (source_image c)
                    (distance_from_source_to_root c)
                    (segment_vertex windowSegment 0)
                    (segment_vertex windowSegment 1) INTERVAL) ;;
      set_right_child cone child ;;;
      process_node fuel child
    else ret tt
  else fault AssertionFailed.

(** [new Cone_tree_node(m_traits, m_polyhedron, m_rootNodes.size(), ...)]
    followed by [m_rootNodes.push_back]. *)
Definition new_root (entryEdge : halfedge_descriptor) : M node_ptr :=
  roots <- gets m_rootNodes ;;
  root <- new_node (root_node (length roots) entryEdge) ;;
  modify (fun s => with_rootNodes (m_rootNodes s ++ [root]) s) ;;;
  ret root.

Definition expand_face_root_child (fuel : nat) (faceRoot : node_ptr)
    (faceLocation : Barycentric_coordinate) (current : halfedge_descriptor)
    (currentVertex : nat) : M unit :=
  let face3d := triangle_from_halfedge current in
  let layoutFace := project_triangle_3_to_triangle_2 face3d in
  let rotatedFaceLocation :=
    (barycentric_weight faceLocation currentVertex,
     barycentric_weight faceLocation ((currentVertex + 1) mod 3),
     barycentric_weight faceLocation ((currentVertex + 2) mod 3)) in
  let sourcePoint := construct_triangle_location_2 layoutFace rotatedFaceLocation in
  child <- new_node
             (cone_node current layoutFace sourcePoint FT_zero
                (triangle_vertex layoutFace 0) (triangle_vertex layoutFace 2)
                FACE_SOURCE) ;;
  push_middle_child_node faceRoot child ;;;
  process_node fuel child.

Definition expand_face_root (fuel : nat) (faceId : face_descriptor)
    (faceLocation : Barycentric_coordinate) : M unit :=
  let start := halfedge_of_face m_polyhedron faceId in
  faceRoot <- new_root (null_halfedge m_polyhedron) ;;
  expand_face_root_child fuel faceRoot faceLocation start 0 ;;;
  expand_face_root_child fuel faceRoot faceLocation
    (next m_polyhedron start) 1 ;;;
  expand_face_root_child fuel faceRoot faceLocation
    (next m_polyhedron (next m_polyhedron start)) 2.

(** [Point_2(l[0][0] * t0 + l[1][0] * t1, l[0][1] * t0 + l[1][1] * t1)] *)
Definition edge_source_point (l : Triangle_2) (t0 t1 : FT) : Point_2 :=
  (FT_plus (FT_mult (point_coord (triangle_vertex l 0) 0) t0)
           (FT_mult (point_coord (triangle_vertex l 1) 0) t1),
   FT_plus (FT_mult (point_coord (triangle_vertex l 0) 1) t0)
           (FT_mult (point_coord (triangle_vertex l 1) 1) t1)).

(** The two nodes the loop over the sides in [expand_edge_root] constructs
    for one side. *)
Definition main_child (baseEdge : halfedge_descriptor) (layoutFace : Triangle_2)
    (sourcePoint : Point_2) : Cone_tree_node :=
  cone_node baseEdge layoutFace sourcePoint FT_zero
    (triangle_vertex layoutFace 0) (triangle_vertex layoutFace 2) EDGE_SOURCE.

Definition opposite_child (baseEdge : halfedge_descriptor)
    (layoutFace : Triangle_2) (sourcePoint : Point_2) : Cone_tree_node :=
  cone_node baseEdge
    (triangle_vertex layoutFace 2, triangle_vertex layoutFace 1,
     triangle_vertex layoutFace 2)
    sourcePoint FT_zero
    (triangle_vertex layoutFace 1) (triangle_vertex layoutFace 2) EDGE_SOURCE.

(** The body of the loop over the two sides in [expand_edge_root]. *)
Definition expand_edge_root_side (fuel : nat) (edgeRoot : node_ptr)
    (baseEdge : halfedge_descriptor) (layoutFace : Triangle_2)
    (sourcePoint : Point_2) : M unit :=
  mainChild <- new_node (main_child baseEdge layoutFace sourcePoint) ;;
  push_middle_child_node edgeRoot mainChild ;;;
  process_node fuel mainChild ;;;
  oppositeChild <- new_node (opposite_child baseEdge layoutFace sourcePoint) ;;
  push_middle_child_node edgeRoot oppositeChild ;;;
  process_node fuel oppositeChild.

Definition expand_edge_root (fuel : nat) (baseEdge : halfedge_descriptor)
    (t0 t1 : FT) : M unit :=
  let baseEdges0 := baseEdge in
  let baseEdges1 := opposite m_polyhedron baseEdge in
  let layoutFaces0 :=
    project_triangle_3_to_triangle_2 (triangle_from_halfedge baseEdges0) in
  let layoutFaces1 :=
    project_triangle_3_to_triangle_2 (triangle_from_halfedge baseEdges1) in
  let sourcePoints0 := edge_source_point layoutFaces0 t0 t1 in
  let sourcePoints1 := edge_source_point layoutFaces1 t0 t1 in
  edgeRoot <- new_root (null_halfedge m_polyhedron) ;;
  expand_edge_root_side fuel edgeRoot baseEdges0 layoutFaces0 sourcePoints0 ;;;
  expand_edge_root_side fuel edgeRoot baseEdges1 layoutFaces1 sourcePoints1.

(** The [do ... while (currentEdge != startEdge)] of
    [expand_pseudo_source]. *)
Fixpoint expand_pseudo_source_loop (k fuel : nat) (parent : node_ptr)
    (distanceFromTargetToRoot : FT) (startEdge currentEdge : halfedge_descriptor)
    : M unit :=
  match k with
  | 0 => out_of_fuel
  | S k' =>
      let face3d := triangle_from_halfedge currentEdge in
      let layoutFace := project_triangle_3_to_triangle_2 face3d in
      child <- new_node
                 (cone_node currentEdge layoutFace (triangle_vertex layoutFace 1)
                    distanceFromTargetToRoot (triangle_vertex layoutFace 0)
                    (triangle_vertex layoutFace 2) VERTEX_SOURCE) ;;
      push_middle_child_node parent child ;;;
      process_node fuel child ;;;
      let currentEdge' :=
        opposite m_polyhedron (next m_polyhedron currentEdge) in
      if decide (currentEdge' = startEdge) then ret tt
      else expand_pseudo_source_loop k' fuel parent distanceFromTargetToRoot
             startEdge currentEdge'
  end.

Definition expand_pseudo_source (fuel : nat) (parent : node_ptr) : M unit :=
  update_node parent (with_pendingMiddleSubtree None) ;;;
  p <- deref_node parent ;;
  let expansionVertex := target_vertex p in
  let startEdge := halfedge_of_vertex m_polyhedron expansionVertex in
  let distanceFromTargetToRoot := distance_from_target_to_root p in
  expand_pseudo_source_loop fuel fuel parent distanceFromTargetToRoot
    startEdge startEdge.

Definition expand_vertex_root (fuel : nat) (vertex : vertex_descriptor) : M unit :=
  vertexRoot <- new_root
                  (prev m_polyhedron (halfedge_of_vertex m_polyhedron vertex)) ;;
  vector_write m_closestToVertices with_closestToVertices
    (m_vertexIndexMap vertex) (Some vertexRoot, FT_zero) ;;;
  expand_pseudo_source fuel vertexRoot.

Definition expand_root (fuel : nat) (face : face_descriptor)
    (location : Barycentric_coordinate) : M unit :=
  let classified := classify_barycentric_coordinate location in
  let associatedEdge := snd classified in
  match fst classified with
  | BARYCENTRIC_COORDINATE_INTERNAL => expand_face_root fuel face location
  | BARYCENTRIC_COORDINATE_EDGE =>
      let halfedge :=
        Nat.iter associatedEdge (next m_polyhedron)
          (halfedge_of_face m_polyhedron face) in
      expand_edge_root fuel halfedge
        (barycentric_weight location associatedEdge)
        (barycentric_weight location ((associatedEdge + 1) mod 3))
  | BARYCENTRIC_COORDINATE_VERTEX =>
      let halfedge :=
        Nat.iter associatedEdge (next m_polyhedron)
          (halfedge_of_face m_polyhedron face) in
      expand_vertex_root fuel (source m_polyhedron halfedge)
  | _ => fault AssertionFailed
  end.

Definition is_saddle_vertex (v : vertex_descriptor) : bool :=
  is_saddle_vertex_object v m_polyhedron m_vertexPointMap.

(** The [do ... while (h != first)] of [is_boundary_vertex]. *)
Fixpoint is_boundary_vertex_loop (k : nat) (first h : halfedge_descriptor)
    : M bool :=
  match k with
  | 0 => out_of_fuel
  | S k' =>
      if bool_decide (face m_polyhedron h = None)
         || bool_decide (face m_polyhedron (opposite m_polyhedron h) = None)
      then ret true
      else
        let h' := opposite m_polyhedron (next m_polyhedron h) in
        if decide (h' = first) then ret false
        else is_boundary_vertex_loop k' first h'
  end.

Definition is_boundary_vertex (fuel : nat) (v : vertex_descriptor) : M bool :=
  let h := halfedge_of_vertex m_polyhedron v in
  is_boundary_vertex_loop fuel h h.

(** The first loop of [set_vertex_types], over the vertices. *)
Definition set_vertex_types_vertex (fuel : nat) (current : vertex_descriptor)
    : M unit :=
  let vertexIndex := m_vertexIndexMap current in
  pseudoSource <-
    (if is_saddle_vertex current then ret true
     else is_boundary_vertex fuel current) ;;
  vector_write m_vertexIsPseudoSource with_vertexIsPseudoSource vertexIndex
    pseudoSource ;;;
  vector_write m_closestToVertices with_closestToVertices vertexIndex
    (None, FT_zero).

(** The second loop of [set_vertex_types], over the halfedges. *)
Definition set_vertex_types_halfedge (currentEdge : halfedge_descriptor)
    : M unit :=
  vector_write m_vertexOccupiers with_vertexOccupiers
    (m_halfedgeIndexMap currentEdge) (None, FT_zero).

Definition set_vertex_types (fuel : nat) : M unit :=
  for_each (vertices m_polyhedron) (set_vertex_types_vertex fuel) ;;;
  modify (with_vertexOccupiers []) ;;;
  for_each (halfedges m_polyhedron) set_vertex_types_halfedge.

(** [while (!queue.empty()) { delete queue.top(); queue.pop(); }]: one
    round per queued event. *)
Fixpoint drain_priqueue (k : nat) : M unit :=
  match k with
  | 0 => ret tt
  | S k' =>
      e <- priqueue_top ;;
      delete_event e ;;;
      modify (fun s =>
        with_expansionPriqueue (remove_first e (m_expansionPriqueue s)) s) ;;;
      drain_priqueue k'
  end.

Definition reset_containers : M unit :=
  modify (fun s =>
    with_closestToVertices
      (vector_resize (num_vertices m_polyhedron) (None, FT_zero)
         (m_closestToVertices s)) s) ;;;
  modify (fun s =>
    with_vertexOccupiers
      (vector_resize (num_halfedges m_polyhedron) (None, FT_zero)
         (m_vertexOccupiers s)) s) ;;;
  q <- gets m_expansionPriqueue ;;
  drain_priqueue (length q) ;;;
  modify (with_faceLocations []) ;;;
  modify (with_rootNodes []) ;;;
  modify (fun s =>
    with_vertexIsPseudoSource
      (vector_resize (num_vertices m_polyhedron) false
         (m_vertexIsPseudoSource s)) s).

(** What a path visitor receives. *)
Inductive Path_event : Type :=
  | visitor_edge (e : halfedge_descriptor) (alpha : FT)
  | visitor_vertex (v : vertex_descriptor)
  | visitor_face (f : face_descriptor) (alpha : Barycentric_coordinate).

(** [current->is_left_child()]: the node is the left child of its
    parent. *)
Definition is_left_child (current : node_ptr) (c : Cone_tree_node) : M bool :=
  p <- deref (parent c) ;; ret (bool_decide (m_leftChild p = Some current)).
Definition is_right_child (current : node_ptr) (c : Cone_tree_node) : M bool :=
  p <- deref (parent c) ;; ret (bool_decide (m_rightChild p = Some current)).

(** [visit_shortest_path]: the walk to the root, bounded by [fuel]; the
    result lists the visitor's calls in order. *)
Fixpoint visit_shortest_path (fuel : nat) (current : option node_ptr)
    (currentLocation : Point_2) : M (list Path_event) :=
  match fuel, current with
  | 0, _ => out_of_fuel
  | S _, None => fault NullDereference
  | S fuel', Some here =>
      c <- deref_node here ;;
      if is_root_node c then ret []
      else
        match node_type c with
        | INTERVAL | EDGE_SOURCE =>
            let entrySegment := entry_segment c in
            let rayToLocation : Ray_2 := (source_image c, currentLocation) in
            match intersect_2_line entrySegment (supporting_line rayToLocation) with
            | Some (Intersection_point result) =>
                let parametricLocation :=
                  parameteric_distance_along_segment_2
                    (segment_vertex entrySegment 0)
                    (segment_vertex entrySegment 1) result in
                isLeft <- is_left_child here c ;;
                isRight <- (if isLeft then ret false else is_right_child here c) ;;
                p <- deref (parent c) ;;
                let currentLocation' :=
                  if isLeft then
                    interpolate_points
                      (segment_vertex (left_child_base_segment p) 0)
                      (segment_vertex (left_child_base_segment p) 1)
                      parametricLocation
                  else if isRight then
                    interpolate_points
                      (segment_vertex (right_child_base_segment p) 0)
                      (segment_vertex (right_child_base_segment p) 1)
                      parametricLocation
                  else currentLocation in
                rest <- visit_shortest_path fuel' (parent c) currentLocation' ;;
                ret (visitor_edge (entry_edge c) parametricLocation :: rest)
            | _ => fault AssertionFailed
            end
        | VERTEX_SOURCE =>
            p <- deref (parent c) ;;
            rest <- visit_shortest_path fuel' (parent c)
                      (target_vertex_location p) ;;
            ret (visitor_vertex (target m_polyhedron (entry_edge c)) :: rest)
        | FACE_SOURCE =>
            location <- vector_read m_faceLocations (tree_id c) ;;
            rest <- visit_shortest_path fuel' (parent c) currentLocation ;;
            ret (visitor_face (fst location) (snd location) :: rest)
        | ROOT => fault AssertionFailed
        end
  end.

(** [m_faceOccupiers[faceIndex].push_back(node)] *)
Definition face_list_push_back (faceIndex : nat) (node : node_ptr) : M unit :=
  l <- vector_read m_faceOccupiers faceIndex ;;
  vector_write m_faceOccupiers with_faceOccupiers faceIndex (l ++ [node]).

Fixpoint add_to_face_list (fuel : nat) (node : node_ptr) : M unit :=
  match fuel with
  | 0 => out_of_fuel
  | S fuel' =>
      n <- deref_node node ;;
      (if negb (is_root_node n) && negb (is_null_face n) then
         match current_face n with
         | Some f => face_list_push_back (m_faceIndexMap f) node
         | None => ret tt
         end
       else ret tt) ;;;
      (match m_leftChild n with
       | Some c => add_to_face_list fuel' c
       | None => ret tt
       end) ;;;
      (match m_rightChild n with
       | Some c => add_to_face_list fuel' c
       | None => ret tt
       end) ;;;
      for_each (m_middleChildren n) (add_to_face_list fuel')
  end.

Definition face_location_with_normalized_coordinate (n : Cone_tree_node)
    (alpha : Barycentric_coordinate) : Point_2 :=
  construct_triangle_location_2 (layout_face n)
    (shift_vector_3_left alpha (edge_face_index n)).

(** The loop of [nearest_on_face] over [currentFaceList], from the
    current [closest] and [closestDistance]. *)
Fixpoint nearest_on_face_loop (alpha : Barycentric_coordinate)
    (currentFaceList : list node_ptr) (closest : option node_ptr)
    (closestDistance : FT) : M Node_distance_pair :=
  match currentFaceList with
  | [] => ret (closest, closestDistance)
  | current :: rest =>
      c <- deref_node current ;;
      if bool_decide (closest <> None)
         && FT_greater_equal (distance_from_source_to_root c) closestDistance
      then nearest_on_face_loop alpha rest closest closestDistance
      else
        let locationInContext := face_location_with_normalized_coordinate c alpha in
        if inside_window c locationInContext then
          let currentDistance := distance_to_root c locationInContext in
          if bool_decide (closest = None)
             || FT_less currentDistance closestDistance
          then nearest_on_face_loop alpha rest (Some current) currentDistance
          else nearest_on_face_loop alpha rest closest closestDistance
        else nearest_on_face_loop alpha rest closest closestDistance
  end.

Definition nearest_on_face (face : face_descriptor)
    (alpha : Barycentric_coordinate) : M Node_distance_pair :=
  let faceIndex := m_faceIndexMap face in
  currentFaceList <- vector_read m_faceOccupiers faceIndex ;;
  nearest_on_face_loop alpha currentFaceList None FT_default.

Definition cone_comparator (lhs rhs : Cone_tree_node) : bool :=
  FT_less (distance_from_source_to_root lhs) (distance_from_source_to_root rhs).

(** [std::sort(begin, end, cone_comparator)] on a list of node pointers:
    an insertion sort, which keeps nodes of equal distance in their
    order. *)
Fixpoint sort_insert (x : node_ptr) (xn : Cone_tree_node)
    (l : list (node_ptr * Cone_tree_node)) : list (node_ptr * Cone_tree_node) :=
  match l with
  | [] => [(x, xn)]
  | (y, yn) :: l' =>
      if cone_comparator xn yn then (x, xn) :: (y, yn) :: l'
      else (y, yn) :: sort_insert x xn l'
  end.

Fixpoint sort_nodes (l : list (node_ptr * Cone_tree_node))
    : list (node_ptr * Cone_tree_node) :=
  match l with
  | [] => []
  | (x, xn) :: l' => sort_insert x xn (sort_nodes l')
  end.

Fixpoint deref_all (l : list node_ptr) : M (list (node_ptr * Cone_tree_node)) :=
  match l with
  | [] => ret []
  | x :: l' =>
      xn <- deref_node x ;;
      rest <- deref_all l' ;;
      ret ((x, xn) :: rest)
  end.

Definition sort_face_list (i : nat) : M unit :=
  currentFaceList <- vector_read m_faceOccupiers i ;;
  nodes <- deref_all currentFaceList ;;
  vector_write m_faceOccupiers with_faceOccupiers i
    (map fst (sort_nodes nodes)).

(** The loop [while (m_expansionPriqueue.size() > 0)] of
    [compute_shortest_paths]: one round. *)
Definition dispatch_event (fuel : nat) (ev : Cone_expansion_event) : M unit :=
  match m_type ev with
  | PSEUDO_SOURCE => expand_pseudo_source fuel (m_parentNode ev)
  | LEFT_CHILD => expand_left_child fuel (m_parentNode ev) (m_windowSegment ev)
  | RIGHT_CHILD => expand_right_child fuel (m_parentNode ev) (m_windowSegment ev)
  end.

Definition event_loop_body (fuel : nat) : M unit :=
  event <- priqueue_top ;;
  priqueue_pop ;;;
  ev <- deref_event event ;;
  (if negb (m_cancelled ev) then dispatch_event fuel ev else ret tt) ;;;
  delete_event event.

Definition priqueue_nonempty : M bool :=
  q <- gets m_expansionPriqueue ;; ret (negb (bool_decide (q = []))).

Definition event_loop (fuel : nat) : M unit :=
  while_loop fuel priqueue_nonempty (event_loop_body fuel).

(** The first two calls and the two resizes of
    [compute_shortest_paths]. *)
Definition initialize (fuel : nat) : M unit :=
  reset_containers ;;;
  set_vertex_types fuel ;;;
  modify (fun s =>
    with_vertexOccupiers
      (vector_resize (num_halfedges m_polyhedron) (None, FT_zero)
         (m_vertexOccupiers s)) s) ;;;
  modify (fun s =>
    with_closestToVertices
      (vector_resize (num_vertices m_polyhedron) (None, FT_zero)
         (m_closestToVertices s)) s).

Definition build_face_occupiers (fuel : nat) : M unit :=
  modify (with_faceOccupiers (replicate (num_faces m_polyhedron) [])) ;;;
  roots <- gets m_rootNodes ;;
  for_each roots (add_to_face_list fuel) ;;;
  for_each (seq 0 (num_faces m_polyhedron)) sort_face_list.

(** The loop of [compute_shortest_paths] over the source locations. *)
Definition expand_roots (fuel : nat) (faceLocations : list Face_location_pair)
    : M unit :=
  for_each faceLocations (fun it =>
    modify (fun s => with_faceLocations (m_faceLocations s ++ [it]) s) ;;;
    expand_root fuel (fst it) (snd it)).

Definition compute_shortest_paths (fuel : nat)
    (faceLocations : list Face_location_pair) : M unit :=
  initialize fuel ;;;
  expand_roots fuel faceLocations ;;;
  event_loop fuel ;;;
  build_face_occupiers fuel.

(** *** Public queries *)

Definition shortest_distance_to_vertex (v : vertex_descriptor) : M FT :=
  closest <- vector_read m_closestToVertices (m_vertexIndexMap v) ;;
  ret (snd closest).

Definition shortest_distance_to_location (face : face_descriptor)
    (alpha : Barycentric_coordinate) : M FT :=
  nearest <- nearest_on_face face alpha ;;
  ret (snd nearest).

(** [current->...] on the node a query looked up. *)
Definition deref_query_node (current : option node_ptr) : M Cone_tree_node :=
  match current with
  | Some a => deref_node a
  | None => fault NullQueryNode
  end.

Definition shortest_path_sequence_vertex (fuel : nat) (v : vertex_descriptor)
    : M (list Path_event) :=
  closest <- vector_read m_closestToVertices (m_vertexIndexMap v) ;;
  let current := fst closest in
  c <- deref_query_node current ;;
  visit_shortest_path fuel current (target_vertex_location c).

Definition shortest_path_sequence_location (fuel : nat) (face : face_descriptor)
    (alpha : Barycentric_coordinate) : M (list Path_event) :=
  nearest <- nearest_on_face face alpha ;;
  let current := fst nearest in
  c <- deref_query_node current ;;
  let locationInContext := face_location_with_normalized_coordinate c alpha in
  visit_shortest_path fuel current locationInContext.

(** *** The scan of a face list without the skip

    The reference for [nearest_on_face]: every cone of the list is tested,
    whatever its distance from the source. *)
Fixpoint naive_nearest_on_face_loop (alpha : Barycentric_coordinate)
    (currentFaceList : list node_ptr) (closest : option node_ptr)
    (closestDistance : FT) : M Node_distance_pair :=
  match currentFaceList with
  | [] => ret (closest, closestDistance)
  | current :: rest =>
      c <- deref_node current ;;
      let locationInContext := face_location_with_normalized_coordinate c alpha in
      if inside_window c locationInContext then
        let currentDistance := distance_to_root c locationInContext in
        if bool_decide (closest = None)
           || FT_less currentDistance closestDistance
        then naive_nearest_on_face_loop alpha rest (Some current) currentDistance
        else naive_nearest_on_face_loop alpha rest closest closestDistance
      else naive_nearest_on_face_loop alpha rest closest closestDistance
  end.

Definition naive_nearest_on_face (face : face_descriptor)
    (alpha : Barycentric_coordinate) : M Node_distance_pair :=
  let faceIndex := m_faceIndexMap face in
  currentFaceList <- vector_read m_faceOccupiers faceIndex ;;
  naive_nearest_on_face_loop alpha currentFaceList None FT_default.

End Polyhedron_shortest_path.

(** What the queries need of the number type: [operator<] is a strict weak
    order, and adding a square root does not decrease a number. *)
Class Ordered_with_sqrt (NT : Field_type) : Prop := {
  FT_less_irreflexive : forall a : FT, FT_less a a = false;
  FT_less_transitive :
    forall a b c : FT, FT_less a b = true -> FT_less b c = true -> FT_less a c = true;
  FT_less_negatively_transitive :
    forall a b c : FT, FT_less a b = false -> FT_less b c = false -> FT_less a c = false;
  FT_sqrt_plus : forall d x : FT, FT_less (FT_plus d (FT_sqrt x)) d = false;
}.

(** ** Vocabulary of the statements *)

Section Vocabulary.
Context {NT : Field_type} {K : Traits} {CG : Cone_tree_geometry} {this : Members}.

(** The nodes behind a list of pointers. *)
Definition nodes_at (s : Engine) (l : list node_ptr)
    (nodes : list Cone_tree_node) : Prop :=
  Forall2 (fun p n => node_arena s !! p = Some n) l nodes.

(** The cone's window contains the unfolded image of the query point, and
    the distance the cone gives it: [d + ||I - image(bary)||]. *)
Definition covers (alpha : Barycentric_coordinate) (n : Cone_tree_node) : bool :=
  inside_window n (face_location_with_normalized_coordinate n alpha).
Definition reach (alpha : Barycentric_coordinate) (n : Cone_tree_node) : FT :=
  distance_to_root n (face_location_with_normalized_coordinate n alpha).

(** [m] is the minimum of [reach] over the cones of [nodes] that cover the
    point: one of them attains it, none is smaller. *)
Definition minimum_reach (alpha : Barycentric_coordinate)
    (nodes : list Cone_tree_node) (m : FT) : Prop :=
  (exists n, n ∈ nodes /\ covers alpha n = true /\ m = reach alpha n) /\
  (forall n, n ∈ nodes -> covers alpha n = true -> FT_less (reach alpha n) m = false).

(** The state of the scan after the cones [seen]. *)
Definition scanned (alpha : Barycentric_coordinate) (seen : list Cone_tree_node)
    (closest : option node_ptr) (closestDistance : FT) : Prop :=
  match closest with
  | None => forall n, n ∈ seen -> covers alpha n = false
  | Some _ => minimum_reach alpha seen closestDistance
  end.

(** A face list in the order [std::sort] leaves it in: no cone is nearer
    to the source than a cone before it. *)
Definition sorted_by_distance (nodes : list Cone_tree_node) : Prop :=
  StronglySorted (fun a b => cone_comparator b a = false) nodes.

(** What a node is once it is linked under its parent: everything but its
    own children and pending events. *)
Definition cone_of (n : Cone_tree_node) : Cone_tree_node :=
  relink n (m_level n) (m_treeId n) (m_parent n) None None [] None None None.

(** No node was allocated, and every node is the cone it was. *)
Definition same_cones (s s' : Engine) : Prop :=
  length (node_arena s') = length (node_arena s) /\
  forall p n, node_arena s !! p = Some n ->
    exists n', node_arena s' !! p = Some n' /\ cone_of n' = cone_of n.

(** The node arena of [s'] is the one of [s] followed by the nodes [added],
    every node being the cone it was. *)
Definition cones_extended (added : list Cone_tree_node) (s s' : Engine) : Prop :=
  Forall2 (fun n n' => cone_of n' = cone_of n)
    (node_arena s ++ added) (node_arena s').

(** An event that was allocated and not destroyed, and one that was
    destroyed. *)
Definition alive (s : Engine) (e : event_ptr) : Prop :=
  exists ev, event_arena s !! e = Some (Some ev).
Definition destroyed (s : Engine) (e : event_ptr) : Prop :=
  event_arena s !! e = Some None.

(** No event was destroyed. *)
Definition events_kept (s s' : Engine) : Prop :=
  forall e, (alive s e -> alive s' e) /\ (destroyed s' e <-> destroyed s e).

(** No event left the queue. *)
Definition queue_kept (s s' : Engine) : Prop :=
  forall e, e ∈ m_expansionPriqueue s -> e ∈ m_expansionPriqueue s'.

(** The children and the pending events a node references. *)
Definition children_of (n : Cone_tree_node) : list node_ptr :=
  option_list (m_leftChild n) ++ option_list (m_rightChild n)
    ++ m_middleChildren n.
Definition pending_of (n : Cone_tree_node) : list event_ptr :=
  option_list (m_pendingLeftSubtree n) ++ option_list (m_pendingRightSubtree n)
    ++ option_list (m_pendingMiddleSubtree n).

(** The nodes reached from [p] through child links. *)
Inductive descendant (s : Engine) (p : node_ptr) : node_ptr -> Prop :=
  | descendant_self : descendant s p p
  | descendant_child (m : node_ptr) (n : Cone_tree_node) (c : node_ptr) :
      descendant s p m -> node_arena s !! m = Some n -> c ∈ children_of n ->
      descendant s p c.

(** The event is allocated, and its flag is set. *)
Definition cancelled_in (s : Engine) (e : event_ptr) : Prop :=
  exists ev, event_arena s !! e = Some (Some ev) /\ m_cancelled ev = true.

(** A node that references no child and no pending event. *)
Definition clean (s : Engine) (q : node_ptr) : Prop :=
  exists n, node_arena s !! q = Some n /\ children_of n = [] /\ pending_of n = [].

(** A slot of a node is what it was, or was reset. *)
Definition slot_shrinks {X : Type} (o o' : option X) : Prop :=
  o' = o \/ o' = None.

Definition node_shrinks (n n' : Cone_tree_node) : Prop :=
  slot_shrinks (m_leftChild n) (m_leftChild n') /\
  slot_shrinks (m_rightChild n) (m_rightChild n') /\
  m_middleChildren n' `prefix_of` m_middleChildren n /\
  slot_shrinks (m_pendingLeftSubtree n) (m_pendingLeftSubtree n') /\
  slot_shrinks (m_pendingRightSubtree n) (m_pendingRightSubtree n') /\
  slot_shrinks (m_pendingMiddleSubtree n) (m_pendingMiddleSubtree n').

(** The number of child links in the heap. *)
Definition links (s : Engine) : nat :=
  sum_list (map (fun n => length (children_of n)) (node_arena s)).

(** What [delete_node] needs of a node it visits: the node is allocated,
    its pending events are allocated and not destroyed, and the indices of
    its entry halfedge and of its target vertex are within the two tables.  *)
Definition deletable (s : Engine) (m : node_ptr) : Prop :=
  exists n, node_arena s !! m = Some n /\
    (forall e, e ∈ pending_of n -> alive s e) /\
    m_halfedgeIndexMap (entry_edge n) < length (m_vertexOccupiers s) /\
    m_vertexIndexMap (target_vertex n) < length (m_closestToVertices s).

(** What every step of [delete_node] keeps: events stay allocated, the
    tables keep their sizes, nodes keep their entry halfedge and lose
    children and pending events only. *)
Definition shrinks (s s' : Engine) : Prop :=
  (forall e, alive s e -> alive s' e) /\
  length (m_vertexOccupiers s') = length (m_vertexOccupiers s) /\
  length (m_closestToVertices s') = length (m_closestToVertices s) /\
  Forall2 (fun n n' => node_shrinks n n' /\ entry_edge n' = entry_edge n)
    (node_arena s) (node_arena s').

(** How far [delete_node] has come with a node: the slots it has been
    through, in its order, are empty. *)
Definition emptied (k : nat) (n : Cone_tree_node) : Prop :=
  (1 <= k -> m_pendingLeftSubtree n = None) /\
  (2 <= k -> m_leftChild n = None) /\
  (3 <= k -> m_pendingRightSubtree n = None) /\
  (4 <= k -> m_rightChild n = None) /\
  (5 <= k -> m_pendingMiddleSubtree n = None) /\
  (6 <= k -> m_middleChildren n = []).

Definition emptied_at (k : nat) (s : Engine) (p : node_ptr) : Prop :=
  exists n, node_arena s !! p = Some n /\ emptied k n.

(** What [delete_node] does to the heap: the queue is what it was; an event
    is what it was, up to its flag being set; a node loses children and
    pending events only, the children it lost being clean and the events it
    lost cancelled. *)
Definition deletes (s s' : Engine) : Prop :=
  m_expansionPriqueue s' = m_expansionPriqueue s /\
  length (event_arena s') = length (event_arena s) /\
  (forall e oev, event_arena s !! e = Some oev ->
     event_arena s' !! e = Some oev \/
     exists ev, oev = Some ev /\ event_arena s' !! e = Some (Some (cancel ev))) /\
  length (node_arena s') = length (node_arena s) /\
  (forall q n, node_arena s !! q = Some n ->
     exists n', node_arena s' !! q = Some n' /\ node_shrinks n n' /\
       (forall c, c ∈ children_of n -> c ∈ children_of n' \/ clean s' c) /\
       (forall e, e ∈ pending_of n -> e ∈ pending_of n' \/ cancelled_in s' e)).

(** [node] is recorded as the closest node of the vertex with index [v], at
    distance [d], and is not the occupier of its entry halfedge. *)
Definition closest_not_occupier (node : node_ptr) (v : nat) (d : FT)
    (s : Engine) : Prop :=
  (exists n, node_arena s !! node = Some n /\
     forall occupier,
       m_vertexOccupiers s !! m_halfedgeIndexMap (entry_edge n) = Some occupier ->
       fst occupier <> Some node) /\
  m_closestToVertices s !! v = Some (Some node, d).

Definition keeps_closest_not_occupier (node : node_ptr) (v : nat) (d : FT)
    (s s' : Engine) : Prop :=
  closest_not_occupier node v d s -> closest_not_occupier node v d s'.

(** The entry [e] of the occupier table holds the distance [d], for [node]
    or, once [node] was deleted, for no node. *)
Definition occupied_by (node : node_ptr) (e : nat) (d : FT) (s : Engine) : Prop :=
  exists first, m_vertexOccupiers s !! e = Some (first, d) /\
                (first = Some node \/ first = None).

Definition keeps_occupied_by (node : node_ptr) (e : nat) (d : FT)
    (s s' : Engine) : Prop :=
  occupied_by node e d s -> occupied_by node e d s'.

(** The occupier table is what it was. *)
Definition same_occupiers (s s' : Engine) : Prop :=
  m_vertexOccupiers s' = m_vertexOccupiers s.

(** On which side of the occupier [o] the node [n] lies: a vertex-source
    node is to the right; else a node facing a vertex-source occupier is to
    the left; else the node is to the left exactly when the comparison of
    the two intersections along the entry segment says SMALLER. *)
Definition left_of_occupier (n o : Cone_tree_node) : bool :=
  if is_vertex_node n then false
  else if is_vertex_node o then true
  else bool_decide
         (compare_relative_intersection_along_segment_2
            (entry_segment n) (supporting_line (ray_to_target_vertex n))
            (entry_segment o) (supporting_line (ray_to_target_vertex o))
          = SMALLER).

(** [||p - q||] *)
Definition norm_2 (p q : Point_2) : FT :=
  FT_sqrt (compute_squared_distance_2 p q).

(** The route through the window endpoint [X] is longer than the route
    through the vertex at [v], whose distance [known] is recorded:
    [d + ||I - X|| > known + ||v - X||]. *)
Definition dominated_at (c : Cone_tree_node) (known : Node_distance_pair)
    (v X : Point_2) : Prop :=
  fst known <> None /\
  FT_greater (FT_plus (distance_from_source_to_root c) (norm_2 (source_image c) X))
             (FT_plus (snd known) (norm_2 v X)) = true.

(** The three dominance checks of the filter for a window [A B], the entry
    segment [v1 v3] and the opposite corner [v2]. *)
Definition dominated (c : Cone_tree_node) (A B v1 v3 : Point_2)
    (known1 known2 known3 : Node_distance_pair) : Prop :=
  dominated_at c known1 v1 B \/
  dominated_at c known2 (target_vertex_location c) A \/
  dominated_at c known3 v3 A.

(** The step of the walks around a vertex, in [is_boundary_vertex] and in
    [expand_pseudo_source]: [opposite(next(h))]. *)
Definition around (h : halfedge_descriptor) : halfedge_descriptor :=
  opposite m_polyhedron (next m_polyhedron h).

(** The halfedge or its opposite lies on the null face. *)
Definition on_border (h : halfedge_descriptor) : Prop :=
  face m_polyhedron h = None \/ face m_polyhedron (opposite m_polyhedron h) = None.

(** The roots and the source locations are what they were. *)
Definition roots_kept (s s' : Engine) : Prop :=
  m_rootNodes s' = m_rootNodes s /\ m_faceLocations s' = m_faceLocations s.

(** The node [expand_pseudo_source] constructs for the halfedge
    [currentEdge]. *)
Definition vertex_source_child (distanceFromTargetToRoot : FT)
    (currentEdge : halfedge_descriptor) : Cone_tree_node :=
  let layoutFace :=
    project_triangle_3_to_triangle_2 (triangle_from_halfedge currentEdge) in
  cone_node currentEdge layoutFace (triangle_vertex layoutFace 1)
    distanceFromTargetToRoot (triangle_vertex layoutFace 0)
    (triangle_vertex layoutFace 2) VERTEX_SOURCE.

(** The node [expand_face_root] constructs for the corner [currentVertex]
    of the face, entered through [current]. *)
Definition face_source_child (faceLocation : Barycentric_coordinate)
    (current : halfedge_descriptor) (currentVertex : nat) : Cone_tree_node :=
  let layoutFace :=
    project_triangle_3_to_triangle_2 (triangle_from_halfedge current) in
  let rotatedFaceLocation :=
    (barycentric_weight faceLocation currentVertex,
     barycentric_weight faceLocation ((currentVertex + 1) mod 3),
     barycentric_weight faceLocation ((currentVertex + 2) mod 3)) in
  cone_node current layoutFace
    (construct_triangle_location_2 layoutFace rotatedFaceLocation) FT_zero
    (triangle_vertex layoutFace 0) (triangle_vertex layoutFace 2) FACE_SOURCE.

(** The node [expand_left_child] and [expand_right_child] construct across
    [edge] for the cone [c] and the window [windowSegment]. *)
Definition interval_child (c : Cone_tree_node) (edge : halfedge_descriptor)
    (base windowSegment : Segment_2) : Cone_tree_node :=
  cone_node edge
    (flatten_triangle_3_along_segment_2 (triangle_from_halfedge edge) 0 base)
    (source_image c) (distance_from_source_to_root c)
    (segment_vertex windowSegment 0) (segment_vertex windowSegment 1) INTERVAL.

(** The [k]-th root is a root node with tree id [k], and there is a source
    location for each root. *)
Definition roots_aligned (s : Engine) : Prop :=
  length (m_rootNodes s) = length (m_faceLocations s) /\
  forall k r, m_rootNodes s !! k = Some r ->
    exists n, node_arena s !! r = Some n /\
              is_root_node n = true /\ tree_id n = k.

(** The node [n] at index [i] of the arena [l] is a root, or is linked to a
    parent allocated before it, one level above it and of its tree. *)
Definition parent_linked (l : list Cone_tree_node) (i : nat)
    (n : Cone_tree_node) : Prop :=
  match parent n with
  | None => node_type n = ROOT /\ level n = 0
  | Some p =>
      p < i /\ node_type n <> ROOT /\
      exists pn, l !! p = Some pn /\
                 level n = S (level pn) /\ tree_id n = tree_id pn
  end.

Definition well_linked (s : Engine) : Prop :=
  forall i n, node_arena s !! i = Some n -> parent_linked (node_arena s) i n.

(** The nodes [added] were allocated after those of [s], each a root or
    linked to a parent, and each of one of the [kinds]; the nodes of [s] are
    the cones they were. *)
Definition grows (kinds : list Node_type) (added : list Cone_tree_node)
    (s s' : Engine) : Prop :=
  cones_extended added s s' /\
  forall j a, added !! j = Some a ->
    node_type a ∈ kinds /\
    parent_linked (node_arena s ++ added) (length (node_arena s) + j) a.

(** The nodes from [here] up to its root, the root left out, as far as
    [fuel] links. *)
Fixpoint ancestors (fuel : nat) (s : Engine) (here : node_ptr)
    : list Cone_tree_node :=
  match fuel with
  | 0 => []
  | S fuel' =>
      match node_arena s !! here with
      | None => []
      | Some c =>
          if is_root_node c then []
          else c :: match parent c with
                    | Some p => ancestors fuel' s p
                    | None => []
                    end
      end
  end.

(** The call a path visitor receives for the node [c]. *)
Definition reports (s : Engine) (c : Cone_tree_node) (call : Path_event) : Prop :=
  match node_type c with
  | INTERVAL | EDGE_SOURCE => exists t, call = visitor_edge (entry_edge c) t
  | VERTEX_SOURCE => call = visitor_vertex (target m_polyhedron (entry_edge c))
  | FACE_SOURCE =>
      exists location,
        m_faceLocations s !! tree_id c = Some location /\
        call = visitor_face (fst location) (snd location)
  | ROOT => False
  end.

(** A step that creates no event and moves none: the queue is what it
    was, no node was allocated and every node is the cone it was, and every
    event was there before, with the parent it has. *)
Definition quiet (s s' : Engine) : Prop :=
  m_expansionPriqueue s' = m_expansionPriqueue s /\
  length (event_arena s') = length (event_arena s) /\
  same_cones s s' /\
  forall e ev', event_arena s' !! e = Some (Some ev') ->
    exists ev, event_arena s !! e = Some (Some ev) /\
               m_parentNode ev' = m_parentNode ev.

(** No node is deeper than the number of faces, and every event that is
    allocated and not destroyed expands a node above that depth. *)
Definition depth_bounded (s : Engine) : Prop :=
  (forall i n, node_arena s !! i = Some n -> level n <= num_faces m_polyhedron) /\
  (forall e ev, event_arena s !! e = Some (Some ev) ->
     exists pn, node_arena s !! m_parentNode ev = Some pn /\
                level pn < num_faces m_polyhedron).

(** The nodes of the tree under [node], in the order [add_to_face_list]
    visits them: the node, then the subtrees of its left child, of its
    right child and of its middle children; as far as [fuel] links down. *)
Fixpoint cone_tree (fuel : nat) (arena : list Cone_tree_node) (node : node_ptr)
    : list node_ptr :=
  match fuel with
  | 0 => []
  | S fuel' =>
      match arena !! node with
      | None => []
      | Some n => node :: flat_map (cone_tree fuel' arena) (children_of n)
      end
  end.

(** The node [p] is not a root, and its entry halfedge has the face of
    index [i]. *)
Definition occupies (arena : list Cone_tree_node) (i : nat) (p : node_ptr) : bool :=
  match arena !! p with
  | None => false
  | Some n =>
      negb (is_root_node n) &&
      match current_face n with
      | Some f => bool_decide (m_faceIndexMap f = i)
      | None => false
      end
  end.

(** Only the face lists changed; each got, at its end and in their order,
    those of the nodes [added] that occupy its face. *)
Definition face_lists_extended (added : list node_ptr) (s s' : Engine) : Prop :=
  s' = with_faceOccupiers (m_faceOccupiers s') s /\
  length (m_faceOccupiers s') = length (m_faceOccupiers s) /\
  forall i l, m_faceOccupiers s !! i = Some l ->
    m_faceOccupiers s' !! i
    = Some (l ++ List.filter (occupies (node_arena s) i) added).

(** The closest-node table after deletions: every entry is what it was, or
    lost its node and kept its distance. *)
Definition closest_released (s s' : Engine) : Prop :=
  length (m_closestToVertices s') = length (m_closestToVertices s) /\
  forall i x, m_closestToVertices s !! i = Some x ->
    m_closestToVertices s' !! i = Some x \/
    m_closestToVertices s' !! i = Some (None, snd x).

End Vocabulary.

(** ** States to run the class on *)

Definition one_triangle_members : @Members Z_field planar_traits :=
  @Build_Members Z_field planar_traits one_triangle id id id one_triangle_points.

Definition two_triangles_members : @Members Z_field planar_traits :=
  @Build_Members Z_field planar_traits two_triangles id id id two_triangles_points.

(** The state a run ends in; the start state when it does not end well. *)
Definition state_after {NT : Field_type} {A : Type} (m : M A) (s : Engine)
    : Engine :=
  match m s with
  | Ok (_, s') => s'
  | _ => s
  end.

Definition empty_engine {NT : Field_type} : Engine :=
  {| m_vertexIsPseudoSource := [];
     m_vertexOccupiers := [];
     m_closestToVertices := [];
     m_rootNodes := [];
     m_faceLocations := [];
     m_faceOccupiers := [];
     m_expansionPriqueue := [];
     node_arena := [];
     event_arena := [] |}.

Definition rectangle_members : @Members Z_field planar_traits :=
  @Build_Members Z_field planar_traits rectangle id id id rectangle_points.

Section Concrete_states.
#[local] Existing Instance Z_field.
#[local] Existing Instance planar_traits.
#[local] Existing Instance planar_geometry.

(** The tables sized for the mesh, every vertex classified and every entry
    cleared: [reset_containers] and the loop of [set_vertex_types] over
    the vertices. *)
Definition prepared_two_triangles : Engine :=
  state_after
    (reset_containers (this := two_triangles_members) ;;;
     for_each (vertices two_triangles)
       (set_vertex_types_vertex (this := two_triangles_members) 12))
    empty_engine.

(** The rest of [compute_shortest_paths] from there, for one source at
    vertex 0 (on the first triangle). *)
Definition solved_two_triangles : Engine :=
  state_after
    (expand_roots (this := two_triangles_members) 12
       [(0, (1, 0, 0)%Z) : Face_location_pair] ;;;
     event_loop (this := two_triangles_members) 12 ;;;
     build_face_occupiers (this := two_triangles_members) 12)
    prepared_two_triangles.

(** The same on the rectangle, for one source inside face 0; first up to
    the event loop, then with the first event processed. *)
Definition prepared_rectangle : Engine :=
  state_after
    (reset_containers (this := rectangle_members) ;;;
     for_each (vertices rectangle)
       (set_vertex_types_vertex (this := rectangle_members) 20))
    empty_engine.

Definition seeded_rectangle : Engine :=
  state_after
    (expand_roots (this := rectangle_members) 20
       [(0, (1, 1, 1)%Z) : Face_location_pair])
    prepared_rectangle.

(** The first event processed (the pseudo-source at vertex 2, which puts
    the vertex-source node 5 on halfedge 3), and the second event, the left
    child of node 2 across the diagonal, taken from the queue and expanded
    up to the call of [process_node]: its child is node 7, linked and not
    yet processed. *)
Definition linked_rectangle : Engine :=
  state_after
    (event_loop_body (this := rectangle_members) 20 ;;;
     priqueue_pop ;;;
     update_node 2 (with_pendingLeftSubtree None) ;;;
     c <- deref_node 2 ;;
     child <- new_node
                (cone_node (left_child_edge (this := rectangle_members) c)
                   (flatten_triangle_3_along_segment_2
                      (triangle_from_halfedge (this := rectangle_members)
                         (left_child_edge (this := rectangle_members) c)) 0
                      (left_child_base_segment c))
                   (source_image c) (distance_from_source_to_root c)
                   (4, 3)%Z (0, 0)%Z INTERVAL) ;;
     set_left_child 2 child)
    seeded_rectangle.

(** A location on halfedge 0 of face 0, the bottom side of the rectangle,
    with weight on both its ends and none on the corner opposite.  The
    opposite halfedge 6 is on the border. *)
Definition on_bottom_side : Barycentric_coordinate := (1, 1, 0)%Z.

Definition edge_seeded_rectangle : Engine :=
  state_after
    (expand_root (this := rectangle_members) 20 0 on_bottom_side)
    prepared_rectangle.

(** The rectangle with its source at vertex 0: the root has a child for
    each of the three halfedges around the vertex, and these have the four
    events of the queue pending.  Then the root deleted. *)
Definition vertex_seeded_rectangle : Engine :=
  state_after
    (expand_roots (this := rectangle_members) 20
       [(0, (1, 0, 0)%Z) : Face_location_pair])
    prepared_rectangle.

Definition deleted_rectangle : Engine :=
  state_after (delete_node (this := rectangle_members) 20 (Some 0))
    vertex_seeded_rectangle.

(** The loop run on the queue of cancelled events this leaves. *)
Definition drained_rectangle : Engine :=
  state_after (event_loop (this := rectangle_members) 20) deleted_rectangle.

(** The window of the left child event pending at node 2 there: the whole
    diagonal, from vertex 2 to vertex 0. *)
Definition diagonal_window : Segment_2 := ((4, 3), (0, 0))%Z.

(** The source of [solved_two_triangles] as a location of face 0. *)
Definition at_vertex_0 : Barycentric_coordinate := (1, 0, 0)%Z.

(** A location inside a face. *)
Definition at_centroid : Barycentric_coordinate := (1, 1, 1)%Z.

Definition no_node_at_zero : Node_distance_pair := (None, 0%Z).
Definition root_at_zero : Node_distance_pair := (Some 0, 0%Z).

(** A query point: vertex 1 as a location of face 0. *)
Definition at_vertex_1 : Barycentric_coordinate := (0, 1, 0)%Z.

(** The rectangle's tables sized and cleared, before the vertices are
    classified. *)
Definition reset_rectangle : Engine :=
  state_after (reset_containers (this := rectangle_members)) empty_engine.

(** The rectangle with two sources, one inside face 0 and one at vertex 2
    (the corner 1 of face 1), before and after the event loop. *)
Definition two_sources : list Face_location_pair :=
  [(0, at_centroid); (1, at_vertex_1)].

Definition two_sources_rectangle : Engine :=
  state_after (expand_roots (this := rectangle_members) 20 two_sources)
    prepared_rectangle.

Definition solved_rectangle : Engine :=
  state_after (event_loop (this := rectangle_members) 40) two_sources_rectangle.

(** The face lists built on the solved rectangle. *)
Definition listed_rectangle : Engine :=
  state_after (build_face_occupiers (this := rectangle_members) 20)
    solved_rectangle.

(** The first child of the face root of [seeded_rectangle], across
    halfedge 0. *)
Definition first_child : Cone_tree_node :=
  default (root_node 0 0) (node_arena seeded_rectangle !! 1).

(** The nodes of the two trees of [solved_rectangle] on face 0, in the
    order the walk from the roots meets them. *)
Definition cones_on_face_0 : list Cone_tree_node :=
  omap (fun p => node_arena solved_rectangle !! p) [1; 11; 2; 3; 5; 16; 9].

(** The prepared rectangle with the location of vertex 0 recorded, as the
    loop over the source locations has it when it calls [expand_root]. *)
Definition located_rectangle : Engine :=
  with_faceLocations [(0, at_vertex_0) : Face_location_pair] prepared_rectangle.

End Concrete_states.

Lemma Z_field_ordered : Ordered_with_sqrt Z_field.
Proof.
  split; cbn.
  - intros a. apply Z.ltb_irrefl.
  - intros a b c Hab Hbc. apply Z.ltb_lt in Hab, Hbc. apply Z.ltb_lt. lia.
  - intros a b c Hab Hbc. apply Z.ltb_ge in Hab, Hbc. apply Z.ltb_ge. lia.
  - intros d x. apply Z.ltb_ge. pose proof (Z.sqrt_nonneg x). lia.
Qed.

Section Verification.
Context {NT : Field_type} {K : Traits} {CG : Cone_tree_geometry} {this : Members}.

(** * Reasoning about runs *)

Lemma bind_Ok {A B : Type} (m : M A) (k : A -> M B) (s s' : Engine) (b : B) :
  bind m k s = Ok (b, s') <->
  exists a s1, m s = Ok (a, s1) /\ k a s1 = Ok (b, s').
Proof.
  unfold bind. destruct (m s) as [[a s1] | f |].
  - split; [intros H; exists a, s1; auto |].
    intros (a' & s1' & Heq & Hk). congruence.
  - split; [discriminate | intros (a' & s1' & Heq & _); discriminate].
  - split; [discriminate | intros (a' & s1' & Heq & _); discriminate].
Qed.

Lemma bind_run {A B : Type} (m : M A) (k : A -> M B) (s s1 : Engine) (a : A) :
  m s = Ok (a, s1) -> bind m k s = k a s1.
Proof. intros H. unfold bind. rewrite H. reflexivity. Qed.

(** A run that succeeds relates its two states by [R]. *)
Definition preserves {A : Type} (R : Engine -> Engine -> Prop) (m : M A) : Prop :=
  forall s a s', m s = Ok (a, s') -> R s s'.

Section Preserves.
Context (R : Engine -> Engine -> Prop) {R_preorder : PreOrder R}.

Lemma preserves_ret {A : Type} (a : A) : preserves R (ret a).
Proof. intros s a' s' H. injection H as _ <-. reflexivity. Qed.

Lemma preserves_bind {A B : Type} (m : M A) (k : A -> M B) :
  preserves R m -> (forall a, preserves R (k a)) -> preserves R (bind m k).
Proof.
  intros Hm Hk s b s' H. apply bind_Ok in H as (a & s1 & H1 & H2).
  transitivity s1; [eapply Hm | eapply Hk]; eauto.
Qed.

Lemma preserves_fault {A : Type} (f : Fault) : preserves R (@fault _ A f).
Proof. intros s a s' H. discriminate. Qed.

Lemma preserves_out_of_fuel {A : Type} : preserves R (@out_of_fuel _ A).
Proof. intros s a s' H. discriminate. Qed.

Lemma preserves_gets {A : Type} (f : Engine -> A) : preserves R (gets f).
Proof. intros s a s' H. injection H as _ <-. reflexivity. Qed.

Lemma preserves_vector_read {A : Type} (v : Engine -> list A) (i : nat) :
  preserves R (vector_read v i).
Proof.
  intros s a s' H. unfold vector_read in H.
  destruct (v s !! i); [injection H as _ <-; reflexivity | discriminate].
Qed.

Lemma preserves_deref_node (p : node_ptr) : preserves R (deref_node p).
Proof.
  intros s a s' H. unfold deref_node in H.
  destruct (node_arena s !! p); [injection H as _ <-; reflexivity | discriminate].
Qed.

Lemma preserves_deref (p : option node_ptr) : preserves R (deref p).
Proof.
  destruct p; [apply preserves_deref_node | apply preserves_fault].
Qed.

Lemma preserves_deref_event (e : event_ptr) : preserves R (deref_event e).
Proof.
  intros s a s' H. unfold deref_event in H.
  destruct (event_arena s !! e) as [[ev|]|];
    [injection H as _ <-; reflexivity | discriminate | discriminate].
Qed.

Lemma preserves_when (c : bool) (m : M unit) :
  preserves R m -> preserves R (when c m).
Proof. intros H. destruct c; [exact H | apply preserves_ret]. Qed.

Lemma preserves_for_each {A : Type} (l : list A) (body : A -> M unit) :
  (forall x, preserves R (body x)) -> preserves R (for_each l body).
Proof.
  intros H. induction l as [| x l IH]; simpl.
  - apply preserves_ret.
  - apply preserves_bind; auto.
Qed.

Lemma preserves_while_loop (k : nat) (cond : M bool) (body : M unit) :
  preserves R cond -> preserves R body -> preserves R (while_loop k cond body).
Proof.
  intros Hc Hb. induction k as [| k IH]; simpl.
  - apply preserves_out_of_fuel.
  - apply preserves_bind; [exact Hc |].
    intros [|]; [apply preserves_bind; auto | apply preserves_ret].
Qed.

Lemma preserves_node_has_middle_children (p : node_ptr) :
  preserves R (node_has_middle_children p).
Proof.
  apply preserves_bind; [apply preserves_deref_node | intros; apply preserves_ret].
Qed.

End Preserves.

(** ** What a successful run of each primitive did *)

Lemma ret_Ok {A : Type} (a a' : A) (s s' : Engine) :
  ret a s = Ok (a', s') -> a' = a /\ s' = s.
Proof. intros H. injection H as <- <-. auto. Qed.

Lemma gets_Ok {A : Type} (f : Engine -> A) (a : A) (s s' : Engine) :
  gets f s = Ok (a, s') -> a = f s /\ s' = s.
Proof. intros H. injection H as <- <-. auto. Qed.

Lemma modify_Ok (f : Engine -> Engine) (u : unit) (s s' : Engine) :
  modify f s = Ok (u, s') -> s' = f s.
Proof. intros H. injection H as _ <-. reflexivity. Qed.

Lemma deref_node_inv (p : node_ptr) (s s' : Engine) (n : Cone_tree_node) :
  deref_node p s = Ok (n, s') -> node_arena s !! p = Some n /\ s' = s.
Proof.
  unfold deref_node. destruct (node_arena s !! p); [| discriminate].
  intros H. injection H as <- <-. auto.
Qed.

Lemma deref_node_Ok (p : node_ptr) (s : Engine) (n : Cone_tree_node) :
  node_arena s !! p = Some n -> deref_node p s = Ok (n, s).
Proof. intros H. unfold deref_node. rewrite H. reflexivity. Qed.

Lemma deref_event_inv (e : event_ptr) (s s' : Engine) (ev : Cone_expansion_event) :
  deref_event e s = Ok (ev, s') -> event_arena s !! e = Some (Some ev) /\ s' = s.
Proof.
  unfold deref_event. destruct (event_arena s !! e) as [[ev' |] |]; try discriminate.
  intros H. injection H as <- <-. auto.
Qed.

Lemma vector_read_inv {A : Type} (v : Engine -> list A) (i : nat) (x : A)
    (s s' : Engine) :
  vector_read v i s = Ok (x, s') -> v s !! i = Some x /\ s' = s.
Proof.
  unfold vector_read. destruct (v s !! i); [| discriminate].
  intros H. injection H as <- <-. auto.
Qed.

Lemma vector_read_Ok {A : Type} (v : Engine -> list A) (i : nat) (x : A)
    (s : Engine) :
  v s !! i = Some x -> vector_read v i s = Ok (x, s).
Proof. intros H. unfold vector_read. rewrite H. reflexivity. Qed.

Lemma vector_write_inv {A : Type} (v : Engine -> list A)
    (set : list A -> Engine -> Engine) (i : nat) (x : A) (u : unit)
    (s s' : Engine) :
  vector_write v set i x s = Ok (u, s') ->
  i < length (v s) /\ s' = set (<[i := x]> (v s)) s.
Proof.
  unfold vector_write. destruct (decide (i < length (v s))); [| discriminate].
  intros H. injection H as _ <-. auto.
Qed.

Lemma update_node_inv (p : node_ptr) (f : Cone_tree_node -> Cone_tree_node)
    (u : unit) (s s' : Engine) :
  update_node p f s = Ok (u, s') ->
  exists n, node_arena s !! p = Some n /\
            s' = with_node_arena (<[p := f n]> (node_arena s)) s.
Proof.
  unfold update_node. intros H. apply bind_Ok in H as (n & s1 & H1 & H2).
  apply deref_node_inv in H1 as [Hn ->]. apply modify_Ok in H2.
  exists n. auto.
Qed.

Lemma set_cancelled_inv (e : event_ptr) (u : unit) (s s' : Engine) :
  set_cancelled e s = Ok (u, s') ->
  exists ev, event_arena s !! e = Some (Some ev) /\
             s' = with_event_arena (<[e := Some (cancel ev)]> (event_arena s)) s.
Proof.
  unfold set_cancelled. intros H. apply bind_Ok in H as (ev & s1 & H1 & H2).
  apply deref_event_inv in H1 as [Hev ->]. apply modify_Ok in H2.
  exists ev. auto.
Qed.

Lemma new_event_inv (ev : Cone_expansion_event) (e : event_ptr) (s s' : Engine) :
  new_event ev s = Ok (e, s') ->
  e = length (event_arena s) /\
  s' = with_event_arena (event_arena s ++ [Some ev]) s.
Proof. intros H. injection H as <- <-. auto. Qed.

Lemma new_node_inv (n : Cone_tree_node) (p : node_ptr) (s s' : Engine) :
  new_node n s = Ok (p, s') ->
  p = length (node_arena s) /\
  s' = with_node_arena (node_arena s ++ [n]) s.
Proof. intros H. injection H as <- <-. auto. Qed.

Lemma delete_event_inv (e : event_ptr) (u : unit) (s s' : Engine) :
  delete_event e s = Ok (u, s') ->
  exists ev, event_arena s !! e = Some (Some ev) /\
             s' = with_event_arena (<[e := None]> (event_arena s)) s.
Proof.
  unfold delete_event. destruct (event_arena s !! e) as [[ev |] |]; try discriminate.
  intros H. injection H as _ <-. exists ev. auto.
Qed.

Lemma preserves_modify (R : Engine -> Engine -> Prop) (f : Engine -> Engine) :
  (forall s, R s (f s)) -> preserves R (modify f).
Proof. intros H s u s' Hrun. apply modify_Ok in Hrun as ->. apply H. Qed.

Lemma preserves_vector_write {A : Type} (R : Engine -> Engine -> Prop)
    (v : Engine -> list A) (set : list A -> Engine -> Engine) (i : nat) (x : A) :
  (forall s, i < length (v s) -> R s (set (<[i := x]> (v s)) s)) ->
  preserves R (vector_write v set i x).
Proof.
  intros H s u s' Hrun. apply vector_write_inv in Hrun as [Hi ->]. auto.
Qed.

(** Reads the fields of an updated state. *)
Ltac simpl_engine :=
  cbn [m_vertexIsPseudoSource m_vertexOccupiers m_closestToVertices m_rootNodes
       m_faceLocations m_faceOccupiers m_expansionPriqueue node_arena event_arena
       with_vertexIsPseudoSource with_vertexOccupiers with_closestToVertices
       with_rootNodes with_faceLocations with_faceOccupiers
       with_expansionPriqueue with_node_arena with_event_arena] in *.

(** Decomposes a hypothesis that a run ended well. *)
Ltac run_inv H :=
  repeat match type of H with
  | bind _ _ _ = Ok _ =>
      let a := fresh "a" in let s := fresh "s" in let H1 := fresh "Hrun" in
      apply bind_Ok in H as (a & s & H1 & H); run_inv H1
  | ret _ _ = Ok _ => apply ret_Ok in H as [? ?]; subst
  | gets _ _ = Ok _ => apply gets_Ok in H as [? ?]; subst
  | modify _ _ = Ok _ => apply modify_Ok in H; subst
  | deref_node _ _ = Ok _ => apply deref_node_inv in H as [? ?]; subst
  | deref_event _ _ = Ok _ => apply deref_event_inv in H as [? ?]; subst
  | vector_read _ _ _ = Ok _ => apply vector_read_inv in H as [? ?]; subst
  | vector_write _ _ _ _ _ = Ok _ => apply vector_write_inv in H as [? ?]; subst
  | update_node _ _ _ = Ok _ => apply update_node_inv in H as (? & ? & ?); subst
  | set_cancelled _ _ = Ok _ => apply set_cancelled_inv in H as (? & ? & ?); subst
  | new_event _ _ = Ok _ => apply new_event_inv in H as [? ?]; subst
  | new_node _ _ = Ok _ => apply new_node_inv in H as [? ?]; subst
  | delete_event _ _ = Ok _ => apply delete_event_inv in H as (? & ? & ?); subst
  | fault _ _ = Ok _ => discriminate H
  | out_of_fuel _ = Ok _ => discriminate H
  | when ?c _ _ = Ok _ => unfold when in H
  | (if ?b then _ else _) _ = Ok _ => destruct b eqn:?
  | (match ?x with _ => _ end) _ = Ok _ => destruct x eqn:?
  end.

Ltac preserves_step :=
  match goal with
  | |- PreOrder _ => exact _
  | |- forall _, _ => intros ?
  | |- preserves _ (bind _ _) => apply preserves_bind
  | |- preserves _ (ret _) => apply preserves_ret
  | |- preserves _ (fault _) => apply preserves_fault
  | |- preserves _ out_of_fuel => apply preserves_out_of_fuel
  | |- preserves _ (gets _) => apply preserves_gets
  | |- preserves _ (vector_read _ _) => apply preserves_vector_read
  | |- preserves _ (deref_node _) => apply preserves_deref_node
  | |- preserves _ (deref _) => apply preserves_deref
  | |- preserves _ (deref_event _) => apply preserves_deref_event
  | |- preserves _ (when _ _) => apply preserves_when
  | |- preserves _ (for_each _ _) => apply preserves_for_each
  | |- preserves _ (while_loop _ _ _) => apply preserves_while_loop
  | |- preserves _ (node_has_middle_children _) =>
      apply preserves_node_has_middle_children
  | |- preserves _ (match ?x with _ => _ end) => destruct x
  end.

(** ** Relations kept by [delete_node] *)

(** The steps [delete_node] is made of. *)
Class Delete_frame (R : Engine -> Engine -> Prop) : Prop := {
  delete_frame_preorder :: PreOrder R;
  step_cancel_pending_left : forall p, preserves R (cancel_pending_left p);
  step_cancel_pending_right : forall p, preserves R (cancel_pending_right p);
  step_cancel_pending_middle : forall p, preserves R (cancel_pending_middle p);
  step_remove_left_child : forall p, preserves R (remove_left_child p);
  step_remove_right_child : forall p, preserves R (remove_right_child p);
  step_pop_middle_child : forall p, preserves R (pop_middle_child p);
  step_release_occupancy : forall p, preserves R (release_occupancy p);
}.

(** Relations that look at no link between nodes are kept by
    [delete_node] as soon as they are kept by a change of links, by a
    cancellation and by the release of the entry halfedge. *)
Class Link_frame (R : Engine -> Engine -> Prop) : Prop := {
  link_frame_preorder :: PreOrder R;
  link_update_node : forall p f,
    (forall n, cone_of (f n) = cone_of n) -> preserves R (update_node p f);
  link_set_cancelled : forall e, preserves R (set_cancelled e);
  link_release_occupancy : forall p, preserves R (release_occupancy p);
}.

Lemma link_delete_frame (R : Engine -> Engine -> Prop) `{!Link_frame R} :
  Delete_frame R.
Proof.
  split; [exact _ | ..]; intros p;
    unfold cancel_pending_left, cancel_pending_right, cancel_pending_middle,
      remove_left_child, remove_right_child, pop_middle_child;
    repeat first
      [ apply link_release_occupancy | apply link_set_cancelled
      | apply link_update_node; intros ?; reflexivity | preserves_step ].
Qed.

(** The steps of [process_node] after the arbitration, of the arbitration
    itself, and of the expansions. *)
Class Process_frame (R : Engine -> Engine -> Prop) : Prop := {
  process_frame_delete :: Delete_frame R;
  step_update_node : forall p f,
    (forall n, cone_of (f n) = cone_of n) -> preserves R (update_node p f);
  step_new_event : forall ev, preserves R (new_event ev);
  step_priqueue_push : forall e, preserves R (priqueue_push e);
  step_write_closest : forall i x,
    preserves R (vector_write m_closestToVertices with_closestToVertices i x);
}.

Class Arbitration_frame (R : Engine -> Engine -> Prop) : Prop := {
  arbitration_frame_process :: Process_frame R;
  step_write_occupiers : forall i x,
    preserves R (vector_write m_vertexOccupiers with_vertexOccupiers i x);
}.

Class Expand_frame (R : Engine -> Engine -> Prop) : Prop := {
  expand_frame_arbitration :: Arbitration_frame R;
  step_new_node : forall n, preserves R (new_node n);
  step_link : forall child p pn, preserves R (update_node child (on_child_link p pn));
}.

Lemma preserves_delete_node (R : Engine -> Engine -> Prop) `{!Delete_frame R}
    (fuel : nat) (node : option node_ptr) :
  preserves R (delete_node fuel node).
Proof.
  revert node. induction fuel as [| fuel IH]; intros [p |];
    try (apply preserves_ret; exact _); try (apply preserves_out_of_fuel; exact _).
  cbn [delete_node].
  repeat first
    [ apply step_cancel_pending_left | apply step_cancel_pending_right
    | apply step_cancel_pending_middle | apply step_remove_left_child
    | apply step_remove_right_child | apply step_pop_middle_child
    | apply step_release_occupancy | apply IH | preserves_step ].
Qed.

Lemma preserves_evict_loser (R : Engine -> Engine -> Prop) `{!Delete_frame R}
    (fuel : nat) (currentOccupier : Node_distance_pair) (isLeftOfCurrent : bool) :
  preserves R (evict_loser fuel currentOccupier isLeftOfCurrent).
Proof.
  unfold evict_loser.
  repeat first
    [ apply step_cancel_pending_left | apply step_cancel_pending_right
    | apply step_remove_left_child | apply step_remove_right_child
    | apply preserves_delete_node; assumption | preserves_step ].
Qed.

Ltac preserves_auto :=
  repeat first
    [ apply step_cancel_pending_left | apply step_cancel_pending_right
    | apply step_cancel_pending_middle | apply step_remove_left_child
    | apply step_remove_right_child | apply step_pop_middle_child
    | apply step_release_occupancy
    | apply preserves_delete_node; exact _
    | apply preserves_evict_loser; exact _
    | apply step_new_event | apply step_priqueue_push
    | apply step_write_closest | apply step_write_occupiers
    | apply step_new_node | apply step_link
    | apply step_update_node; intros ?; reflexivity
    | preserves_step ].

Section Process_frames.
Context (R : Engine -> Engine -> Prop).

Lemma preserves_push_left_child `{!Process_frame R} (p : node_ptr) :
  preserves R (push_left_child p).
Proof. unfold push_left_child, new_cone_expansion_event. preserves_auto. Qed.

Lemma preserves_push_right_child `{!Process_frame R} (p : node_ptr) :
  preserves R (push_right_child p).
Proof. unfold push_right_child, new_cone_expansion_event. preserves_auto. Qed.

Lemma preserves_push_middle_child `{!Process_frame R} (p : node_ptr) :
  preserves R (push_middle_child p).
Proof. unfold push_middle_child, new_cone_expansion_event. preserves_auto. Qed.

Lemma preserves_update_closest `{!Process_frame R} (fuel : nat) (node : node_ptr)
    (n : Cone_tree_node) (d : FT) :
  preserves R (update_closest fuel node n d).
Proof. unfold update_closest. preserves_auto. Qed.

Lemma preserves_is_left_of_current `{!PreOrder R} (n : Cone_tree_node)
    (occ : Node_distance_pair) :
  preserves R (is_left_of_current n occ).
Proof. unfold is_left_of_current. repeat preserves_step. Qed.

(** The pushes that end [process_node]. *)
Lemma preserves_propagate `{!Process_frame R} (node : node_ptr)
    (left right middle : bool) :
  preserves R
    (when left (push_left_child node) ;;;
     when right (push_right_child node) ;;;
     when middle (push_middle_child node)).
Proof.
  repeat first
    [ apply preserves_push_left_child | apply preserves_push_right_child
    | apply preserves_push_middle_child | preserves_step ].
Qed.

Lemma preserves_arbitrate `{!Arbitration_frame R} (node : node_ptr)
    (n : Cone_tree_node) :
  preserves R (arbitrate node n).
Proof.
  unfold arbitrate.
  repeat first [ apply preserves_is_left_of_current; exact _ | preserves_auto ].
Qed.

Lemma preserves_process_node `{!Arbitration_frame R} (fuel : nat) (node : node_ptr) :
  preserves R (process_node fuel node).
Proof.
  unfold process_node.
  repeat first
    [ apply preserves_arbitrate | apply preserves_update_closest
    | apply preserves_push_left_child | apply preserves_push_right_child
    | apply preserves_push_middle_child | preserves_auto ].
Qed.

End Process_frames.

(** ** Two relations every step keeps *)

Lemma same_cones_refl (s : Engine) : same_cones s s.
Proof. split; [reflexivity | intros p n H; exists n; auto]. Qed.

Lemma same_cones_trans (s1 s2 s3 : Engine) :
  same_cones s1 s2 -> same_cones s2 s3 -> same_cones s1 s3.
Proof.
  intros [Hlen12 H12] [Hlen23 H23]. split; [congruence |].
  intros p n Hn. destruct (H12 p n Hn) as (n2 & Hn2 & Heq2).
  destruct (H23 p n2 Hn2) as (n3 & Hn3 & Heq3). exists n3. split; congruence.
Qed.

Lemma same_cones_arena (s s' : Engine) :
  node_arena s' = node_arena s -> same_cones s s'.
Proof. intros H. unfold same_cones. rewrite H. apply same_cones_refl. Qed.

Lemma same_cones_update (s : Engine) (p : node_ptr) (n n' : Cone_tree_node) :
  node_arena s !! p = Some n -> cone_of n' = cone_of n ->
  same_cones s (with_node_arena (<[p := n']> (node_arena s)) s).
Proof.
  intros Hn Heq. split; cbn [node_arena with_node_arena].
  - apply length_insert.
  - intros q m Hm. destruct (decide (q = p)) as [-> |].
    + exists n'. rewrite list_lookup_insert_eq by (eapply lookup_lt_Some; eauto).
      split; congruence.
    + exists m. rewrite list_lookup_insert_ne by auto. auto.
Qed.

Global Instance same_cones_preorder : PreOrder same_cones.
Proof. split; [exact same_cones_refl | exact same_cones_trans]. Qed.

Lemma same_cones_release_occupancy (p : node_ptr) :
  preserves same_cones (release_occupancy p).
Proof.
  intros s u s' Hrun. unfold release_occupancy in Hrun. run_inv Hrun;
    try apply same_cones_refl; apply same_cones_arena; reflexivity.
Qed.

Global Instance same_cones_link_frame : Link_frame same_cones.
Proof.
  split; [exact _ | ..].
  - intros p f Hf s u s' Hrun. run_inv Hrun. eapply same_cones_update; eauto.
  - intros e s u s' Hrun. run_inv Hrun. apply same_cones_arena. reflexivity.
  - exact same_cones_release_occupancy.
Qed.

Global Instance same_cones_arbitration_frame : Arbitration_frame same_cones.
Proof.
  split; [split; [apply link_delete_frame; exact _ | ..] |].
  - apply link_update_node.
  - intros ev s e s' Hrun. run_inv Hrun. apply same_cones_arena. reflexivity.
  - intros e. apply preserves_modify. intros s. apply same_cones_arena. reflexivity.
  - intros i x. apply preserves_vector_write. intros s _.
    apply same_cones_arena. reflexivity.
  - intros i x. apply preserves_vector_write. intros s _.
    apply same_cones_arena. reflexivity.
Qed.

Lemma events_kept_refl (s : Engine) : events_kept s s.
Proof. intros e. split; [auto | reflexivity]. Qed.

Lemma events_kept_trans (s1 s2 s3 : Engine) :
  events_kept s1 s2 -> events_kept s2 s3 -> events_kept s1 s3.
Proof.
  intros H12 H23 e. destruct (H12 e) as [Ha12 Hd12], (H23 e) as [Ha23 Hd23].
  split; [auto |]. rewrite Hd23. exact Hd12.
Qed.

Lemma events_kept_arena (s s' : Engine) :
  event_arena s' = event_arena s -> events_kept s s'.
Proof. intros H e. unfold alive, destroyed. rewrite H. split; [auto | reflexivity]. Qed.

Global Instance events_kept_preorder : PreOrder events_kept.
Proof. split; [exact events_kept_refl | exact events_kept_trans]. Qed.

Lemma events_kept_release_occupancy (p : node_ptr) :
  preserves events_kept (release_occupancy p).
Proof.
  intros s u s' Hrun. unfold release_occupancy in Hrun. run_inv Hrun;
    try apply events_kept_refl; apply events_kept_arena; reflexivity.
Qed.

Global Instance events_kept_link_frame : Link_frame events_kept.
Proof.
  split; [exact _ | ..].
  - intros p f Hf s u s' Hrun. run_inv Hrun. apply events_kept_arena. reflexivity.
  - intros e s u s' Hrun. run_inv Hrun. intros e'.
    unfold alive, destroyed. cbn.
    destruct (decide (e' = e)) as [-> |].
    + rewrite list_lookup_insert_eq by (eapply lookup_lt_Some; eauto).
      split; [eauto |]. split; [discriminate | congruence].
    + rewrite list_lookup_insert_ne by auto. split; [auto | reflexivity].
  - exact events_kept_release_occupancy.
Qed.

Global Instance events_kept_expand_frame : Expand_frame events_kept.
Proof.
  split; [split; [split; [apply link_delete_frame; exact _ | ..] |] | ..].
  - apply link_update_node.
  - intros ev s e s' Hrun. run_inv Hrun. intros e'.
    unfold alive, destroyed. cbn.
    destruct (decide (e' < length (event_arena s))) as [Hlt | Hge].
    + rewrite lookup_app_l by exact Hlt. split; [auto | reflexivity].
    + rewrite (lookup_ge_None_2 (event_arena s) e') by lia.
      split; [intros [? ?]; discriminate |].
      split; [| discriminate].
      intros Hd. apply lookup_app_Some in Hd as [Hd | [_ Hd]].
      * apply lookup_lt_Some in Hd. lia.
      * destruct (e' - length (event_arena s)); discriminate Hd.
  - intros e. apply preserves_modify. intros s. apply events_kept_arena. reflexivity.
  - intros i x. apply preserves_vector_write. intros s _.
    apply events_kept_arena. reflexivity.
  - intros i x. apply preserves_vector_write. intros s _.
    apply events_kept_arena. reflexivity.
  - intros n s q s' Hrun. run_inv Hrun. apply events_kept_arena. reflexivity.
  - intros child q pn s u s' Hrun. run_inv Hrun. apply events_kept_arena. reflexivity.
Qed.

(** ** Deleting a node *)

Lemma cone_of_entry_edge (n n' : Cone_tree_node) :
  cone_of n' = cone_of n -> entry_edge n' = entry_edge n.
Proof. intros H. apply (f_equal m_entryEdge) in H. exact H. Qed.

Section Closest_not_occupier.
Context (node : node_ptr) (v : nat) (d : FT).

Global Instance keeps_closest_not_occupier_preorder :
  PreOrder (keeps_closest_not_occupier node v d).
Proof.
  split; [intros s H; exact H |].
  intros s1 s2 s3 H12 H23 H. apply H23, H12, H.
Qed.

Global Instance keeps_closest_not_occupier_link_frame :
  Link_frame (keeps_closest_not_occupier node v d).
Proof.
  split; [exact _ | ..].
  - intros p f Hf s u s' Hrun. run_inv Hrun.
    intros [(n & Hn & Hocc) Hclosest]. split; [| exact Hclosest].
    simpl_engine.
    destruct (decide (node = p)) as [-> |].
    + replace x with n in * by congruence.
      exists (f n). rewrite list_lookup_insert_eq by (eapply lookup_lt_Some; eauto).
      split; [reflexivity |].
      rewrite (cone_of_entry_edge _ _ (Hf n)). exact Hocc.
    + exists n. rewrite list_lookup_insert_ne by auto. auto.
  - intros e s u s' Hrun. run_inv Hrun. intros Hkeep. exact Hkeep.
  - intros p s u s' Hrun. unfold release_occupancy in Hrun.
    intros [(n & Hn & Hocc) Hclosest].
    run_inv Hrun; try solve [split; [exists n; auto | exact Hclosest]];
      unfold closest_not_occupier; simpl_engine;
      repeat match goal with
      | H : bool_decide (fst _ = Some p) = true |- _ =>
          apply bool_decide_eq_true in H
      end.
    + (* the occupier entry and the closest entry of [p] are cleared *)
      destruct (decide (node = p)) as [-> |].
      { exfalso. replace a with n in * by congruence. eapply Hocc; eauto. }
      split.
      * exists n. split; [exact Hn |]. intros occupier Hlook.
        destruct (decide (m_halfedgeIndexMap (entry_edge n)
                          = m_halfedgeIndexMap (entry_edge a))) as [Heq |].
        -- rewrite Heq in Hlook.
           rewrite list_lookup_insert_eq in Hlook by assumption.
           injection Hlook as <-. discriminate.
        -- rewrite list_lookup_insert_ne in Hlook by auto. eauto.
      * destruct (decide (v = m_vertexIndexMap (target_vertex a))) as [-> |].
        -- exfalso. match goal with
           | H : m_closestToVertices s !! _ = Some ?c, H' : fst ?c = Some p |- _ =>
               rewrite H in Hclosest; injection Hclosest as Hc;
               rewrite Hc in H'; cbn in H'; congruence
           end.
        -- rewrite list_lookup_insert_ne by auto. exact Hclosest.
    + (* only the occupier entry of [p] is cleared *)
      split; [| exact Hclosest].
      exists n. split; [exact Hn |]. intros occupier Hlook.
      destruct (decide (m_halfedgeIndexMap (entry_edge n)
                        = m_halfedgeIndexMap (entry_edge a))) as [Heq |].
      * rewrite Heq in Hlook.
        rewrite list_lookup_insert_eq in Hlook by assumption.
        injection Hlook as <-. discriminate.
      * rewrite list_lookup_insert_ne in Hlook by auto. eauto.
Qed.

End Closest_not_occupier.

(** C8: [delete_node] clears the closest entry of the deleted node's target
    vertex only when the node is also the occupier of its entry halfedge: a
    node recorded as the closest of a vertex that does not occupy its entry
    halfedge is still recorded there when [delete_node] returns. *)
Theorem delete_node_keeps_closest_of_a_non_occupier (fuel : nat)
    (node : node_ptr) (n : Cone_tree_node) (v : nat) (d : FT) (s s' : Engine) :
  node_arena s !! node = Some n ->
  m_closestToVertices s !! v = Some (Some node, d) ->
  delete_node fuel (Some node) s = Ok (tt, s') ->
  ((forall occupier,
      m_vertexOccupiers s !! m_halfedgeIndexMap (entry_edge n) = Some occupier ->
      fst occupier <> Some node) ->
   m_closestToVertices s' !! v = Some (Some node, d)) /\
  (m_closestToVertices s' !! v <> Some (Some node, d) ->
   exists distance,
     m_vertexOccupiers s !! m_halfedgeIndexMap (entry_edge n)
       = Some (Some node, distance)).
Proof.
  intros Hn Hclosest Hrun.
  assert (Hkept : (forall occupier,
            m_vertexOccupiers s !! m_halfedgeIndexMap (entry_edge n)
              = Some occupier -> fst occupier <> Some node) ->
          m_closestToVertices s' !! v = Some (Some node, d)).
  { intros Hocc.
    eapply (preserves_delete_node (keeps_closest_not_occupier node v d)
              (Delete_frame0 := link_delete_frame _)) in Hrun.
    apply Hrun. split; [exists n; auto | exact Hclosest]. }
  split; [exact Hkept |].
  intros Hcleared.
  destruct (m_vertexOccupiers s !! m_halfedgeIndexMap (entry_edge n))
    as [[[first |] distance] |] eqn:Hlook.
  - destruct (decide (first = node)) as [-> | Hne]; [eauto |].
    exfalso. apply Hcleared, Hkept. intros occupier Heq.
    injection Heq as <-. cbn. congruence.
  - exfalso. apply Hcleared, Hkept. intros occupier Heq.
    injection Heq as <-. discriminate.
  - exfalso. apply Hcleared, Hkept. intros occupier Heq. discriminate.
Qed.

(** ** Arbitration *)

Section Occupied_by.
Context (node : node_ptr) (e : nat) (d : FT).

Global Instance keeps_occupied_by_preorder : PreOrder (keeps_occupied_by node e d).
Proof.
  split; [intros s H; exact H |].
  intros s1 s2 s3 H12 H23 H. apply H23, H12, H.
Qed.

Lemma keeps_occupied_by_occupiers (s s' : Engine) :
  m_vertexOccupiers s' = m_vertexOccupiers s -> keeps_occupied_by node e d s s'.
Proof. intros Heq. unfold keeps_occupied_by, occupied_by. rewrite Heq. auto. Qed.

Global Instance keeps_occupied_by_link_frame : Link_frame (keeps_occupied_by node e d).
Proof.
  split; [exact _ | ..].
  - intros p f Hf s u s' Hrun. run_inv Hrun.
    apply keeps_occupied_by_occupiers. reflexivity.
  - intros ev s u s' Hrun. run_inv Hrun.
    apply keeps_occupied_by_occupiers. reflexivity.
  - intros p s u s' Hrun. unfold release_occupancy in Hrun.
    run_inv Hrun; try (apply keeps_occupied_by_occupiers; reflexivity);
      intros (first & Hfirst & Hor); unfold occupied_by; simpl_engine;
      match goal with
      | |- context [<[?i := _]> _ !! e] =>
          destruct (decide (e = i)) as [-> |];
          [ rewrite list_lookup_insert_eq by assumption;
            match goal with
            | H : m_vertexOccupiers s !! _ = Some ?occ |- _ =>
                rewrite Hfirst in H; injection H as <-
            end; cbn; eauto
          | rewrite list_lookup_insert_ne by auto; eauto ]
      end.
Qed.

Global Instance keeps_occupied_by_process_frame :
  Process_frame (keeps_occupied_by node e d).
Proof.
  split; [apply link_delete_frame; exact _ | ..].
  - apply link_update_node.
  - intros ev s q s' Hrun. run_inv Hrun.
    apply keeps_occupied_by_occupiers. reflexivity.
  - intros q. apply preserves_modify. intros s.
    apply keeps_occupied_by_occupiers. reflexivity.
  - intros i x. apply preserves_vector_write. intros s _.
    apply keeps_occupied_by_occupiers. reflexivity.
Qed.

End Occupied_by.

Lemma same_occupiers_propagate (node : node_ptr) (left right middle : bool) :
  preserves same_occupiers
    (when left (push_left_child node) ;;;
     when right (push_right_child node) ;;;
     when middle (push_middle_child node)).
Proof.
  intros s u s' Hrun.
  unfold push_left_child, push_right_child, push_middle_child,
    new_cone_expansion_event, priqueue_push in Hrun.
  run_inv Hrun; reflexivity.
Qed.

Lemma is_left_of_current_run (n o : Cone_tree_node) (current : option node_ptr)
    (distance : FT) (s : Engine) :
  (forall p, current = Some p -> node_arena s !! p = Some o) ->
  is_left_of_current n (current, distance) s
  = Ok (match current with
        | Some _ => left_of_occupier n o
        | None => false
        end, s).
Proof.
  intros Ho. unfold is_left_of_current, left_of_occupier. cbn [fst].
  destruct current as [p |]; [| reflexivity].
  destruct (is_vertex_node n); [reflexivity |].
  rewrite (bind_run _ _ _ _ _ (deref_node_Ok _ _ _ (Ho p eq_refl))).
  destruct (is_vertex_node o); reflexivity.
Qed.

(** C3: in the target-containment branch the node takes its entry halfedge
    exactly when the halfedge has no occupier or the occupier's stored
    distance is strictly greater than the node's distance from its target
    vertex to the root; its side against an occupier is [left_of_occupier].
    When it does not take the halfedge the occupier table is left as it
    was; when it does, the entry holds its distance when [process_node]
    returns. *)
Theorem process_node_arbitration (fuel : nat) (node : node_ptr)
    (n occupierNode : Cone_tree_node) (current : option node_ptr)
    (distance : FT) (s : Engine) :
  node_arena s !! node = Some n ->
  is_source_node n || (has_left_side n && has_right_side n) = true ->
  m_vertexOccupiers s !! m_halfedgeIndexMap (entry_edge n)
    = Some (current, distance) ->
  (forall p, current = Some p -> node_arena s !! p = Some occupierNode) ->
  let e := m_halfedgeIndexMap (entry_edge n) in
  let d_new := distance_from_target_to_root n in
  let takes := current = None \/ FT_greater distance d_new = true in
  let isLeftOfCurrent :=
    match current with
    | Some _ => left_of_occupier n occupierNode
    | None => false
    end in
  (exists won : bool,
     arbitrate node n s
     = Ok (((current, distance), isLeftOfCurrent, won),
           if won
           then with_vertexOccupiers
                  (<[e := (Some node, d_new)]> (m_vertexOccupiers s)) s
           else s) /\
     (won = true <-> takes)) /\
  (forall s', process_node fuel node s = Ok (tt, s') ->
     (takes -> occupied_by node e d_new s') /\
     (~ takes -> m_vertexOccupiers s' = m_vertexOccupiers s)).
Proof.
  intros Hn Hbranch Hocc Hcurrent e d_new takes isLeftOfCurrent.
  pose proof (lookup_lt_Some _ _ _ Hocc) as Hlt.
  assert (Harbitrate : exists won : bool,
     arbitrate node n s
     = Ok (((current, distance), isLeftOfCurrent, won),
           if won
           then with_vertexOccupiers
                  (<[e := (Some node, d_new)]> (m_vertexOccupiers s)) s
           else s) /\
     (won = true <-> takes)).
  { unfold arbitrate.
    rewrite (bind_run _ _ _ _ _ (vector_read_Ok _ _ _ _ Hocc)).
    rewrite (bind_run _ _ _ _ _
               (is_left_of_current_run n occupierNode current distance s Hcurrent)).
    fold isLeftOfCurrent. fold d_new. fold e.
    unfold wins_arbitration. cbn [fst snd].
    destruct (bool_decide (current = None) || FT_greater distance d_new) eqn:Hwins.
    - exists true. split.
      + unfold bind, vector_write. destruct (decide (e < length (m_vertexOccupiers s)));
          [reflexivity | contradiction].
      + split; [intros _ | reflexivity]. unfold takes.
        apply orb_true_iff in Hwins as [Hnone%bool_decide_eq_true | Hgt]; auto.
    - exists false. split; [reflexivity |].
      split; [discriminate |]. intros [Hnone | Hgt].
      + rewrite (bool_decide_eq_true_2 _ Hnone) in Hwins. discriminate.
      + rewrite Hgt, orb_true_r in Hwins. discriminate. }
  split; [exact Harbitrate |].
  destruct Harbitrate as (won & Harb & Hwon).
  intros s' Hrun. unfold process_node in Hrun.
  rewrite (bind_run _ _ _ _ _ (deref_node_Ok _ _ _ Hn)) in Hrun.
  rewrite Hbranch in Hrun.
  apply bind_Ok in Hrun as (propagate & s2 & Hprop & Hpush).
  apply bind_Ok in Hprop as (arbitration & s1 & Harb' & Hrest).
  rewrite Harb in Harb'. injection Harb' as <- <-. cbn [fst snd] in Hrest.
  assert (Hpushes : forall R : Engine -> Engine -> Prop,
            (forall a b c,
               preserves R
                 (when a (push_left_child node) ;;;
                  when b (push_right_child node) ;;;
                  when c (push_middle_child node))) ->
            Reflexive R -> R s2 s').
  { intros R HR Hrefl.
    destruct (bool_decide (level n < num_faces m_polyhedron)).
    - eapply HR. exact Hpush.
    - apply ret_Ok in Hpush as [_ ->]. reflexivity. }
  destruct won.
  - (* the node took the halfedge *)
    split; [intros _ | intros Hnot; exfalso; apply Hnot, Hwon; reflexivity].
    apply bind_Ok in Hrest as ([] & s3 & Hevict & Hrest).
    apply bind_Ok in Hrest as (propagateMiddle & s4 & Hclosest & Hret).
    apply ret_Ok in Hret as [_ ->].
    apply (preserves_evict_loser (keeps_occupied_by node e d_new)
             (Delete_frame0 := link_delete_frame _)) in Hevict.
    apply (preserves_update_closest (keeps_occupied_by node e d_new)) in Hclosest.
    apply (Hpushes (keeps_occupied_by node e d_new)).
    + intros a b c. apply preserves_propagate. exact _.
    + exact _.
    + apply Hclosest, Hevict. exists (Some node). simpl_engine. split; [| auto].
      apply list_lookup_insert_eq. exact Hlt.
  - (* the occupier stays *)
    split; [intros Htakes; apply Hwon in Htakes; discriminate | intros _].
    assert (s2 = s) as ->.
    { destruct isLeftOfCurrent; [| destruct (negb (is_source_node n))];
        apply ret_Ok in Hrest as [_ ->]; reflexivity. }
    apply (Hpushes same_occupiers).
    + intros a b c. apply same_occupiers_propagate.
    + intros x. reflexivity.
Qed.

(** ** The distance filter *)

Lemma window_distance_filter_run (cone : node_ptr) (windowSegment : Segment_2)
    (reversed : bool) (s : Engine) (c : Cone_tree_node)
    (known1 known2 known3 : Node_distance_pair) :
  node_arena s !! cone = Some c ->
  m_closestToVertices s !! m_vertexIndexMap (source m_polyhedron (entry_edge c))
    = Some known1 ->
  m_closestToVertices s !! m_vertexIndexMap (target_vertex c) = Some known2 ->
  m_closestToVertices s !! m_vertexIndexMap (target m_polyhedron (entry_edge c))
    = Some known3 ->
  exists keep,
    window_distance_filter cone windowSegment reversed s = Ok (keep, s) /\
    (keep = false <->
     if reversed then
       dominated c (segment_vertex windowSegment 1) (segment_vertex windowSegment 0)
         (segment_vertex (entry_segment c) 1) (segment_vertex (entry_segment c) 0)
         known3 known2 known1
     else
       dominated c (segment_vertex windowSegment 0) (segment_vertex windowSegment 1)
         (segment_vertex (entry_segment c) 0) (segment_vertex (entry_segment c) 1)
         known1 known2 known3).
Proof.
  intros Hc H1 H2 H3. unfold window_distance_filter.
  rewrite (bind_run _ _ _ _ _ (deref_node_Ok _ _ _ Hc)).
  rewrite (bind_run _ _ _ _ _ (vector_read_Ok _ _ _ _ H1)).
  rewrite (bind_run _ _ _ _ _ (vector_read_Ok _ _ _ _ H2)).
  rewrite (bind_run _ _ _ _ _ (vector_read_Ok _ _ _ _ H3)).
  unfold dominated, dominated_at, norm_2.
  destruct reversed;
    repeat match goal with
    | |- context [if ?b && ?g then _ else _] =>
        let Hb := fresh "Hb" in
        destruct (b && g) eqn:Hb;
        [ apply andb_true_iff in Hb as [?%bool_decide_eq_true ?]
        | apply andb_false_iff in Hb ]
    end;
    eexists; (split; [reflexivity |]); split; try discriminate; try tauto;
    intros Hdom; exfalso;
    repeat match goal with
    | H : _ \/ _ |- _ => destruct H
    | H : _ /\ _ |- _ => destruct H
    | H : bool_decide _ = false |- _ => apply bool_decide_eq_false in H
    end; try contradiction; congruence.
Qed.

Lemma lookup_arena_snoc (s : Engine) (n : Cone_tree_node) :
  (node_arena s ++ [n]) !! length (node_arena s) = Some n.
Proof. rewrite lookup_app_r by lia. rewrite Nat.sub_diag. reflexivity. Qed.

(** The child an expansion allocates and links under [cone]: afterwards the
    arena is one node longer, and the new node is that child. *)
Lemma linked_child_kept (cone : node_ptr) (c : Cone_tree_node)
    (child : Cone_tree_node) (s s3 s' : Engine)
    (f : Cone_tree_node -> Cone_tree_node) :
  node_arena s !! cone = Some c ->
  node_arena s3 =
    <[cone := f c]>
      (<[length (node_arena s) := on_child_link cone c child]>
         (node_arena s ++ [child])) ->
  same_cones s3 s' ->
  length (node_arena s') = S (length (node_arena s)) /\
  exists child', node_arena s' !! length (node_arena s) = Some child' /\
                 cone_of child' = cone_of (on_child_link cone c child).
Proof.
  intros Hc Harena [Hlen Hsame].
  pose proof (lookup_lt_Some _ _ _ Hc) as Hlt.
  rewrite Harena in Hlen.
  rewrite !length_insert, length_app in Hlen. cbn in Hlen.
  split; [lia |].
  destruct (Hsame (length (node_arena s)) (on_child_link cone c child))
    as (child' & Hchild' & Heq).
  { rewrite Harena. rewrite list_lookup_insert_ne by lia.
    rewrite list_lookup_insert_eq by (rewrite length_app; cbn; lia). reflexivity. }
  exists child'. split; [exact Hchild' | exact Heq].
Qed.

Lemma expand_left_child_pruned (fuel : nat) (cone : node_ptr)
    (windowSegment : Segment_2) (s : Engine) (c : Cone_tree_node)
    (known1 known2 known3 : Node_distance_pair) :
  node_arena s !! cone = Some c ->
  m_closestToVertices s !! m_vertexIndexMap (source m_polyhedron (entry_edge c))
    = Some known1 ->
  m_closestToVertices s !! m_vertexIndexMap (target_vertex c) = Some known2 ->
  m_closestToVertices s !! m_vertexIndexMap (target m_polyhedron (entry_edge c))
    = Some known3 ->
  m_pendingLeftSubtree c <> None ->
  (dominated c (segment_vertex windowSegment 0) (segment_vertex windowSegment 1)
     (segment_vertex (entry_segment c) 0) (segment_vertex (entry_segment c) 1)
     known1 known2 known3 ->
   expand_left_child fuel cone windowSegment s
   = Ok (tt, with_node_arena
               (<[cone := with_pendingLeftSubtree None c]> (node_arena s)) s))
  /\
  (~ dominated c (segment_vertex windowSegment 0) (segment_vertex windowSegment 1)
       (segment_vertex (entry_segment c) 0) (segment_vertex (entry_segment c) 1)
       known1 known2 known3 ->
   forall s', expand_left_child fuel cone windowSegment s = Ok (tt, s') ->
     length (node_arena s') = S (length (node_arena s)) /\
     exists child,
       node_arena s' !! length (node_arena s) = Some child /\
       cone_of child =
       cone_of (on_child_link cone c
                  (cone_node (left_child_edge c)
                     (flatten_triangle_3_along_segment_2
                        (triangle_from_halfedge (left_child_edge c)) 0
                        (left_child_base_segment c))
                     (source_image c) (distance_from_source_to_root c)
                     (segment_vertex windowSegment 0)
                     (segment_vertex windowSegment 1) INTERVAL))).
Proof.
  intros Hc H1 H2 H3 Hpending.
  pose proof (lookup_lt_Some _ _ _ Hc) as Hlt.
  set (c1 := with_pendingLeftSubtree None c).
  set (s1 := with_node_arena (<[cone := c1]> (node_arena s)) s).
  assert (Hc1 : node_arena s1 !! cone = Some c1).
  { cbn. apply list_lookup_insert_eq. exact Hlt. }
  destruct (window_distance_filter_run cone windowSegment false s1 c1
              known1 known2 known3 Hc1 H1 H2 H3) as (keep & Hfilter & Hkeep).
  assert (Hunfold :
    expand_left_child fuel cone windowSegment s =
    (if keep then
       child <- new_node
                  (cone_node (left_child_edge c)
                     (flatten_triangle_3_along_segment_2
                        (triangle_from_halfedge (left_child_edge c)) 0
                        (left_child_base_segment c))
                     (source_image c) (distance_from_source_to_root c)
                     (segment_vertex windowSegment 0)
                     (segment_vertex windowSegment 1) INTERVAL) ;;
       set_left_child cone child ;;;
       process_node fuel child
     else ret tt) s1).
  { unfold expand_left_child.
    rewrite (bind_run _ _ _ _ _ (deref_node_Ok _ _ _ Hc)).
    rewrite bool_decide_eq_true_2 by exact Hpending.
    unfold bind at 1. unfold update_node at 1.
    rewrite (bind_run _ _ _ _ _ (deref_node_Ok _ _ _ Hc)). cbn [modify].
    fold c1. fold s1. unfold bind at 1. rewrite Hfilter. reflexivity. }
  split.
  - intros Hdom. rewrite Hunfold.
    replace keep with false by (symmetry; apply Hkeep; exact Hdom). reflexivity.
  - intros Hnot s' Hrun. rewrite Hunfold in Hrun.
    destruct keep; [| exfalso; apply Hnot, Hkeep; reflexivity].
    apply bind_Ok in Hrun as (child & s2 & Hnew & Hrun).
    apply new_node_inv in Hnew as [-> ->].
    apply bind_Ok in Hrun as ([] & s3 & Hlink & Hrun).
    apply (preserves_process_node same_cones) in Hrun.
    unfold set_left_child in Hlink. run_inv Hlink.
    cbn [node_arena with_node_arena] in *.
    match goal with
    | H : (node_arena s1 ++ _) !! cone = Some ?x |- _ =>
        rewrite lookup_app_l in H by (cbn; rewrite length_insert; exact Hlt);
        rewrite Hc1 in H; injection H as <-
    end.
    match goal with
    | H : (node_arena s1 ++ _) !! _ = Some ?x |- _ =>
        rewrite lookup_arena_snoc in H; injection H as <-
    end.
    match goal with
    | H : <[_ := _]> _ !! cone = Some ?x |- _ =>
        rewrite list_lookup_insert_ne in H
          by (cbn; rewrite length_insert; lia);
        rewrite lookup_app_l in H by (cbn; rewrite length_insert; exact Hlt);
        rewrite Hc1 in H; injection H as <-
    end.
    eapply (linked_child_kept cone c1 _ s1) in Hrun;
      [| exact Hc1 | reflexivity].
    cbn [s1 node_arena with_node_arena] in Hrun.
    rewrite length_insert in Hrun. exact Hrun.
Qed.

Lemma expand_right_child_pruned (fuel : nat) (cone : node_ptr)
    (windowSegment : Segment_2) (s : Engine) (c : Cone_tree_node)
    (known1 known2 known3 : Node_distance_pair) :
  node_arena s !! cone = Some c ->
  m_closestToVertices s !! m_vertexIndexMap (source m_polyhedron (entry_edge c))
    = Some known1 ->
  m_closestToVertices s !! m_vertexIndexMap (target_vertex c) = Some known2 ->
  m_closestToVertices s !! m_vertexIndexMap (target m_polyhedron (entry_edge c))
    = Some known3 ->
  m_pendingRightSubtree c <> None ->
  (dominated c (segment_vertex windowSegment 1) (segment_vertex windowSegment 0)
     (segment_vertex (entry_segment c) 1) (segment_vertex (entry_segment c) 0)
     known3 known2 known1 ->
   expand_right_child fuel cone windowSegment s
   = Ok (tt, with_node_arena
               (<[cone := with_pendingRightSubtree None c]> (node_arena s)) s))
  /\
  (~ dominated c (segment_vertex windowSegment 1) (segment_vertex windowSegment 0)
       (segment_vertex (entry_segment c) 1) (segment_vertex (entry_segment c) 0)
       known3 known2 known1 ->
   forall s', expand_right_child fuel cone windowSegment s = Ok (tt, s') ->
     length (node_arena s') = S (length (node_arena s)) /\
     exists child,
       node_arena s' !! length (node_arena s) = Some child /\
       cone_of child =
       cone_of (on_child_link cone c
                  (cone_node (right_child_edge c)
                     (flatten_triangle_3_along_segment_2
                        (triangle_from_halfedge (right_child_edge c)) 0
                        (right_child_base_segment c))
                     (source_image c) (distance_from_source_to_root c)
                     (segment_vertex windowSegment 0)
                     (segment_vertex windowSegment 1) INTERVAL))).
Proof.
  intros Hc H1 H2 H3 Hpending.
  pose proof (lookup_lt_Some _ _ _ Hc) as Hlt.
  set (c1 := with_pendingRightSubtree None c).
  set (s1 := with_node_arena (<[cone := c1]> (node_arena s)) s).
  assert (Hc1 : node_arena s1 !! cone = Some c1).
  { cbn. apply list_lookup_insert_eq. exact Hlt. }
  destruct (window_distance_filter_run cone windowSegment true s1 c1
              known1 known2 known3 Hc1 H1 H2 H3) as (keep & Hfilter & Hkeep).
  assert (Hunfold :
    expand_right_child fuel cone windowSegment s =
    (if keep then
       child <- new_node
                  (cone_node (right_child_edge c)
                     (flatten_triangle_3_along_segment_2
                        (triangle_from_halfedge (right_child_edge c)) 0
                        (right_child_base_segment c))
                     (source_image c) (distance_from_source_to_root c)
                     (segment_vertex windowSegment 0)
                     (segment_vertex windowSegment 1) INTERVAL) ;;
       set_right_child cone child ;;;
       process_node fuel child
     else ret tt) s1).
  { unfold expand_right_child.
    rewrite (bind_run _ _ _ _ _ (deref_node_Ok _ _ _ Hc)).
    rewrite bool_decide_eq_true_2 by exact Hpending.
    unfold bind at 1. unfold update_node at 1.
    rewrite (bind_run _ _ _ _ _ (deref_node_Ok _ _ _ Hc)). cbn [modify].
    fold c1. fold s1. unfold bind at 1. rewrite Hfilter. reflexivity. }
  split.
  - intros Hdom. rewrite Hunfold.
    replace keep with false by (symmetry; apply Hkeep; exact Hdom). reflexivity.
  - intros Hnot s' Hrun. rewrite Hunfold in Hrun.
    destruct keep; [| exfalso; apply Hnot, Hkeep; reflexivity].
    apply bind_Ok in Hrun as (child & s2 & Hnew & Hrun).
    apply new_node_inv in Hnew as [-> ->].
    apply bind_Ok in Hrun as ([] & s3 & Hlink & Hrun).
    apply (preserves_process_node same_cones) in Hrun.
    unfold set_right_child in Hlink. run_inv Hlink.
    cbn [node_arena with_node_arena] in *.
    match goal with
    | H : (node_arena s1 ++ _) !! cone = Some ?x |- _ =>
        rewrite lookup_app_l in H by (cbn; rewrite length_insert; exact Hlt);
        rewrite Hc1 in H; injection H as <-
    end.
    match goal with
    | H : (node_arena s1 ++ _) !! _ = Some ?x |- _ =>
        rewrite lookup_arena_snoc in H; injection H as <-
    end.
    match goal with
    | H : <[_ := _]> _ !! cone = Some ?x |- _ =>
        rewrite list_lookup_insert_ne in H
          by (cbn; rewrite length_insert; lia);
        rewrite lookup_app_l in H by (cbn; rewrite length_insert; exact Hlt);
        rewrite Hc1 in H; injection H as <-
    end.
    eapply (linked_child_kept cone c1 _ s1) in Hrun;
      [| exact Hc1 | reflexivity].
    cbn [s1 node_arena with_node_arena] in Hrun.
    rewrite length_insert in Hrun. exact Hrun.
Qed.

(** C2: the distance filter prunes a candidate child exactly when one of
    the three dominance inequalities holds for a vertex whose distance is
    known: for a left child with window [A B] on the entry segment [v1 v3],
    [d + ||I - B|| > d1 + ||v1 - B||], [d + ||I - A|| > d2 + ||v2 - A||] or
    [d + ||I - A|| > d3 + ||v3 - A||]; for a right child [A] and [B], [v1]
    and [v3], [d1] and [d3] change places.  A pruned child is not created, a
    kept one is. *)
Theorem distance_filter_prunes_dominated_children (fuel : nat) (cone : node_ptr)
    (windowSegment : Segment_2) (s : Engine) (c : Cone_tree_node)
    (known1 known2 known3 : Node_distance_pair) :
  node_arena s !! cone = Some c ->
  m_closestToVertices s !! m_vertexIndexMap (source m_polyhedron (entry_edge c))
    = Some known1 ->
  m_closestToVertices s !! m_vertexIndexMap (target_vertex c) = Some known2 ->
  m_closestToVertices s !! m_vertexIndexMap (target m_polyhedron (entry_edge c))
    = Some known3 ->
  let W0 := segment_vertex windowSegment 0 in
  let W1 := segment_vertex windowSegment 1 in
  let E0 := segment_vertex (entry_segment c) 0 in
  let E1 := segment_vertex (entry_segment c) 1 in
  let pruned_left := dominated c W0 W1 E0 E1 known1 known2 known3 in
  let pruned_right := dominated c W1 W0 E1 E0 known3 known2 known1 in
  (exists keep, window_distance_filter cone windowSegment false s = Ok (keep, s) /\
                (keep = false <-> pruned_left)) /\
  (exists keep, window_distance_filter cone windowSegment true s = Ok (keep, s) /\
                (keep = false <-> pruned_right)) /\
  (m_pendingLeftSubtree c <> None ->
   (pruned_left ->
    expand_left_child fuel cone windowSegment s
    = Ok (tt, with_node_arena
                (<[cone := with_pendingLeftSubtree None c]> (node_arena s)) s)) /\
   (~ pruned_left ->
    forall s', expand_left_child fuel cone windowSegment s = Ok (tt, s') ->
      length (node_arena s') = S (length (node_arena s)))) /\
  (m_pendingRightSubtree c <> None ->
   (pruned_right ->
    expand_right_child fuel cone windowSegment s
    = Ok (tt, with_node_arena
                (<[cone := with_pendingRightSubtree None c]> (node_arena s)) s)) /\
   (~ pruned_right ->
    forall s', expand_right_child fuel cone windowSegment s = Ok (tt, s') ->
      length (node_arena s') = S (length (node_arena s)))).
Proof.
  intros Hc H1 H2 H3 W0 W1 E0 E1 pruned_left pruned_right.
  split; [| split; [| split]].
  - exact (window_distance_filter_run cone windowSegment false s c _ _ _ Hc H1 H2 H3).
  - exact (window_distance_filter_run cone windowSegment true s c _ _ _ Hc H1 H2 H3).
  - intros Hpending.
    destruct (expand_left_child_pruned fuel cone windowSegment s c _ _ _
                Hc H1 H2 H3 Hpending) as [Hpruned Hkept].
    split; [exact Hpruned |].
    intros Hnot s' Hrun. exact (proj1 (Hkept Hnot s' Hrun)).
  - intros Hpending.
    destruct (expand_right_child_pruned fuel cone windowSegment s c _ _ _
                Hc H1 H2 H3 Hpending) as [Hpruned Hkept].
    split; [exact Hpruned |].
    intros Hnot s' Hrun. exact (proj1 (Hkept Hnot s' Hrun)).
Qed.

(** ** The queries on a face *)

Section Face_queries.
Context {laws : Ordered_with_sqrt NT}.

Lemma distance_to_root_lower_bound (c : Cone_tree_node) (p : Point_2) :
  FT_less (distance_to_root c p) (distance_from_source_to_root c) = false.
Proof. unfold distance_to_root. apply FT_sqrt_plus. Qed.

Lemma nearest_on_face_loop_naive (alpha : Barycentric_coordinate)
    (l : list node_ptr) (closest : option node_ptr) (closestDistance : FT)
    (s : Engine) :
  nearest_on_face_loop alpha l closest closestDistance s =
  naive_nearest_on_face_loop alpha l closest closestDistance s.
Proof.
  revert closest closestDistance.
  induction l as [| current rest IH]; intros closest closestDistance; [reflexivity |].
  cbn [nearest_on_face_loop naive_nearest_on_face_loop]. unfold bind.
  destruct (deref_node current s) as [[c s1] | f |] eqn:Hderef; try reflexivity.
  assert (s1 = s) as ->.
  { unfold deref_node in Hderef. destruct (node_arena s !! current); congruence. }
  destruct (bool_decide (closest <> None)
            && FT_greater_equal (distance_from_source_to_root c) closestDistance)
    eqn:Hskip; [| repeat case_match; apply IH].
  apply andb_true_iff in Hskip as [Hsome Hge].
  apply bool_decide_eq_true in Hsome.
  unfold FT_greater_equal in Hge. apply negb_true_iff in Hge.
  destruct (inside_window c (face_location_with_normalized_coordinate c alpha));
    [| apply IH].
  rewrite (bool_decide_eq_false_2 _ Hsome). cbn [orb].
  rewrite (FT_less_negatively_transitive _ _ _
             (distance_to_root_lower_bound c _) Hge).
  apply IH.
Qed.

Lemma nearest_on_face_loop_scanned (alpha : Barycentric_coordinate) (s : Engine)
    (l : list node_ptr) (nodes : list Cone_tree_node) :
  nodes_at s l nodes ->
  forall (seen : list Cone_tree_node) (closest : option node_ptr)
         (closestDistance : FT),
    scanned alpha seen closest closestDistance ->
    exists closest' closestDistance',
      nearest_on_face_loop alpha l closest closestDistance s
        = Ok ((closest', closestDistance'), s) /\
      scanned alpha (seen ++ nodes) closest' closestDistance'.
Proof.
  induction 1 as [| current c rest nodes Hc Hrest IH]; intros seen closest cd Hseen.
  - exists closest, cd. rewrite app_nil_r. split; [reflexivity | exact Hseen].
  - cbn [nearest_on_face_loop]. rewrite (bind_run _ _ _ _ _ (deref_node_Ok _ _ _ Hc)).
    replace (seen ++ c :: nodes) with ((seen ++ [c]) ++ nodes)
      by (rewrite <- app_assoc; reflexivity).
    fold (covers alpha c). fold (reach alpha c).
    destruct closest as [b |].
    + (* a best cone is known *)
      destruct Hseen as [Hattained Hbound].
      rewrite bool_decide_eq_true_2 by discriminate.
      rewrite bool_decide_eq_false_2 by discriminate. cbn [andb orb].
      unfold FT_greater_equal.
      destruct (FT_less (distance_from_source_to_root c) cd) eqn:Hnear; cbn [negb].
      * destruct (covers alpha c) eqn:Hcov.
        -- destruct (FT_less (reach alpha c) cd) eqn:Hbetter.
           ++ apply IH. split.
              ** exists c. rewrite elem_of_app, list_elem_of_singleton. auto.
              ** intros n Hn Hcn. apply elem_of_app in Hn as [Hn | Hn].
                 --- destruct (FT_less (reach alpha n) (reach alpha c)) eqn:Hlt;
                       [| reflexivity].
                     rewrite <- (Hbound n Hn Hcn).
                     symmetry. eapply FT_less_transitive; eauto.
                 --- apply list_elem_of_singleton in Hn as ->.
                     apply FT_less_irreflexive.
           ++ apply IH. split.
              ** destruct Hattained as (n & Hn & Hcn & ->). exists n.
                 rewrite elem_of_app. auto.
              ** intros n Hn Hcn. apply elem_of_app in Hn as [Hn | Hn]; [auto |].
                 apply list_elem_of_singleton in Hn as ->. exact Hbetter.
        -- apply IH. split.
           ++ destruct Hattained as (n & Hn & Hcn & ->). exists n.
              rewrite elem_of_app. auto.
           ++ intros n Hn Hcn. apply elem_of_app in Hn as [Hn | Hn]; [auto |].
              apply list_elem_of_singleton in Hn as ->. congruence.
      * (* skipped *)
        apply IH. split.
        -- destruct Hattained as (n & Hn & Hcn & ->). exists n.
           rewrite elem_of_app. auto.
        -- intros n Hn Hcn. apply elem_of_app in Hn as [Hn | Hn]; [auto |].
           apply list_elem_of_singleton in Hn as ->.
           eapply FT_less_negatively_transitive; [| exact Hnear].
           apply distance_to_root_lower_bound.
    + (* nothing found yet *)
      rewrite bool_decide_eq_false_2 by (intros H; apply H; reflexivity).
      rewrite bool_decide_eq_true_2 by reflexivity. cbn [andb orb].
      destruct (covers alpha c) eqn:Hcov.
      * apply IH. split.
        -- exists c. rewrite elem_of_app, list_elem_of_singleton. auto.
        -- intros n Hn Hcn. apply elem_of_app in Hn as [Hn | Hn].
           ++ rewrite (Hseen n Hn) in Hcn. discriminate.
           ++ apply list_elem_of_singleton in Hn as ->. apply FT_less_irreflexive.
      * apply IH. intros n Hn. apply elem_of_app in Hn as [Hn | Hn]; [auto |].
        apply list_elem_of_singleton in Hn as ->. exact Hcov.
Qed.

(** Once the best distance is not above the distance of a cone from the
    source, neither that cone nor any cone sorted after it changes it. *)
Lemma nearest_on_face_loop_skips (alpha : Barycentric_coordinate) (s : Engine)
    (l : list node_ptr) (nodes : list Cone_tree_node) (best : node_ptr) (bd : FT) :
  nodes_at s l nodes ->
  Forall (fun n => FT_less (distance_from_source_to_root n) bd = false) nodes ->
  nearest_on_face_loop alpha l (Some best) bd s = Ok ((Some best, bd), s).
Proof.
  induction 1 as [| current c rest nodes Hc Hrest IH]; intros Hall; [reflexivity |].
  apply Forall_cons in Hall as [Hc_far Hall].
  cbn [nearest_on_face_loop]. rewrite (bind_run _ _ _ _ _ (deref_node_Ok _ _ _ Hc)).
  rewrite bool_decide_eq_true_2 by discriminate.
  unfold FT_greater_equal. rewrite Hc_far. cbn [andb negb]. auto.
Qed.

Lemma nearest_on_face_loop_app (alpha : Barycentric_coordinate) (s : Engine)
    (l1 l2 : list node_ptr) (closest closest1 : option node_ptr) (cd cd1 : FT) :
  nearest_on_face_loop alpha l1 closest cd s = Ok ((closest1, cd1), s) ->
  nearest_on_face_loop alpha (l1 ++ l2) closest cd s =
  nearest_on_face_loop alpha l2 closest1 cd1 s.
Proof.
  revert closest cd. induction l1 as [| current rest IH]; intros closest cd H.
  - cbn in H. injection H as -> ->. reflexivity.
  - cbn [app nearest_on_face_loop] in *. unfold bind in *.
    destruct (deref_node current s) as [[c s1] | f |] eqn:Hderef; try discriminate.
    assert (s1 = s) as ->.
    { unfold deref_node in Hderef. destruct (node_arena s !! current); congruence. }
    repeat case_match; auto.
Qed.

(** C4: after construction the face list is sorted by distance from the
    source.  Then [shortest_distance_to_location(f, bary)] is the minimum,
    over the cones of [face_occupiers[f]] whose window contains the image of
    [bary], of [d + ||I - image(bary)||]; and once the best distance found
    is not above the [d] of the next cone of the list, the scan has its
    result: no later cone changes it. *)
Theorem shortest_distance_to_location_is_minimum (s : Engine)
    (face : face_descriptor) (alpha : Barycentric_coordinate)
    (l : list node_ptr) (nodes : list Cone_tree_node) :
  m_faceOccupiers s !! m_faceIndexMap face = Some l ->
  nodes_at s l nodes ->
  sorted_by_distance nodes ->
  (forall n, n ∈ nodes -> covers alpha n = true ->
     exists m, shortest_distance_to_location face alpha s = Ok (m, s) /\
               minimum_reach alpha nodes m)
  /\
  (forall (l1 l2 : list node_ptr) (candidate best : node_ptr)
          (candidateNode : Cone_tree_node) (bestDistance : FT),
     l = l1 ++ candidate :: l2 ->
     node_arena s !! candidate = Some candidateNode ->
     nearest_on_face_loop alpha l1 None FT_default s
       = Ok ((Some best, bestDistance), s) ->
     FT_less (distance_from_source_to_root candidateNode) bestDistance = false ->
     shortest_distance_to_location face alpha s = Ok (bestDistance, s)).
Proof.
  intros Hl Hnodes Hsorted. split.
  - intros n Hn Hcov.
    destruct (nearest_on_face_loop_scanned alpha s l nodes Hnodes [] None FT_default)
      as (closest & cd & Hrun & Hscanned).
    { intros n' Hn'. apply elem_of_nil in Hn'. contradiction. }
    cbn [app] in Hscanned. exists cd.
    unfold shortest_distance_to_location, nearest_on_face.
    unfold bind at 1 2. unfold vector_read. rewrite Hl, Hrun. cbn.
    split; [reflexivity |].
    destruct closest as [b |]; [exact Hscanned |].
    rewrite (Hscanned n Hn) in Hcov. discriminate.
  - intros l1 l2 candidate best candidateNode bd -> Hcand Hprefix Hfar.
    unfold nodes_at in Hnodes.
    apply Forall2_app_inv_l in Hnodes as (n1 & n2' & Hn1 & Hn2 & ->).
    apply Forall2_cons_inv_l in Hn2 as (c & n2 & Hc & Hn2 & ->).
    assert (c = candidateNode) as -> by congruence.
    unfold shortest_distance_to_location, nearest_on_face.
    unfold bind at 1 2. unfold vector_read. rewrite Hl.
    rewrite (nearest_on_face_loop_app _ _ _ _ _ _ _ _ Hprefix).
    rewrite (nearest_on_face_loop_skips alpha s (candidate :: l2)
               (candidateNode :: n2) best bd).
    + reflexivity.
    + constructor; assumption.
    + apply StronglySorted_app_1_r in Hsorted.
      apply StronglySorted_cons in Hsorted as [Hafter _].
      constructor; [exact Hfar |].
      eapply Forall_impl; [exact Hafter |].
      intros x Hx. cbn beta in Hx. unfold cone_comparator in Hx.
      eapply FT_less_negatively_transitive; eauto.
Qed.

(** C10: with its skip of every cone whose distance from the source is not
    below the best distance found, [nearest_on_face] returns the pair the
    scan of the whole list without the skip returns; for every cone and
    every point, the cone's distance to the point is at least its distance
    from the source. *)
Theorem nearest_on_face_skip_agrees_with_naive_scan (s : Engine)
    (face : face_descriptor) (alpha : Barycentric_coordinate) :
  nearest_on_face face alpha s = naive_nearest_on_face face alpha s /\
  (forall (c : Cone_tree_node) (p : Point_2),
     FT_less (distance_to_root c p) (distance_from_source_to_root c) = false).
Proof.
  split; [| apply distance_to_root_lower_bound].
  unfold nearest_on_face, naive_nearest_on_face, bind.
  destruct (vector_read m_faceOccupiers (m_faceIndexMap face) s)
    as [[l s1] | f |] eqn:Hread; try reflexivity.
  assert (s1 = s) as ->.
  { unfold vector_read in Hread. destruct (m_faceOccupiers s !! _); congruence. }
  apply nearest_on_face_loop_naive.
Qed.

End Face_queries.

(** ** Faults a run cannot end in *)

Definition never {A : Type} (f : Fault) (m : M A) : Prop :=
  forall s, m s <> Failed f.

Lemma never_bind {A B : Type} (f : Fault) (m : M A) (k : A -> M B) :
  never f m -> (forall a, never f (k a)) -> never f (bind m k).
Proof.
  intros Hm Hk s. unfold bind. specialize (Hm s).
  destruct (m s) as [[a s1] | g |]; [apply Hk | | discriminate].
  intros H. apply Hm. injection H as ->. reflexivity.
Qed.

Lemma never_ret {A : Type} (f : Fault) (a : A) : never f (ret a).
Proof. intros s. discriminate. Qed.

Lemma never_out_of_fuel {A : Type} (f : Fault) : never f (@out_of_fuel _ A).
Proof. intros s. discriminate. Qed.

Lemma never_fault {A : Type} (f g : Fault) : g <> f -> never f (@fault _ A g).
Proof. intros Hne s H. injection H as H. contradiction. Qed.

Lemma never_vector_read {A : Type} (f : Fault) (v : Engine -> list A) (i : nat) :
  f <> OutOfBounds -> never f (vector_read v i).
Proof.
  intros Hne s. unfold vector_read. destruct (v s !! i); [discriminate |].
  intros H. injection H as H. auto.
Qed.

Lemma never_deref_node (f : Fault) (p : node_ptr) :
  f <> WildPointer -> never f (deref_node p).
Proof.
  intros Hne s. unfold deref_node. destruct (node_arena s !! p); [discriminate |].
  intros H. injection H as H. auto.
Qed.

Lemma never_deref (f : Fault) (p : option node_ptr) :
  f <> WildPointer -> f <> NullDereference -> never f (deref p).
Proof.
  intros Hw Hn. destruct p; [apply never_deref_node; exact Hw |].
  apply never_fault. auto.
Qed.

Ltac never_step :=
  match goal with
  | |- forall _, _ => intros ?
  | |- never _ (bind _ _) => apply never_bind
  | |- never _ (ret _) => apply never_ret
  | |- never _ out_of_fuel => apply never_out_of_fuel
  | |- never _ (fault _) => apply never_fault; discriminate
  | |- never _ (vector_read _ _) => apply never_vector_read; discriminate
  | |- never _ (deref_node _) => apply never_deref_node; discriminate
  | |- never _ (deref _) => apply never_deref; discriminate
  | |- never _ (match ?x with _ => _ end) => destruct x
  end.

Lemma never_is_left_child (current : node_ptr) (c : Cone_tree_node) :
  never NullQueryNode (is_left_child current c).
Proof. unfold is_left_child. repeat never_step. Qed.

Lemma never_is_right_child (current : node_ptr) (c : Cone_tree_node) :
  never NullQueryNode (is_right_child current c).
Proof. unfold is_right_child. repeat never_step. Qed.

(** The walk to the root dereferences parents, never the query's node. *)
Lemma never_visit_shortest_path (fuel : nat) (current : option node_ptr)
    (currentLocation : Point_2) :
  never NullQueryNode (visit_shortest_path fuel current currentLocation).
Proof.
  revert current currentLocation.
  induction fuel as [| fuel IH]; intros [here |] currentLocation;
    cbn [visit_shortest_path];
    try (apply never_out_of_fuel); try (apply never_fault; discriminate).
  repeat first
    [ apply IH | apply never_is_left_child | apply never_is_right_child
    | never_step ].
Qed.

(** ** The queries *)

Lemma set_vertex_types_vertex_clears (fuel : nat) (current : vertex_descriptor)
    (s s' : Engine) :
  set_vertex_types_vertex fuel current s = Ok (tt, s') ->
  m_closestToVertices s' !! m_vertexIndexMap current = Some (None, FT_zero) /\
  forall i, m_closestToVertices s !! i = Some (None, FT_zero) ->
            m_closestToVertices s' !! i = Some (None, FT_zero).
Proof.
  intros Hrun. unfold set_vertex_types_vertex in Hrun.
  apply bind_Ok in Hrun as (b & s1 & Hb & Hrun).
  assert (s1 = s) as ->.
  { destruct (is_saddle_vertex current); [run_inv Hb; reflexivity |].
    unfold is_boundary_vertex in Hb.
    generalize dependent (halfedge_of_vertex m_polyhedron current).
    intros first. generalize first at 2. intros h. revert h.
    induction fuel as [| k IH]; intros h Hb; cbn in Hb; [discriminate |].
    destruct (bool_decide (face m_polyhedron h = None)
              || bool_decide (face m_polyhedron (opposite m_polyhedron h) = None));
      [run_inv Hb; reflexivity |].
    destruct (decide (opposite m_polyhedron (next m_polyhedron h) = first));
      [run_inv Hb; reflexivity | eauto]. }
  run_inv Hrun. cbn. split.
  - apply list_lookup_insert_eq. assumption.
  - intros i Hi. destruct (decide (i = m_vertexIndexMap current)) as [-> |].
    + apply list_lookup_insert_eq. assumption.
    + rewrite list_lookup_insert_ne by auto. exact Hi.
Qed.

Lemma set_vertex_types_vertices_clear (fuel : nat) (l : list vertex_descriptor)
    (s s' : Engine) :
  for_each l (set_vertex_types_vertex fuel) s = Ok (tt, s') ->
  (forall v, v ∈ l ->
     m_closestToVertices s' !! m_vertexIndexMap v = Some (None, FT_zero)) /\
  (forall i, m_closestToVertices s !! i = Some (None, FT_zero) ->
             m_closestToVertices s' !! i = Some (None, FT_zero)).
Proof.
  revert s. induction l as [| v l IH]; intros s Hrun; cbn in Hrun.
  - run_inv Hrun. split; [| auto]. intros v Hv. apply elem_of_nil in Hv. contradiction.
  - apply bind_Ok in Hrun as ([] & s1 & Hv & Hrun).
    apply set_vertex_types_vertex_clears in Hv as [Hhere Hkeep].
    apply IH in Hrun as [Hrest Hkeep']. split; [| auto].
    intros w Hw. apply elem_of_cons in Hw as [-> | Hw]; auto.
Qed.

(** C1, as the code has it: [shortest_distance_to_vertex(v)] returns the
    scalar stored in [closest_at_vertex[v]] whether or not a node is
    recorded there; the loop of [set_vertex_types] over the vertices leaves
    every entry at (no node, 0), so a vertex no cone has reached reports
    the scalar 0.  [shortest_distance_to_location] returns the scalar of
    the pair [nearest_on_face] returns.  Neither has a separate value for
    an unreachable point. *)
Theorem shortest_distance_queries_return_the_stored_scalar :
  (forall (s : Engine) (v : vertex_descriptor) (entry : Node_distance_pair),
     m_closestToVertices s !! m_vertexIndexMap v = Some entry ->
     shortest_distance_to_vertex v s = Ok (snd entry, s)) /\
  (forall (fuel : nat) (s s' : Engine) (v : vertex_descriptor),
     for_each (vertices m_polyhedron) (set_vertex_types_vertex fuel) s
       = Ok (tt, s') ->
     v ∈ vertices m_polyhedron ->
     m_closestToVertices s' !! m_vertexIndexMap v = Some (None, FT_zero) /\
     shortest_distance_to_vertex v s' = Ok (FT_zero, s')) /\
  (forall (s : Engine) (face : face_descriptor) (alpha : Barycentric_coordinate)
          (nearest : Node_distance_pair),
     nearest_on_face face alpha s = Ok (nearest, s) ->
     shortest_distance_to_location face alpha s = Ok (snd nearest, s)).
Proof.
  split; [| split].
  - intros s v entry Hentry. unfold shortest_distance_to_vertex.
    rewrite (bind_run _ _ _ _ _ (vector_read_Ok _ _ _ _ Hentry)). reflexivity.
  - intros fuel s s' v Hrun Hv.
    apply set_vertex_types_vertices_clear in Hrun as [Hclear _].
    specialize (Hclear v Hv). split; [exact Hclear |].
    unfold shortest_distance_to_vertex.
    rewrite (bind_run _ _ _ _ _ (vector_read_Ok _ _ _ _ Hclear)). reflexivity.
  - intros s face alpha nearest Hrun. unfold shortest_distance_to_location.
    rewrite (bind_run _ _ _ _ _ Hrun). reflexivity.
Qed.

(** C9: both overloads of [shortest_path_sequence] dereference the node
    their lookup produced without a null check: the run ends in a
    dereference of that null node exactly when the lookup found none, that
    is when the query point was not reached. *)
Theorem shortest_path_sequence_dereferences_the_lookup :
  (forall (fuel : nat) (v : vertex_descriptor) (s : Engine)
          (entry : Node_distance_pair),
     m_closestToVertices s !! m_vertexIndexMap v = Some entry ->
     (shortest_path_sequence_vertex fuel v s = Failed NullQueryNode
      <-> fst entry = None)) /\
  (forall (fuel : nat) (face : face_descriptor) (alpha : Barycentric_coordinate)
          (s : Engine) (nearest : Node_distance_pair),
     nearest_on_face face alpha s = Ok (nearest, s) ->
     (shortest_path_sequence_location fuel face alpha s = Failed NullQueryNode
      <-> fst nearest = None)).
Proof.
  split.
  - intros fuel v s [current d] Hentry. unfold shortest_path_sequence_vertex.
    rewrite (bind_run _ _ _ _ _ (vector_read_Ok _ _ _ _ Hentry)).
    cbn [fst]. destruct current as [p |]; cbn [deref_query_node].
    + split; [| discriminate]. intros Hfail. exfalso. revert Hfail.
      apply never_bind; [apply never_deref_node; discriminate |].
      intros c. apply never_visit_shortest_path.
    + split; reflexivity.
  - intros fuel face alpha s [current d] Hnearest.
    unfold shortest_path_sequence_location.
    rewrite (bind_run _ _ _ _ _ Hnearest).
    cbn [fst]. destruct current as [p |]; cbn [deref_query_node].
    + split; [| discriminate]. intros Hfail. exfalso. revert Hfail.
      apply never_bind; [apply never_deref_node; discriminate |].
      intros c. apply never_visit_shortest_path.
    + split; reflexivity.
Qed.

(** ** Initialisation *)

(** C5, where the code departs from it: [set_vertex_types] clears
    [m_vertexOccupiers] and then writes one entry per halfedge into the
    emptied vector, so on a mesh with a halfedge the first of these writes
    is out of bounds. *)
Lemma set_vertex_types_writes_out_of_bounds (fuel : nat) (s s1 : Engine)
    (h : halfedge_descriptor) (hs : list halfedge_descriptor) :
  halfedges m_polyhedron = h :: hs ->
  for_each (vertices m_polyhedron) (set_vertex_types_vertex fuel) s = Ok (tt, s1) ->
  set_vertex_types fuel s = Failed OutOfBounds.
Proof.
  intros Hh Hvertices. unfold set_vertex_types.
  rewrite (bind_run _ _ _ _ _ Hvertices). rewrite Hh. reflexivity.
Qed.

(** ** Edge roots *)

Lemma cone_of_on_child_link (parent : node_ptr) (p p' child : Cone_tree_node) :
  cone_of p' = cone_of p ->
  cone_of (on_child_link parent p' child) = cone_of (on_child_link parent p child).
Proof.
  intros Heq.
  assert (Hlevel : m_level p' = m_level p) by exact (f_equal m_level Heq).
  assert (HtreeId : m_treeId p' = m_treeId p) by exact (f_equal m_treeId Heq).
  unfold cone_of, on_child_link, relink. cbn. rewrite Hlevel, HtreeId. reflexivity.
Qed.

Lemma cones_extended_same (s s' : Engine) :
  same_cones s s' -> cones_extended [] s s'.
Proof.
  intros [Hlen Hsame]. unfold cones_extended. rewrite app_nil_r.
  apply Forall2_same_length_lookup_2; [symmetry; exact Hlen |].
  intros i x y Hx Hy. destruct (Hsame i x Hx) as (n' & Hn' & Heq). congruence.
Qed.

Lemma cones_extended_trans (a b : list Cone_tree_node) (s s1 s2 : Engine) :
  cones_extended a s s1 -> cones_extended b s1 s2 ->
  cones_extended (a ++ b) s s2.
Proof.
  unfold cones_extended. intros H1 H2. rewrite app_assoc.
  eapply (Forall2_trans (fun n n' => cone_of n' = cone_of n)
            (fun n n' => cone_of n' = cone_of n)); [| | exact H2].
  - intros x y z Hxy Hyz. cbn in *. congruence.
  - apply Forall2_app; [exact H1 |].
    apply Forall_Forall2_diag, Forall_forall. reflexivity.
Qed.

Lemma cones_extended_lookup (a : list Cone_tree_node) (s s' : Engine)
    (i : nat) (n : Cone_tree_node) :
  cones_extended a s s' -> (node_arena s ++ a) !! i = Some n ->
  exists n', node_arena s' !! i = Some n' /\ cone_of n' = cone_of n.
Proof.
  intros H Hn. destruct (Forall2_lookup_l _ _ _ _ _ H Hn) as (n' & Hn' & Heq).
  exists n'. auto.
Qed.

(** [push_middle_child_node] on a node just allocated. *)
Lemma push_middle_child_node_run (parent : node_ptr) (pn child : Cone_tree_node)
    (s s' : Engine) (u : unit) :
  node_arena s !! parent = Some pn ->
  push_middle_child_node parent (length (node_arena s))
    (with_node_arena (node_arena s ++ [child]) s) = Ok (u, s') ->
  node_arena s' =
    <[parent := with_middleChildren
                  (m_middleChildren pn ++ [length (node_arena s)]) pn]>
      (node_arena s) ++ [on_child_link parent pn child].
Proof.
  intros Hpn Hrun. pose proof (lookup_lt_Some _ _ _ Hpn) as Hlt.
  unfold push_middle_child_node in Hrun. run_inv Hrun. simpl_engine.
  repeat match goal with
  | H : (node_arena s ++ _) !! parent = Some _ |- _ =>
      rewrite lookup_app_l in H by exact Hlt; rewrite Hpn in H;
      injection H as <-
  | H : (node_arena s ++ _) !! length (node_arena s) = Some _ |- _ =>
      rewrite lookup_arena_snoc in H; injection H as <-
  | H : <[_ := _]> _ !! parent = Some _ |- _ =>
      rewrite list_lookup_insert_ne in H by lia;
      rewrite lookup_app_l in H by exact Hlt; rewrite Hpn in H;
      injection H as <-
  end.
  rewrite insert_app_r_alt by lia. rewrite Nat.sub_diag. cbn [insert list_insert].
  rewrite insert_app_l by exact Hlt. reflexivity.
Qed.

(** One child of a root: allocated, linked, processed. *)
Lemma middle_child_run (fuel : nat) (parent c : node_ptr)
    (p child : Cone_tree_node) (s s1 s2 s' : Engine) (u u' : unit) :
  (exists pn, node_arena s !! parent = Some pn /\ cone_of pn = cone_of p) ->
  new_node child s = Ok (c, s1) ->
  push_middle_child_node parent c s1 = Ok (u, s2) ->
  process_node fuel c s2 = Ok (u', s') ->
  cones_extended [on_child_link parent p child] s s'.
Proof.
  intros (pn & Hpn & Heq) Hnew Hlink Hrun.
  apply new_node_inv in Hnew as [-> ->].
  apply (preserves_process_node same_cones) in Hrun.
  apply (push_middle_child_node_run _ _ _ _ _ _ Hpn) in Hlink.
  apply (cones_extended_trans [_] [] s s2 s'); [| apply cones_extended_same, Hrun].
  unfold cones_extended. rewrite Hlink.
  apply Forall2_app.
  - apply Forall2_same_length_lookup_2; [rewrite length_insert; reflexivity |].
    intros i x y Hx Hy. destruct (decide (i = parent)) as [-> |].
    + rewrite list_lookup_insert_eq in Hy by (eapply lookup_lt_Some; eauto).
      injection Hy as <-. rewrite Hpn in Hx. injection Hx as <-. reflexivity.
    + rewrite list_lookup_insert_ne in Hy by auto. congruence.
  - constructor; [| constructor]. apply cone_of_on_child_link. exact Heq.
Qed.

(** The root is still the root it was after the children [added]. *)
Lemma edge_root_kept (root : Cone_tree_node) (added : list Cone_tree_node)
    (s s' : Engine) :
  cones_extended (root :: added) s s' ->
  exists pn, node_arena s' !! length (node_arena s) = Some pn /\
             cone_of pn = cone_of root.
Proof.
  intros H. apply (cones_extended_lookup _ _ _ _ _ H).
  rewrite lookup_app_r by lia. rewrite Nat.sub_diag. reflexivity.
Qed.


(** ** The event loop *)

Section Expand_frames.
Context (R : Engine -> Engine -> Prop) `{!Expand_frame R}.

Lemma preserves_window_distance_filter (cone : node_ptr)
    (windowSegment : Segment_2) (reversed : bool) :
  preserves R (window_distance_filter cone windowSegment reversed).
Proof. unfold window_distance_filter. preserves_auto. Qed.

Lemma preserves_expand_left_child (fuel : nat) (cone : node_ptr)
    (windowSegment : Segment_2) :
  preserves R (expand_left_child fuel cone windowSegment).
Proof.
  unfold expand_left_child, set_left_child.
  repeat first
    [ apply preserves_window_distance_filter
    | apply (preserves_process_node R) | preserves_auto ].
Qed.

Lemma preserves_expand_right_child (fuel : nat) (cone : node_ptr)
    (windowSegment : Segment_2) :
  preserves R (expand_right_child fuel cone windowSegment).
Proof.
  unfold expand_right_child, set_right_child.
  repeat first
    [ apply preserves_window_distance_filter
    | apply (preserves_process_node R) | preserves_auto ].
Qed.

Lemma preserves_expand_pseudo_source_loop (k fuel : nat) (parent : node_ptr)
    (distanceFromTargetToRoot : FT) (startEdge currentEdge : halfedge_descriptor) :
  preserves R
    (expand_pseudo_source_loop k fuel parent distanceFromTargetToRoot
       startEdge currentEdge).
Proof.
  revert currentEdge. induction k as [| k IH]; intros currentEdge;
    cbn [expand_pseudo_source_loop].
  - apply preserves_out_of_fuel; exact _.
  - unfold push_middle_child_node.
    repeat first
      [ apply IH | apply (preserves_process_node R) | preserves_auto ].
Qed.

Lemma preserves_expand_pseudo_source (fuel : nat) (parent : node_ptr) :
  preserves R (expand_pseudo_source fuel parent).
Proof.
  unfold expand_pseudo_source.
  repeat first [ apply preserves_expand_pseudo_source_loop | preserves_auto ].
Qed.

Lemma preserves_dispatch_event (fuel : nat) (ev : Cone_expansion_event) :
  preserves R (dispatch_event fuel ev).
Proof.
  unfold dispatch_event.
  destruct (m_type ev);
    [ apply preserves_expand_left_child | apply preserves_expand_right_child
    | apply preserves_expand_pseudo_source ].
Qed.

End Expand_frames.

Lemma queue_kept_queue (s s' : Engine) :
  m_expansionPriqueue s' = m_expansionPriqueue s -> queue_kept s s'.
Proof. intros H e. rewrite H. auto. Qed.

Global Instance queue_kept_preorder : PreOrder queue_kept.
Proof.
  split; [intros s e H; exact H |].
  intros s1 s2 s3 H12 H23 e H. apply H23, H12, H.
Qed.

Global Instance queue_kept_link_frame : Link_frame queue_kept.
Proof.
  split; [exact _ | ..].
  - intros p f Hf s u s' Hrun. run_inv Hrun. apply queue_kept_queue. reflexivity.
  - intros e s u s' Hrun. run_inv Hrun. apply queue_kept_queue. reflexivity.
  - intros p s u s' Hrun. unfold release_occupancy in Hrun. run_inv Hrun;
      apply queue_kept_queue; reflexivity.
Qed.

Global Instance queue_kept_expand_frame : Expand_frame queue_kept.
Proof.
  split; [split; [split; [apply link_delete_frame; exact _ | ..] |] | ..].
  - apply link_update_node.
  - intros ev s e s' Hrun. run_inv Hrun. apply queue_kept_queue. reflexivity.
  - intros e. apply preserves_modify. intros s e' He'. cbn.
    apply elem_of_app. left. exact He'.
  - intros i x. apply preserves_vector_write. intros s _.
    apply queue_kept_queue. reflexivity.
  - intros i x. apply preserves_vector_write. intros s _.
    apply queue_kept_queue. reflexivity.
  - intros n s q s' Hrun. run_inv Hrun. apply queue_kept_queue. reflexivity.
  - intros child q pn s u s' Hrun. run_inv Hrun. apply queue_kept_queue. reflexivity.
Qed.

Lemma queue_min_inv (q : list event_ptr) (best : event_ptr) (bestEstimate : FT)
    (e : event_ptr) (s s' : Engine) :
  queue_min best bestEstimate q s = Ok (e, s') ->
  s' = s /\ (e = best \/ e ∈ q).
Proof.
  revert best bestEstimate. induction q as [| x q IH]; intros best bestEstimate Hrun;
    cbn [queue_min] in Hrun.
  - apply ret_Ok in Hrun as [-> ->]. auto.
  - apply bind_Ok in Hrun as (ev & s1 & Hev & Hrun).
    apply deref_event_inv in Hev as [_ ->].
    destruct (FT_less (m_distanceEstimate ev) bestEstimate);
      apply IH in Hrun as [-> Hin]; (split; [reflexivity |]);
      rewrite elem_of_cons; tauto.
Qed.

Lemma priqueue_top_inv (e : event_ptr) (s s' : Engine) :
  priqueue_top s = Ok (e, s') -> s' = s /\ e ∈ m_expansionPriqueue s.
Proof.
  unfold priqueue_top. intros Hrun.
  apply bind_Ok in Hrun as (q & s1 & Hq & Hrun).
  apply gets_Ok in Hq as [-> ->].
  destruct (m_expansionPriqueue s) as [| x q]; [discriminate Hrun |].
  apply bind_Ok in Hrun as (ev & s1 & Hev & Hrun).
  apply deref_event_inv in Hev as [_ ->].
  apply queue_min_inv in Hrun as [-> Hin]. split; [reflexivity |].
  rewrite elem_of_cons. exact Hin.
Qed.

(** The state once the event on top was taken off the queue. *)
Lemma priqueue_pop_inv (s s' : Engine) (u : unit) :
  priqueue_pop s = Ok (u, s') ->
  exists e, priqueue_top s = Ok (e, s) /\
            s' = with_expansionPriqueue (remove_first e (m_expansionPriqueue s)) s.
Proof.
  unfold priqueue_pop. intros Hrun.
  apply bind_Ok in Hrun as (e & s1 & Htop & Hrun).
  pose proof (priqueue_top_inv _ _ _ Htop) as [-> _].
  apply modify_Ok in Hrun. eauto.
Qed.

Lemma elem_of_remove_first (e x : event_ptr) (q : list event_ptr) :
  x ∈ q -> x <> e -> x ∈ remove_first e q.
Proof.
  intros Hin Hne. induction q as [| y q IH]; cbn [remove_first]; [exact Hin |].
  apply elem_of_cons in Hin as [-> | Hin].
  - destruct (decide (y = e)); [contradiction |]. apply elem_of_cons. auto.
  - destruct (decide (y = e)); [exact Hin |]. apply elem_of_cons. auto.
Qed.

(** One round of the loop, taken apart: the event on top is allocated, it
    leaves the queue, it is dispatched unless its flag is set, and it is
    destroyed. *)
Lemma event_loop_body_inv (fuel : nat) (s s' : Engine) :
  event_loop_body fuel s = Ok (tt, s') ->
  exists event ev s1,
    priqueue_top s = Ok (event, s) /\
    event_arena s !! event = Some (Some ev) /\
    (let s0 :=
       with_expansionPriqueue (remove_first event (m_expansionPriqueue s)) s in
     if m_cancelled ev then s1 = s0
     else dispatch_event fuel ev s0 = Ok (tt, s1)) /\
    alive s1 event /\
    s' = with_event_arena (<[event := None]> (event_arena s1)) s1.
Proof.
  unfold event_loop_body. intros Hrun.
  apply bind_Ok in Hrun as (event & s0 & Htop & Hrun).
  pose proof (priqueue_top_inv _ _ _ Htop) as [-> Hin].
  apply bind_Ok in Hrun as ([] & s0 & Hpop & Hrun).
  apply priqueue_pop_inv in Hpop as (e & Htop' & ->).
  rewrite Htop in Htop'. injection Htop' as <-.
  apply bind_Ok in Hrun as (ev & s0 & Hev & Hrun).
  apply deref_event_inv in Hev as [Hev ->]. simpl_engine.
  apply bind_Ok in Hrun as ([] & s1 & Hdispatch & Hrun).
  apply delete_event_inv in Hrun as (ev1 & Hev1 & ->).
  exists event, ev, s1. repeat split; auto.
  - cbv zeta. destruct (m_cancelled ev); cbn [negb] in Hdispatch.
    + apply ret_Ok in Hdispatch as [_ ->]. reflexivity.
    + exact Hdispatch.
  - exists ev1. exact Hev1.
Qed.

(** ** What [delete_node] does to the heap *)

Lemma slot_shrinks_refl {X : Type} (o : option X) : slot_shrinks o o.
Proof. left. reflexivity. Qed.

Lemma slot_shrinks_trans {X : Type} (o1 o2 o3 : option X) :
  slot_shrinks o1 o2 -> slot_shrinks o2 o3 -> slot_shrinks o1 o3.
Proof. unfold slot_shrinks. intros [-> | ->] [-> | ->]; auto. Qed.

Lemma slot_shrinks_None {X : Type} (o o' : option X) :
  slot_shrinks o o' -> o = None -> o' = None.
Proof. intros [-> | ->] H; auto. Qed.

Lemma node_shrinks_refl (n : Cone_tree_node) : node_shrinks n n.
Proof. repeat split; try apply slot_shrinks_refl. reflexivity. Qed.

Lemma node_shrinks_trans (n1 n2 n3 : Cone_tree_node) :
  node_shrinks n1 n2 -> node_shrinks n2 n3 -> node_shrinks n1 n3.
Proof.
  intros (H1 & H2 & H3 & H4 & H5 & H6) (K1 & K2 & K3 & K4 & K5 & K6).
  repeat split; try (eapply slot_shrinks_trans; eassumption).
  etransitivity; eassumption.
Qed.

Lemma emptied_shrinks (k : nat) (n n' : Cone_tree_node) :
  node_shrinks n n' -> emptied k n -> emptied k n'.
Proof.
  intros (H1 & H2 & H3 & H4 & H5 & H6) (K1 & K2 & K3 & K4 & K5 & K6).
  repeat split; intros Hk;
    try (eapply slot_shrinks_None; [eassumption | auto]).
  rewrite (K6 Hk) in H3. apply prefix_nil_inv in H3. exact H3.
Qed.

Lemma emptied_clean (n : Cone_tree_node) :
  emptied 6 n <-> children_of n = [] /\ pending_of n = [].
Proof.
  unfold emptied, children_of, pending_of. split.
  - intros (K1 & K2 & K3 & K4 & K5 & K6).
    rewrite K1, K2, K3, K4, K5, K6 by lia. auto.
  - intros [Hc Hp].
    destruct (m_leftChild n), (m_rightChild n), (m_middleChildren n),
      (m_pendingLeftSubtree n), (m_pendingRightSubtree n),
      (m_pendingMiddleSubtree n); try discriminate.
    repeat split; reflexivity.
Qed.

Lemma clean_emptied (s : Engine) (q : node_ptr) : clean s q <-> emptied_at 6 s q.
Proof.
  unfold clean, emptied_at. split; intros (n & Hn & H); exists n;
    (split; [exact Hn |]); apply emptied_clean; exact H.
Qed.

Lemma cancel_cancelled (ev : Cone_expansion_event) :
  m_cancelled ev = true -> cancel ev = ev.
Proof. destruct ev. cbn. intros ->. reflexivity. Qed.

Lemma deletes_refl (s : Engine) : deletes s s.
Proof.
  split; [reflexivity |]. split; [reflexivity |]. split; [auto |].
  split; [reflexivity |].
  intros q n Hn. exists n. split; [exact Hn |].
  split; [apply node_shrinks_refl |]. auto.
Qed.

Lemma deletes_cancelled (s s' : Engine) (e : event_ptr) :
  deletes s s' -> cancelled_in s e -> cancelled_in s' e.
Proof.
  intros (_ & _ & Hev & _) (ev & He & Hflag).
  destruct (Hev e _ He) as [He' | (ev0 & Heq & He')].
  - exists ev. auto.
  - exists (cancel ev0). auto.
Qed.

Lemma deletes_emptied (k : nat) (s s' : Engine) (p : node_ptr) :
  deletes s s' -> emptied_at k s p -> emptied_at k s' p.
Proof.
  intros (_ & _ & _ & _ & Hnodes) (n & Hn & Hk).
  destruct (Hnodes p n Hn) as (n' & Hn' & Hshrinks & _).
  exists n'. split; [exact Hn' |]. eapply emptied_shrinks; eassumption.
Qed.

Lemma deletes_clean (s s' : Engine) (q : node_ptr) :
  deletes s s' -> clean s q -> clean s' q.
Proof. rewrite !clean_emptied. apply deletes_emptied. Qed.

Lemma deletes_trans (s1 s2 s3 : Engine) :
  deletes s1 s2 -> deletes s2 s3 -> deletes s1 s3.
Proof.
  intros H12 H23.
  pose proof H12 as (Hq & Hel & Hev & Hnl & Hnodes).
  pose proof H23 as (Hq' & Hel' & Hev' & Hnl' & Hnodes').
  split; [congruence |]. split; [congruence |]. split; [| split; [congruence |]].
  - intros e oev He.
    destruct (Hev e oev He) as [He2 | (ev & -> & He2)].
    + exact (Hev' e oev He2).
    + right. exists ev. split; [reflexivity |].
      destruct (Hev' e _ He2) as [He3 | (ev' & Heq & He3)]; [exact He3 |].
      injection Heq as <-. exact He3.
  - intros q n Hn.
    destruct (Hnodes q n Hn) as (n2 & Hn2 & Hs12 & Hc12 & Hp12).
    destruct (Hnodes' q n2 Hn2) as (n3 & Hn3 & Hs23 & Hc23 & Hp23).
    exists n3. split; [exact Hn3 |]. split; [eapply node_shrinks_trans; eassumption |].
    split.
    + intros c Hc. destruct (Hc12 c Hc) as [Hc2 | Hclean]; [auto |].
      right. eapply deletes_clean; eassumption.
    + intros e He. destruct (Hp12 e He) as [He2 | Hcancelled]; [auto |].
      right. eapply deletes_cancelled; eassumption.
Qed.

Global Instance deletes_preorder : PreOrder deletes.
Proof. split; [exact deletes_refl | exact deletes_trans]. Qed.

(** A step that changes neither the queue nor an event nor a node. *)
Lemma deletes_same (s s' : Engine) :
  m_expansionPriqueue s' = m_expansionPriqueue s ->
  event_arena s' = event_arena s -> node_arena s' = node_arena s ->
  deletes s s'.
Proof.
  intros Hq He Hn. unfold deletes, clean, cancelled_in.
  rewrite Hq, He, Hn. apply deletes_refl.
Qed.

(** A pending event of [p] is cancelled and its slot reset. *)
Lemma deletes_cancel (s : Engine) (p : node_ptr) (n n1 : Cone_tree_node)
    (e : event_ptr) (ev : Cone_expansion_event) :
  node_arena s !! p = Some n -> event_arena s !! e = Some (Some ev) ->
  node_shrinks n n1 -> children_of n1 = children_of n ->
  (forall x, x ∈ pending_of n -> x ∈ pending_of n1 \/ x = e) ->
  deletes s
    (with_node_arena (<[p := n1]> (node_arena s))
       (with_event_arena (<[e := Some (cancel ev)]> (event_arena s)) s)).
Proof.
  intros Hn He Hshrinks Hchildren Hpending.
  pose proof (lookup_lt_Some _ _ _ Hn) as Hp.
  pose proof (lookup_lt_Some _ _ _ He) as Hlt.
  unfold deletes, clean, cancelled_in. simpl_engine.
  split; [reflexivity |]. split; [apply length_insert |].
  split; [| split; [apply length_insert |]].
  - intros e' oev He'. destruct (decide (e' = e)) as [-> |].
    + right. exists ev. rewrite list_lookup_insert_eq by exact Hlt.
      split; congruence.
    + left. rewrite list_lookup_insert_ne by auto. exact He'.
  - intros q m Hm. destruct (decide (q = p)) as [-> |].
    + exists n1. rewrite list_lookup_insert_eq by exact Hp.
      replace m with n in * by congruence.
      split; [reflexivity |]. split; [exact Hshrinks |]. split.
      * intros c Hc. left. rewrite Hchildren. exact Hc.
      * intros x Hx. destruct (Hpending x Hx) as [Hx1 | ->]; [auto |].
        right. exists (cancel ev). rewrite list_lookup_insert_eq by exact Hlt. auto.
    + exists m. rewrite list_lookup_insert_ne by auto.
      split; [exact Hm |]. split; [apply node_shrinks_refl |]. auto.
Qed.

(** A child [c] of [p] is unlinked and then deleted. *)
Lemma deletes_unlink (s s' : Engine) (p c : node_ptr) (n n1 : Cone_tree_node) :
  node_arena s !! p = Some n ->
  node_shrinks n n1 -> pending_of n1 = pending_of n ->
  (forall x, x ∈ children_of n -> x ∈ children_of n1 \/ x = c) ->
  deletes (with_node_arena (<[p := n1]> (node_arena s)) s) s' ->
  clean s' c ->
  deletes s s'.
Proof.
  intros Hn Hshrinks Hpending Hchildren (Hq & Hel & Hev & Hnl & Hnodes) Hclean.
  pose proof (lookup_lt_Some _ _ _ Hn) as Hp. simpl_engine.
  rewrite length_insert in Hnl.
  split; [exact Hq |]. split; [exact Hel |]. split; [exact Hev |].
  split; [exact Hnl |].
  intros q m Hm. destruct (decide (q = p)) as [-> |].
  - replace m with n in * by congruence.
    destruct (Hnodes p n1) as (n' & Hn' & Hs & Hc & Hpe).
    { apply list_lookup_insert_eq. exact Hp. }
    exists n'. split; [exact Hn' |].
    split; [eapply node_shrinks_trans; eassumption |]. split.
    + intros x Hx. destruct (Hchildren x Hx) as [Hx1 | ->]; auto.
    + intros x Hx. apply Hpe. rewrite Hpending. exact Hx.
  - apply Hnodes. rewrite list_lookup_insert_ne by auto. exact Hm.
Qed.

Ltac emptied_tac Hk :=
  let K1 := fresh "Hk" in let K2 := fresh "Hk" in let K3 := fresh "Hk" in
  let K4 := fresh "Hk" in let K5 := fresh "Hk" in let K6 := fresh "Hk" in
  destruct Hk as (K1 & K2 & K3 & K4 & K5 & K6);
  unfold emptied; cbn; repeat split; intros ?;
  first [ reflexivity | assumption | lia | apply K1; lia | apply K2; lia
        | apply K3; lia | apply K4; lia | apply K5; lia | apply K6; lia ].

Ltac shrinks_tac :=
  unfold node_shrinks, slot_shrinks; cbn; repeat split; auto using prefix_take.

Ltac elem_of_tac Hy :=
  unfold children_of, pending_of in *; cbn in *;
  repeat match goal with
  | H : ?f ?n = Some _ |- _ =>
      lazymatch f with
      | lookup _ => fail
      | _ => rewrite H in Hy
      end
  | H : last ?l = Some _ |- _ => apply last_Some in H as [? ->]
  end;
  cbn in *;
  repeat first [ rewrite elem_of_app in * | rewrite elem_of_cons in *
               | rewrite elem_of_nil in * ];
  tauto.

Lemma emptied_0 (n : Cone_tree_node) : emptied 0 n.
Proof. unfold emptied. repeat split; intros ?; lia. Qed.

Lemma cancel_pending_left_deletes (p : node_ptr) (s s' : Engine) (u : unit) :
  emptied_at 0 s p ->
  cancel_pending_left p s = Ok (u, s') ->
  deletes s s' /\ emptied_at 1 s' p.
Proof.
  intros (n & Hn & Hk) Hrun. unfold cancel_pending_left in Hrun.
  run_inv Hrun; simpl_engine;
    repeat match goal with
    | H : node_arena s !! p = Some ?x |- _ =>
        lazymatch x with n => fail | _ => replace x with n in * by congruence end
    end.
  - split.
    + eapply deletes_cancel; eauto; [shrinks_tac | intros y Hy; elem_of_tac Hy].
    + exists (with_pendingLeftSubtree None n).
      split; [apply list_lookup_insert_eq; eapply lookup_lt_Some; eauto |].
      emptied_tac Hk.
  - split; [apply deletes_refl |]. exists n. split; [exact Hn |]. emptied_tac Hk.
Qed.

Lemma cancel_pending_right_deletes (p : node_ptr) (s s' : Engine) (u : unit) :
  emptied_at 2 s p ->
  cancel_pending_right p s = Ok (u, s') ->
  deletes s s' /\ emptied_at 3 s' p.
Proof.
  intros (n & Hn & Hk) Hrun. unfold cancel_pending_right in Hrun.
  run_inv Hrun; simpl_engine;
    repeat match goal with
    | H : node_arena s !! p = Some ?x |- _ =>
        lazymatch x with n => fail | _ => replace x with n in * by congruence end
    end.
  - split.
    + eapply deletes_cancel; eauto; [shrinks_tac | intros y Hy; elem_of_tac Hy].
    + exists (with_pendingRightSubtree None n).
      split; [apply list_lookup_insert_eq; eapply lookup_lt_Some; eauto |].
      emptied_tac Hk.
  - split; [apply deletes_refl |]. exists n. split; [exact Hn |]. emptied_tac Hk.
Qed.

Lemma cancel_pending_middle_deletes (p : node_ptr) (s s' : Engine) (u : unit) :
  emptied_at 4 s p ->
  cancel_pending_middle p s = Ok (u, s') ->
  deletes s s' /\ emptied_at 5 s' p.
Proof.
  intros (n & Hn & Hk) Hrun. unfold cancel_pending_middle in Hrun.
  run_inv Hrun; simpl_engine;
    repeat match goal with
    | H : node_arena s !! p = Some ?x |- _ =>
        lazymatch x with n => fail | _ => replace x with n in * by congruence end
    end.
  - split.
    + eapply deletes_cancel; eauto; [shrinks_tac | intros y Hy; elem_of_tac Hy].
    + exists (with_pendingMiddleSubtree None n).
      split; [apply list_lookup_insert_eq; eapply lookup_lt_Some; eauto |].
      emptied_tac Hk.
  - split; [apply deletes_refl |]. exists n. split; [exact Hn |]. emptied_tac Hk.
Qed.

Ltac same_node s p n :=
  repeat match goal with
  | H : node_arena s !! p = Some ?x |- _ =>
      lazymatch x with
      | n => fail
      | _ => replace x with n in * by congruence
      end
  end.

Section Delete_node.
Context (fuel' : nat).
Context (IH : forall q s s', delete_node fuel' (Some q) s = Ok (tt, s') ->
                deletes s s' /\ clean s' q).

Lemma delete_left_child_deletes (p : node_ptr) (n : Cone_tree_node)
    (s s' : Engine) (u : unit) :
  node_arena s !! p = Some n -> emptied 1 n ->
  (match m_leftChild n with
   | Some _ => c <- remove_left_child p ;; delete_node fuel' c
   | None => ret tt
   end) s = Ok (u, s') ->
  deletes s s' /\ emptied_at 2 s' p.
Proof.
  intros Hn Hk Hrun. destruct (m_leftChild n) as [c0 |] eqn:Hleft.
  - apply bind_Ok in Hrun as (c & s1 & Hremove & Hrun).
    unfold remove_left_child in Hremove. run_inv Hremove. simpl_engine.
    same_node s p n. rewrite Hleft in Hrun. destruct u.
    apply IH in Hrun as [Hdeletes Hclean].
    split.
    + apply (deletes_unlink s s' p c0 n (with_leftChild None n));
        [ exact Hn | shrinks_tac | reflexivity | intros y Hy; elem_of_tac Hy
        | exact Hdeletes | exact Hclean ].
    + eapply deletes_emptied; [exact Hdeletes |].
      exists (with_leftChild None n).
      split; [apply list_lookup_insert_eq; eapply lookup_lt_Some; eauto |].
      emptied_tac Hk.
  - apply ret_Ok in Hrun as [_ ->].
    split; [apply deletes_refl |]. exists n. split; [exact Hn |]. emptied_tac Hk.
Qed.

Lemma delete_right_child_deletes (p : node_ptr) (n : Cone_tree_node)
    (s s' : Engine) (u : unit) :
  node_arena s !! p = Some n -> emptied 3 n ->
  (match m_rightChild n with
   | Some _ => c <- remove_right_child p ;; delete_node fuel' c
   | None => ret tt
   end) s = Ok (u, s') ->
  deletes s s' /\ emptied_at 4 s' p.
Proof.
  intros Hn Hk Hrun. destruct (m_rightChild n) as [c0 |] eqn:Hright.
  - apply bind_Ok in Hrun as (c & s1 & Hremove & Hrun).
    unfold remove_right_child in Hremove. run_inv Hremove. simpl_engine.
    same_node s p n. rewrite Hright in Hrun. destruct u.
    apply IH in Hrun as [Hdeletes Hclean].
    split.
    + apply (deletes_unlink s s' p c0 n (with_rightChild None n));
        [ exact Hn | shrinks_tac | reflexivity | intros y Hy; elem_of_tac Hy
        | exact Hdeletes | exact Hclean ].
    + eapply deletes_emptied; [exact Hdeletes |].
      exists (with_rightChild None n).
      split; [apply list_lookup_insert_eq; eapply lookup_lt_Some; eauto |].
      emptied_tac Hk.
  - apply ret_Ok in Hrun as [_ ->].
    split; [apply deletes_refl |]. exists n. split; [exact Hn |]. emptied_tac Hk.
Qed.

Lemma delete_middle_children_deletes (p : node_ptr) (k : nat)
    (s s' : Engine) (u : unit) :
  emptied_at 5 s p ->
  while_loop k (node_has_middle_children p)
    (c <- pop_middle_child p ;; delete_node fuel' c) s = Ok (u, s') ->
  deletes s s' /\ emptied_at 6 s' p.
Proof.
  revert s. induction k as [| k IHk]; intros s (n & Hn & Hk) Hrun;
    cbn [while_loop] in Hrun; [discriminate Hrun |].
  apply bind_Ok in Hrun as (b & s0 & Hcond & Hrun).
  unfold node_has_middle_children in Hcond. run_inv Hcond. same_node s p n.
  destruct (has_middle_children n) eqn:Hmiddle.
  - apply bind_Ok in Hrun as ([] & s2 & Hbody & Hrun).
    apply bind_Ok in Hbody as (c & s1 & Hpop & Hdelete).
    unfold pop_middle_child in Hpop. run_inv Hpop. simpl_engine.
    same_node s p n.
    apply IH in Hdelete as [Hdeletes Hclean].
    match goal with
    | H : last (m_middleChildren n) = Some ?c0 |- _ =>
        assert (Hstep : deletes s s2);
        [ apply (deletes_unlink s s2 p c0 n
                   (with_middleChildren
                      (take (length (m_middleChildren n) - 1)
                         (m_middleChildren n)) n));
          [ exact Hn | shrinks_tac | reflexivity
          | intros y Hy; pose proof H as Hlast; apply last_Some in Hlast as [l' Hl'];
            unfold children_of in *; cbn; rewrite Hl' in *;
            rewrite length_app, Nat.add_sub, take_app_length; cbn;
            repeat first [ rewrite elem_of_app in * | rewrite elem_of_cons in *
                         | rewrite elem_of_nil in * ];
            tauto
          | exact Hdeletes | exact Hclean ]
        |]
    end.
    destruct (IHk s2) as [Hrest Hdone].
    + eapply deletes_emptied; [exact Hdeletes |].
      exists (with_middleChildren
                (take (length (m_middleChildren n) - 1) (m_middleChildren n)) n).
      split; [apply list_lookup_insert_eq; eapply lookup_lt_Some; eauto |].
      emptied_tac Hk.
    + exact Hrun.
    + split; [etransitivity; eassumption | exact Hdone].
  - apply ret_Ok in Hrun as [_ ->].
    split; [apply deletes_refl |]. exists n. split; [exact Hn |].
    unfold has_middle_children in Hmiddle.
    apply negb_false_iff, bool_decide_eq_true_1 in Hmiddle.
    emptied_tac Hk.
Qed.

End Delete_node.

Lemma release_occupancy_deletes (p : node_ptr) (s s' : Engine) (u : unit) :
  release_occupancy p s = Ok (u, s') -> deletes s s'.
Proof.
  intros Hrun. unfold release_occupancy in Hrun.
  run_inv Hrun; apply deletes_same; reflexivity.
Qed.

Lemma delete_node_deletes (fuel : nat) (p : node_ptr) (s s' : Engine) :
  delete_node fuel (Some p) s = Ok (tt, s') ->
  deletes s s' /\ clean s' p.
Proof.
  revert p s s'. induction fuel as [| fuel IH]; intros p s s' Hrun;
    cbn [delete_node] in Hrun; [discriminate Hrun |].
  apply bind_Ok in Hrun as (u1 & s1 & Hrun1 & Hrun).
  apply bind_Ok in Hrun as (n1 & s1' & Hn1 & Hrun).
  apply deref_node_inv in Hn1 as [Hn1 ->].
  apply bind_Ok in Hrun as (u2 & s2 & Hrun2 & Hrun).
  apply bind_Ok in Hrun as (u3 & s3 & Hrun3 & Hrun).
  apply bind_Ok in Hrun as (n3 & s3' & Hn3 & Hrun).
  apply deref_node_inv in Hn3 as [Hn3 ->].
  apply bind_Ok in Hrun as (u4 & s4 & Hrun4 & Hrun).
  apply bind_Ok in Hrun as (u5 & s5 & Hrun5 & Hrun).
  apply bind_Ok in Hrun as (u6 & s6 & Hrun6 & Hrun7).
  assert (Hstart : emptied_at 0 s p).
  { unfold cancel_pending_left in Hrun1.
    apply bind_Ok in Hrun1 as (n0 & s0 & Hn0 & _).
    apply deref_node_inv in Hn0 as [Hn0 _].
    exists n0. split; [exact Hn0 | apply emptied_0]. }
  destruct (cancel_pending_left_deletes _ _ _ _ Hstart Hrun1) as [D1 E1].
  assert (E1' : emptied 1 n1).
  { destruct E1 as (n & Hn & Hk). congruence. }
  destruct (delete_left_child_deletes fuel IH _ _ _ _ _ Hn1 E1' Hrun2) as [D2 E2].
  destruct (cancel_pending_right_deletes _ _ _ _ E2 Hrun3) as [D3 E3].
  assert (E3' : emptied 3 n3).
  { destruct E3 as (n & Hn & Hk). congruence. }
  destruct (delete_right_child_deletes fuel IH _ _ _ _ _ Hn3 E3' Hrun4) as [D4 E4].
  destruct (cancel_pending_middle_deletes _ _ _ _ E4 Hrun5) as [D5 E5].
  destruct (delete_middle_children_deletes fuel IH _ _ _ _ _ E5 Hrun6) as [D6 E6].
  pose proof (release_occupancy_deletes _ _ _ _ Hrun7) as D7.
  split.
  - repeat first
      [ exact D7
      | eapply deletes_trans;
        [ first [exact D1 | exact D2 | exact D3 | exact D4 | exact D5 | exact D6] |] ].
  - apply clean_emptied. eapply deletes_emptied; eassumption.
Qed.

(** Once [p] is clean, so is everything below it. *)
Lemma descendant_clean (s s' : Engine) (p m : node_ptr) :
  deletes s s' -> clean s' p -> descendant s p m -> clean s' m.
Proof.
  intros Hdeletes Hclean Hm. induction Hm as [| m n c _ IHm Hn Hc]; [exact Hclean |].
  destruct Hdeletes as (_ & _ & _ & _ & Hnodes).
  destruct (Hnodes m n Hn) as (n' & Hn' & _ & Hchildren & _).
  destruct (Hchildren c Hc) as [Hc' | Hcc]; [| exact Hcc].
  destruct IHm as (n'' & Hn'' & Hnone & _).
  replace n'' with n' in * by congruence.
  rewrite Hnone in Hc'. apply elem_of_nil in Hc'. contradiction.
Qed.

Lemma descendant_cancelled (s s' : Engine) (p m : node_ptr)
    (n : Cone_tree_node) (e : event_ptr) :
  deletes s s' -> clean s' p -> descendant s p m ->
  node_arena s !! m = Some n -> e ∈ pending_of n ->
  exists ev, event_arena s !! e = Some (Some ev) /\
             event_arena s' !! e = Some (Some (cancel ev)).
Proof.
  intros Hdeletes Hclean Hm Hn He.
  pose proof (descendant_clean _ _ _ _ Hdeletes Hclean Hm) as (n'' & Hn'' & _ & Hnone).
  destruct Hdeletes as (_ & Hlen & Hevents & _ & Hnodes).
  destruct (Hnodes m n Hn) as (n' & Hn' & _ & _ & Hpending).
  replace n'' with n' in * by congruence.
  destruct (Hpending e He) as [He' | (ev' & Hev' & Hflag)].
  { rewrite Hnone in He'. apply elem_of_nil in He'. contradiction. }
  destruct (event_arena s !! e) as [oev |] eqn:Hoev.
  - destruct (Hevents e oev Hoev) as [Hsame | (ev & -> & Hcancel)].
    + exists ev'. split; [congruence |].
      rewrite (cancel_cancelled _ Hflag). exact Hev'.
    + exists ev. auto.
  - apply lookup_ge_None in Hoev. apply lookup_lt_Some in Hev'. lia.
Qed.

Lemma delete_node_destroys_nothing (fuel : nat) (node : option node_ptr) :
  preserves events_kept (delete_node fuel node).
Proof. apply preserves_delete_node. apply link_delete_frame. exact _. Qed.

(** One round destroys the event it took off the queue, and nothing else. *)
Lemma event_loop_body_destroys (fuel : nat) (s s' : Engine) :
  event_loop_body fuel s = Ok (tt, s') ->
  exists event,
    priqueue_top s = Ok (event, s) /\ alive s event /\
    (forall e, destroyed s' e <-> destroyed s e \/ e = event) /\
    (forall e, e <> event -> alive s e -> alive s' e) /\
    (forall e, e <> event -> e ∈ m_expansionPriqueue s ->
               e ∈ m_expansionPriqueue s').
Proof.
  intros Hrun.
  apply event_loop_body_inv in Hrun
    as (event & ev & s1 & Htop & Hev & Hdispatch & [ev1 Hev1] & ->).
  cbv zeta in Hdispatch.
  set (s0 := with_expansionPriqueue
               (remove_first event (m_expansionPriqueue s)) s) in *.
  assert (Hkept : events_kept s0 s1 /\ queue_kept s0 s1).
  { destruct (m_cancelled ev).
    - subst s1. split; reflexivity.
    - split; eapply preserves_dispatch_event; try exact Hdispatch; exact _. }
  destruct Hkept as [Hevents Hqueue].
  pose proof (lookup_lt_Some _ _ _ Hev1) as Hlt.
  exists event. split; [exact Htop |]. split; [exists ev; exact Hev |].
  unfold destroyed, alive. simpl_engine. repeat split.
  - intros Hd. destruct (decide (e = event)) as [-> | Hne]; [auto |].
    left. rewrite list_lookup_insert_ne in Hd by auto.
    apply (Hevents e) in Hd. exact Hd.
  - intros [Hd | ->].
    + destruct (decide (e = event)) as [-> | Hne].
      * apply list_lookup_insert_eq. exact Hlt.
      * rewrite list_lookup_insert_ne by auto. apply (Hevents e). exact Hd.
    + apply list_lookup_insert_eq. exact Hlt.
  - intros e Hne He. rewrite list_lookup_insert_ne by auto.
    apply (Hevents e). exact He.
  - intros e Hne He. apply Hqueue. subst s0. simpl_engine.
    apply elem_of_remove_first; assumption.
Qed.

(** The loop returns with the queue empty and with every event destroyed
    that was in the queue when it started. *)
Lemma event_loop_destroys (k fuel : nat) (s s' : Engine) :
  while_loop k priqueue_nonempty (event_loop_body fuel) s = Ok (tt, s') ->
  m_expansionPriqueue s' = [] /\
  forall e, e ∈ m_expansionPriqueue s \/ destroyed s e -> destroyed s' e.
Proof.
  revert s. induction k as [| k IHk]; intros s Hrun; cbn [while_loop] in Hrun;
    [discriminate Hrun |].
  apply bind_Ok in Hrun as (b & s0 & Hcond & Hrun).
  unfold priqueue_nonempty in Hcond. run_inv Hcond.
  destruct (bool_decide (m_expansionPriqueue s = [])) eqn:Hempty; cbn [negb] in Hrun.
  - apply ret_Ok in Hrun as [_ ->]. apply bool_decide_eq_true_1 in Hempty.
    split; [exact Hempty |]. intros e [He | Hd]; [| exact Hd].
    rewrite Hempty in He. apply elem_of_nil in He. contradiction.
  - apply bind_Ok in Hrun as ([] & s1 & Hbody & Hrun).
    apply event_loop_body_destroys in Hbody
      as (event & _ & _ & Hdestroyed & _ & Hqueue).
    apply IHk in Hrun as [Hdone Hall]. split; [exact Hdone |].
    intros e [He | Hd].
    + destruct (decide (e = event)) as [-> | Hne].
      * apply Hall. right. apply Hdestroyed. auto.
      * apply Hall. left. apply Hqueue; assumption.
    + apply Hall. right. apply Hdestroyed. auto.
Qed.

(** ** [delete_node] returns *)

Lemma node_shrinks_subset (n n' : Cone_tree_node) :
  node_shrinks n n' ->
  (forall c, c ∈ children_of n' -> c ∈ children_of n) /\
  length (children_of n') <= length (children_of n) /\
  (forall e, e ∈ pending_of n' -> e ∈ pending_of n).
Proof.
  intros (H1 & H2 & H3 & H4 & H5 & H6). unfold children_of, pending_of.
  pose proof (prefix_length _ _ H3) as Hlen.
  assert (Hsub : forall c, c ∈ m_middleChildren n' -> c ∈ m_middleChildren n)
    by (intros c Hc; eapply elem_of_prefix; eassumption).
  destruct H1 as [-> | ->], H2 as [-> | ->], H4 as [-> | ->], H5 as [-> | ->],
    H6 as [-> | ->];
    (split; [| split]);
    try (intros x; rewrite !elem_of_app; simpl;
         rewrite ?elem_of_nil; specialize (Hsub x); tauto);
    rewrite !length_app; simpl; lia.
Qed.

Lemma shrinks_refl (s : Engine) : shrinks s s.
Proof.
  repeat split; auto.
  apply Forall_Forall2_diag, Forall_forall. intros n _.
  split; [apply node_shrinks_refl | reflexivity].
Qed.

Lemma shrinks_trans (s1 s2 s3 : Engine) :
  shrinks s1 s2 -> shrinks s2 s3 -> shrinks s1 s3.
Proof.
  intros (Ha & Ho & Hc & Hn) (Ha' & Ho' & Hc' & Hn').
  split; [auto |]. split; [congruence |]. split; [congruence |].
  eapply Forall2_trans; [| exact Hn | exact Hn'].
  intros x y z [Hxy Exy] [Hyz Eyz].
  split; [eapply node_shrinks_trans; eassumption | congruence].
Qed.

Global Instance shrinks_preorder : PreOrder shrinks.
Proof. split; [exact shrinks_refl | exact shrinks_trans]. Qed.

Lemma shrinks_update_node (p : node_ptr) (f : Cone_tree_node -> Cone_tree_node) :
  (forall n, node_shrinks n (f n) /\ entry_edge (f n) = entry_edge n) ->
  preserves shrinks (update_node p f).
Proof.
  intros Hf s u s' Hrun. run_inv Hrun.
  repeat split; auto. simpl_engine.
  apply Forall2_same_length_lookup_2; [rewrite length_insert; reflexivity |].
  intros i n n' Hn Hn'. destruct (decide (i = p)) as [-> |].
  - rewrite list_lookup_insert_eq in Hn' by (eapply lookup_lt_Some; eauto).
    injection Hn' as <-. replace x with n by congruence. apply Hf.
  - rewrite list_lookup_insert_ne in Hn' by auto.
    replace n' with n by congruence.
    split; [apply node_shrinks_refl | reflexivity].
Qed.

Lemma shrinks_set_cancelled (e : event_ptr) : preserves shrinks (set_cancelled e).
Proof.
  intros s u s' Hrun. run_inv Hrun.
  split; [| split; [reflexivity | split; [reflexivity | apply (shrinks_refl s)]]].
  intros e' [ev' Hev']. unfold alive. simpl_engine.
  destruct (decide (e' = e)) as [-> |].
  - rewrite list_lookup_insert_eq by (eapply lookup_lt_Some; eauto). eauto.
  - rewrite list_lookup_insert_ne by auto. eauto.
Qed.

Lemma shrinks_release_occupancy (p : node_ptr) :
  preserves shrinks (release_occupancy p).
Proof.
  intros s u s' Hrun. unfold release_occupancy in Hrun.
  run_inv Hrun; try apply shrinks_refl;
    (split; [auto |]); simpl_engine; rewrite ?length_insert;
    (split; [reflexivity |]); (split; [reflexivity |]); apply (shrinks_refl s).
Qed.

Lemma shrinks_node (s : Engine) (p : node_ptr) (n n1 : Cone_tree_node) :
  node_arena s !! p = Some n -> node_shrinks n n1 -> entry_edge n1 = entry_edge n ->
  shrinks s (with_node_arena (<[p := n1]> (node_arena s)) s).
Proof.
  intros Hn Hshrinks Hedge. repeat split; auto. simpl_engine.
  apply Forall2_same_length_lookup_2; [rewrite length_insert; reflexivity |].
  intros i m m' Hm Hm'. destruct (decide (i = p)) as [-> |].
  - rewrite list_lookup_insert_eq in Hm' by (eapply lookup_lt_Some; eauto).
    injection Hm' as <-. replace m with n by congruence. auto.
  - rewrite list_lookup_insert_ne in Hm' by auto.
    replace m' with m by congruence.
    split; [apply node_shrinks_refl | reflexivity].
Qed.

Lemma shrinks_pop_middle_child (p : node_ptr) :
  preserves shrinks (pop_middle_child p).
Proof.
  intros s c s' Hrun. unfold pop_middle_child in Hrun. run_inv Hrun.
  same_node s p a. apply (shrinks_node s p a); [assumption | shrinks_tac | reflexivity].
Qed.

Global Instance shrinks_delete_frame : Delete_frame shrinks.
Proof.
  split; [exact _ | ..]; intros p; try apply shrinks_pop_middle_child;
    unfold cancel_pending_left, cancel_pending_right, cancel_pending_middle,
      remove_left_child, remove_right_child;
    repeat first
      [ apply shrinks_release_occupancy | apply shrinks_set_cancelled
      | apply shrinks_update_node; intros ?; split; [shrinks_tac | reflexivity]
      | preserves_step ].
Qed.

Lemma shrinks_links (s s' : Engine) : shrinks s s' -> links s' <= links s.
Proof.
  intros (_ & _ & _ & Hnodes). unfold links.
  induction Hnodes as [| n n' l l' [Hn _] _ IH]; cbn; [lia |].
  apply node_shrinks_subset in Hn as (_ & Hlen & _). lia.
Qed.

Lemma shrinks_descendant (s s' : Engine) (p m : node_ptr) :
  shrinks s s' -> descendant s' p m -> descendant s p m.
Proof.
  intros (_ & _ & _ & Hnodes) Hm.
  induction Hm as [| m n' c _ IHm Hn' Hc]; [apply descendant_self |].
  destruct (Forall2_lookup_r _ _ _ _ _ Hnodes Hn') as (n & Hn & Hshrinks & _).
  apply node_shrinks_subset in Hshrinks as (Hsub & _).
  eapply descendant_child; [exact IHm | exact Hn | apply Hsub, Hc].
Qed.

Lemma shrinks_deletable (s s' : Engine) (m : node_ptr) :
  shrinks s s' -> deletable s m -> deletable s' m.
Proof.
  intros (Halive & Ho & Hc & Hnodes) (n & Hn & Hpending & Hentry & Htarget).
  destruct (Forall2_lookup_l _ _ _ _ _ Hnodes Hn) as (n' & Hn' & Hshrinks & Hedge).
  apply node_shrinks_subset in Hshrinks as (_ & _ & Hsub).
  exists n'. split; [exact Hn' |]. split; [auto |].
  unfold target_vertex. rewrite Hedge, Ho, Hc. auto.
Qed.

Lemma descendant_trans (s : Engine) (p c m : node_ptr) :
  descendant s p c -> descendant s c m -> descendant s p m.
Proof.
  intros Hc Hm. induction Hm as [| m n x _ IHm Hn Hx]; [exact Hc |].
  eapply descendant_child; eassumption.
Qed.

Lemma links_update (s : Engine) (p : node_ptr) (n n1 : Cone_tree_node) :
  node_arena s !! p = Some n ->
  links (with_node_arena (<[p := n1]> (node_arena s)) s) + length (children_of n)
  = links s + length (children_of n1).
Proof.
  unfold links. simpl_engine. generalize (node_arena s). intros l. revert p.
  induction l as [| x l IH]; intros [| p] Hn; try discriminate Hn; simpl in *.
  - injection Hn as ->. lia.
  - specialize (IH p Hn). lia.
Qed.

Lemma cancel_pending_left_returns (p : node_ptr) (s : Engine) :
  deletable s p -> exists s', cancel_pending_left p s = Ok (tt, s').
Proof.
  intros (n & Hn & Hpending & _). unfold cancel_pending_left.
  rewrite (bind_run _ _ _ _ _ (deref_node_Ok _ _ _ Hn)).
  destruct (m_pendingLeftSubtree n) as [e |] eqn:He; [| eexists; reflexivity].
  destruct (Hpending e) as [ev Hev].
  { unfold pending_of. rewrite He. apply elem_of_app. left. apply elem_of_cons. auto. }
  unfold bind, set_cancelled, update_node, bind, deref_event, deref_node, modify.
  rewrite Hev. simpl_engine. rewrite Hn. eexists. reflexivity.
Qed.

Lemma cancel_pending_right_returns (p : node_ptr) (s : Engine) :
  deletable s p -> exists s', cancel_pending_right p s = Ok (tt, s').
Proof.
  intros (n & Hn & Hpending & _). unfold cancel_pending_right.
  rewrite (bind_run _ _ _ _ _ (deref_node_Ok _ _ _ Hn)).
  destruct (m_pendingRightSubtree n) as [e |] eqn:He; [| eexists; reflexivity].
  destruct (Hpending e) as [ev Hev].
  { unfold pending_of. rewrite He. rewrite !elem_of_app. right. left.
    apply elem_of_cons. auto. }
  unfold bind, set_cancelled, update_node, bind, deref_event, deref_node, modify.
  rewrite Hev. simpl_engine. rewrite Hn. eexists. reflexivity.
Qed.

Lemma cancel_pending_middle_returns (p : node_ptr) (s : Engine) :
  deletable s p -> exists s', cancel_pending_middle p s = Ok (tt, s').
Proof.
  intros (n & Hn & Hpending & _). unfold cancel_pending_middle.
  rewrite (bind_run _ _ _ _ _ (deref_node_Ok _ _ _ Hn)).
  destruct (m_pendingMiddleSubtree n) as [e |] eqn:He; [| eexists; reflexivity].
  destruct (Hpending e) as [ev Hev].
  { unfold pending_of. rewrite He. rewrite !elem_of_app. right. right.
    apply elem_of_cons. auto. }
  unfold bind, set_cancelled, update_node, bind, deref_event, deref_node, modify.
  rewrite Hev. simpl_engine. rewrite Hn. eexists. reflexivity.
Qed.

Lemma release_occupancy_returns (p : node_ptr) (s : Engine) :
  deletable s p -> exists s', release_occupancy p s = Ok (tt, s').
Proof.
  intros (n & Hn & _ & Hentry & Htarget). unfold release_occupancy.
  rewrite (bind_run _ _ _ _ _ (deref_node_Ok _ _ _ Hn)).
  destruct (lookup_lt_is_Some_2 _ _ Hentry) as [occupier Hoccupier].
  destruct (lookup_lt_is_Some_2 _ _ Htarget) as [closest Hclosest].
  rewrite (bind_run _ _ _ _ _ (vector_read_Ok _ _ _ _ Hoccupier)).
  destruct (bool_decide (fst occupier = Some p)); [| eexists; reflexivity].
  unfold bind, vector_write, vector_read.
  destruct (decide (_ < length (m_vertexOccupiers s))) as [_ | Hge]; [| lia].
  simpl_engine. rewrite Hclosest.
  destruct (bool_decide (fst closest = Some p)); [| eexists; reflexivity].
  destruct (decide (_ < _)) as [_ | Hge]; [| simpl_engine; lia].
  eexists. reflexivity.
Qed.

Section Delete_node_returns.
Context (fuel' : nat).
Context (IHt : forall q t,
           (forall m, descendant t q m -> deletable t m) -> links t < fuel' ->
           exists t', delete_node fuel' (Some q) t = Ok (tt, t')).
Context (s : Engine) (p : node_ptr).
Context (Hall : forall m, descendant s p m -> deletable s m).
Context (Hlinks : links s < S fuel').

(** A child [c] of [p] is deleted once its link is taken off. *)
Lemma delete_child_returns (t t1 : Engine) (n n1 : Cone_tree_node) (c : node_ptr) :
  shrinks s t -> node_arena t !! p = Some n -> c ∈ children_of n ->
  t1 = with_node_arena (<[p := n1]> (node_arena t)) t ->
  node_shrinks n n1 -> entry_edge n1 = entry_edge n ->
  S (length (children_of n1)) = length (children_of n) ->
  exists t', delete_node fuel' (Some c) t1 = Ok (tt, t') /\
             shrinks s t' /\ links t' < links t.
Proof.
  intros Ht Hn Hc -> Hshrinks Hedge Hlen.
  set (t1 := with_node_arena (<[p := n1]> (node_arena t)) t).
  assert (Ht1 : shrinks s t1).
  { etransitivity; [exact Ht |]. apply (shrinks_node t p n); assumption. }
  assert (Hless : links t1 < links t).
  { pose proof (links_update t p n n1 Hn). fold t1 in H. lia. }
  pose proof (shrinks_links _ _ Ht) as Hle.
  destruct (IHt c t1) as [t' Hrun].
  - intros m Hm. eapply shrinks_deletable; [exact Ht1 |]. apply Hall.
    eapply descendant_trans; [| eapply shrinks_descendant; [exact Ht1 | exact Hm]].
    eapply shrinks_descendant; [exact Ht |].
    eapply descendant_child; [apply descendant_self | exact Hn | exact Hc].
  - lia.
  - exists t'. split; [exact Hrun |].
    pose proof (preserves_delete_node shrinks _ _ _ _ _ Hrun) as Ht'.
    split; [etransitivity; eassumption |].
    pose proof (shrinks_links _ _ Ht'). lia.
Qed.

Lemma delete_left_child_returns (t : Engine) (n : Cone_tree_node) :
  shrinks s t -> node_arena t !! p = Some n ->
  exists t',
    (match m_leftChild n with
     | Some _ => c <- remove_left_child p ;; delete_node fuel' c
     | None => ret tt
     end) t = Ok (tt, t') /\ shrinks s t'.
Proof.
  intros Ht Hn.
  destruct (m_leftChild n) as [c |] eqn:Hleft;
    [| exists t; split; [reflexivity | exact Ht]].
  destruct (delete_child_returns t
              (with_node_arena (<[p := with_leftChild None n]> (node_arena t)) t)
              n (with_leftChild None n) c Ht Hn)
    as (t' & Hrun & Ht' & _); try reflexivity.
  - unfold children_of. rewrite Hleft. apply elem_of_app. left.
    apply elem_of_cons. auto.
  - shrinks_tac.
  - unfold children_of. cbn. rewrite Hleft. reflexivity.
  - exists t'. split; [| exact Ht'].
    unfold remove_left_child, update_node, bind, deref_node, modify, ret.
    rewrite Hn. simpl_engine. rewrite Hn. rewrite Hleft. exact Hrun.
Qed.

Lemma delete_right_child_returns (t : Engine) (n : Cone_tree_node) :
  shrinks s t -> node_arena t !! p = Some n ->
  exists t',
    (match m_rightChild n with
     | Some _ => c <- remove_right_child p ;; delete_node fuel' c
     | None => ret tt
     end) t = Ok (tt, t') /\ shrinks s t'.
Proof.
  intros Ht Hn.
  destruct (m_rightChild n) as [c |] eqn:Hright;
    [| exists t; split; [reflexivity | exact Ht]].
  destruct (delete_child_returns t
              (with_node_arena (<[p := with_rightChild None n]> (node_arena t)) t)
              n (with_rightChild None n) c Ht Hn)
    as (t' & Hrun & Ht' & _); try reflexivity.
  - unfold children_of. rewrite Hright. rewrite !elem_of_app. right. left.
    apply elem_of_cons. auto.
  - shrinks_tac.
  - unfold children_of. cbn. rewrite Hright. rewrite !length_app. cbn. lia.
  - exists t'. split; [| exact Ht'].
    unfold remove_right_child, update_node, bind, deref_node, modify, ret.
    rewrite Hn. simpl_engine. rewrite Hn. rewrite Hright. exact Hrun.
Qed.

Lemma delete_middle_children_returns (k : nat) (t : Engine) :
  shrinks s t -> links t < k ->
  exists t',
    while_loop k (node_has_middle_children p)
      (c <- pop_middle_child p ;; delete_node fuel' c) t = Ok (tt, t') /\
    shrinks s t'.
Proof.
  revert t. induction k as [| k IHk]; intros t Ht Hk; [lia |].
  destruct (shrinks_deletable _ _ p Ht (Hall p (descendant_self s p)))
    as (n & Hn & _).
  cbn [while_loop]. unfold node_has_middle_children.
  rewrite (bind_run _ _ _ _ _ (bind_run _ _ _ _ _ (deref_node_Ok _ _ _ Hn))).
  unfold ret at 1.
  destruct (has_middle_children n) eqn:Hmiddle;
    [| exists t; split; [reflexivity | exact Ht]].
  destruct (last (m_middleChildren n)) as [c |] eqn:Hlast.
  2: { apply last_None in Hlast. unfold has_middle_children in Hmiddle.
       rewrite Hlast in Hmiddle. discriminate Hmiddle. }
  pose proof Hlast as Hsplit. apply last_Some in Hsplit as [l' Hl'].
  destruct (delete_child_returns t
              (with_node_arena
                 (<[p := with_middleChildren
                           (take (length (m_middleChildren n) - 1)
                              (m_middleChildren n)) n]> (node_arena t)) t)
              n
              (with_middleChildren
                 (take (length (m_middleChildren n) - 1) (m_middleChildren n)) n)
              c Ht Hn)
    as (t1 & Hrun & Ht1 & Hless); try reflexivity.
  - unfold children_of. rewrite !elem_of_app. right. right.
    eapply last_Some_elem_of. exact Hlast.
  - shrinks_tac.
  - unfold children_of. cbn. rewrite Hl'.
    rewrite !length_app, length_take, !length_app. cbn. lia.
  - destruct (IHk t1 Ht1) as (t' & Hloop & Ht'); [lia |].
    exists t'. split; [| exact Ht'].
    assert (Hbody : (c <- pop_middle_child p ;; delete_node fuel' c) t
                    = Ok (tt, t1)).
    { unfold pop_middle_child, update_node, bind, deref_node, modify, ret.
      rewrite Hn. rewrite Hlast. simpl_engine. rewrite Hn. exact Hrun. }
    rewrite (bind_run _ _ _ _ _ Hbody). exact Hloop.
Qed.

End Delete_node_returns.

(** [delete_node] returns on every heap in which the nodes below [node] are
    deletable, given more fuel than there are child links. *)
Lemma delete_node_returns (fuel : nat) (p : node_ptr) (s : Engine) :
  (forall m, descendant s p m -> deletable s m) -> links s < fuel ->
  exists s', delete_node fuel (Some p) s = Ok (tt, s').
Proof.
  revert p s. induction fuel as [| fuel IH]; intros p s Hall Hlinks; [lia |].
  pose proof (Hall p (descendant_self s p)) as Hp.
  assert (Hat : forall t, shrinks s t ->
                  deletable t p /\ exists n, node_arena t !! p = Some n).
  { intros t Ht. pose proof (shrinks_deletable _ _ p Ht Hp) as Hd.
    split; [exact Hd |]. destruct Hd as (n & Hn & _). eauto. }
  cbn [delete_node].
  destruct (cancel_pending_left_returns p s Hp) as [s1 H1].
  pose proof (step_cancel_pending_left (R := shrinks) p _ _ _ H1) as T1.
  rewrite (bind_run _ _ _ _ _ H1).
  destruct (Hat s1 T1) as [_ [n1 Hn1]].
  rewrite (bind_run _ _ _ _ _ (deref_node_Ok _ _ _ Hn1)).
  destruct (delete_left_child_returns fuel IH s p Hall Hlinks s1 n1 T1 Hn1)
    as (s2 & H2 & T2).
  rewrite (bind_run _ _ _ _ _ H2).
  destruct (Hat s2 T2) as [D2 _].
  destruct (cancel_pending_right_returns p s2 D2) as [s3 H3].
  pose proof (step_cancel_pending_right (R := shrinks) p _ _ _ H3) as T3.
  assert (T3' : shrinks s s3) by (etransitivity; eassumption).
  rewrite (bind_run _ _ _ _ _ H3).
  destruct (Hat s3 T3') as [_ [n3 Hn3]].
  rewrite (bind_run _ _ _ _ _ (deref_node_Ok _ _ _ Hn3)).
  destruct (delete_right_child_returns fuel IH s p Hall Hlinks s3 n3 T3' Hn3)
    as (s4 & H4 & T4).
  rewrite (bind_run _ _ _ _ _ H4).
  destruct (Hat s4 T4) as [D4 _].
  destruct (cancel_pending_middle_returns p s4 D4) as [s5 H5].
  pose proof (step_cancel_pending_middle (R := shrinks) p _ _ _ H5) as T5.
  assert (T5' : shrinks s s5) by (etransitivity; eassumption).
  rewrite (bind_run _ _ _ _ _ H5).
  destruct (delete_middle_children_returns fuel IH s p Hall Hlinks (S fuel) s5 T5')
    as (s6 & H6 & T6).
  { pose proof (shrinks_links _ _ T5'). lia. }
  rewrite (bind_run _ _ _ _ _ H6).
  destruct (Hat s6 T6) as [D6 _].
  exact (release_occupancy_returns p s6 D6).
Qed.


(** ** Boundary vertices *)

Lemma iter_period {A : Type} (f : A -> A) (x : A) (m j : nat) :
  0 < m -> Nat.iter m f x = x -> Nat.iter j f x = Nat.iter (j mod m) f x.
Proof.
  intros Hm Hclosed.
  assert (Hmul : forall q, Nat.iter (q * m) f x = x).
  { induction q as [| q IH]; [reflexivity |].
    cbn [Nat.mul]. rewrite Nat.add_comm, Nat.iter_add, Hclosed. exact IH. }
  replace (Nat.iter j f x) with (Nat.iter (j mod m + (j / m) * m) f x)
    by (f_equal; pose proof (Nat.div_mod_eq j m); lia).
  rewrite Nat.iter_add, Hmul. reflexivity.
Qed.

Lemma on_border_decide (h : halfedge_descriptor) :
  bool_decide (face m_polyhedron h = None)
  || bool_decide (face m_polyhedron (opposite m_polyhedron h) = None) = true
  <-> on_border h.
Proof.
  unfold on_border. rewrite orb_true_iff, !bool_decide_eq_true. reflexivity.
Qed.

(** The loop from its [i]-th halfedge on, the walk closing after [n]
    steps. *)
Lemma is_boundary_vertex_loop_closed (first : halfedge_descriptor) (n : nat)
    (s : Engine) :
  Nat.iter n around first = first ->
  forall k i,
    i < n -> n <= i + k ->
    (forall j, j < i -> ~ on_border (Nat.iter j around first)) ->
    exists b,
      is_boundary_vertex_loop k first (Nat.iter i around first) s = Ok (b, s) /\
      (b = true <-> exists j, j < n /\ on_border (Nat.iter j around first)).
Proof.
  intros Hclosed. induction k as [| k IH]; intros i Hi Hk Hbefore; [lia |].
  cbn [is_boundary_vertex_loop].
  destruct (bool_decide (face m_polyhedron (Nat.iter i around first) = None)
            || bool_decide
                 (face m_polyhedron
                    (opposite m_polyhedron (Nat.iter i around first)) = None))
    eqn:Hborder.
  - exists true. split; [reflexivity |]. split; [| reflexivity].
    intros _. exists i. split; [exact Hi |]. apply on_border_decide, Hborder.
  - assert (Hhere : ~ on_border (Nat.iter i around first)).
    { intros H. apply on_border_decide in H. congruence. }
    fold (around (Nat.iter i around first)).
    change (around (Nat.iter i around first)) with (Nat.iter (S i) around first).
    destruct (decide (Nat.iter (S i) around first = first)) as [Hback | Hon].
    + exists false. split; [reflexivity |]. split; [discriminate |].
      intros (j & Hj & Hb). exfalso.
      rewrite (iter_period around first (S i) j) in Hb by (lia || exact Hback).
      pose proof (Nat.mod_upper_bound j (S i)) as Hlt.
      destruct (decide (j mod S i = i)) as [Heq | Hne].
      * rewrite Heq in Hb. contradiction.
      * apply (Hbefore (j mod S i)); [lia | exact Hb].
    + apply IH.
      * destruct (decide (S i = n)) as [<- |]; [contradiction | lia].
      * lia.
      * intros j Hj. destruct (decide (j = i)) as [-> |]; [exact Hhere |].
        apply Hbefore. lia.
Qed.

(** X1: when the walk [h -> opposite(next(h))] from [halfedge(v)] comes
    back to its start, [is_boundary_vertex(v)] returns, without changing
    anything, and returns true exactly when a halfedge of the walk or its
    opposite lies on the null face. *)
Theorem is_boundary_vertex_finds_the_border (fuel n : nat)
    (v : vertex_descriptor) (s : Engine) :
  0 < n -> n <= fuel ->
  Nat.iter n around (halfedge_of_vertex m_polyhedron v)
    = halfedge_of_vertex m_polyhedron v ->
  exists b,
    is_boundary_vertex fuel v s = Ok (b, s) /\
    (b = true <->
     exists j, j < n /\
       on_border (Nat.iter j around (halfedge_of_vertex m_polyhedron v))).
Proof.
  intros Hn Hfuel Hclosed. unfold is_boundary_vertex.
  apply (is_boundary_vertex_loop_closed _ n s Hclosed fuel 0); [lia | lia |].
  intros j Hj. lia.
Qed.

(** ** The vertex loop of [set_vertex_types] *)

Lemma is_boundary_vertex_loop_pure (k : nat) (first h : halfedge_descriptor)
    (s s' t : Engine) (b : bool) :
  is_boundary_vertex_loop k first h s = Ok (b, s') ->
  s' = s /\ is_boundary_vertex_loop k first h t = Ok (b, t).
Proof.
  revert h. induction k as [| k IH]; intros h Hrun; cbn in *; [discriminate |].
  destruct (bool_decide (face m_polyhedron h = None)
            || bool_decide (face m_polyhedron (opposite m_polyhedron h) = None)).
  - apply ret_Ok in Hrun as [-> ->]. auto.
  - destruct (decide (opposite m_polyhedron (next m_polyhedron h) = first)).
    + apply ret_Ok in Hrun as [-> ->]. auto.
    + apply IH. exact Hrun.
Qed.

Lemma set_vertex_types_vertex_run (fuel : nat) (v : vertex_descriptor)
    (s s' : Engine) :
  set_vertex_types_vertex fuel v s = Ok (tt, s') ->
  exists flag,
    (if is_saddle_vertex v then flag = true
     else forall t, is_boundary_vertex fuel v t = Ok (flag, t)) /\
    m_vertexIndexMap v < length (m_vertexIsPseudoSource s) /\
    m_vertexIndexMap v < length (m_closestToVertices s) /\
    s' = with_closestToVertices
           (<[m_vertexIndexMap v := (None, FT_zero)]> (m_closestToVertices s))
           (with_vertexIsPseudoSource
              (<[m_vertexIndexMap v := flag]> (m_vertexIsPseudoSource s)) s).
Proof.
  intros Hrun. unfold set_vertex_types_vertex in Hrun.
  apply bind_Ok in Hrun as (flag & s1 & Hflag & Hrun).
  assert (Hpure : s1 = s /\
            if is_saddle_vertex v then flag = true
            else forall t, is_boundary_vertex fuel v t = Ok (flag, t)).
  { destruct (is_saddle_vertex v).
    - apply ret_Ok in Hflag as [-> ->]. auto.
    - unfold is_boundary_vertex in *.
      split; [exact (proj1 (is_boundary_vertex_loop_pure _ _ _ _ _ s _ Hflag)) |].
      intros t. exact (proj2 (is_boundary_vertex_loop_pure _ _ _ _ _ t _ Hflag)). }
  destruct Hpure as [-> Hpure]. run_inv Hrun. simpl_engine.
  exists flag. auto.
Qed.

Lemma set_vertex_types_vertices_run (fuel : nat) (l : list vertex_descriptor) :
  NoDup (map m_vertexIndexMap l) ->
  forall s s',
    for_each l (set_vertex_types_vertex fuel) s = Ok (tt, s') ->
    (forall v, v ∈ l ->
       exists flag,
         m_vertexIsPseudoSource s' !! m_vertexIndexMap v = Some flag /\
         if is_saddle_vertex v then flag = true
         else forall t, is_boundary_vertex fuel v t = Ok (flag, t)) /\
    (forall i, i ∉ map m_vertexIndexMap l ->
       m_vertexIsPseudoSource s' !! i = m_vertexIsPseudoSource s !! i /\
       m_closestToVertices s' !! i = m_closestToVertices s !! i) /\
    length (m_vertexIsPseudoSource s') = length (m_vertexIsPseudoSource s) /\
    length (m_closestToVertices s') = length (m_closestToVertices s) /\
    m_vertexOccupiers s' = m_vertexOccupiers s /\
    node_arena s' = node_arena s /\ event_arena s' = event_arena s /\
    m_expansionPriqueue s' = m_expansionPriqueue s.
Proof.
  induction l as [| v l IH]; intros Hdistinct s s' Hrun; cbn in Hrun.
  - apply ret_Ok in Hrun as [_ ->].
    split; [intros v Hv; apply elem_of_nil in Hv; contradiction |].
    repeat split; reflexivity.
  - cbn in Hdistinct. apply NoDup_cons in Hdistinct as [Hfresh Hdistinct].
    apply bind_Ok in Hrun as ([] & s1 & Hv & Hrun).
    apply set_vertex_types_vertex_run in Hv as (flag & Hflag & Hlt1 & Hlt2 & ->).
    destruct (IH Hdistinct _ _ Hrun)
      as (Hrest & Hother & Hlen1 & Hlen2 & Hocc & Hnodes & Hevents & Hqueue).
    simpl_engine. rewrite length_insert in Hlen1. rewrite length_insert in Hlen2.
    split; [| split; [| repeat split; assumption]].
    + intros w Hw. apply elem_of_cons in Hw as [-> | Hw]; [| auto].
      exists flag. split; [| exact Hflag].
      destruct (Hother (m_vertexIndexMap v) Hfresh) as [-> _].
      apply list_lookup_insert_eq. exact Hlt1.
    + intros i Hi. cbn in Hi. apply not_elem_of_cons in Hi as [Hne Hi].
      destruct (Hother i Hi) as [-> ->].
      rewrite !list_lookup_insert_ne by auto. auto.
Qed.


(** ** [reset_containers] *)

Lemma length_remove_first (e : event_ptr) (q : list event_ptr) :
  e ∈ q -> S (length (remove_first e q)) = length q.
Proof.
  induction q as [| x q IH]; intros He; [apply elem_of_nil in He; contradiction |].
  cbn [remove_first]. destruct (decide (x = e)) as [-> |]; [reflexivity |].
  apply elem_of_cons in He as [-> | He]; [contradiction |].
  cbn. rewrite IH by exact He. reflexivity.
Qed.

Lemma remove_first_subset (e x : event_ptr) (q : list event_ptr) :
  x ∈ remove_first e q -> x ∈ q.
Proof.
  induction q as [| y q IH]; cbn [remove_first]; [auto |].
  destruct (decide (y = e)); rewrite !elem_of_cons; tauto.
Qed.

Lemma NoDup_remove_first (e : event_ptr) (q : list event_ptr) :
  NoDup q -> NoDup (remove_first e q) /\ e ∉ remove_first e q.
Proof.
  induction q as [| y q IH]; cbn [remove_first]; intros Hq.
  - split; [constructor | apply not_elem_of_nil].
  - apply NoDup_cons in Hq as [Hy Hq].
    destruct (decide (y = e)) as [-> |]; [auto |].
    destruct (IH Hq) as [Hq' He]. split.
    + apply NoDup_cons. split; [| exact Hq'].
      intros H. apply Hy. eapply remove_first_subset. exact H.
    + apply not_elem_of_cons. auto.
Qed.

(** What [k] rounds of the draining loop do. *)
Lemma drain_priqueue_run (k : nat) (s s' : Engine) :
  drain_priqueue k s = Ok (tt, s') ->
  length (m_expansionPriqueue s') + k = length (m_expansionPriqueue s) /\
  (forall e, destroyed s e -> destroyed s' e) /\
  (forall e, e ∈ m_expansionPriqueue s ->
             destroyed s' e \/ e ∈ m_expansionPriqueue s') /\
  (forall e, destroyed s' e -> destroyed s e \/ e ∈ m_expansionPriqueue s) /\
  (forall e, e ∉ m_expansionPriqueue s -> event_arena s' !! e = event_arena s !! e) /\
  node_arena s' = node_arena s /\
  m_vertexIsPseudoSource s' = m_vertexIsPseudoSource s /\
  m_vertexOccupiers s' = m_vertexOccupiers s /\
  m_closestToVertices s' = m_closestToVertices s /\
  m_rootNodes s' = m_rootNodes s /\
  m_faceLocations s' = m_faceLocations s /\
  m_faceOccupiers s' = m_faceOccupiers s.
Proof.
  revert s. induction k as [| k IH]; intros s Hrun; cbn [drain_priqueue] in Hrun.
  - apply ret_Ok in Hrun as [_ ->]. rewrite Nat.add_0_r.
    repeat split; auto.
  - apply bind_Ok in Hrun as (e & s0 & Htop & Hrun).
    apply priqueue_top_inv in Htop as [-> He].
    apply bind_Ok in Hrun as ([] & s1 & Hdelete & Hrun).
    apply delete_event_inv in Hdelete as (ev & Hev & ->).
    apply bind_Ok in Hrun as ([] & s2 & Hpop & Hrun).
    apply modify_Ok in Hpop as ->.
    apply IH in Hrun
      as (Hlen & Hkeep & Hall & Hfrom & Hother & Hnodes & H1 & H2 & H3 & H4 & H5 & H6).
    simpl_engine. unfold destroyed in *. simpl_engine.
    pose proof (lookup_lt_Some _ _ _ Hev) as Hlt.
    pose proof (length_remove_first e _ He) as Hless.
    split; [lia |]. split; [| split; [| split; [| split]]].
    + intros x Hx. apply Hkeep.
      destruct (decide (x = e)) as [-> |]; [congruence |].
      rewrite list_lookup_insert_ne by auto. exact Hx.
    + intros x Hx. destruct (decide (x = e)) as [-> |].
      * left. apply Hkeep. apply list_lookup_insert_eq. exact Hlt.
      * apply Hall. apply elem_of_remove_first; assumption.
    + intros x Hx. destruct (Hfrom x Hx) as [Hd | Hq].
      * destruct (decide (x = e)) as [-> |]; [auto |].
        rewrite list_lookup_insert_ne in Hd by auto. auto.
      * right. eapply remove_first_subset. exact Hq.
    + intros x Hx. rewrite Hother.
      * apply list_lookup_insert_ne. intros ->. contradiction.
      * intros H. apply Hx. eapply remove_first_subset. exact H.
    + repeat split; assumption.
Qed.

Lemma queue_min_returns (q : list event_ptr) (best : event_ptr)
    (bestEstimate : FT) (s : Engine) :
  (forall e, e ∈ q -> alive s e) ->
  exists e, queue_min best bestEstimate q s = Ok (e, s).
Proof.
  revert best bestEstimate. induction q as [| x q IH]; intros best bestEstimate Hq;
    cbn [queue_min]; [eexists; reflexivity |].
  destruct (Hq x) as [ev Hev]; [apply elem_of_cons; auto |].
  unfold bind, deref_event. rewrite Hev.
  destruct (FT_less (m_distanceEstimate ev) bestEstimate);
    apply IH; intros e He; apply Hq, elem_of_cons; auto.
Qed.

Lemma priqueue_top_returns (s : Engine) :
  (forall e, e ∈ m_expansionPriqueue s -> alive s e) ->
  m_expansionPriqueue s <> [] ->
  exists e, priqueue_top s = Ok (e, s).
Proof.
  intros Hq Hne. unfold priqueue_top, bind, gets.
  destruct (m_expansionPriqueue s) as [| x q]; [contradiction |].
  destruct (Hq x) as [ev Hev]; [apply elem_of_cons; auto |].
  unfold deref_event. rewrite Hev.
  apply queue_min_returns. intros e He. apply Hq, elem_of_cons. auto.
Qed.

Lemma drain_priqueue_returns (k : nat) (s : Engine) :
  NoDup (m_expansionPriqueue s) ->
  (forall e, e ∈ m_expansionPriqueue s -> alive s e) ->
  k <= length (m_expansionPriqueue s) ->
  exists s', drain_priqueue k s = Ok (tt, s').
Proof.
  revert s. induction k as [| k IH]; intros s Hdistinct Halive Hk;
    cbn [drain_priqueue]; [eexists; reflexivity |].
  destruct (priqueue_top_returns s Halive) as [e Htop].
  { intros Hnil. rewrite Hnil in Hk. cbn in Hk. lia. }
  pose proof (priqueue_top_inv _ _ _ Htop) as [_ He].
  rewrite (bind_run _ _ _ _ _ Htop).
  destruct (Halive e He) as [ev Hev].
  unfold bind at 1. unfold delete_event at 1. rewrite Hev.
  unfold bind at 1. unfold modify at 1. simpl_engine.
  destruct (NoDup_remove_first e _ Hdistinct) as [Hdistinct' Hgone].
  pose proof (length_remove_first e _ He) as Hless.
  apply IH; simpl_engine; [exact Hdistinct' | | lia].
  intros x Hx. unfold alive. simpl_engine.
  rewrite list_lookup_insert_ne by (intros ->; contradiction).
  apply Halive. eapply remove_first_subset. exact Hx.
Qed.

(** X3: [reset_containers] destroys the events left in the queue and
    empties it, forgets the roots and the source locations, and sizes the
    three vertex and halfedge tables for the mesh, keeping the entries they
    had below that size; it frees no node and leaves the face lists as they
    were.  It returns whenever the queue holds distinct events that are not
    destroyed. *)
Theorem reset_containers_drains_the_queue (s : Engine) :
  (forall s', reset_containers s = Ok (tt, s') ->
     m_expansionPriqueue s' = [] /\
     (forall e, destroyed s' e <-> destroyed s e \/ e ∈ m_expansionPriqueue s) /\
     (forall e, e ∉ m_expansionPriqueue s ->
                event_arena s' !! e = event_arena s !! e) /\
     m_rootNodes s' = [] /\ m_faceLocations s' = [] /\
     length (m_closestToVertices s') = num_vertices m_polyhedron /\
     length (m_vertexOccupiers s') = num_halfedges m_polyhedron /\
     length (m_vertexIsPseudoSource s') = num_vertices m_polyhedron /\
     (forall i, i < num_vertices m_polyhedron ->
        i < length (m_closestToVertices s) ->
        m_closestToVertices s' !! i = m_closestToVertices s !! i) /\
     (forall i, i < num_halfedges m_polyhedron ->
        i < length (m_vertexOccupiers s) ->
        m_vertexOccupiers s' !! i = m_vertexOccupiers s !! i) /\
     node_arena s' = node_arena s /\
     m_faceOccupiers s' = m_faceOccupiers s) /\
  (NoDup (m_expansionPriqueue s) ->
   (forall e, e ∈ m_expansionPriqueue s -> alive s e) ->
   exists s', reset_containers s = Ok (tt, s')).
Proof.
  split.
  - intros s' Hrun. unfold reset_containers in Hrun.
    apply bind_Ok in Hrun as ([] & s1 & H1 & Hrun). apply modify_Ok in H1 as ->.
    apply bind_Ok in Hrun as ([] & s2 & H2 & Hrun). apply modify_Ok in H2 as ->.
    apply bind_Ok in Hrun as (q & s3 & Hq & Hrun). apply gets_Ok in Hq as [-> ->].
    apply bind_Ok in Hrun as ([] & s4 & Hdrain & Hrun).
    apply drain_priqueue_run in Hdrain
      as (Hlen & Hkeep & Hall & Hfrom & Hother & Hnodes & H1 & H2 & H3 & H4 & H5 & H6).
    run_inv Hrun. simpl_engine. unfold destroyed in *. simpl_engine.
    assert (Hempty : m_expansionPriqueue s4 = []).
    { apply length_zero_iff_nil. lia. }
    split; [exact Hempty |]. split.
    { intros e. split; [apply Hfrom |]. intros [Hd | He]; [auto |].
      destruct (Hall e He) as [Hd | Hin]; [exact Hd |].
      rewrite Hempty in Hin. apply elem_of_nil in Hin. contradiction. }
    split; [exact Hother |].
    rewrite H2, H3, Hnodes, H6.
    unfold vector_resize. rewrite !length_app, !length_take, !length_replicate.
    repeat split; try reflexivity; try lia.
    + intros i Hi Hi'. rewrite lookup_app_l by (rewrite length_take; lia).
      apply lookup_take_lt. exact Hi.
    + intros i Hi Hi'. rewrite lookup_app_l by (rewrite length_take; lia).
      apply lookup_take_lt. exact Hi.
  - intros Hdistinct Halive. unfold reset_containers.
    unfold bind at 1. unfold modify at 1.
    unfold bind at 1. unfold modify at 1.
    unfold bind at 1. unfold gets at 1. simpl_engine.
    destruct (drain_priqueue_returns (length (m_expansionPriqueue s))
                (with_vertexOccupiers
                   (vector_resize (num_halfedges m_polyhedron) (None, FT_zero)
                      (m_vertexOccupiers s))
                   (with_closestToVertices
                      (vector_resize (num_vertices m_polyhedron) (None, FT_zero)
                         (m_closestToVertices s)) s)))
      as [s1 Hdrain]; simpl_engine; auto.
    rewrite (bind_run _ _ _ _ _ Hdrain). eexists. reflexivity.
Qed.

(** ** The nodes an expansion adds *)

Global Instance roots_kept_preorder : PreOrder roots_kept.
Proof.
  split; [intros s; split; reflexivity |].
  intros s1 s2 s3 [H1 H2] [H3 H4]. split; congruence.
Qed.

Lemma roots_kept_same (s s' : Engine) :
  m_rootNodes s' = m_rootNodes s -> m_faceLocations s' = m_faceLocations s ->
  roots_kept s s'.
Proof. intros H1 H2. split; assumption. Qed.

Global Instance roots_kept_link_frame : Link_frame roots_kept.
Proof.
  split; [exact _ | ..].
  - intros p f Hf s u s' Hrun. run_inv Hrun. apply roots_kept_same; reflexivity.
  - intros e s u s' Hrun. run_inv Hrun. apply roots_kept_same; reflexivity.
  - intros p s u s' Hrun. unfold release_occupancy in Hrun. run_inv Hrun;
      apply roots_kept_same; reflexivity.
Qed.

Global Instance roots_kept_expand_frame : Expand_frame roots_kept.
Proof.
  split; [split; [split; [apply link_delete_frame; exact _ | ..] |] | ..].
  - apply link_update_node.
  - intros ev s e s' Hrun. run_inv Hrun. apply roots_kept_same; reflexivity.
  - intros e. apply preserves_modify. intros s. apply roots_kept_same; reflexivity.
  - intros i x. apply preserves_vector_write. intros s _.
    apply roots_kept_same; reflexivity.
  - intros i x. apply preserves_vector_write. intros s _.
    apply roots_kept_same; reflexivity.
  - intros n s q s' Hrun. run_inv Hrun. apply roots_kept_same; reflexivity.
  - intros child q pn s u s' Hrun. run_inv Hrun. apply roots_kept_same; reflexivity.
Qed.

(** A node just allocated is linked under [parent], by any of the three
    links. *)
Lemma cones_extended_link (parent : node_ptr) (pn pn' p child : Cone_tree_node)
    (s s2 : Engine) :
  node_arena s !! parent = Some pn ->
  cone_of pn = cone_of p -> cone_of pn' = cone_of pn ->
  node_arena s2
    = <[parent := pn']> (node_arena s) ++ [on_child_link parent pn child] ->
  cones_extended [on_child_link parent p child] s s2.
Proof.
  intros Hpn Heq Heq' Harena. unfold cones_extended. rewrite Harena.
  apply Forall2_app.
  - apply Forall2_same_length_lookup_2; [rewrite length_insert; reflexivity |].
    intros i x y Hx Hy. destruct (decide (i = parent)) as [-> |].
    + rewrite list_lookup_insert_eq in Hy by (eapply lookup_lt_Some; eauto).
      injection Hy as <-. rewrite Hpn in Hx. injection Hx as <-. exact Heq'.
    + rewrite list_lookup_insert_ne in Hy by auto. congruence.
  - constructor; [| constructor]. apply cone_of_on_child_link. exact Heq.
Qed.

Lemma set_left_child_run (parent : node_ptr) (pn child : Cone_tree_node)
    (s s' : Engine) (u : unit) :
  node_arena s !! parent = Some pn ->
  set_left_child parent (length (node_arena s))
    (with_node_arena (node_arena s ++ [child]) s) = Ok (u, s') ->
  node_arena s' =
    <[parent := with_leftChild (Some (length (node_arena s))) pn]> (node_arena s)
      ++ [on_child_link parent pn child].
Proof.
  intros Hpn Hrun. pose proof (lookup_lt_Some _ _ _ Hpn) as Hlt.
  unfold set_left_child in Hrun. run_inv Hrun. simpl_engine.
  repeat match goal with
  | H : (node_arena s ++ _) !! parent = Some _ |- _ =>
      rewrite lookup_app_l in H by exact Hlt; rewrite Hpn in H;
      injection H as <-
  | H : (node_arena s ++ _) !! length (node_arena s) = Some _ |- _ =>
      rewrite lookup_arena_snoc in H; injection H as <-
  | H : <[_ := _]> _ !! parent = Some _ |- _ =>
      rewrite list_lookup_insert_ne in H by lia;
      rewrite lookup_app_l in H by exact Hlt; rewrite Hpn in H;
      injection H as <-
  end.
  rewrite insert_app_r_alt by lia. rewrite Nat.sub_diag. cbn [insert list_insert].
  rewrite insert_app_l by exact Hlt. reflexivity.
Qed.

Lemma set_right_child_run (parent : node_ptr) (pn child : Cone_tree_node)
    (s s' : Engine) (u : unit) :
  node_arena s !! parent = Some pn ->
  set_right_child parent (length (node_arena s))
    (with_node_arena (node_arena s ++ [child]) s) = Ok (u, s') ->
  node_arena s' =
    <[parent := with_rightChild (Some (length (node_arena s))) pn]> (node_arena s)
      ++ [on_child_link parent pn child].
Proof.
  intros Hpn Hrun. pose proof (lookup_lt_Some _ _ _ Hpn) as Hlt.
  unfold set_right_child in Hrun. run_inv Hrun. simpl_engine.
  repeat match goal with
  | H : (node_arena s ++ _) !! parent = Some _ |- _ =>
      rewrite lookup_app_l in H by exact Hlt; rewrite Hpn in H;
      injection H as <-
  | H : (node_arena s ++ _) !! length (node_arena s) = Some _ |- _ =>
      rewrite lookup_arena_snoc in H; injection H as <-
  | H : <[_ := _]> _ !! parent = Some _ |- _ =>
      rewrite list_lookup_insert_ne in H by lia;
      rewrite lookup_app_l in H by exact Hlt; rewrite Hpn in H;
      injection H as <-
  end.
  rewrite insert_app_r_alt by lia. rewrite Nat.sub_diag. cbn [insert list_insert].
  rewrite insert_app_l by exact Hlt. reflexivity.
Qed.

Lemma cones_extended_refl (s : Engine) : cones_extended [] s s.
Proof. apply cones_extended_same. reflexivity. Qed.

Lemma cones_extended_arena (a : list Cone_tree_node) (s s' t t' : Engine) :
  node_arena t = node_arena s -> node_arena t' = node_arena s' ->
  cones_extended a s s' -> cones_extended a t t'.
Proof. unfold cones_extended. intros -> ->. auto. Qed.

Lemma cones_extended_parent (a : list Cone_tree_node) (s s' : Engine)
    (parent : node_ptr) (p : Cone_tree_node) :
  cones_extended a s s' ->
  (exists pn, node_arena s !! parent = Some pn /\ cone_of pn = cone_of p) ->
  exists pn, node_arena s' !! parent = Some pn /\ cone_of pn = cone_of p.
Proof.
  intros H (pn & Hpn & Heq).
  destruct (cones_extended_lookup a s s' parent pn H) as (pn' & Hpn' & Heq').
  { apply lookup_app_l_Some. exact Hpn. }
  exists pn'. split; [exact Hpn' | congruence].
Qed.

(** ** Roots *)

Lemma cone_of_fields (n n' : Cone_tree_node) :
  cone_of n' = cone_of n ->
  m_level n' = m_level n /\ m_treeId n' = m_treeId n /\
  m_parent n' = m_parent n /\ m_nodeType n' = m_nodeType n /\
  m_entryEdge n' = m_entryEdge n.
Proof.
  intros H.
  exact (conj (f_equal m_level H) (conj (f_equal m_treeId H)
           (conj (f_equal m_parent H) (conj (f_equal m_nodeType H)
              (f_equal m_entryEdge H))))).
Qed.

Lemma parent_linked_cone (l l' : list Cone_tree_node) (i : nat)
    (n n' : Cone_tree_node) :
  Forall2 (fun n n' => cone_of n' = cone_of n) l l' ->
  cone_of n' = cone_of n ->
  parent_linked l i n -> parent_linked l' i n'.
Proof.
  intros Hall Heq. unfold parent_linked, parent, node_type, level, tree_id.
  destruct (cone_of_fields _ _ Heq) as (-> & -> & -> & -> & _).
  destruct (m_parent n) as [p |]; [| auto].
  intros (Hlt & Htype & pn & Hpn & Hlevel & Htree).
  destruct (Forall2_lookup_l _ _ _ _ _ Hall Hpn) as (pn' & Hpn' & Heq').
  split; [exact Hlt |]. split; [exact Htype |]. exists pn'.
  split; [exact Hpn' |].
  destruct (cone_of_fields _ _ Heq') as (-> & -> & _). auto.
Qed.

Lemma parent_linked_app (l more : list Cone_tree_node) (i : nat)
    (n : Cone_tree_node) :
  parent_linked l i n -> parent_linked (l ++ more) i n.
Proof.
  unfold parent_linked. destruct (parent n) as [p |]; [| auto].
  intros (Hlt & Htype & pn & Hpn & H). split; [exact Hlt |].
  split; [exact Htype |]. exists pn. split; [| exact H].
  apply lookup_app_l_Some. exact Hpn.
Qed.

Lemma grows_well_linked (kinds : list Node_type) (added : list Cone_tree_node)
    (s s' : Engine) :
  grows kinds added s s' -> well_linked s -> well_linked s'.
Proof.
  intros [Hext Hadded] Hs i n' Hn'.
  destruct (Forall2_lookup_r _ _ _ _ _ Hext Hn') as (n & Hn & Heq).
  apply (parent_linked_cone _ _ _ n n' Hext Heq).
  apply lookup_app_Some in Hn as [Hn | [Hi Hn]].
  - apply parent_linked_app. apply Hs. exact Hn.
  - replace i with (length (node_arena s) + (i - length (node_arena s))) by lia.
    apply Hadded. exact Hn.
Qed.

Lemma grows_refl (kinds : list Node_type) (s s' : Engine) :
  same_cones s s' -> grows kinds [] s s'.
Proof.
  intros H. split; [apply cones_extended_same, H |].
  intros j a Ha. discriminate Ha.
Qed.

Lemma grows_trans (kinds : list Node_type) (a b : list Cone_tree_node)
    (s s1 s2 : Engine) :
  grows kinds a s s1 -> grows kinds b s1 s2 -> grows kinds (a ++ b) s s2.
Proof.
  intros [H1 Ha] [H2 Hb]. split; [eapply cones_extended_trans; eauto |].
  intros j x Hx. apply lookup_app_Some in Hx as [Hx | [Hj Hx]].
  - destruct (Ha j x Hx) as [Hkind Hlinked]. split; [exact Hkind |].
    rewrite app_assoc. apply parent_linked_app. exact Hlinked.
  - destruct (Hb _ x Hx) as [Hkind Hlinked]. split; [exact Hkind |].
    pose proof (Forall2_length _ _ _ H1) as Hlen. rewrite length_app in Hlen.
    replace (length (node_arena s) + j)
      with (length (node_arena s1) + (j - length a)) by lia.
    rewrite app_assoc.
    apply (parent_linked_cone (node_arena s1 ++ b) _ _ x x);
      [| reflexivity | exact Hlinked].
    apply Forall2_app.
    + apply Forall2_flip. eapply Forall2_impl; [exact H1 |].
      cbn. intros ? ? H. symmetry. exact H.
    + apply Forall_Forall2_diag, Forall_forall. reflexivity.
Qed.

Lemma grows_kinds (kinds kinds' : list Node_type) (added : list Cone_tree_node)
    (s s' : Engine) :
  kinds ⊆ kinds' -> grows kinds added s s' -> grows kinds' added s s'.
Proof.
  intros Hsub [H Hadded]. split; [exact H |].
  intros j a Ha. destruct (Hadded j a Ha) as [Hkind Hlinked]. auto.
Qed.

(** A child linked under a node of the arena. *)
Lemma grows_child (kinds : list Node_type) (parent : node_ptr)
    (p child : Cone_tree_node) (s s' : Engine) :
  (exists pn, node_arena s !! parent = Some pn /\ cone_of pn = cone_of p) ->
  node_type child ∈ kinds -> node_type child <> ROOT ->
  cones_extended [on_child_link parent p child] s s' ->
  grows kinds [on_child_link parent p child] s s'.
Proof.
  intros (pn & Hpn & Heq) Hkind Htype Hext. split; [exact Hext |].
  intros [| j] a Ha; [| destruct j; discriminate Ha]. injection Ha as <-.
  split; [exact Hkind |]. unfold parent_linked. cbn.
  pose proof (lookup_lt_Some _ _ _ Hpn) as Hlt.
  split; [lia |]. split; [exact Htype |]. exists pn.
  split; [apply lookup_app_l_Some; exact Hpn |].
  unfold level, tree_id.
  destruct (cone_of_fields _ _ Heq) as (<- & <- & _). auto.
Qed.


(** One child of a node: allocated, linked as a middle child, processed;
    the nodes that were there are the cones they were. *)
Lemma middle_child_extends (fuel : nat) (parent : node_ptr)
    (p child : Cone_tree_node) (s s' : Engine) :
  (exists pn, node_arena s !! parent = Some pn /\ cone_of pn = cone_of p) ->
  (c <- new_node child ;;
   push_middle_child_node parent c ;;;
   process_node fuel c) s = Ok (tt, s') ->
  cones_extended [on_child_link parent p child] s s'.
Proof.
  intros Hp Hrun.
  apply bind_Ok in Hrun as (c & s1 & Hnew & Hrun).
  apply bind_Ok in Hrun as (u & s2 & Hlink & Hrun).
  exact (middle_child_run _ _ _ _ _ _ _ _ _ _ _ Hp Hnew Hlink Hrun).
Qed.

Lemma expand_pseudo_source_loop_run (k fuel : nat) (parent : node_ptr)
    (p : Cone_tree_node) (d : FT) (startEdge currentEdge : halfedge_descriptor)
    (s s' : Engine) :
  (exists pn, node_arena s !! parent = Some pn /\ cone_of pn = cone_of p) ->
  expand_pseudo_source_loop k fuel parent d startEdge currentEdge s = Ok (tt, s') ->
  exists n,
    0 < n <= k /\
    Nat.iter n around currentEdge = startEdge /\
    (forall j, 0 < j < n -> Nat.iter j around currentEdge <> startEdge) /\
    grows [VERTEX_SOURCE]
      (map (fun j => on_child_link parent p
                       (vertex_source_child d (Nat.iter j around currentEdge)))
           (seq 0 n)) s s'.
Proof.
  revert currentEdge s. induction k as [| k IH]; intros currentEdge s Hp Hrun;
    cbn [expand_pseudo_source_loop] in Hrun; [discriminate Hrun |].
  apply bind_Ok in Hrun as (c & s1 & Hnew & Hrun).
  apply bind_Ok in Hrun as (u & s2 & Hlink & Hrun).
  apply bind_Ok in Hrun as (u' & s3 & Hprocess & Hrun).
  pose proof (middle_child_run _ _ _ _ _ _ _ _ _ _ _ Hp Hnew Hlink Hprocess) as H1.
  apply (grows_child [VERTEX_SOURCE] _ _ _ _ _ Hp) in H1;
    [| apply elem_of_cons; auto | discriminate].
  fold (around currentEdge) in Hrun.
  destruct (decide (around currentEdge = startEdge)) as [Hclosed | Hopen].
  - apply ret_Ok in Hrun as [_ ->]. exists 1. split; [lia |].
    split; [exact Hclosed |]. split; [intros j Hj; lia |]. exact H1.
  - pose proof (cones_extended_parent _ _ _ _ _ (proj1 H1) Hp) as Hp3.
    destruct (IH _ _ Hp3 Hrun) as (n & Hn & Hiter & Hfirst & Hext).
    exists (S n). split; [lia |].
    split; [rewrite Nat.iter_succ_r; exact Hiter |].
    split.
    + intros j Hj. destruct j as [| j]; [lia |].
      rewrite Nat.iter_succ_r. destruct (decide (j = 0)) as [-> |].
      * exact Hopen.
      * apply Hfirst. lia.
    + cbn [seq map]. rewrite <- seq_shift, map_map.
      apply (grows_trans _ [_] _ s s3 s'); [exact H1 |].
      erewrite map_ext; [exact Hext |].
      intros j. cbn beta. rewrite Nat.iter_succ_r. reflexivity.
Qed.

Lemma expand_pseudo_source_run (fuel : nat) (parent : node_ptr)
    (p : Cone_tree_node) (s s' : Engine) :
  node_arena s !! parent = Some p ->
  expand_pseudo_source fuel parent s = Ok (tt, s') ->
  let startEdge := halfedge_of_vertex m_polyhedron (target_vertex p) in
  exists n,
    0 < n <= fuel /\
    Nat.iter n around startEdge = startEdge /\
    (forall j, 0 < j < n -> Nat.iter j around startEdge <> startEdge) /\
    grows [VERTEX_SOURCE]
      (map (fun j => on_child_link parent p
                       (vertex_source_child (distance_from_target_to_root p)
                          (Nat.iter j around startEdge)))
           (seq 0 n)) s s'.
Proof.
  intros Hp Hrun. cbv zeta. unfold expand_pseudo_source in Hrun.
  apply bind_Ok in Hrun as (u & s1 & Hupdate & Hrun).
  apply update_node_inv in Hupdate as (pn & Hpn & ->).
  rewrite Hp in Hpn. injection Hpn as <-.
  apply bind_Ok in Hrun as (p' & s2 & Hderef & Hrun).
  apply deref_node_inv in Hderef as [Hp' ->]. simpl_engine.
  rewrite list_lookup_insert_eq in Hp' by (eapply lookup_lt_Some; exact Hp).
  injection Hp' as <-.
  assert (Hkept : exists pn,
            node_arena
              (with_node_arena
                 (<[parent := with_pendingMiddleSubtree None p]> (node_arena s)) s)
              !! parent = Some pn /\ cone_of pn = cone_of p).
  { exists (with_pendingMiddleSubtree None p). simpl_engine.
    split; [| reflexivity].
    apply list_lookup_insert_eq. eapply lookup_lt_Some; exact Hp. }
  destruct (expand_pseudo_source_loop_run _ _ _ p _ _ _ _ _ Hkept Hrun)
    as (n & Hn & Hiter & Hfirst & Hext).
  exists n. split; [exact Hn |]. split; [exact Hiter |].
  split; [exact Hfirst |].
  refine (grows_trans _ [] _ s _ s' _ Hext).
  apply grows_refl. apply same_cones_update with (n := p);
    [exact Hp | reflexivity].
Qed.



Lemma new_root_run (entryEdge : halfedge_descriptor) (root : node_ptr)
    (s s' : Engine) :
  new_root entryEdge s = Ok (root, s') ->
  root = length (node_arena s) /\
  m_rootNodes s' = m_rootNodes s ++ [root] /\
  m_faceLocations s' = m_faceLocations s /\
  m_closestToVertices s' = m_closestToVertices s /\
  node_arena s' = node_arena s ++ [root_node (length (m_rootNodes s)) entryEdge].
Proof.
  intros Hrun. unfold new_root in Hrun. run_inv Hrun. simpl_engine. auto.
Qed.

Lemma grows_root (kinds : list Node_type) (root : Cone_tree_node) (s s' : Engine) :
  node_arena s' = node_arena s ++ [root] ->
  node_type root = ROOT -> parent root = None -> level root = 0 ->
  ROOT ∈ kinds ->
  grows kinds [root] s s'.
Proof.
  intros Harena Htype Hparent Hlevel Hkind. split.
  - unfold cones_extended. rewrite Harena.
    apply Forall_Forall2_diag, Forall_forall. reflexivity.
  - intros [| j] a Ha; [| destruct j; discriminate Ha]. injection Ha as <-.
    rewrite Htype. split; [exact Hkind |].
    unfold parent_linked. rewrite Hparent. auto.
Qed.

Lemma grows_parent (kinds : list Node_type) (root : Cone_tree_node)
    (added : list Cone_tree_node) (s s' : Engine) :
  grows kinds (root :: added) s s' ->
  exists pn, node_arena s' !! length (node_arena s) = Some pn /\
             cone_of pn = cone_of root.
Proof. intros [H _]. exact (edge_root_kept _ _ _ _ H). Qed.

Lemma preserves_middle_child (R : Engine -> Engine -> Prop) `{!Expand_frame R}
    (fuel : nat) (parent : node_ptr) (child : Cone_tree_node) :
  preserves R
    (c <- new_node child ;;
     push_middle_child_node parent c ;;;
     process_node fuel c).
Proof.
  unfold push_middle_child_node.
  repeat first [ apply (preserves_process_node R) | preserves_auto ].
Qed.

Lemma face_root_child_run (fuel : nat) (faceRoot : node_ptr)
    (root : Cone_tree_node) (faceLocation : Barycentric_coordinate)
    (current : halfedge_descriptor) (currentVertex : nat) (s s' : Engine) :
  (exists pn, node_arena s !! faceRoot = Some pn /\ cone_of pn = cone_of root) ->
  expand_face_root_child fuel faceRoot faceLocation current currentVertex s
    = Ok (tt, s') ->
  grows [ROOT; FACE_SOURCE]
    [on_child_link faceRoot root
       (face_source_child faceLocation current currentVertex)] s s'.
Proof.
  intros Hp Hrun. unfold expand_face_root_child in Hrun.
  apply grows_child; [exact Hp | | discriminate |].
  - cbn. apply elem_of_cons. right. apply elem_of_cons. auto.
  - exact (middle_child_extends _ _ _ _ _ _ Hp Hrun).
Qed.

Lemma expand_face_root_run (fuel : nat) (faceId : face_descriptor)
    (faceLocation : Barycentric_coordinate) (s s' : Engine) :
  expand_face_root fuel faceId faceLocation s = Ok (tt, s') ->
  let start := halfedge_of_face m_polyhedron faceId in
  let faceRoot := length (node_arena s) in
  let root := root_node (length (m_rootNodes s)) (null_halfedge m_polyhedron) in
  grows [ROOT; FACE_SOURCE]
    (root :: map (on_child_link faceRoot root)
               [face_source_child faceLocation start 0;
                face_source_child faceLocation (next m_polyhedron start) 1;
                face_source_child faceLocation
                  (next m_polyhedron (next m_polyhedron start)) 2])
    s s' /\
  roots_kept
    (with_rootNodes (m_rootNodes s ++ [faceRoot]) s) s'.
Proof.
  intros Hrun. cbv zeta. unfold expand_face_root in Hrun.
  apply bind_Ok in Hrun as (faceRoot & s0 & Hroot & Hrun).
  apply new_root_run in Hroot as (-> & Hroots & Hlocations & _ & Harena).
  apply bind_Ok in Hrun as ([] & s1 & Hrun1 & Hrun).
  apply bind_Ok in Hrun as ([] & s2 & Hrun2 & Hrun3).
  pose proof (grows_root [ROOT; FACE_SOURCE] _ s s0 Harena eq_refl eq_refl eq_refl
                ltac:(apply elem_of_cons; auto)) as H0.
  pose proof (face_root_child_run _ _ _ _ _ _ _ _ (grows_parent _ _ _ _ _ H0) Hrun1)
    as H1.
  pose proof (grows_trans _ _ _ _ _ _ H0 H1) as H01.
  pose proof (face_root_child_run _ _ _ _ _ _ _ _ (grows_parent _ _ _ _ _ H01) Hrun2)
    as H2.
  pose proof (grows_trans _ _ _ _ _ _ H01 H2) as H02.
  pose proof (face_root_child_run _ _ _ _ _ _ _ _ (grows_parent _ _ _ _ _ H02) Hrun3)
    as H3.
  split; [exact (grows_trans _ _ _ _ _ _ H02 H3) |].
  assert (Hkept : roots_kept s0 s').
  { transitivity s1; [| transitivity s2].
    - exact (preserves_middle_child roots_kept _ _ _ _ _ _ Hrun1).
    - exact (preserves_middle_child roots_kept _ _ _ _ _ _ Hrun2).
    - exact (preserves_middle_child roots_kept _ _ _ _ _ _ Hrun3). }
  destruct Hkept as [Hr Hl]. split; simpl_engine; congruence.
Qed.

Lemma preserves_expand_edge_root_side (R : Engine -> Engine -> Prop)
    `{!Expand_frame R} (fuel : nat) (edgeRoot : node_ptr)
    (baseEdge : halfedge_descriptor) (layoutFace : Triangle_2)
    (sourcePoint : Point_2) :
  preserves R (expand_edge_root_side fuel edgeRoot baseEdge layoutFace sourcePoint).
Proof.
  unfold expand_edge_root_side, push_middle_child_node.
  repeat first [ apply (preserves_process_node R) | preserves_auto ].
Qed.

Lemma preserves_expand_vertex_root_rest (R : Engine -> Engine -> Prop)
    `{!Expand_frame R} (fuel : nat) (vertex : vertex_descriptor)
    (vertexRoot : node_ptr) :
  preserves R
    (vector_write m_closestToVertices with_closestToVertices
       (m_vertexIndexMap vertex) (Some vertexRoot, FT_zero) ;;;
     expand_pseudo_source fuel vertexRoot).
Proof.
  repeat first [ apply preserves_expand_pseudo_source; exact _ | preserves_auto ].
Qed.

Lemma edge_root_child_run (fuel : nat) (edgeRoot : node_ptr)
    (root child : Cone_tree_node) (s s' : Engine) :
  (exists pn, node_arena s !! edgeRoot = Some pn /\ cone_of pn = cone_of root) ->
  (c <- new_node child ;;
   push_middle_child_node edgeRoot c ;;;
   process_node fuel c) s = Ok (tt, s') ->
  node_type child = EDGE_SOURCE ->
  grows [ROOT; EDGE_SOURCE] [on_child_link edgeRoot root child] s s'.
Proof.
  intros Hp Hrun Htype.
  apply grows_child; [exact Hp | | rewrite Htype; discriminate |].
  - rewrite Htype. apply elem_of_cons. right. apply elem_of_cons. auto.
  - exact (middle_child_extends _ _ _ _ _ _ Hp Hrun).
Qed.

Lemma expand_edge_root_run (fuel : nat) (baseEdge : halfedge_descriptor)
    (t0 t1 : FT) (s s' : Engine) :
  expand_edge_root fuel baseEdge t0 t1 s = Ok (tt, s') ->
  exists added,
    grows [ROOT; EDGE_SOURCE]
      (root_node (length (m_rootNodes s)) (null_halfedge m_polyhedron) :: added)
      s s' /\
    roots_kept (with_rootNodes (m_rootNodes s ++ [length (node_arena s)]) s) s'.
Proof.
  intros Hrun. unfold expand_edge_root in Hrun.
  apply bind_Ok in Hrun as (edgeRoot & s0 & Hroot & Hrun).
  apply new_root_run in Hroot as (-> & Hroots & Hlocations & _ & Harena).
  apply bind_Ok in Hrun as ([] & s2 & Hside0 & Hside1).
  assert (Hkept : roots_kept s0 s').
  { transitivity s2;
      [ exact (preserves_expand_edge_root_side roots_kept _ _ _ _ _ _ _ _ Hside0)
      | exact (preserves_expand_edge_root_side roots_kept _ _ _ _ _ _ _ _ Hside1) ]. }
  unfold expand_edge_root_side in Hside0, Hside1.
  apply bind_Ok in Hside0 as (c1 & s1a & Hnew1 & Hside0).
  apply bind_Ok in Hside0 as (u1 & s1b & Hlink1 & Hside0).
  apply bind_Ok in Hside0 as ([] & s1 & Hrun1 & Hside0).
  apply bind_Ok in Hside1 as (c3 & s3a & Hnew3 & Hside1).
  apply bind_Ok in Hside1 as (u3 & s3b & Hlink3 & Hside1).
  apply bind_Ok in Hside1 as ([] & s3 & Hrun3 & Hside1).
  pose proof (grows_root [ROOT; EDGE_SOURCE] _ s s0 Harena eq_refl eq_refl eq_refl
                ltac:(apply elem_of_cons; auto)) as H0.
  assert (Hone : forall child t ta tb t' c u u',
            (exists pn, node_arena t !! length (node_arena s) = Some pn /\
               cone_of pn
               = cone_of (root_node (length (m_rootNodes s))
                            (null_halfedge m_polyhedron))) ->
            new_node child t = Ok (c, ta) ->
            push_middle_child_node (length (node_arena s)) c ta = Ok (u, tb) ->
            process_node fuel c tb = Ok (u', t') ->
            node_type child = EDGE_SOURCE ->
            grows [ROOT; EDGE_SOURCE]
              [on_child_link (length (node_arena s))
                 (root_node (length (m_rootNodes s)) (null_halfedge m_polyhedron))
                 child] t t').
  { intros child t ta tb t' c u u' Hp Hnew Hlink Hprocess Htype.
    apply grows_child; [exact Hp | | rewrite Htype; discriminate |].
    - rewrite Htype. apply elem_of_cons. right. apply elem_of_cons. auto.
    - exact (middle_child_run _ _ _ _ _ _ _ _ _ _ _ Hp Hnew Hlink Hprocess). }
  pose proof (Hone _ _ _ _ _ _ _ _ (grows_parent _ _ _ _ _ H0)
                Hnew1 Hlink1 Hrun1 eq_refl) as H1.
  pose proof (grows_trans _ _ _ _ _ _ H0 H1) as H01.
  pose proof (edge_root_child_run _ _ _ _ _ _ (grows_parent _ _ _ _ _ H01)
                Hside0 eq_refl) as H2.
  pose proof (grows_trans _ _ _ _ _ _ H01 H2) as H02.
  pose proof (Hone _ _ _ _ _ _ _ _ (grows_parent _ _ _ _ _ H02)
                Hnew3 Hlink3 Hrun3 eq_refl) as H3.
  pose proof (grows_trans _ _ _ _ _ _ H02 H3) as H03.
  pose proof (edge_root_child_run _ _ _ _ _ _ (grows_parent _ _ _ _ _ H03)
                Hside1 eq_refl) as H4.
  pose proof (grows_trans _ _ _ _ _ _ H03 H4) as H04.
  eexists. split; [exact H04 |].
  destruct Hkept as [Hr Hl]. split; simpl_engine; congruence.
Qed.

Lemma expand_vertex_root_run (fuel : nat) (vertex : vertex_descriptor)
    (s s' : Engine) :
  expand_vertex_root fuel vertex s = Ok (tt, s') ->
  exists added,
    grows [ROOT; VERTEX_SOURCE]
      (root_node (length (m_rootNodes s))
         (prev m_polyhedron (halfedge_of_vertex m_polyhedron vertex)) :: added)
      s s' /\
    roots_kept (with_rootNodes (m_rootNodes s ++ [length (node_arena s)]) s) s'.
Proof.
  intros Hrun. unfold expand_vertex_root in Hrun.
  apply bind_Ok in Hrun as (vertexRoot & s0 & Hroot & Hrun).
  apply new_root_run in Hroot as (-> & Hroots & Hlocations & _ & Harena).
  pose proof (preserves_expand_vertex_root_rest roots_kept _ _ _ _ _ _ Hrun)
    as Hkept.
  apply bind_Ok in Hrun as ([] & s1 & Hwrite & Hrun).
  apply vector_write_inv in Hwrite as [_ ->].
  pose proof (grows_root [ROOT; VERTEX_SOURCE] _ s s0 Harena eq_refl eq_refl eq_refl
                ltac:(apply elem_of_cons; auto)) as H0.
  assert (Hroot : node_arena
                    (with_closestToVertices
                       (<[m_vertexIndexMap vertex :=
                            (Some (length (node_arena s)), FT_zero)]>
                          (m_closestToVertices s0)) s0)
                    !! length (node_arena s)
                  = Some (root_node (length (m_rootNodes s))
                            (prev m_polyhedron
                               (halfedge_of_vertex m_polyhedron vertex)))).
  { simpl_engine. rewrite Harena. apply lookup_arena_snoc. }
  destruct (expand_pseudo_source_run _ _ _ _ _ Hroot Hrun)
    as (n & _ & _ & _ & Hext).
  eexists. split.
  - apply (grows_trans _ [_] _ s s0 s' H0).
    apply (grows_kinds [VERTEX_SOURCE]).
    + intros x Hx. apply elem_of_cons. right. exact Hx.
    + destruct Hext as [Hext Hadded]. split; [exact Hext |]. exact Hadded.
  - destruct Hkept as [Hr Hl]. split; simpl_engine; congruence.
Qed.

Lemma expand_root_run (fuel : nat) (face : face_descriptor)
    (location : Barycentric_coordinate) (s s' : Engine) :
  expand_root fuel face location s = Ok (tt, s') ->
  exists entryEdge added,
    grows [ROOT; FACE_SOURCE; EDGE_SOURCE; VERTEX_SOURCE]
      (root_node (length (m_rootNodes s)) entryEdge :: added) s s' /\
    roots_kept (with_rootNodes (m_rootNodes s ++ [length (node_arena s)]) s) s'.
Proof.
  intros Hrun. unfold expand_root in Hrun.
  destruct (fst (classify_barycentric_coordinate location));
    try discriminate Hrun.
  - destruct (expand_face_root_run _ _ _ _ _ Hrun) as [Hgrows Hkept].
    eexists _, _. split; [| exact Hkept].
    apply (grows_kinds [ROOT; FACE_SOURCE]); [| exact Hgrows].
    intros x. rewrite !elem_of_cons. tauto.
  - destruct (expand_edge_root_run _ _ _ _ _ _ Hrun) as (added & Hgrows & Hkept).
    eexists _, _. split; [| exact Hkept].
    apply (grows_kinds [ROOT; EDGE_SOURCE]); [| exact Hgrows].
    intros x. rewrite !elem_of_cons. tauto.
  - destruct (expand_vertex_root_run _ _ _ _ Hrun) as (added & Hgrows & Hkept).
    eexists _, _. split; [| exact Hkept].
    apply (grows_kinds [ROOT; VERTEX_SOURCE]); [| exact Hgrows].
    intros x. rewrite !elem_of_cons. tauto.
Qed.

Lemma roots_aligned_root (kinds : list Node_type) (entryEdge : halfedge_descriptor)
    (added : list Cone_tree_node) (it : Face_location_pair) (s s' : Engine) :
  roots_aligned s ->
  grows kinds (root_node (length (m_rootNodes s)) entryEdge :: added) s s' ->
  m_rootNodes s' = m_rootNodes s ++ [length (node_arena s)] ->
  m_faceLocations s' = m_faceLocations s ++ [it] ->
  roots_aligned s'.
Proof.
  intros [Hlen Hroots] [Hext _] Hr Hl. split.
  - rewrite Hr, Hl, !length_app, Hlen. reflexivity.
  - intros k r Hk. rewrite Hr in Hk.
    apply lookup_app_Some in Hk as [Hk | [Hge Hk]].
    + destruct (Hroots k r Hk) as (n & Hn & Hroot & Htree).
      destruct (cones_extended_lookup _ _ _ r n Hext) as (n' & Hn' & Heq);
        [apply lookup_app_l_Some; exact Hn |].
      exists n'. split; [exact Hn' |].
      unfold is_root_node, node_type, tree_id in *.
      destruct (cone_of_fields _ _ Heq) as (_ & -> & _ & -> & _). auto.
    + destruct (k - length (m_rootNodes s)) as [| j] eqn:Hj;
        [| destruct j; discriminate Hk].
      injection Hk as <-.
      destruct (edge_root_kept _ _ _ _ Hext) as (n' & Hn' & Heq).
      exists n'. split; [exact Hn' |].
      unfold is_root_node, node_type, tree_id.
      destruct (cone_of_fields _ _ Heq) as (_ & -> & _ & -> & _). cbn.
      split; [reflexivity | lia].
Qed.

Lemma grows_arena (kinds : list Node_type) (added : list Cone_tree_node)
    (s s' t : Engine) :
  node_arena t = node_arena s -> grows kinds added s s' -> grows kinds added t s'.
Proof. unfold grows, cones_extended. intros ->. auto. Qed.

Lemma expand_roots_run (fuel : nat) (faceLocations : list Face_location_pair)
    (s s' : Engine) :
  expand_roots fuel faceLocations s = Ok (tt, s') ->
  (roots_aligned s -> roots_aligned s') /\
  m_faceLocations s' = m_faceLocations s ++ faceLocations /\
  length (m_rootNodes s') = length (m_rootNodes s) + length faceLocations /\
  m_rootNodes s `prefix_of` m_rootNodes s' /\
  exists added,
    grows [ROOT; FACE_SOURCE; EDGE_SOURCE; VERTEX_SOURCE] added s s'.
Proof.
  unfold expand_roots. revert s.
  induction faceLocations as [| it l IH]; intros s Hrun; cbn [for_each] in Hrun.
  - apply ret_Ok in Hrun as [_ ->]. rewrite !app_nil_r, Nat.add_0_r.
    split; [auto |]. split; [reflexivity |]. split; [reflexivity |].
    split; [reflexivity |].
    exists []. apply grows_refl. reflexivity.
  - apply bind_Ok in Hrun as ([] & s1 & Hone & Hrest).
    apply bind_Ok in Hone as ([] & s0 & Hpush & Hone).
    apply modify_Ok in Hpush as ->.
    destruct (expand_root_run _ _ _ _ _ Hone)
      as (entryEdge & added & Hgrows & Hr & Hl). simpl_engine.
    apply (grows_arena _ _ _ _ s eq_refl) in Hgrows.
    destruct (IH _ Hrest) as (Haligned & Hlocations & Hlen & Hprefix & rest & Hrest').
    split; [| split; [| split; [| split]]].
    + intros Hs. apply Haligned.
      exact (roots_aligned_root _ _ _ it s s1 Hs Hgrows Hr Hl).
    + rewrite Hlocations, Hl, <- app_assoc. reflexivity.
    + rewrite Hlen, Hr, length_app. cbn. lia.
    + etransitivity; [| exact Hprefix]. rewrite Hr. apply prefix_app_r. reflexivity.
    + eexists. exact (grows_trans _ _ _ _ _ _ Hgrows Hrest').
Qed.



(** ** What the event loop allocates *)

Lemma window_distance_filter_pure (cone : node_ptr) (windowSegment : Segment_2)
    (reversed keep : bool) (s s' : Engine) :
  window_distance_filter cone windowSegment reversed s = Ok (keep, s') -> s' = s.
Proof.
  intros Hrun. unfold window_distance_filter in Hrun. run_inv Hrun; reflexivity.
Qed.

(** A child linked as the left or the right child of [cone], whose pending
    event was just reset. *)
Lemma side_child_run (fuel : nat) (cone : node_ptr) (c c' pn' child : Cone_tree_node)
    (s s2 s' : Engine) :
  node_arena s !! cone = Some c -> cone_of c' = cone_of c ->
  cone_of pn' = cone_of c' -> node_type child = INTERVAL ->
  node_arena s2
    = <[cone := pn']> (<[cone := c']> (node_arena s))
        ++ [on_child_link cone c' child] ->
  process_node fuel (length (node_arena s)) s2 = Ok (tt, s') ->
  grows [INTERVAL] [on_child_link cone c child] s s'.
Proof.
  intros Hc Heq Heq' Htype Harena Hrun.
  pose proof (lookup_lt_Some _ _ _ Hc) as Hlt.
  apply (preserves_process_node same_cones) in Hrun.
  apply grows_child;
    [exists c; auto | rewrite Htype; apply elem_of_cons; auto
    | rewrite Htype; discriminate |].
  apply (cones_extended_trans [_] [] s s2 s'); [| apply cones_extended_same, Hrun].
  unfold cones_extended. rewrite Harena. apply Forall2_app.
  - apply Forall2_same_length_lookup_2; [rewrite !length_insert; reflexivity |].
    intros i x y Hx Hy. destruct (decide (i = cone)) as [-> |].
    + rewrite list_lookup_insert_eq in Hy by (rewrite length_insert; exact Hlt).
      injection Hy as <-. rewrite Hc in Hx. injection Hx as <-. congruence.
    + rewrite !list_lookup_insert_ne in Hy by auto. congruence.
  - constructor; [| constructor]. apply cone_of_on_child_link. congruence.
Qed.

Lemma expand_left_child_run (fuel : nat) (cone : node_ptr) (c : Cone_tree_node)
    (windowSegment : Segment_2) (s s' : Engine) :
  node_arena s !! cone = Some c ->
  expand_left_child fuel cone windowSegment s = Ok (tt, s') ->
  exists added,
    grows [INTERVAL] added s s' /\
    (added = [] \/
     added = [on_child_link cone c
                (interval_child c (left_child_edge c)
                   (left_child_base_segment c) windowSegment)]).
Proof.
  intros Hc Hrun. pose proof (lookup_lt_Some _ _ _ Hc) as Hlt.
  unfold expand_left_child in Hrun.
  apply bind_Ok in Hrun as (c0 & s0 & Hderef & Hrun).
  apply deref_node_inv in Hderef as [Hc0 ->].
  rewrite Hc in Hc0. injection Hc0 as <-.
  destruct (bool_decide (m_pendingLeftSubtree c <> None)); [| discriminate Hrun].
  apply bind_Ok in Hrun as ([] & s1 & Hupdate & Hrun).
  apply update_node_inv in Hupdate as (c0 & Hc0 & ->).
  rewrite Hc in Hc0. injection Hc0 as <-.
  apply bind_Ok in Hrun as (keep & s2 & Hfilter & Hrun).
  apply window_distance_filter_pure in Hfilter as ->.
  destruct keep.
  - apply bind_Ok in Hrun as (child & s3 & Hnew & Hrun).
    apply new_node_inv in Hnew as [-> ->].
    apply bind_Ok in Hrun as ([] & s4 & Hlink & Hrun).
    simpl_engine.
    eapply (set_left_child_run cone (with_pendingLeftSubtree None c)) in Hlink;
      [| simpl_engine; apply list_lookup_insert_eq; exact Hlt].
    simpl_engine. rewrite length_insert in *.
    eexists. split; [| right; reflexivity].
    eapply (side_child_run fuel cone c (with_pendingLeftSubtree None c));
      [exact Hc | reflexivity | | reflexivity | exact Hlink | exact Hrun].
    reflexivity.
  - apply ret_Ok in Hrun as [_ ->]. exists []. split; [| left; reflexivity].
    apply grows_refl. apply same_cones_update with (n := c); [exact Hc | reflexivity].
Qed.

Lemma expand_right_child_run (fuel : nat) (cone : node_ptr) (c : Cone_tree_node)
    (windowSegment : Segment_2) (s s' : Engine) :
  node_arena s !! cone = Some c ->
  expand_right_child fuel cone windowSegment s = Ok (tt, s') ->
  exists added,
    grows [INTERVAL] added s s' /\
    (added = [] \/
     added = [on_child_link cone c
                (interval_child c (right_child_edge c)
                   (right_child_base_segment c) windowSegment)]).
Proof.
  intros Hc Hrun. pose proof (lookup_lt_Some _ _ _ Hc) as Hlt.
  unfold expand_right_child in Hrun.
  apply bind_Ok in Hrun as (c0 & s0 & Hderef & Hrun).
  apply deref_node_inv in Hderef as [Hc0 ->].
  rewrite Hc in Hc0. injection Hc0 as <-.
  destruct (bool_decide (m_pendingRightSubtree c <> None)); [| discriminate Hrun].
  apply bind_Ok in Hrun as ([] & s1 & Hupdate & Hrun).
  apply update_node_inv in Hupdate as (c0 & Hc0 & ->).
  rewrite Hc in Hc0. injection Hc0 as <-.
  apply bind_Ok in Hrun as (keep & s2 & Hfilter & Hrun).
  apply window_distance_filter_pure in Hfilter as ->.
  destruct keep.
  - apply bind_Ok in Hrun as (child & s3 & Hnew & Hrun).
    apply new_node_inv in Hnew as [-> ->].
    apply bind_Ok in Hrun as ([] & s4 & Hlink & Hrun).
    simpl_engine.
    eapply (set_right_child_run cone (with_pendingRightSubtree None c)) in Hlink;
      [| simpl_engine; apply list_lookup_insert_eq; exact Hlt].
    simpl_engine. rewrite length_insert in *.
    eexists. split; [| right; reflexivity].
    eapply (side_child_run fuel cone c (with_pendingRightSubtree None c));
      [exact Hc | reflexivity | | reflexivity | exact Hlink | exact Hrun].
    reflexivity.
  - apply ret_Ok in Hrun as [_ ->]. exists []. split; [| left; reflexivity].
    apply grows_refl. apply same_cones_update with (n := c); [exact Hc | reflexivity].
Qed.

Lemma dispatch_event_run (fuel : nat) (ev : Cone_expansion_event) (s s' : Engine) :
  dispatch_event fuel ev s = Ok (tt, s') ->
  exists added, grows [INTERVAL; VERTEX_SOURCE] added s s'.
Proof.
  intros Hrun. unfold dispatch_event in Hrun.
  destruct (node_arena s !! m_parentNode ev) as [c |] eqn:Hc.
  - destruct (m_type ev).
    + destruct (expand_left_child_run _ _ _ _ _ _ Hc Hrun) as (added & Hgrows & _).
      exists added. apply (grows_kinds [INTERVAL]); [| exact Hgrows].
      intros x. rewrite !elem_of_cons. tauto.
    + destruct (expand_right_child_run _ _ _ _ _ _ Hc Hrun) as (added & Hgrows & _).
      exists added. apply (grows_kinds [INTERVAL]); [| exact Hgrows].
      intros x. rewrite !elem_of_cons. tauto.
    + destruct (expand_pseudo_source_run _ _ _ _ _ Hc Hrun)
        as (n & _ & _ & _ & Hgrows).
      eexists. apply (grows_kinds [VERTEX_SOURCE]); [| exact Hgrows].
      intros x. rewrite !elem_of_cons. tauto.
  - exfalso. destruct (m_type ev);
      unfold expand_left_child, expand_right_child, expand_pseudo_source,
        update_node, bind, deref_node in Hrun;
      rewrite Hc in Hrun; discriminate Hrun.
Qed.

Lemma event_loop_body_grows (fuel : nat) (s s' : Engine) :
  event_loop_body fuel s = Ok (tt, s') ->
  (exists added, grows [INTERVAL; VERTEX_SOURCE] added s s') /\ roots_kept s s'.
Proof.
  intros Hrun.
  apply event_loop_body_inv in Hrun
    as (event & ev & s1 & _ & _ & Hdispatch & _ & ->).
  cbv zeta in Hdispatch. destruct (m_cancelled ev).
  - subst s1. split; [| apply roots_kept_same; reflexivity].
    exists []. apply grows_refl. apply same_cones_arena. reflexivity.
  - split.
    + destruct (dispatch_event_run _ _ _ _ Hdispatch) as (added & Hgrows).
      exists added. destruct Hgrows as [Hext Hadded]. split; assumption.
    + apply (preserves_dispatch_event roots_kept) in Hdispatch.
      destruct Hdispatch as [Hr Hl]. apply roots_kept_same; assumption.
Qed.

Lemma event_loop_grows (k fuel : nat) (s s' : Engine) :
  while_loop k priqueue_nonempty (event_loop_body fuel) s = Ok (tt, s') ->
  (exists added, grows [INTERVAL; VERTEX_SOURCE] added s s') /\ roots_kept s s'.
Proof.
  revert s. induction k as [| k IH]; intros s Hrun; cbn [while_loop] in Hrun;
    [discriminate Hrun |].
  apply bind_Ok in Hrun as (b & s0 & Hcond & Hrun).
  unfold priqueue_nonempty in Hcond. run_inv Hcond.
  destruct (negb (bool_decide (m_expansionPriqueue s = []))).
  - apply bind_Ok in Hrun as ([] & s1 & Hbody & Hrun).
    destruct (event_loop_body_grows _ _ _ Hbody) as [[a Ha] Hkept].
    destruct (IH _ Hrun) as [[b Hb] Hkept'].
    split; [| etransitivity; eassumption].
    exists (a ++ b). exact (grows_trans _ _ _ _ _ _ Ha Hb).
  - apply ret_Ok in Hrun as [_ ->]. split; [| reflexivity].
    exists []. apply grows_refl. reflexivity.
Qed.

Lemma grows_roots_aligned (kinds : list Node_type) (added : list Cone_tree_node)
    (s s' : Engine) :
  grows kinds added s s' -> roots_kept s s' -> roots_aligned s -> roots_aligned s'.
Proof.
  intros [Hext _] [Hr Hl] [Hlen Hroots]. split; [rewrite Hr, Hl; exact Hlen |].
  intros k r Hk. rewrite Hr in Hk.
  destruct (Hroots k r Hk) as (n & Hn & Hroot & Htree).
  destruct (cones_extended_lookup _ _ _ r n Hext) as (n' & Hn' & Heq);
    [apply lookup_app_l_Some; exact Hn |].
  exists n'. split; [exact Hn' |].
  unfold is_root_node, node_type, tree_id in *.
  destruct (cone_of_fields _ _ Heq) as (_ & -> & _ & -> & _). auto.
Qed.

Lemma grows_Forall (kinds : list Node_type) (added : list Cone_tree_node)
    (s s' : Engine) :
  grows kinds added s s' -> Forall (fun a => node_type a ∈ kinds) added.
Proof.
  intros [_ H]. apply Forall_lookup_2. intros j a Ha. apply (H j a Ha).
Qed.

(** X7: the event loop changes the trees by allocation only.  The nodes
    it allocates are INTERVAL and VERTEX_SOURCE nodes; every node that was
    there keeps its entry halfedge, its layout, its source image and
    distance, its window, its type, its level, its tree and its parent; the
    roots and the source locations are what they were, and stay aligned. *)
Theorem event_loop_only_allocates_interval_and_vertex_source_nodes (fuel : nat)
    (s s' : Engine) :
  event_loop fuel s = Ok (tt, s') ->
  (exists added,
     cones_extended added s s' /\
     Forall (fun a => node_type a = INTERVAL \/ node_type a = VERTEX_SOURCE) added) /\
  m_rootNodes s' = m_rootNodes s /\
  m_faceLocations s' = m_faceLocations s /\
  (roots_aligned s -> roots_aligned s').
Proof.
  intros Hrun. destruct (event_loop_grows _ _ _ _ Hrun) as [[added Hgrows] Hkept].
  split; [| split; [exact (proj1 Hkept) | split; [exact (proj2 Hkept) |]]].
  - exists added. split; [exact (proj1 Hgrows) |].
    eapply Forall_impl; [exact (grows_Forall _ _ _ _ Hgrows) |].
    intros a. cbn. rewrite !elem_of_cons, elem_of_nil. tauto.
  - exact (grows_roots_aligned _ _ _ _ Hgrows Hkept).
Qed.

(** X8: the trees stay well linked.  When every node is a root at level 0
    or has a parent allocated before it, one level above it and of its
    tree, then so it is after the loop over the source locations, and after
    the event loop. *)
Theorem expansion_keeps_the_trees_well_linked (fuel : nat)
    (faceLocations : list Face_location_pair) (s s' : Engine) :
  well_linked s ->
  (expand_roots fuel faceLocations s = Ok (tt, s') -> well_linked s') /\
  (event_loop fuel s = Ok (tt, s') -> well_linked s').
Proof.
  intros Hs. split; intros Hrun.
  - destruct (expand_roots_run _ _ _ _ Hrun) as (_ & _ & _ & _ & added & Hgrows).
    exact (grows_well_linked _ _ _ _ Hgrows Hs).
  - destruct (event_loop_grows _ _ _ _ Hrun) as [[added Hgrows] _].
    exact (grows_well_linked _ _ _ _ Hgrows Hs).
Qed.

(** ** The walk to the root *)

Lemma deref_inv (p : option node_ptr) (n : Cone_tree_node) (s s' : Engine) :
  deref p s = Ok (n, s') ->
  exists a, p = Some a /\ node_arena s !! a = Some n /\ s' = s.
Proof.
  destruct p as [a |]; cbn [deref]; [| discriminate].
  intros H. apply deref_node_inv in H as [Hn ->]. eauto.
Qed.

Lemma is_right_child_pure (current : node_ptr) (c : Cone_tree_node) (b : bool)
    (s s' : Engine) :
  is_right_child current c s = Ok (b, s') -> s' = s.
Proof.
  unfold is_right_child. intros Hrun.
  apply bind_Ok in Hrun as (p & s1 & Hderef & Hrun).
  apply deref_inv in Hderef as (a & _ & _ & ->).
  apply ret_Ok in Hrun as [_ ->]. reflexivity.
Qed.

Lemma visit_shortest_path_run (fuel : nat) (here : node_ptr)
    (currentLocation : Point_2) (calls : list Path_event) (s s' : Engine) :
  visit_shortest_path fuel (Some here) currentLocation s = Ok (calls, s') ->
  s' = s /\ Forall2 (reports s) (ancestors fuel s here) calls.
Proof.
  revert here currentLocation calls.
  induction fuel as [| fuel IH]; intros here currentLocation calls Hrun;
    cbn [visit_shortest_path] in Hrun; [discriminate Hrun |].
  apply bind_Ok in Hrun as (c & s0 & Hderef & Hrun).
  apply deref_node_inv in Hderef as [Hc ->].
  cbn [ancestors]. rewrite Hc.
  destruct (is_root_node c) eqn:Hroot.
  { apply ret_Ok in Hrun as [-> ->]. split; [reflexivity | constructor]. }
  assert (Hstep : forall call location rest p pn,
            parent c = Some p -> node_arena s !! p = Some pn ->
            reports s c call ->
            visit_shortest_path fuel (Some p) location s = Ok (rest, s') ->
            calls = call :: rest ->
            s' = s /\
            Forall2 (reports s)
              (c :: match parent c with
                    | Some p => ancestors fuel s p
                    | None => []
                    end) calls).
  { intros call location rest p pn Hp Hpn Hcall Hrest ->.
    destruct (IH _ _ _ Hrest) as [-> Hall]. split; [reflexivity |].
    rewrite Hp. constructor; assumption. }
  destruct (node_type c) eqn:Htype.
  - discriminate Hrun.
  - (* FACE_SOURCE *)
    apply bind_Ok in Hrun as (location & s1 & Hread & Hrun).
    apply vector_read_inv in Hread as [Hlocation ->].
    apply bind_Ok in Hrun as (rest & s3 & Hrest & Hrun).
    apply ret_Ok in Hrun as [-> ->].
    destruct (parent c) as [p |] eqn:Hp.
    + destruct fuel as [| fuel']; [discriminate Hrest |].
      pose proof Hrest as Hrest'. cbn [visit_shortest_path] in Hrest'.
      apply bind_Ok in Hrest' as (pn & s1 & Hderef & _).
      apply deref_node_inv in Hderef as [Hpn _].
      eapply Hstep; [reflexivity | exact Hpn | | exact Hrest | reflexivity].
      unfold reports. rewrite Htype. eauto.
    + destruct fuel; discriminate Hrest.
  - (* EDGE_SOURCE *)
    destruct (intersect_2_line _ _) as [[result | ] |]; try discriminate Hrun.
    apply bind_Ok in Hrun as (isLeft & s1 & Hleft & Hrun).
    unfold is_left_child in Hleft.
    apply bind_Ok in Hleft as (p1 & s2 & Hderef & Hleft).
    apply deref_inv in Hderef as (p & Hp & Hpn & ->).
    apply ret_Ok in Hleft as [-> ->].
    apply bind_Ok in Hrun as (isRight & s1 & Hright & Hrun).
    assert (s1 = s) as ->.
    { destruct (bool_decide (m_leftChild p1 = Some here));
        [apply ret_Ok in Hright as [_ ->]; reflexivity |].
      exact (is_right_child_pure _ _ _ _ _ Hright). }
    apply bind_Ok in Hrun as (p2 & s2 & Hderef & Hrun).
    apply deref_inv in Hderef as (p' & Hp' & Hpn' & ->).
    apply bind_Ok in Hrun as (rest & s3 & Hrest & Hrun).
    apply ret_Ok in Hrun as [-> ->]. rewrite Hp in Hrest.
    eapply Hstep; [exact Hp | exact Hpn | | exact Hrest | reflexivity].
    unfold reports. rewrite Htype. eauto.
  - (* VERTEX_SOURCE *)
    apply bind_Ok in Hrun as (p1 & s2 & Hderef & Hrun).
    apply deref_inv in Hderef as (p & Hp & Hpn & ->).
    apply bind_Ok in Hrun as (rest & s3 & Hrest & Hrun).
    apply ret_Ok in Hrun as [-> ->]. rewrite Hp in Hrest.
    eapply Hstep; [exact Hp | exact Hpn | | exact Hrest | reflexivity].
    unfold reports. rewrite Htype. reflexivity.
  - (* INTERVAL *)
    destruct (intersect_2_line _ _) as [[result | ] |]; try discriminate Hrun.
    apply bind_Ok in Hrun as (isLeft & s1 & Hleft & Hrun).
    unfold is_left_child in Hleft.
    apply bind_Ok in Hleft as (p1 & s2 & Hderef & Hleft).
    apply deref_inv in Hderef as (p & Hp & Hpn & ->).
    apply ret_Ok in Hleft as [-> ->].
    apply bind_Ok in Hrun as (isRight & s1 & Hright & Hrun).
    assert (s1 = s) as ->.
    { destruct (bool_decide (m_leftChild p1 = Some here));
        [apply ret_Ok in Hright as [_ ->]; reflexivity |].
      exact (is_right_child_pure _ _ _ _ _ Hright). }
    apply bind_Ok in Hrun as (p2 & s2 & Hderef & Hrun).
    apply deref_inv in Hderef as (p' & Hp' & Hpn' & ->).
    apply bind_Ok in Hrun as (rest & s3 & Hrest & Hrun).
    apply ret_Ok in Hrun as [-> ->]. rewrite Hp in Hrest.
    eapply Hstep; [exact Hp | exact Hpn | | exact Hrest | reflexivity].
    unfold reports. rewrite Htype. eauto.
Qed.

Lemma ancestors_level (fuel : nat) (s : Engine) (here : node_ptr)
    (c : Cone_tree_node) :
  well_linked s -> node_arena s !! here = Some c -> level c < fuel ->
  length (ancestors fuel s here) = level c.
Proof.
  intros Hs. revert here c.
  induction fuel as [| fuel IH]; intros here c Hc Hlevel; [lia |].
  cbn [ancestors]. rewrite Hc. pose proof (Hs _ _ Hc) as Hlinked.
  unfold parent_linked in Hlinked. unfold is_root_node.
  destruct (parent c) as [p |].
  - destruct Hlinked as (_ & Htype & pn & Hpn & Hlevel' & _).
    rewrite bool_decide_eq_false_2 by exact Htype. cbn [length].
    rewrite (IH _ _ Hpn) by lia. auto.
  - destruct Hlinked as [Htype Hzero].
    rewrite bool_decide_eq_true_2 by exact Htype. auto.
Qed.

Lemma ancestors_fuel (fuel : nat) (s : Engine) (here : node_ptr)
    (c : Cone_tree_node) :
  well_linked s -> node_arena s !! here = Some c ->
  length (ancestors fuel s here) < fuel -> level c < fuel.
Proof.
  intros Hs. revert here c.
  induction fuel as [| fuel IH]; intros here c Hc Hlen; [lia |].
  cbn [ancestors] in Hlen. rewrite Hc in Hlen. pose proof (Hs _ _ Hc) as Hlinked.
  unfold parent_linked in Hlinked. unfold is_root_node in Hlen.
  destruct (parent c) as [p |].
  - destruct Hlinked as (_ & Htype & pn & Hpn & Hlevel' & _).
    rewrite bool_decide_eq_false_2 in Hlen by exact Htype. cbn [length] in Hlen.
    pose proof (IH _ _ Hpn). lia.
  - destruct Hlinked as [Htype Hzero]. lia.
Qed.

(** The walk ends before the fuel does. *)
Lemma visit_shortest_path_fuel (fuel : nat) (here : node_ptr)
    (currentLocation : Point_2) (calls : list Path_event) (s s' : Engine) :
  visit_shortest_path fuel (Some here) currentLocation s = Ok (calls, s') ->
  length calls < fuel.
Proof.
  revert here currentLocation calls s'.
  induction fuel as [| fuel IH]; intros here currentLocation calls s' Hrun;
    cbn [visit_shortest_path] in Hrun; [discriminate Hrun |].
  apply bind_Ok in Hrun as (c & s0 & Hderef & Hrun).
  apply deref_node_inv in Hderef as [Hc ->].
  destruct (is_root_node c).
  { apply ret_Ok in Hrun as [-> _]. cbn. lia. }
  assert (Hparent : forall current location rest t,
            visit_shortest_path fuel current location s = Ok (rest, t) ->
            length rest < fuel).
  { intros [p |] location rest t Hrest; [exact (IH _ _ _ _ Hrest) |].
    destruct fuel; discriminate Hrest. }
  destruct (node_type c); try discriminate Hrun.
  - run_inv Hrun.
    match goal with
    | H : visit_shortest_path fuel _ _ _ = Ok _ |- _ =>
        apply Hparent in H; cbn; lia
    end.
  - destruct (intersect_2_line _ _) as [[result | ] |]; try discriminate Hrun.
    run_inv Hrun;
      repeat match goal with
      | H : deref _ _ = Ok _ |- _ => apply deref_inv in H as (? & ? & ? & ->)
      | H : is_left_child _ _ _ = Ok _ |- _ =>
          unfold is_left_child in H; run_inv H
      | H : is_right_child _ _ _ = Ok _ |- _ =>
          unfold is_right_child in H; run_inv H
      end;
      match goal with
      | H : visit_shortest_path fuel _ _ _ = Ok _ |- _ =>
          apply Hparent in H; cbn; lia
      end.
  - run_inv Hrun;
      repeat match goal with
      | H : deref _ _ = Ok _ |- _ => apply deref_inv in H as (? & ? & ? & ->)
      end;
      match goal with
      | H : visit_shortest_path fuel _ _ _ = Ok _ |- _ =>
          apply Hparent in H; cbn; lia
      end.
  - destruct (intersect_2_line _ _) as [[result | ] |]; try discriminate Hrun.
    run_inv Hrun;
      repeat match goal with
      | H : deref _ _ = Ok _ |- _ => apply deref_inv in H as (? & ? & ? & ->)
      | H : is_left_child _ _ _ = Ok _ |- _ =>
          unfold is_left_child in H; run_inv H
      | H : is_right_child _ _ _ = Ok _ |- _ =>
          unfold is_right_child in H; run_inv H
      end;
      match goal with
      | H : visit_shortest_path fuel _ _ _ = Ok _ |- _ =>
          apply Hparent in H; cbn; lia
      end.
Qed.


(** ** The depth of the trees *)

Lemma quiet_same (s s' : Engine) :
  m_expansionPriqueue s' = m_expansionPriqueue s ->
  event_arena s' = event_arena s -> same_cones s s' -> quiet s s'.
Proof.
  intros Hq He Hc. split; [exact Hq |]. split; [rewrite He; reflexivity |].
  split; [exact Hc |]. intros e ev' Hev. rewrite He in Hev. eauto.
Qed.

Global Instance quiet_preorder : PreOrder quiet.
Proof.
  split.
  - intros s. apply quiet_same; reflexivity.
  - intros s1 s2 s3 (Hq1 & Hl1 & Hc1 & He1) (Hq2 & Hl2 & Hc2 & He2).
    split; [congruence |]. split; [congruence |].
    split; [etransitivity; eassumption |].
    intros e ev3 Hev3. destruct (He2 _ _ Hev3) as (ev2 & Hev2 & Hp2).
    destruct (He1 _ _ Hev2) as (ev1 & Hev1 & Hp1).
    exists ev1. split; [exact Hev1 | congruence].
Qed.

Global Instance quiet_link_frame : Link_frame quiet.
Proof.
  split; [exact _ | ..].
  - intros p f Hf s u s' Hrun. apply update_node_inv in Hrun as (n & Hn & ->).
    apply quiet_same; [reflexivity | reflexivity |].
    apply same_cones_update with (n := n); [exact Hn | apply Hf].
  - intros e s u s' Hrun. apply set_cancelled_inv in Hrun as (ev & Hev & ->).
    split; [reflexivity |]. split; [simpl_engine; apply length_insert |].
    split; [apply same_cones_arena; reflexivity |].
    intros e' ev' Hev'. simpl_engine.
    destruct (decide (e' = e)) as [-> |].
    + rewrite list_lookup_insert_eq in Hev' by (eapply lookup_lt_Some; exact Hev).
      injection Hev' as <-. exists ev. split; [exact Hev | reflexivity].
    + rewrite list_lookup_insert_ne in Hev' by auto. eauto.
  - intros p s u s' Hrun. unfold release_occupancy in Hrun. run_inv Hrun;
      apply quiet_same; try reflexivity; apply same_cones_arena; reflexivity.
Qed.

(** The steps of [process_node] before its pushes. *)
Class Quiet_frame (R : Engine -> Engine -> Prop) : Prop := {
  quiet_frame_delete :: Delete_frame R;
  quiet_write_closest : forall i x,
    preserves R (vector_write m_closestToVertices with_closestToVertices i x);
  quiet_write_occupiers : forall i x,
    preserves R (vector_write m_vertexOccupiers with_vertexOccupiers i x);
}.

Global Instance quiet_quiet_frame : Quiet_frame quiet.
Proof.
  split; [apply link_delete_frame; exact _ | ..].
  - intros i x. apply preserves_vector_write. intros s _.
    apply quiet_same; try reflexivity. apply same_cones_arena. reflexivity.
  - intros i x. apply preserves_vector_write. intros s _.
    apply quiet_same; try reflexivity. apply same_cones_arena. reflexivity.
Qed.

Section Quiet_frames.
Context (R : Engine -> Engine -> Prop) `{!Quiet_frame R}.

Lemma quiet_update_closest (fuel : nat) (node : node_ptr) (n : Cone_tree_node)
    (d : FT) :
  preserves R (update_closest fuel node n d).
Proof.
  unfold update_closest.
  repeat first
    [ apply quiet_write_closest | apply step_cancel_pending_middle
    | apply step_pop_middle_child | apply preserves_delete_node; exact _
    | preserves_step ].
Qed.

Lemma quiet_arbitrate (node : node_ptr) (n : Cone_tree_node) :
  preserves R (arbitrate node n).
Proof.
  unfold arbitrate.
  repeat first
    [ apply preserves_is_left_of_current; exact _ | apply quiet_write_occupiers
    | preserves_step ].
Qed.

(** [process_node] up to its pushes, and then the pushes, made below the
    level limit only. *)
Lemma process_node_inv (fuel : nat) (node : node_ptr) (s s' : Engine) :
  process_node fuel node s = Ok (tt, s') ->
  exists n s1 left right middle,
    node_arena s !! node = Some n /\ R s s1 /\
    if bool_decide (level n < num_faces m_polyhedron) then
      (when left (push_left_child node) ;;;
       when right (push_right_child node) ;;;
       when middle (push_middle_child node)) s1 = Ok (tt, s')
    else s' = s1.
Proof.
  intros Hrun. unfold process_node in Hrun.
  apply bind_Ok in Hrun as (n & s0 & Hderef & Hrun).
  apply deref_node_inv in Hderef as [Hn ->].
  apply bind_Ok in Hrun as (propagate & s1 & Hprefix & Hrun).
  exists n, s1, (fst (fst propagate)),
    (snd (fst propagate) && negb (is_source_node n)), (snd propagate).
  split; [exact Hn |]. split.
  - revert Hprefix.
    match goal with |- ?m s = Ok (propagate, s1) -> _ =>
      enough (Hp : preserves R m) by (intros Hprefix; exact (Hp _ _ _ Hprefix))
    end.
    repeat first
      [ apply quiet_arbitrate | apply quiet_update_closest
      | apply preserves_evict_loser; exact _ | preserves_step ].
  - destruct (bool_decide (level n < num_faces m_polyhedron)).
    + exact Hrun.
    + apply ret_Ok in Hrun as [_ ->]. reflexivity.
Qed.

End Quiet_frames.

Lemma same_cones_level (s s' : Engine) (p : node_ptr) (n : Cone_tree_node) :
  same_cones s s' -> node_arena s !! p = Some n ->
  exists n', node_arena s' !! p = Some n' /\ level n' = level n.
Proof.
  intros [_ H] Hn. destruct (H _ _ Hn) as (n' & Hn' & Heq).
  exists n'. split; [exact Hn' |]. exact (proj1 (cone_of_fields _ _ Heq)).
Qed.

Lemma same_cones_level_inv (s s' : Engine) (p : node_ptr) (n' : Cone_tree_node) :
  same_cones s s' -> node_arena s' !! p = Some n' ->
  exists n, node_arena s !! p = Some n /\ level n' = level n.
Proof.
  intros [Hlen H] Hn'.
  destruct (node_arena s !! p) as [n |] eqn:Hn.
  - destruct (H _ _ Hn) as (n'' & Hn'' & Heq). rewrite Hn' in Hn''.
    injection Hn'' as <-. exists n. split; [reflexivity |].
    exact (proj1 (cone_of_fields _ _ Heq)).
  - apply lookup_ge_None in Hn. apply lookup_lt_Some in Hn'. lia.
Qed.

Lemma depth_bounded_quiet (s s' : Engine) :
  quiet s s' -> depth_bounded s -> depth_bounded s'.
Proof.
  intros (_ & _ & Hcones & Hevents) [Hnodes Hparents]. split.
  - intros i n' Hn'.
    destruct (same_cones_level_inv _ _ _ _ Hcones Hn') as (n & Hn & ->).
    exact (Hnodes _ _ Hn).
  - intros e ev' Hev'. destruct (Hevents _ _ Hev') as (ev & Hev & ->).
    destruct (Hparents _ _ Hev) as (pn & Hpn & Hlevel).
    destruct (same_cones_level _ _ _ _ Hcones Hpn) as (pn' & Hpn' & Heq).
    exists pn'. split; [exact Hpn' | lia].
Qed.

(** An event pushed for a node above the level limit. *)
Lemma depth_bounded_push (s s' : Engine) (node : node_ptr) (n : Cone_tree_node)
    (ev : Cone_expansion_event) :
  depth_bounded s -> node_arena s !! node = Some n ->
  level n < num_faces m_polyhedron -> same_cones s s' ->
  event_arena s' = event_arena s ++ [Some ev] -> m_parentNode ev = node ->
  depth_bounded s'.
Proof.
  intros [Hnodes Hparents] Hn Hlevel Hcones Hevents Hparent. split.
  - intros i n' Hn'.
    destruct (same_cones_level_inv _ _ _ _ Hcones Hn') as (n0 & Hn0 & ->).
    exact (Hnodes _ _ Hn0).
  - intros e ev' Hev'. rewrite Hevents in Hev'.
    apply lookup_app_Some in Hev' as [Hev' | [_ Hev']].
    + destruct (Hparents _ _ Hev') as (pn & Hpn & Hlt).
      destruct (same_cones_level _ _ _ _ Hcones Hpn) as (pn' & Hpn' & Heq).
      exists pn'. split; [exact Hpn' | lia].
    + destruct (e - length (event_arena s)) as [| j]; [| destruct j; discriminate Hev'].
      injection Hev' as <-. rewrite Hparent.
      destruct (same_cones_level _ _ _ _ Hcones Hn) as (n' & Hn' & Heq).
      exists n'. split; [exact Hn' | lia].
Qed.

Lemma push_left_child_bounded (node : node_ptr) (n : Cone_tree_node)
    (s s' : Engine) :
  depth_bounded s -> node_arena s !! node = Some n ->
  level n < num_faces m_polyhedron ->
  push_left_child node s = Ok (tt, s') ->
  depth_bounded s' /\ same_cones s s'.
Proof.
  intros Hs Hn Hlevel Hrun.
  pose proof (preserves_push_left_child same_cones _ _ _ _ Hrun) as Hcones.
  split; [| exact Hcones].
  unfold push_left_child, new_cone_expansion_event, priqueue_push in Hrun.
  run_inv Hrun; [| exact Hs].
  eapply (depth_bounded_push s _ node n); simpl_engine;
    [exact Hs | exact Hn | exact Hlevel | exact Hcones | reflexivity | reflexivity].
Qed.

Lemma push_right_child_bounded (node : node_ptr) (n : Cone_tree_node)
    (s s' : Engine) :
  depth_bounded s -> node_arena s !! node = Some n ->
  level n < num_faces m_polyhedron ->
  push_right_child node s = Ok (tt, s') ->
  depth_bounded s' /\ same_cones s s'.
Proof.
  intros Hs Hn Hlevel Hrun.
  pose proof (preserves_push_right_child same_cones _ _ _ _ Hrun) as Hcones.
  split; [| exact Hcones].
  unfold push_right_child, new_cone_expansion_event, priqueue_push in Hrun.
  run_inv Hrun; [| exact Hs].
  eapply (depth_bounded_push s _ node n); simpl_engine;
    [exact Hs | exact Hn | exact Hlevel | exact Hcones | reflexivity | reflexivity].
Qed.

Lemma push_middle_child_bounded (node : node_ptr) (n : Cone_tree_node)
    (s s' : Engine) :
  depth_bounded s -> node_arena s !! node = Some n ->
  level n < num_faces m_polyhedron ->
  push_middle_child node s = Ok (tt, s') ->
  depth_bounded s' /\ same_cones s s'.
Proof.
  intros Hs Hn Hlevel Hrun.
  pose proof (preserves_push_middle_child same_cones _ _ _ _ Hrun) as Hcones.
  split; [| exact Hcones].
  unfold push_middle_child, new_cone_expansion_event, priqueue_push in Hrun.
  run_inv Hrun.
  eapply (depth_bounded_push s _ node n); simpl_engine;
    [exact Hs | exact Hn | exact Hlevel | exact Hcones | reflexivity | reflexivity].
Qed.

Lemma process_node_bounded (fuel : nat) (node : node_ptr) (s s' : Engine) :
  depth_bounded s -> process_node fuel node s = Ok (tt, s') ->
  depth_bounded s' /\ same_cones s s'.
Proof.
  intros Hs Hrun.
  pose proof (preserves_process_node same_cones _ _ _ _ _ Hrun) as Hcones.
  split; [| exact Hcones].
  destruct (process_node_inv quiet _ _ _ _ Hrun)
    as (n & s1 & left & right & middle & Hn & Hquiet & Hpushes).
  pose proof (depth_bounded_quiet _ _ Hquiet Hs) as H1.
  destruct (bool_decide (level n < num_faces m_polyhedron)) eqn:Hlevel;
    [| subst s'; exact H1].
  apply bool_decide_eq_true_1 in Hlevel.
  destruct Hquiet as (_ & _ & Hcones1 & _).
  destruct (same_cones_level _ _ _ _ Hcones1 Hn) as (n1 & Hn1 & Heq1).
  apply bind_Ok in Hpushes as ([] & s2 & Hleft & Hpushes).
  apply bind_Ok in Hpushes as ([] & s3 & Hright & Hmiddle).
  assert (H2 : depth_bounded s2 /\ same_cones s1 s2).
  { destruct left; cbn [when] in Hleft.
    - apply (push_left_child_bounded node n1); [exact H1 | exact Hn1 | lia | exact Hleft].
    - apply ret_Ok in Hleft as [_ ->]. split; [exact H1 | reflexivity]. }
  destruct H2 as [H2 Hcones2].
  destruct (same_cones_level _ _ _ _ Hcones2 Hn1) as (n2 & Hn2 & Heq2).
  assert (H3 : depth_bounded s3 /\ same_cones s2 s3).
  { destruct right; cbn [when] in Hright.
    - apply (push_right_child_bounded node n2); [exact H2 | exact Hn2 | lia | exact Hright].
    - apply ret_Ok in Hright as [_ ->]. split; [exact H2 | reflexivity]. }
  destruct H3 as [H3 Hcones3].
  destruct (same_cones_level _ _ _ _ Hcones3 Hn2) as (n3 & Hn3 & Heq3).
  destruct middle; cbn [when] in Hmiddle.
  - apply (push_middle_child_bounded node n3 s3 s');
      [exact H3 | exact Hn3 | lia | exact Hmiddle].
  - apply ret_Ok in Hmiddle as [_ ->]. exact H3.
Qed.

(** X10: the level limit.  [process_node] on a node whose level is not
    below the number of faces creates no event: the queue is what it was,
    no event and no node is allocated, every event that is there was there
    with the same parent, and every node is the cone it was. *)
Theorem process_node_pushes_nothing_at_the_level_limit (fuel : nat)
    (node : node_ptr) (n : Cone_tree_node) (s s' : Engine) :
  node_arena s !! node = Some n ->
  num_faces m_polyhedron <= level n ->
  process_node fuel node s = Ok (tt, s') ->
  quiet s s'.
Proof.
  intros Hn Hlevel Hrun.
  destruct (process_node_inv quiet _ _ _ _ Hrun)
    as (n0 & s1 & left & right & middle & Hn0 & Hquiet & Hpushes).
  rewrite Hn in Hn0. injection Hn0 as <-.
  rewrite bool_decide_eq_false_2 in Hpushes by lia. subst s'. exact Hquiet.
Qed.

(** A child allocated and linked under a node above the level limit. *)
Lemma linked_child_bounded (s s2 : Engine) (parent : node_ptr)
    (pn pn' child : Cone_tree_node) :
  depth_bounded s -> node_arena s !! parent = Some pn ->
  level pn < num_faces m_polyhedron ->
  node_arena s2
    = <[parent := pn']> (node_arena s) ++ [on_child_link parent pn child] ->
  event_arena s2 = event_arena s -> cone_of pn' = cone_of pn ->
  depth_bounded s2 /\
  exists pn2, node_arena s2 !! parent = Some pn2 /\ level pn2 = level pn.
Proof.
  intros [Hnodes Hparents] Hpn Hlevel Harena Hevents Heq.
  pose proof (lookup_lt_Some _ _ _ Hpn) as Hlt.
  assert (Hkept : forall q n, node_arena s !! q = Some n ->
            exists n', node_arena s2 !! q = Some n' /\ level n' = level n).
  { intros q n Hn. rewrite Harena. destruct (decide (q = parent)) as [-> |].
    - exists pn'. rewrite lookup_app_l by (rewrite length_insert; exact Hlt).
      rewrite list_lookup_insert_eq by exact Hlt. split; [reflexivity |].
      rewrite Hpn in Hn. injection Hn as <-.
      exact (proj1 (cone_of_fields _ _ Heq)).
    - exists n. split; [| reflexivity]. apply lookup_app_l_Some.
      rewrite list_lookup_insert_ne by auto. exact Hn. }
  split; [split |].
  - intros i n Hn. rewrite Harena in Hn.
    apply lookup_app_Some in Hn as [Hn | [_ Hn]].
    + destruct (decide (i = parent)) as [-> |].
      * rewrite list_lookup_insert_eq in Hn by exact Hlt. injection Hn as <-.
        unfold level. rewrite (proj1 (cone_of_fields _ _ Heq)).
        exact (Hnodes _ _ Hpn).
      * rewrite list_lookup_insert_ne in Hn by auto. exact (Hnodes _ _ Hn).
    + destruct (i - _) as [| j]; [| destruct j; discriminate Hn].
      injection Hn as <-. unfold level in *. cbn. lia.
  - intros e ev Hev. rewrite Hevents in Hev.
    destruct (Hparents _ _ Hev) as (qn & Hqn & Hq).
    destruct (Hkept _ _ Hqn) as (qn' & Hqn' & Heq').
    exists qn'. split; [exact Hqn' | lia].
  - exact (Hkept _ _ Hpn).
Qed.

Lemma middle_child_bounded_run (fuel : nat) (parent c : node_ptr)
    (pn child : Cone_tree_node) (s s1 s2 s' : Engine) (u : unit) :
  depth_bounded s -> node_arena s !! parent = Some pn ->
  level pn < num_faces m_polyhedron ->
  new_node child s = Ok (c, s1) ->
  push_middle_child_node parent c s1 = Ok (u, s2) ->
  process_node fuel c s2 = Ok (tt, s') ->
  depth_bounded s' /\
  exists pn', node_arena s' !! parent = Some pn' /\ level pn' = level pn.
Proof.
  intros Hs Hpn Hlevel Hnew Hlink Hrun.
  apply new_node_inv in Hnew as [-> ->].
  assert (Hevents : event_arena s2 = event_arena s).
  { pose proof Hlink as H. unfold push_middle_child_node in H. run_inv H.
    reflexivity. }
  apply (push_middle_child_node_run _ _ _ _ _ _ Hpn) in Hlink.
  destruct (linked_child_bounded s s2 parent pn _ child Hs Hpn Hlevel
              Hlink Hevents eq_refl) as (H2 & pn2 & Hpn2 & Heq2).
  destruct (process_node_bounded _ _ _ _ H2 Hrun) as [H' Hcones].
  split; [exact H' |].
  destruct (same_cones_level _ _ _ _ Hcones Hpn2) as (pn' & Hpn' & Heq').
  exists pn'. split; [exact Hpn' | congruence].
Qed.

Lemma middle_child_bounded (fuel : nat) (parent : node_ptr)
    (pn child : Cone_tree_node) (s s' : Engine) :
  depth_bounded s -> node_arena s !! parent = Some pn ->
  level pn < num_faces m_polyhedron ->
  (c <- new_node child ;;
   push_middle_child_node parent c ;;;
   process_node fuel c) s = Ok (tt, s') ->
  depth_bounded s' /\
  exists pn', node_arena s' !! parent = Some pn' /\ level pn' = level pn.
Proof.
  intros Hs Hpn Hlevel Hrun.
  apply bind_Ok in Hrun as (c & s1 & Hnew & Hrun).
  apply bind_Ok in Hrun as (u & s2 & Hlink & Hrun).
  exact (middle_child_bounded_run _ _ _ _ _ _ _ _ _ _ Hs Hpn Hlevel Hnew Hlink Hrun).
Qed.

Lemma expand_pseudo_source_loop_bounded (k fuel : nat) (parent : node_ptr)
    (pn : Cone_tree_node) (d : FT) (startEdge currentEdge : halfedge_descriptor)
    (s s' : Engine) :
  depth_bounded s -> node_arena s !! parent = Some pn ->
  level pn < num_faces m_polyhedron ->
  expand_pseudo_source_loop k fuel parent d startEdge currentEdge s = Ok (tt, s') ->
  depth_bounded s'.
Proof.
  revert pn currentEdge s.
  induction k as [| k IH]; intros pn currentEdge s Hs Hpn Hlevel Hrun;
    cbn [expand_pseudo_source_loop] in Hrun; [discriminate Hrun |].
  apply bind_Ok in Hrun as (c & s1 & Hnew & Hrun).
  apply bind_Ok in Hrun as (u & s2 & Hlink & Hrun).
  apply bind_Ok in Hrun as ([] & s3 & Hprocess & Hrun).
  destruct (middle_child_bounded_run _ _ _ _ _ _ _ _ _ _ Hs Hpn Hlevel
              Hnew Hlink Hprocess) as (H3 & pn3 & Hpn3 & Heq3).
  destruct (decide (_ = startEdge)).
  - apply ret_Ok in Hrun as [_ ->]. exact H3.
  - refine (IH pn3 _ s3 H3 Hpn3 _ Hrun). lia.
Qed.

Lemma expand_pseudo_source_bounded (fuel : nat) (parent : node_ptr)
    (pn : Cone_tree_node) (s s' : Engine) :
  depth_bounded s -> node_arena s !! parent = Some pn ->
  level pn < num_faces m_polyhedron ->
  expand_pseudo_source fuel parent s = Ok (tt, s') ->
  depth_bounded s'.
Proof.
  intros Hs Hpn Hlevel Hrun. unfold expand_pseudo_source in Hrun.
  apply bind_Ok in Hrun as ([] & s1 & Hupdate & Hrun).
  pose proof (link_update_node (R := quiet) parent (with_pendingMiddleSubtree None)
                (fun n => eq_refl) _ _ _ Hupdate) as Hquiet.
  pose proof (depth_bounded_quiet _ _ Hquiet Hs) as H1.
  destruct Hquiet as (_ & _ & Hcones & _).
  destruct (same_cones_level _ _ _ _ Hcones Hpn) as (pn1 & Hpn1 & Heq1).
  apply bind_Ok in Hrun as (p & s2 & Hderef & Hrun).
  apply deref_node_inv in Hderef as [_ ->].
  refine (expand_pseudo_source_loop_bounded _ _ _ pn1 _ _ _ _ _ H1 Hpn1 _ Hrun).
  lia.
Qed.

Lemma expand_left_child_bounded (fuel : nat) (cone : node_ptr) (c : Cone_tree_node)
    (windowSegment : Segment_2) (s s' : Engine) :
  depth_bounded s -> node_arena s !! cone = Some c ->
  level c < num_faces m_polyhedron ->
  expand_left_child fuel cone windowSegment s = Ok (tt, s') ->
  depth_bounded s'.
Proof.
  intros Hs Hc Hlevel Hrun. pose proof (lookup_lt_Some _ _ _ Hc) as Hlt.
  unfold expand_left_child in Hrun.
  apply bind_Ok in Hrun as (c0 & s0 & Hderef & Hrun).
  apply deref_node_inv in Hderef as [_ ->].
  destruct (bool_decide (m_pendingLeftSubtree c0 <> None)); [| discriminate Hrun].
  apply bind_Ok in Hrun as ([] & s1 & Hupdate & Hrun).
  pose proof (link_update_node (R := quiet) cone (with_pendingLeftSubtree None)
                (fun n => eq_refl) _ _ _ Hupdate) as Hquiet.
  pose proof (depth_bounded_quiet _ _ Hquiet Hs) as H1.
  destruct Hquiet as (_ & _ & Hcones & _).
  destruct (same_cones_level _ _ _ _ Hcones Hc) as (c1 & Hc1 & Heq1).
  apply bind_Ok in Hrun as (keep & s2 & Hfilter & Hrun).
  apply window_distance_filter_pure in Hfilter as ->.
  destruct keep; [| apply ret_Ok in Hrun as [_ ->]; exact H1].
  apply bind_Ok in Hrun as (child & s3 & Hnew & Hrun).
  apply new_node_inv in Hnew as [-> ->].
  apply bind_Ok in Hrun as ([] & s4 & Hlink & Hrun).
  assert (Hevents : event_arena s4 = event_arena s1).
  { pose proof Hlink as H. unfold set_left_child in H. run_inv H. reflexivity. }
  apply (set_left_child_run _ _ _ _ _ _ Hc1) in Hlink.
  destruct (linked_child_bounded s1 s4 cone c1 _ _ H1 Hc1 ltac:(lia)
              Hlink Hevents eq_refl) as [H4 _].
  exact (proj1 (process_node_bounded _ _ _ _ H4 Hrun)).
Qed.

Lemma expand_right_child_bounded (fuel : nat) (cone : node_ptr) (c : Cone_tree_node)
    (windowSegment : Segment_2) (s s' : Engine) :
  depth_bounded s -> node_arena s !! cone = Some c ->
  level c < num_faces m_polyhedron ->
  expand_right_child fuel cone windowSegment s = Ok (tt, s') ->
  depth_bounded s'.
Proof.
  intros Hs Hc Hlevel Hrun. pose proof (lookup_lt_Some _ _ _ Hc) as Hlt.
  unfold expand_right_child in Hrun.
  apply bind_Ok in Hrun as (c0 & s0 & Hderef & Hrun).
  apply deref_node_inv in Hderef as [_ ->].
  destruct (bool_decide (m_pendingRightSubtree c0 <> None)); [| discriminate Hrun].
  apply bind_Ok in Hrun as ([] & s1 & Hupdate & Hrun).
  pose proof (link_update_node (R := quiet) cone (with_pendingRightSubtree None)
                (fun n => eq_refl) _ _ _ Hupdate) as Hquiet.
  pose proof (depth_bounded_quiet _ _ Hquiet Hs) as H1.
  destruct Hquiet as (_ & _ & Hcones & _).
  destruct (same_cones_level _ _ _ _ Hcones Hc) as (c1 & Hc1 & Heq1).
  apply bind_Ok in Hrun as (keep & s2 & Hfilter & Hrun).
  apply window_distance_filter_pure in Hfilter as ->.
  destruct keep; [| apply ret_Ok in Hrun as [_ ->]; exact H1].
  apply bind_Ok in Hrun as (child & s3 & Hnew & Hrun).
  apply new_node_inv in Hnew as [-> ->].
  apply bind_Ok in Hrun as ([] & s4 & Hlink & Hrun).
  assert (Hevents : event_arena s4 = event_arena s1).
  { pose proof Hlink as H. unfold set_right_child in H. run_inv H. reflexivity. }
  apply (set_right_child_run _ _ _ _ _ _ Hc1) in Hlink.
  destruct (linked_child_bounded s1 s4 cone c1 _ _ H1 Hc1 ltac:(lia)
              Hlink Hevents eq_refl) as [H4 _].
  exact (proj1 (process_node_bounded _ _ _ _ H4 Hrun)).
Qed.

Lemma dispatch_event_bounded (fuel : nat) (e : event_ptr)
    (ev : Cone_expansion_event) (s s' : Engine) :
  depth_bounded s -> event_arena s !! e = Some (Some ev) ->
  dispatch_event fuel ev s = Ok (tt, s') ->
  depth_bounded s'.
Proof.
  intros Hs Hev Hrun. destruct (proj2 Hs _ _ Hev) as (pn & Hpn & Hlevel).
  unfold dispatch_event in Hrun. destruct (m_type ev).
  - exact (expand_left_child_bounded _ _ _ _ _ _ Hs Hpn Hlevel Hrun).
  - exact (expand_right_child_bounded _ _ _ _ _ _ Hs Hpn Hlevel Hrun).
  - exact (expand_pseudo_source_bounded _ _ _ _ _ Hs Hpn Hlevel Hrun).
Qed.

Lemma event_loop_body_bounded (fuel : nat) (s s' : Engine) :
  depth_bounded s -> event_loop_body fuel s = Ok (tt, s') -> depth_bounded s'.
Proof.
  intros Hs Hrun.
  apply event_loop_body_inv in Hrun
    as (event & ev & s1 & _ & Hev & Hdispatch & _ & ->).
  cbv zeta in Hdispatch.
  assert (H0 : depth_bounded
                 (with_expansionPriqueue
                    (remove_first event (m_expansionPriqueue s)) s)) by exact Hs.
  assert (H1 : depth_bounded s1).
  { destruct (m_cancelled ev); [subst s1; exact H0 |].
    exact (dispatch_event_bounded _ event _ _ _ H0 Hev Hdispatch). }
  destruct H1 as [Hnodes Hparents]. split; [exact Hnodes |].
  intros e ev' Hev'. simpl_engine. apply (Hparents e).
  destruct (decide (e = event)) as [-> |].
  - apply list_lookup_insert_Some in Hev' as [(_ & Heq & _) | [Hne _]];
      [discriminate Heq | contradiction].
  - rewrite list_lookup_insert_ne in Hev' by auto. exact Hev'.
Qed.

Lemma event_loop_bounded (k fuel : nat) (s s' : Engine) :
  depth_bounded s ->
  while_loop k priqueue_nonempty (event_loop_body fuel) s = Ok (tt, s') ->
  depth_bounded s'.
Proof.
  revert s. induction k as [| k IH]; intros s Hs Hrun; cbn [while_loop] in Hrun;
    [discriminate Hrun |].
  apply bind_Ok in Hrun as (b & s0 & Hcond & Hrun).
  unfold priqueue_nonempty in Hcond. run_inv Hcond.
  destruct (negb (bool_decide (m_expansionPriqueue s = []))).
  - apply bind_Ok in Hrun as ([] & s1 & Hbody & Hrun).
    exact (IH _ (event_loop_body_bounded _ _ _ Hs Hbody) Hrun).
  - apply ret_Ok in Hrun as [_ ->]. exact Hs.
Qed.

(** A root, allocated: no event refers to it, and it is at level 0. *)
Lemma new_root_bounded (entryEdge : halfedge_descriptor) (root : node_ptr)
    (s s' : Engine) :
  depth_bounded s -> new_root entryEdge s = Ok (root, s') ->
  depth_bounded s' /\
  exists pn, node_arena s' !! root = Some pn /\ level pn = 0.
Proof.
  intros [Hnodes Hparents] Hrun. unfold new_root in Hrun. run_inv Hrun.
  simpl_engine. split; [split |].
  - intros i n Hn. apply lookup_app_Some in Hn as [Hn | [_ Hn]];
      [exact (Hnodes _ _ Hn) |].
    destruct (i - _) as [| j]; [| destruct j; discriminate Hn].
    injection Hn as <-. cbn. lia.
  - intros e ev Hev. destruct (Hparents _ _ Hev) as (pn & Hpn & Hlevel).
    exists pn. split; [apply lookup_app_l_Some; exact Hpn | exact Hlevel].
  - eexists. split; [apply lookup_arena_snoc | reflexivity].
Qed.

Lemma expand_root_bounded (fuel : nat) (face : face_descriptor)
    (location : Barycentric_coordinate) (s s' : Engine) :
  0 < num_faces m_polyhedron ->
  depth_bounded s -> expand_root fuel face location s = Ok (tt, s') ->
  depth_bounded s'.
Proof.
  intros Hfaces Hs Hrun. unfold expand_root in Hrun.
  destruct (fst (classify_barycentric_coordinate location));
    try discriminate Hrun.
  - unfold expand_face_root in Hrun.
    apply bind_Ok in Hrun as (root & s0 & Hroot & Hrun).
    destruct (new_root_bounded _ _ _ _ Hs Hroot) as (H0 & pn0 & Hpn0 & Hl0).
    apply bind_Ok in Hrun as ([] & s1 & Hrun1 & Hrun).
    apply bind_Ok in Hrun as ([] & s2 & Hrun2 & Hrun3).
    unfold expand_face_root_child in Hrun1, Hrun2, Hrun3.
    destruct (middle_child_bounded _ _ _ _ _ _ H0 Hpn0 ltac:(lia) Hrun1)
      as (H1 & pn1 & Hpn1 & Hl1).
    destruct (middle_child_bounded _ _ _ _ _ _ H1 Hpn1 ltac:(lia) Hrun2)
      as (H2 & pn2 & Hpn2 & Hl2).
    exact (proj1 (middle_child_bounded _ _ _ _ _ _ H2 Hpn2 ltac:(lia) Hrun3)).
  - unfold expand_edge_root in Hrun.
    apply bind_Ok in Hrun as (root & s0 & Hroot & Hrun).
    destruct (new_root_bounded _ _ _ _ Hs Hroot) as (H0 & pn0 & Hpn0 & Hl0).
    apply bind_Ok in Hrun as ([] & s2 & Hside0 & Hside1).
    unfold expand_edge_root_side in Hside0, Hside1.
    apply bind_Ok in Hside0 as (c1 & s1a & Hnew1 & Hside0).
    apply bind_Ok in Hside0 as (u1 & s1b & Hlink1 & Hside0).
    apply bind_Ok in Hside0 as ([] & s1 & Hrun1 & Hside0).
    apply bind_Ok in Hside1 as (c3 & s3a & Hnew3 & Hside1).
    apply bind_Ok in Hside1 as (u3 & s3b & Hlink3 & Hside1).
    apply bind_Ok in Hside1 as ([] & s3 & Hrun3 & Hside1).
    destruct (middle_child_bounded_run _ _ _ _ _ _ _ _ _ _ H0 Hpn0 ltac:(lia)
                Hnew1 Hlink1 Hrun1) as (H1 & pn1 & Hpn1 & Hl1).
    destruct (middle_child_bounded _ _ _ _ _ _ H1 Hpn1 ltac:(lia) Hside0)
      as (H2 & pn2 & Hpn2 & Hl2).
    destruct (middle_child_bounded_run _ _ _ _ _ _ _ _ _ _ H2 Hpn2 ltac:(lia)
                Hnew3 Hlink3 Hrun3) as (H3 & pn3 & Hpn3 & Hl3).
    exact (proj1 (middle_child_bounded _ _ _ _ _ _ H3 Hpn3 ltac:(lia) Hside1)).
  - unfold expand_vertex_root in Hrun.
    apply bind_Ok in Hrun as (root & s0 & Hroot & Hrun).
    destruct (new_root_bounded _ _ _ _ Hs Hroot) as (H0 & pn0 & Hpn0 & Hl0).
    apply bind_Ok in Hrun as ([] & s1 & Hwrite & Hrun).
    apply vector_write_inv in Hwrite as [_ ->].
    refine (expand_pseudo_source_bounded _ _ pn0 _ _ _ _ _ Hrun);
      [| simpl_engine; exact Hpn0 | lia].
    exact H0.
Qed.

Lemma expand_roots_bounded (fuel : nat) (faceLocations : list Face_location_pair)
    (s s' : Engine) :
  0 < num_faces m_polyhedron ->
  depth_bounded s -> expand_roots fuel faceLocations s = Ok (tt, s') ->
  depth_bounded s'.
Proof.
  intros Hfaces. unfold expand_roots. revert s.
  induction faceLocations as [| it l IH]; intros s Hs Hrun; cbn [for_each] in Hrun.
  - apply ret_Ok in Hrun as [_ ->]. exact Hs.
  - apply bind_Ok in Hrun as ([] & s1 & Hone & Hrest).
    apply bind_Ok in Hone as ([] & s0 & Hpush & Hone).
    apply modify_Ok in Hpush as ->.
    apply (IH s1); [| exact Hrest].
    refine (expand_root_bounded _ _ _ _ _ Hfaces _ Hone). exact Hs.
Qed.

(** X11: no node is deeper than the mesh has faces.  When every node is
    at a level not above the number of faces, and every event that is
    allocated and not destroyed has its parent below that level, then so
    it is after the event loop, and, on a mesh with a face, after the loop
    over the source locations. *)
Theorem expansion_keeps_the_depth_bounded (fuel : nat)
    (faceLocations : list Face_location_pair) (s s' : Engine) :
  depth_bounded s ->
  (event_loop fuel s = Ok (tt, s') -> depth_bounded s') /\
  (0 < num_faces m_polyhedron ->
   expand_roots fuel faceLocations s = Ok (tt, s') -> depth_bounded s').
Proof.
  intros Hs. split.
  - exact (event_loop_bounded _ _ _ _ Hs).
  - intros Hfaces. exact (expand_roots_bounded _ _ _ _ Hfaces Hs).
Qed.

(** ** The face lists *)

Lemma face_lists_extended_refl (s : Engine) : face_lists_extended [] s s.
Proof.
  split; [destruct s; reflexivity |]. split; [reflexivity |].
  intros i l Hl. cbn. rewrite app_nil_r. exact Hl.
Qed.

Lemma face_lists_extended_trans (a b : list node_ptr) (s s1 s2 : Engine) :
  face_lists_extended a s s1 -> face_lists_extended b s1 s2 ->
  face_lists_extended (a ++ b) s s2.
Proof.
  intros (Heq1 & Hlen1 & H1) (Heq2 & Hlen2 & H2).
  assert (Harena : node_arena s1 = node_arena s)
    by (rewrite Heq1; reflexivity).
  split; [| split; [congruence |]].
  - transitivity (with_faceOccupiers (m_faceOccupiers s2) s1); [exact Heq2 |].
    rewrite Heq1. reflexivity.
  - intros i l Hl. rewrite (H2 _ _ (H1 _ _ Hl)), Harena.
    rewrite List.filter_app, app_assoc. reflexivity.
Qed.

Lemma face_list_push_back_run (faceIndex : nat) (node : node_ptr) (s s' : Engine) :
  face_list_push_back faceIndex node s = Ok (tt, s') ->
  s' = with_faceOccupiers (m_faceOccupiers s') s /\
  length (m_faceOccupiers s') = length (m_faceOccupiers s) /\
  forall i l, m_faceOccupiers s !! i = Some l ->
    m_faceOccupiers s' !! i
    = Some (l ++ if bool_decide (faceIndex = i) then [node] else []).
Proof.
  intros Hrun. unfold face_list_push_back in Hrun.
  apply bind_Ok in Hrun as (l0 & s0 & Hread & Hwrite).
  apply vector_read_inv in Hread as [Hl0 ->].
  apply vector_write_inv in Hwrite as [Hlt ->]. simpl_engine.
  split; [reflexivity |]. split; [apply length_insert |].
  intros i l Hl. destruct (decide (faceIndex = i)) as [-> | Hne].
  - rewrite bool_decide_eq_true_2 by reflexivity.
    rewrite list_lookup_insert_eq by exact Hlt. congruence.
  - rewrite bool_decide_eq_false_2 by exact Hne.
    rewrite list_lookup_insert_ne by exact Hne. rewrite app_nil_r. exact Hl.
Qed.

Lemma add_to_face_list_run (fuel : nat) (node : node_ptr) (s s' : Engine) :
  add_to_face_list fuel node s = Ok (tt, s') ->
  face_lists_extended (cone_tree fuel (node_arena s) node) s s'.
Proof.
  revert node s s'.
  induction fuel as [| fuel IH]; intros node s s' Hrun;
    cbn [add_to_face_list] in Hrun; [discriminate Hrun |].
  apply bind_Ok in Hrun as (n & s0 & Hderef & Hrun).
  apply deref_node_inv in Hderef as [Hn ->].
  apply bind_Ok in Hrun as ([] & s1 & Hself & Hrun).
  apply bind_Ok in Hrun as ([] & s2 & Hleft & Hrun).
  apply bind_Ok in Hrun as ([] & s3 & Hright & Hmiddle).
  cbn [cone_tree]. rewrite Hn. unfold children_of.
  rewrite !flat_map_app.
  assert (H1 : face_lists_extended [node] s s1).
  { destruct (negb (is_root_node n) && negb (is_null_face n)) eqn:Hkind.
    - apply andb_true_iff in Hkind as [Hroot Hnull].
      destruct (current_face n) as [f |] eqn:Hface.
      + apply face_list_push_back_run in Hself as (Heq & Hlen & Hlists).
        split; [exact Heq |]. split; [exact Hlen |].
        intros i l Hl. rewrite (Hlists _ _ Hl). cbn [List.filter].
        unfold occupies. rewrite Hn, Hroot, Hface. cbn [andb].
        destruct (bool_decide (m_faceIndexMap f = i)); reflexivity.
      + unfold is_null_face in Hnull. rewrite Hface in Hnull.
        rewrite bool_decide_eq_true_2 in Hnull by reflexivity. discriminate Hnull.
    - apply ret_Ok in Hself as [_ ->].
      split; [destruct s; reflexivity |]. split; [reflexivity |].
      intros i l Hl. cbn [List.filter]. unfold occupies. rewrite Hn.
      replace (negb (is_root_node n) && _) with false; [rewrite app_nil_r; exact Hl |].
      apply andb_false_iff in Hkind as [-> | Hnull]; [reflexivity |].
      unfold is_null_face in Hnull. apply negb_false_iff in Hnull.
      apply bool_decide_eq_true_1 in Hnull. rewrite Hnull.
      rewrite andb_false_r. reflexivity. }
  assert (Harena1 : node_arena s1 = node_arena s)
    by (rewrite (proj1 H1); reflexivity).
  assert (H2 : face_lists_extended
                 (flat_map (cone_tree fuel (node_arena s))
                    (option_list (m_leftChild n))) s1 s2).
  { destruct (m_leftChild n) as [c |]; simpl option_list; simpl flat_map.
    - rewrite ?app_nil_r, <- Harena1. exact (IH _ _ _ Hleft).
    - apply ret_Ok in Hleft as [_ ->]. apply face_lists_extended_refl. }
  assert (Harena2 : node_arena s2 = node_arena s)
    by (rewrite (proj1 H2); exact Harena1).
  assert (H3 : face_lists_extended
                 (flat_map (cone_tree fuel (node_arena s))
                    (option_list (m_rightChild n))) s2 s3).
  { destruct (m_rightChild n) as [c |]; simpl option_list; simpl flat_map.
    - rewrite ?app_nil_r, <- Harena2. exact (IH _ _ _ Hright).
    - apply ret_Ok in Hright as [_ ->]. apply face_lists_extended_refl. }
  assert (Harena3 : node_arena s3 = node_arena s)
    by (rewrite (proj1 H3); exact Harena2).
  assert (H4 : face_lists_extended
                 (flat_map (cone_tree fuel (node_arena s)) (m_middleChildren n))
                 s3 s').
  { clear Hn. revert Hmiddle Harena3. generalize s3. generalize (m_middleChildren n).
    intros l. induction l as [| c l IHl]; intros t Hmiddle Harena;
      cbn [for_each flat_map] in *.
    - apply ret_Ok in Hmiddle as [_ ->]. apply face_lists_extended_refl.
    - apply bind_Ok in Hmiddle as ([] & t1 & Hc & Hrest).
      pose proof (IH _ _ _ Hc) as Hc'. rewrite Harena in Hc'.
      apply (face_lists_extended_trans _ _ t t1 s'); [exact Hc' |].
      apply IHl; [exact Hrest |]. rewrite (proj1 Hc'). exact Harena. }
  change (node :: ?l) with ([node] ++ l).
  exact (face_lists_extended_trans _ _ _ _ _ H1
           (face_lists_extended_trans _ _ _ _ _ H2
              (face_lists_extended_trans _ _ _ _ _ H3 H4))).
Qed.

Lemma add_roots_to_face_lists_run (fuel : nat) (roots : list node_ptr)
    (s s' : Engine) :
  for_each roots (add_to_face_list fuel) s = Ok (tt, s') ->
  face_lists_extended (flat_map (cone_tree fuel (node_arena s)) roots) s s'.
Proof.
  revert s. induction roots as [| r roots IH]; intros s Hrun;
    cbn [for_each flat_map] in *.
  - apply ret_Ok in Hrun as [_ ->]. apply face_lists_extended_refl.
  - apply bind_Ok in Hrun as ([] & s1 & Hr & Hrest).
    pose proof (add_to_face_list_run _ _ _ _ Hr) as H1.
    apply (face_lists_extended_trans _ _ s s1 s'); [exact H1 |].
    replace (node_arena s) with (node_arena s1) by (rewrite (proj1 H1); reflexivity).
    exact (IH _ Hrest).
Qed.

Lemma sort_insert_perm (x : node_ptr) (xn : Cone_tree_node)
    (l : list (node_ptr * Cone_tree_node)) :
  sort_insert x xn l ≡ₚ (x, xn) :: l.
Proof.
  induction l as [| [y yn] l IH]; cbn [sort_insert]; [reflexivity |].
  destruct (cone_comparator xn yn); [reflexivity |].
  rewrite IH. apply Permutation_swap.
Qed.

Lemma sort_nodes_perm (l : list (node_ptr * Cone_tree_node)) :
  sort_nodes l ≡ₚ l.
Proof.
  induction l as [| [x xn] l IH]; cbn [sort_nodes]; [reflexivity |].
  rewrite sort_insert_perm, IH. reflexivity.
Qed.

Lemma sort_insert_Forall (P : Cone_tree_node -> Prop) (x : node_ptr)
    (xn : Cone_tree_node) (l : list (node_ptr * Cone_tree_node)) :
  P xn -> Forall P (map snd l) -> Forall P (map snd (sort_insert x xn l)).
Proof.
  intros Hx. induction l as [| [y yn] l IH]; intros Hl; cbn [sort_insert map snd].
  - constructor; [exact Hx | constructor].
  - cbn [map snd] in Hl. apply Forall_cons in Hl as [Hy Hl].
    destruct (cone_comparator xn yn); cbn [map snd].
    + constructor; [exact Hx |]. constructor; assumption.
    + constructor; [exact Hy | exact (IH Hl)].
Qed.

Section Sorting.
Context {laws : Ordered_with_sqrt NT}.

Lemma cone_comparator_asymmetric (a b : Cone_tree_node) :
  cone_comparator a b = true -> cone_comparator b a = false.
Proof.
  unfold cone_comparator. intros Hab.
  destruct (FT_less (distance_from_source_to_root b)
              (distance_from_source_to_root a)) eqn:Hba; [| reflexivity].
  rewrite <- (FT_less_irreflexive (distance_from_source_to_root a)).
  symmetry. exact (FT_less_transitive _ _ _ Hab Hba).
Qed.

Lemma sort_insert_sorted (x : node_ptr) (xn : Cone_tree_node)
    (l : list (node_ptr * Cone_tree_node)) :
  sorted_by_distance (map snd l) ->
  sorted_by_distance (map snd (sort_insert x xn l)).
Proof.
  unfold sorted_by_distance.
  induction l as [| [y yn] l IH]; intros Hl; cbn [sort_insert map snd].
  - constructor; constructor.
  - cbn [map snd] in Hl. apply StronglySorted_inv in Hl as [Hl Hy].
    destruct (cone_comparator xn yn) eqn:Hxy; cbn [map snd].
    + constructor; [constructor; assumption |].
      constructor; [exact (cone_comparator_asymmetric _ _ Hxy) |].
      eapply Forall_impl; [exact Hy |]. cbn. intros z Hzy.
      unfold cone_comparator in *.
      destruct (FT_less (distance_from_source_to_root z)
                  (distance_from_source_to_root xn)) eqn:Hzx; [| reflexivity].
      rewrite <- Hzy. symmetry. exact (FT_less_transitive _ _ _ Hzx Hxy).
    + constructor; [exact (IH Hl) |].
      apply sort_insert_Forall; [exact Hxy | exact Hy].
Qed.

Lemma sort_nodes_sorted (l : list (node_ptr * Cone_tree_node)) :
  sorted_by_distance (map snd (sort_nodes l)).
Proof.
  induction l as [| [x xn] l IH]; cbn [sort_nodes].
  - constructor.
  - apply sort_insert_sorted. exact IH.
Qed.

End Sorting.

Lemma deref_all_run (l : list node_ptr) (nodes : list (node_ptr * Cone_tree_node))
    (s s' : Engine) :
  deref_all l s = Ok (nodes, s') ->
  s' = s /\ map fst nodes = l /\
  Forall (fun pn => node_arena s !! fst pn = Some (snd pn)) nodes.
Proof.
  revert nodes s'. induction l as [| x l IH]; intros nodes s' Hrun;
    cbn [deref_all] in Hrun.
  - apply ret_Ok in Hrun as [-> ->]. repeat split. constructor.
  - apply bind_Ok in Hrun as (xn & s0 & Hderef & Hrun).
    apply deref_node_inv in Hderef as [Hx ->].
    apply bind_Ok in Hrun as (rest & s1 & Hrest & Hrun).
    destruct (IH _ _ Hrest) as (-> & Hfst & Hall).
    apply ret_Ok in Hrun as [-> ->].
    split; [reflexivity |]. split; [cbn; rewrite Hfst; reflexivity |].
    constructor; [exact Hx | exact Hall].
Qed.

Lemma nodes_at_pairs (s : Engine) (nodes : list (node_ptr * Cone_tree_node)) :
  Forall (fun pn => node_arena s !! fst pn = Some (snd pn)) nodes ->
  nodes_at s (map fst nodes) (map snd nodes).
Proof.
  unfold nodes_at. induction 1 as [| [p n] l Hp Hl IH]; cbn; constructor; auto.
Qed.

Section Face_lists.
Context {laws : Ordered_with_sqrt NT}.

Lemma sort_face_list_run (i : nat) (s s' : Engine) :
  sort_face_list i s = Ok (tt, s') ->
  exists l l' nodes,
    m_faceOccupiers s !! i = Some l /\
    s' = with_faceOccupiers (<[i := l']> (m_faceOccupiers s)) s /\
    l' ≡ₚ l /\ nodes_at s l' nodes /\ sorted_by_distance nodes.
Proof.
  intros Hrun. unfold sort_face_list in Hrun.
  apply bind_Ok in Hrun as (l & s0 & Hread & Hrun).
  apply vector_read_inv in Hread as [Hl ->].
  apply bind_Ok in Hrun as (nodes & s1 & Hderef & Hwrite).
  apply deref_all_run in Hderef as (-> & Hfst & Hall).
  apply vector_write_inv in Hwrite as [_ ->].
  exists l, (map fst (sort_nodes nodes)), (map snd (sort_nodes nodes)).
  split; [exact Hl |]. split; [reflexivity |]. split; [| split].
  - rewrite <- Hfst. apply Permutation_map. apply sort_nodes_perm.
  - apply nodes_at_pairs.
    refine (Permutation_Forall _ Hall). symmetry. apply sort_nodes_perm.
  - apply sort_nodes_sorted.
Qed.

Lemma sort_face_lists_run (a k : nat) (s s' : Engine) :
  for_each (seq a k) sort_face_list s = Ok (tt, s') ->
  s' = with_faceOccupiers (m_faceOccupiers s') s /\
  length (m_faceOccupiers s') = length (m_faceOccupiers s) /\
  forall i l, m_faceOccupiers s !! i = Some l ->
    if bool_decide (a <= i < a + k) then
      exists l' nodes,
        m_faceOccupiers s' !! i = Some l' /\ l' ≡ₚ l /\
        nodes_at s l' nodes /\ sorted_by_distance nodes
    else m_faceOccupiers s' !! i = Some l.
Proof.
  revert a s. induction k as [| k IH]; intros a s Hrun; cbn [seq for_each] in Hrun.
  - apply ret_Ok in Hrun as [_ ->].
    split; [destruct s; reflexivity |]. split; [reflexivity |].
    intros i l Hl. rewrite bool_decide_eq_false_2 by lia. exact Hl.
  - apply bind_Ok in Hrun as ([] & s1 & Hone & Hrest).
    apply sort_face_list_run in Hone
      as (la & la' & nodes & Hla & -> & Hperm & Hnodes & Hsorted).
    destruct (IH _ _ Hrest) as (Heq & Hlen & Hlists). simpl_engine.
    split; [| split].
    + rewrite Heq at 1. reflexivity.
    + rewrite Hlen. apply length_insert.
    + intros i l Hl. destruct (decide (i = a)) as [-> | Hne].
      * rewrite bool_decide_eq_true_2 by lia.
        specialize (Hlists a la').
        rewrite bool_decide_eq_false_2 in Hlists by lia.
        rewrite Hl in Hla. injection Hla as <-.
        exists la', nodes. split; [| auto].
        apply Hlists. apply list_lookup_insert_eq. eapply lookup_lt_Some; exact Hl.
      * specialize (Hlists i l).
        rewrite list_lookup_insert_ne in Hlists by auto.
        specialize (Hlists Hl).
        destruct (bool_decide (S a <= i < S a + k)) eqn:Hin.
        -- apply bool_decide_eq_true_1 in Hin.
           rewrite bool_decide_eq_true_2 by lia.
           destruct Hlists as (l' & nodes' & Hl' & Hperm' & Hnodes' & Hsorted').
           exists l', nodes'. auto.
        -- apply bool_decide_eq_false_1 in Hin.
           rewrite bool_decide_eq_false_2 by lia. exact Hlists.
Qed.

Lemma build_face_occupiers_run (fuel : nat) (s s' : Engine) :
  build_face_occupiers fuel s = Ok (tt, s') ->
  s' = with_faceOccupiers (m_faceOccupiers s') s /\
  length (m_faceOccupiers s') = num_faces m_polyhedron /\
  forall i, i < num_faces m_polyhedron ->
    exists l nodes,
      m_faceOccupiers s' !! i = Some l /\
      l ≡ₚ List.filter (occupies (node_arena s) i)
             (flat_map (cone_tree fuel (node_arena s)) (m_rootNodes s)) /\
      nodes_at s l nodes /\ sorted_by_distance nodes.
Proof.
  intros Hrun. unfold build_face_occupiers in Hrun.
  apply bind_Ok in Hrun as ([] & s0 & Hclear & Hrun).
  apply modify_Ok in Hclear as ->.
  apply bind_Ok in Hrun as (roots & s1 & Hroots & Hrun).
  apply gets_Ok in Hroots as [-> ->]. simpl_engine.
  apply bind_Ok in Hrun as ([] & s2 & Hadd & Hsort).
  apply add_roots_to_face_lists_run in Hadd as (Heq2 & Hlen2 & Hlists2).
  apply sort_face_lists_run in Hsort as (Heq' & Hlen' & Hlists').
  simpl_engine. rewrite length_replicate in Hlen2.
  split; [| split; [congruence |]].
  - rewrite Heq' at 1. rewrite Heq2. reflexivity.
  - intros i Hi. specialize (Hlists2 i [] (lookup_replicate_2 _ _ _ Hi)).
    cbn [app] in Hlists2. specialize (Hlists' i _ Hlists2).
    rewrite bool_decide_eq_true_2 in Hlists' by lia.
    destruct Hlists' as (l' & nodes & Hl' & Hperm & Hnodes & Hsorted).
    exists l', nodes. split; [exact Hl' |]. split; [exact Hperm |].
    split; [| exact Hsorted].
    unfold nodes_at in *. rewrite Heq2 in Hnodes. exact Hnodes.
Qed.

End Face_lists.


(** ** The closest node of a vertex *)

Lemma closest_released_same (s s' : Engine) :
  m_closestToVertices s' = m_closestToVertices s -> closest_released s s'.
Proof. intros H. unfold closest_released. rewrite H. auto. Qed.

Global Instance closest_released_preorder : PreOrder closest_released.
Proof.
  split; [intros s; apply closest_released_same; reflexivity |].
  intros s1 s2 s3 [Hl1 H1] [Hl2 H2]. split; [congruence |].
  intros i x Hx. destruct (H1 _ _ Hx) as [Hx2 | Hx2];
    destruct (H2 _ _ Hx2) as [Hx3 | Hx3]; auto.
Qed.

Global Instance closest_released_link_frame : Link_frame closest_released.
Proof.
  split; [exact _ | ..].
  - intros p f Hf s u s' Hrun. run_inv Hrun. apply closest_released_same. reflexivity.
  - intros e s u s' Hrun. run_inv Hrun. apply closest_released_same. reflexivity.
  - intros p s u s' Hrun. unfold release_occupancy in Hrun. run_inv Hrun;
      try (apply closest_released_same; reflexivity).
    simpl_engine. split; [simpl_engine; apply length_insert |].
    intros i x Hx. simpl_engine.
    match goal with
    | H : m_closestToVertices _ !! ?j = Some ?c |- _ =>
        destruct (decide (i = j)) as [-> |];
          [ right; rewrite list_lookup_insert_eq by (eapply lookup_lt_Some; exact Hx);
            simpl_engine; congruence
          | left; rewrite list_lookup_insert_ne by auto; exact Hx ]
    end.
Qed.

(** A loop whose test changes nothing ends with the test failing. *)
Lemma while_loop_exit (k : nat) (cond : M bool) (body : M unit) (s s' : Engine) :
  (forall t b t', cond t = Ok (b, t') -> t' = t) ->
  while_loop k cond body s = Ok (tt, s') -> cond s' = Ok (false, s').
Proof.
  intros Hpure. revert s. induction k as [| k IH]; intros s Hrun;
    cbn [while_loop] in Hrun; [discriminate Hrun |].
  apply bind_Ok in Hrun as (b & s0 & Hcond & Hrun).
  pose proof (Hpure _ _ _ Hcond) as ->. destruct b.
  - apply bind_Ok in Hrun as ([] & s1 & _ & Hrun). exact (IH _ Hrun).
  - apply ret_Ok in Hrun as [_ ->]. exact Hcond.
Qed.

Lemma evict_middle_children_run (fuel : nat) (closest : node_ptr) (s s' : Engine) :
  (cancel_pending_middle closest ;;;
   while_loop fuel (node_has_middle_children closest)
     (c <- pop_middle_child closest ;; delete_node fuel c)) s = Ok (tt, s') ->
  closest_released s s' /\
  m_vertexIsPseudoSource s' = m_vertexIsPseudoSource s /\
  exists cn, node_arena s' !! closest = Some cn /\
             m_middleChildren cn = [] /\ m_pendingMiddleSubtree cn = None.
Proof.
  intros Hrun.
  assert (Hreleased : closest_released s s').
  { revert Hrun.
    match goal with |- ?m s = Ok (tt, s') -> _ =>
      enough (Hp : preserves closest_released m) by (intros Hrun; exact (Hp _ _ _ Hrun))
    end.
    pose proof (link_delete_frame closest_released). preserves_auto. }
  assert (Hflags : m_vertexIsPseudoSource s' = m_vertexIsPseudoSource s).
  { revert Hrun.
    match goal with |- ?m s = Ok (tt, s') -> _ =>
      enough (Hp : preserves (fun t t' =>
                      m_vertexIsPseudoSource t' = m_vertexIsPseudoSource t) m)
        by (intros Hrun; exact (Hp _ _ _ Hrun))
    end.
    assert (Hframe : Link_frame (fun t t' =>
                       m_vertexIsPseudoSource t' = m_vertexIsPseudoSource t)).
    { split; [split; [intros t; reflexivity | intros t1 t2 t3; congruence] | ..].
      - intros p f Hf t u t' Ht. run_inv Ht. reflexivity.
      - intros e t u t' Ht. run_inv Ht. reflexivity.
      - intros p t u t' Ht. unfold release_occupancy in Ht. run_inv Ht; reflexivity. }
    pose proof (link_delete_frame _ (Link_frame0 := Hframe)). preserves_auto. }
  split; [exact Hreleased |]. split; [exact Hflags |].
  apply bind_Ok in Hrun as ([] & s1 & Hcancel & Hloop).
  assert (Hpending : exists cn1, node_arena s1 !! closest = Some cn1 /\
                                 m_pendingMiddleSubtree cn1 = None).
  { unfold cancel_pending_middle in Hcancel. run_inv Hcancel.
    - eexists. simpl_engine.
      split; [rewrite list_lookup_insert_eq;
                [reflexivity | eapply lookup_lt_Some; eassumption]
             | reflexivity].
    - eexists. split; eassumption. }
  destruct Hpending as (cn1 & Hcn1 & Hpending1).
  assert (Hshrinks : shrinks s1 s').
  { revert Hloop.
    match goal with |- ?m s1 = Ok (tt, s') -> _ =>
      enough (Hp : preserves shrinks m) by (intros Hrun; exact (Hp _ _ _ Hrun))
    end.
    preserves_auto. }
  apply while_loop_exit in Hloop.
  - unfold node_has_middle_children in Hloop.
    apply bind_Ok in Hloop as (cn & s2 & Hderef & Hret).
    apply deref_node_inv in Hderef as [Hcn ->].
    apply ret_Ok in Hret as [Hempty _].
    exists cn. split; [exact Hcn |]. split.
    + unfold has_middle_children in Hempty. symmetry in Hempty.
      apply negb_false_iff, bool_decide_eq_true_1 in Hempty. exact Hempty.
    + destruct Hshrinks as (_ & _ & _ & Hnodes).
      destruct (Forall2_lookup_l _ _ _ _ _ Hnodes Hcn1) as (cn' & Hcn' & Hs & _).
      rewrite Hcn in Hcn'. injection Hcn' as <-.
      destruct Hs as (_ & _ & _ & _ & _ & [Hp | Hp]); congruence.
  - intros t b t' Ht. unfold node_has_middle_children in Ht. run_inv Ht. reflexivity.
Qed.


Section Queries_on_the_face_lists.
Context {laws : Ordered_with_sqrt NT}.

Lemma nodes_at_elem (s : Engine) (l : list node_ptr) (nodes : list Cone_tree_node)
    (n : Cone_tree_node) :
  nodes_at s l nodes ->
  n ∈ nodes <-> exists p, p ∈ l /\ node_arena s !! p = Some n.
Proof.
  unfold nodes_at. induction 1 as [| p m l nodes Hp Hl IH].
  - split; [intros H; apply elem_of_nil in H; contradiction |].
    intros (p & Hp & _). apply elem_of_nil in Hp. contradiction.
  - rewrite elem_of_cons, IH. split.
    + intros [-> | (q & Hq & Hn)].
      * exists p. split; [apply elem_of_cons; auto | exact Hp].
      * exists q. split; [apply elem_of_cons; auto | exact Hn].
    + intros (q & Hq & Hn). apply elem_of_cons in Hq as [-> | Hq].
      * left. congruence.
      * right. exists q. auto.
Qed.

Lemma nodes_at_lookup (s : Engine) (l : list node_ptr) (nodes : list Cone_tree_node) :
  map (fun p => node_arena s !! p) l = map Some nodes -> nodes_at s l nodes.
Proof.
  unfold nodes_at. revert nodes.
  induction l as [| p l IH]; intros [| n nodes] H; try discriminate H;
    [constructor |].
  injection H as Hp Hl. constructor; [exact Hp | exact (IH _ Hl)].
Qed.

Lemma minimum_reach_same (alpha : Barycentric_coordinate)
    (nodes nodes' : list Cone_tree_node) (m : FT) :
  (forall n, n ∈ nodes <-> n ∈ nodes') ->
  minimum_reach alpha nodes m -> minimum_reach alpha nodes' m.
Proof.
  intros Hsame [(n & Hn & Hcov & Hm) Hbound]. split.
  - exists n. split; [apply Hsame; exact Hn | auto].
  - intros n' Hn' Hcov'. apply Hbound; [apply Hsame; exact Hn' | exact Hcov'].
Qed.

End Queries_on_the_face_lists.

(** X14: a location query after the face lists were built.  When the
    face lists were built from the trees, and [operator<] is a strict weak
    order under which adding a square root does not decrease a number, the
    distance [shortest_distance_to_location] returns for a location of a
    face is the minimum of [d + ||I - image||] over the nodes of the trees
    of the roots that are no roots, have that face as the face of their
    entry halfedge, and whose window covers the location, as soon as there
    is such a node. *)
Theorem location_query_is_the_minimum_over_the_trees
    {laws : Ordered_with_sqrt NT} (fuel : nat) (s s' : Engine)
    (face : face_descriptor) (alpha : Barycentric_coordinate)
    (nodes : list Cone_tree_node) :
  build_face_occupiers fuel s = Ok (tt, s') ->
  m_faceIndexMap face < num_faces m_polyhedron ->
  nodes_at s
    (List.filter (occupies (node_arena s) (m_faceIndexMap face))
       (flat_map (cone_tree fuel (node_arena s)) (m_rootNodes s)))
    nodes ->
  (exists n, n ∈ nodes /\ covers alpha n = true) ->
  exists m,
    shortest_distance_to_location face alpha s' = Ok (m, s') /\
    minimum_reach alpha nodes m.
Proof.
  intros Hrun Hface Hnodes (n & Hn & Hcov).
  destruct (build_face_occupiers_run _ _ _ Hrun) as (Heq & _ & Hlists).
  destruct (Hlists _ Hface) as (l & sorted & Hl & Hperm & Hsorted & _).
  assert (Hsame : forall x, x ∈ sorted <-> x ∈ nodes).
  { intros x. rewrite (nodes_at_elem _ _ _ x Hsorted), (nodes_at_elem _ _ _ x Hnodes).
    split; intros (p & Hp & Hx); exists p; split; try exact Hx.
    - rewrite <- Hperm. exact Hp.
    - rewrite Hperm. exact Hp. }
  assert (Hsorted' : nodes_at s' l sorted).
  { unfold nodes_at in *. rewrite Heq. exact Hsorted. }
  destruct (nearest_on_face_loop_scanned alpha s' l sorted Hsorted' [] None
              FT_default) as (closest & cd & Hloop & Hscanned).
  { intros n' Hn'. apply elem_of_nil in Hn'. contradiction. }
  cbn [app] in Hscanned. exists cd.
  unfold shortest_distance_to_location, nearest_on_face.
  unfold bind at 1 2. unfold vector_read. rewrite Hl, Hloop. cbn.
  split; [reflexivity |].
  destruct closest as [b |].
  - exact (minimum_reach_same _ _ _ _ Hsame Hscanned).
  - apply Hsame in Hn. rewrite (Hscanned n Hn) in Hcov. discriminate Hcov.
Qed.


(** X16: the expansion of a LEFT_CHILD or RIGHT_CHILD event allocates at
    most one node: an INTERVAL node across the left (right) child halfedge
    of the cone, laid out along the cone's left (right) base segment, with
    the cone's source image and distance from the source, and with the
    window of the event, linked under the cone one level below it.  Every
    node that was there is the cone it was. *)
Theorem interval_expansion_creates_at_most_one_child (fuel : nat)
    (cone : node_ptr) (c : Cone_tree_node) (windowSegment : Segment_2)
    (s s' : Engine) :
  node_arena s !! cone = Some c ->
  (expand_left_child fuel cone windowSegment s = Ok (tt, s') ->
   exists added,
     cones_extended added s s' /\
     (added = [] \/
      added = [on_child_link cone c
                 (interval_child c (left_child_edge c)
                    (left_child_base_segment c) windowSegment)])) /\
  (expand_right_child fuel cone windowSegment s = Ok (tt, s') ->
   exists added,
     cones_extended added s s' /\
     (added = [] \/
      added = [on_child_link cone c
                 (interval_child c (right_child_edge c)
                    (right_child_base_segment c) windowSegment)])).
Proof.
  intros Hc. split; intros Hrun.
  - destruct (expand_left_child_run _ _ _ _ _ _ Hc Hrun) as (added & Hgrows & Hadded).
    exists added. split; [exact (proj1 Hgrows) | exact Hadded].
  - destruct (expand_right_child_run _ _ _ _ _ _ Hc Hrun) as (added & Hgrows & Hadded).
    exists added. split; [exact (proj1 Hgrows) | exact Hadded].
Qed.

End Verification.

(** * The statements on the states above *)

Section On_two_triangles.
#[local] Existing Instance Z_field.
#[local] Existing Instance planar_traits.
#[local] Existing Instance planar_geometry.
#[local] Existing Instance two_triangles_members.

Lemma shortest_distance_to_location_is_minimum_witness :
  exists nodes,
    nodes_at solved_two_triangles [1; 3; 5] nodes /\
    ((forall n, n ∈ nodes -> covers at_vertex_1 n = true ->
        exists m,
          shortest_distance_to_location 0 at_vertex_1 solved_two_triangles
            = Ok (m, solved_two_triangles) /\
          minimum_reach at_vertex_1 nodes m)
     /\
     (forall (l1 l2 : list node_ptr) (candidate best : node_ptr)
             (candidateNode : Cone_tree_node) (bestDistance : FT),
        [1; 3; 5] = l1 ++ candidate :: l2 ->
        node_arena solved_two_triangles !! candidate = Some candidateNode ->
        nearest_on_face_loop at_vertex_1 l1 None FT_default solved_two_triangles
          = Ok ((Some best, bestDistance), solved_two_triangles) ->
        FT_less (distance_from_source_to_root candidateNode) bestDistance = false ->
        shortest_distance_to_location 0 at_vertex_1 solved_two_triangles
          = Ok (bestDistance, solved_two_triangles))).
Proof.
  eexists. split.
  - unfold nodes_at.
    repeat (econstructor; [vm_compute; reflexivity |]). constructor.
  - apply (shortest_distance_to_location_is_minimum (laws := Z_field_ordered)
             solved_two_triangles 0 at_vertex_1 [1; 3; 5]).
    + vm_compute. reflexivity.
    + unfold nodes_at.
      repeat (econstructor; [vm_compute; reflexivity |]). constructor.
    + unfold sorted_by_distance.
      repeat constructor; vm_compute; reflexivity.
Defined.

Lemma nearest_on_face_skip_agrees_with_naive_scan_witness :
  nearest_on_face 0 at_vertex_1 solved_two_triangles
  = naive_nearest_on_face 0 at_vertex_1 solved_two_triangles
  /\
  (forall (c : Cone_tree_node) (p : Point_2),
     FT_less (distance_to_root c p) (distance_from_source_to_root c) = false).
Proof.
  exact (nearest_on_face_skip_agrees_with_naive_scan (laws := Z_field_ordered)
           solved_two_triangles 0 at_vertex_1).
Defined.

Lemma delete_node_keeps_closest_of_a_non_occupier_witness :
  exists s',
    delete_node 12 (Some 0) solved_two_triangles = Ok (tt, s') /\
    m_closestToVertices s' !! 0 = Some root_at_zero.
Proof.
  eexists. split; [vm_compute; reflexivity |].
  eapply (fun Hn Hclosest Hrun =>
            proj1 (delete_node_keeps_closest_of_a_non_occupier 12 0 _ 0
                     (0%Z : @FT Z_field) solved_two_triangles _
                     Hn Hclosest Hrun)).
  Unshelve.
  all: try (vm_compute; reflexivity).
  intros occupier Hocc. vm_compute in Hocc.
  injection Hocc as <-. discriminate.
Defined.

(** C1 fails on the code: on two triangles that share nothing, with the
    source at vertex 0, vertex 3 has no node recorded and its query returns
    the scalar 0, the value the query of the source itself returns; the
    query of a location on the unreached face 1 returns the scalar 0 as
    well. *)
Lemma unreachable_queries_return_a_distance :
  (expand_roots 12 [(0, at_vertex_0)] ;;; event_loop 12 ;;;
   build_face_occupiers 12) prepared_two_triangles
    = Ok (tt, solved_two_triangles) /\
  m_closestToVertices solved_two_triangles !! 3 = Some no_node_at_zero /\
  m_closestToVertices solved_two_triangles !! 0 = Some root_at_zero /\
  shortest_distance_to_vertex 3 solved_two_triangles
    = Ok (0%Z, solved_two_triangles) /\
  shortest_distance_to_vertex 0 solved_two_triangles
    = Ok (0%Z, solved_two_triangles) /\
  nearest_on_face 1 at_vertex_1 solved_two_triangles
    = Ok (no_node_at_zero, solved_two_triangles) /\
  shortest_distance_to_location 1 at_vertex_1 solved_two_triangles
    = Ok (0%Z, solved_two_triangles) /\
  shortest_distance_to_location 0 at_vertex_0 solved_two_triangles
    = Ok (0%Z, solved_two_triangles).
Proof. repeat apply conj; vm_compute; reflexivity. Qed.

End On_two_triangles.

Section On_one_triangle.
#[local] Existing Instance Z_field.
#[local] Existing Instance planar_traits.
#[local] Existing Instance planar_geometry.
#[local] Existing Instance one_triangle_members.

(** C5 on one triangle: the first construction ends in the out-of-bounds
    write of [set_vertex_types], after [reset_containers] and the loop over
    the vertices went well. *)
Lemma compute_shortest_paths_writes_out_of_bounds :
  compute_shortest_paths 12 [(0, at_centroid)] empty_engine = Failed OutOfBounds /\
  (exists s1,
     (reset_containers ;;;
      for_each (vertices m_polyhedron) (set_vertex_types_vertex 12)) empty_engine
       = Ok (tt, s1) /\
     length (m_vertexOccupiers s1) = num_halfedges m_polyhedron /\
     (modify (with_vertexOccupiers []) ;;;
      set_vertex_types_halfedge 0) s1 = Failed OutOfBounds).
Proof.
  apply conj; [vm_compute; reflexivity |].
  eexists. apply conj; [vm_compute; reflexivity |].
  apply conj; vm_compute; reflexivity.
Qed.

End On_one_triangle.

Section On_rectangle.
#[local] Existing Instance Z_field.
#[local] Existing Instance planar_traits.
#[local] Existing Instance planar_geometry.
#[local] Existing Instance rectangle_members.

Lemma distance_filter_prunes_dominated_children_witness :
  exists c known1 known2 known3,
    node_arena seeded_rectangle !! 2 = Some c /\
    let windowSegment := diagonal_window in
    let s := seeded_rectangle in
    let W0 := segment_vertex windowSegment 0 in
    let W1 := segment_vertex windowSegment 1 in
    let E0 := segment_vertex (entry_segment c) 0 in
    let E1 := segment_vertex (entry_segment c) 1 in
    let pruned_left := dominated c W0 W1 E0 E1 known1 known2 known3 in
    let pruned_right := dominated c W1 W0 E1 E0 known3 known2 known1 in
    (exists keep, window_distance_filter 2 windowSegment false s = Ok (keep, s) /\
                  (keep = false <-> pruned_left)) /\
    (exists keep, window_distance_filter 2 windowSegment true s = Ok (keep, s) /\
                  (keep = false <-> pruned_right)) /\
    (m_pendingLeftSubtree c <> None ->
     (pruned_left ->
      expand_left_child 20 2 windowSegment s
      = Ok (tt, with_node_arena
                  (<[2 := with_pendingLeftSubtree None c]> (node_arena s)) s)) /\
     (~ pruned_left ->
      forall s', expand_left_child 20 2 windowSegment s = Ok (tt, s') ->
        length (node_arena s') = S (length (node_arena s)))) /\
    (m_pendingRightSubtree c <> None ->
     (pruned_right ->
      expand_right_child 20 2 windowSegment s
      = Ok (tt, with_node_arena
                  (<[2 := with_pendingRightSubtree None c]> (node_arena s)) s)) /\
     (~ pruned_right ->
      forall s', expand_right_child 20 2 windowSegment s = Ok (tt, s') ->
        length (node_arena s') = S (length (node_arena s)))).
Proof.
  do 4 eexists. split; [vm_compute; reflexivity |].
  apply (distance_filter_prunes_dominated_children 20 2 diagonal_window
           seeded_rectangle);
    vm_compute; reflexivity.
Defined.

Lemma process_node_arbitration_witness :
  exists n occupierNode,
    node_arena linked_rectangle !! 7 = Some n /\
    node_arena linked_rectangle !! 5 = Some occupierNode /\
    m_vertexOccupiers linked_rectangle !! 3 = Some (Some 5, 8%Z) /\
    left_of_occupier n occupierNode = true /\
    FT_greater 8%Z (distance_from_target_to_root n) = false /\
    arbitrate 7 n linked_rectangle
      = Ok (((Some 5, 8%Z), true, false), linked_rectangle) /\
    forall s', process_node 20 7 linked_rectangle = Ok (tt, s') ->
      m_vertexOccupiers s' = m_vertexOccupiers linked_rectangle.
Proof.
  do 2 eexists.
  split; [vm_compute; reflexivity |].
  split; [vm_compute; reflexivity |].
  split; [vm_compute; reflexivity |].
  split; [vm_compute; reflexivity |].
  split; [vm_compute; reflexivity |].
  split; [vm_compute; reflexivity |].
  intros s' Hrun.
  eapply (fun Hn Hcontains Hocc Hnode =>
            proj2 (proj2 (process_node_arbitration 20 7 _ _ (Some 5)
                            (8%Z : @FT Z_field) linked_rectangle
                            Hn Hcontains Hocc Hnode) s' Hrun)).
  Unshelve.
  all: try (vm_compute; reflexivity).
  all: try (intros p Hp; injection Hp as <-; vm_compute; reflexivity).
  intros [Hnone | Hgreater]; [discriminate Hnone |].
  vm_compute in Hgreater. discriminate Hgreater.
Defined.




Lemma is_boundary_vertex_finds_the_border_witness :
  exists b,
    is_boundary_vertex 20 0 prepared_rectangle = Ok (b, prepared_rectangle) /\
    (b = true <->
     exists j, j < 3 /\ on_border (Nat.iter j around (halfedge_of_vertex m_polyhedron 0))).
Proof.
  apply (is_boundary_vertex_finds_the_border 20 3 0 prepared_rectangle);
    [lia | lia | vm_compute; reflexivity].
Defined.





Lemma event_loop_only_allocates_interval_and_vertex_source_nodes_witness :
  m_rootNodes solved_rectangle = [0; 4] /\
  length (node_arena two_sources_rectangle) = 8 /\
  length (node_arena solved_rectangle) = 19 /\
  m_expansionPriqueue solved_rectangle = [].
Proof.
  split; [| vm_compute; auto].
  refine (eq_trans
            (proj1 (proj2 (event_loop_only_allocates_interval_and_vertex_source_nodes
                             40 two_sources_rectangle solved_rectangle _))) _);
    vm_compute; reflexivity.
Defined.

Lemma expansion_keeps_the_trees_well_linked_witness :
  well_linked two_sources_rectangle /\ well_linked solved_rectangle.
Proof.
  assert (H0 : well_linked prepared_rectangle).
  { intros i n Hn. vm_compute in Hn. discriminate Hn. }
  assert (H1 : well_linked two_sources_rectangle).
  { apply (proj1 (expansion_keeps_the_trees_well_linked 20 two_sources
                    prepared_rectangle two_sources_rectangle H0)).
    vm_compute; reflexivity. }
  split; [exact H1 |].
  apply (proj2 (expansion_keeps_the_trees_well_linked 40 []
                  two_sources_rectangle solved_rectangle H1)).
  vm_compute; reflexivity.
Defined.


Lemma process_node_pushes_nothing_at_the_level_limit_witness :
  exists n,
    node_arena solved_rectangle !! 11 = Some n /\
    level n = 2 /\
    quiet solved_rectangle (state_after (process_node 20 11) solved_rectangle).
Proof.
  eexists. split; [vm_compute; reflexivity |]. split; [reflexivity |].
  eapply (process_node_pushes_nothing_at_the_level_limit 20 11 _ solved_rectangle);
    [vm_compute; reflexivity | vm_compute; lia | vm_compute; reflexivity].
Defined.

Lemma expansion_keeps_the_depth_bounded_witness :
  depth_bounded two_sources_rectangle /\ depth_bounded solved_rectangle.
Proof.
  assert (H0 : depth_bounded prepared_rectangle).
  { split; [intros i n Hn | intros e ev Hev];
      [vm_compute in Hn; discriminate Hn | vm_compute in Hev; discriminate Hev]. }
  assert (H1 : depth_bounded two_sources_rectangle).
  { apply (proj2 (expansion_keeps_the_depth_bounded 20 two_sources
                    prepared_rectangle two_sources_rectangle H0));
      [vm_compute; lia | vm_compute; reflexivity]. }
  split; [exact H1 |].
  apply (proj1 (expansion_keeps_the_depth_bounded 40 []
                  two_sources_rectangle solved_rectangle H1)).
  vm_compute; reflexivity.
Defined.



Lemma location_query_is_the_minimum_over_the_trees_witness :
  exists m,
    shortest_distance_to_location 0 at_centroid listed_rectangle
      = Ok (m, listed_rectangle) /\
    minimum_reach at_centroid cones_on_face_0 m.
Proof.
  apply (location_query_is_the_minimum_over_the_trees (laws := Z_field_ordered)
           20 solved_rectangle listed_rectangle 0 at_centroid cones_on_face_0).
  - vm_compute; reflexivity.
  - vm_compute; lia.
  - apply nodes_at_lookup. vm_compute; reflexivity.
  - eexists. split.
    + apply (list_elem_of_lookup_2 _ 0). vm_compute; reflexivity.
    + vm_compute; reflexivity.
Defined.


Lemma interval_expansion_creates_at_most_one_child_witness :
  exists c added,
    node_arena seeded_rectangle !! 2 = Some c /\
    cones_extended added seeded_rectangle
      (state_after (expand_left_child 20 2 diagonal_window) seeded_rectangle) /\
    (added = [] \/
     added = [on_child_link 2 c
                (interval_child c (left_child_edge c)
                   (left_child_base_segment c) diagonal_window)]).
Proof.
  eexists. 
  assert (Hrun : expand_left_child 20 2 diagonal_window seeded_rectangle
                 = Ok (tt, state_after (expand_left_child 20 2 diagonal_window)
                             seeded_rectangle)) by (vm_compute; reflexivity).
  eassert (Hc : node_arena seeded_rectangle !! 2 = Some _)
    by (vm_compute; reflexivity).
  destruct (proj1 (interval_expansion_creates_at_most_one_child 20 2 _
                     diagonal_window seeded_rectangle _ Hc) Hrun)
    as (added & Hext & Hadded).
  exists added. split; [exact Hc |]. split; [exact Hext | exact Hadded].
Defined.

End On_rectangle.
